(** * claude-code-voice: streaming TTS scheduler, native audio player and
  voice bridge, embedded in Rocq.

  The development follows the TypeScript sources:
  - [Js]       the few [String.prototype] operations the sources call;
  - [Chunker]  [StreamingTTSManager.splitIntoSentences];
  - [TTS]      [StreamingTTSManager.streamText], [startGenerating] and
               [playbackLoop] as an event-driven state machine, for one
               stream;
  - [Streams]  the same manager with streams that overlap: a [streamText]
               call made while the loop of an earlier one is suspended;
  - [Player]   [AudioPlayer] (queue, frame timer, stop, skip);
  - [Bridge]   [VoiceBridgeServer] (pairing, permission queue, voice
               resolution of permissions);
  - [Pairing]  its session codes, session clean-up and the sending of
               permission requests;
  - [Messages] [MessageQueue], the queue of user messages.

  Asynchronous code is modelled with explicit suspension points: a
  coroutine that reaches an [await] on an unsettled promise is stored in the
  state and resumed by the event that settles the promise. *)

From Stdlib Require Import ZArith NArith QArith Qround String Ascii Lia.
From Stdlib Require Import Sorted Floats.SpecFloat.
From stdpp Require Import base option list.

Set Default Proof Using "Type".
Open Scope nat_scope.

(* ===================================================================== *)
(** ** JavaScript strings *)
(* ===================================================================== *)

Module Js.

(** A JavaScript string is a sequence of UTF-16 code units; [length],
    [trim], [includes] and the regular expression classes used by the
    sources all work on code units. *)
Definition char := N.
Definition str := list N.

(** String literals of the sources (all of them ASCII). *)
Definition lit (s : string) : str :=
  map N_of_ascii (list_ascii_of_string s).

(** [WhiteSpace] and [LineTerminator] of ECMA-262: the characters removed
    by [trim] and matched by the class [\s]. *)
Definition white_space : list N :=
  [ 0x0009; 0x000A; 0x000B; 0x000C; 0x000D; 0x0020; 0x00A0; 0x1680
  ; 0x2000; 0x2001; 0x2002; 0x2003; 0x2004; 0x2005; 0x2006; 0x2007
  ; 0x2008; 0x2009; 0x200A; 0x2028; 0x2029; 0x202F; 0x205F; 0x3000
  ; 0xFEFF ]%N.

Definition is_space (c : char) : bool := existsb (N.eqb c) white_space.

Fixpoint trimStart (s : str) : str :=
  match s with
  | c :: s' => if is_space c then trimStart s' else s
  | [] => []
  end.

Definition trimEnd (s : str) : str := rev (trimStart (rev s)).

Definition trim (s : str) : str := trimEnd (trimStart s).

Fixpoint startsWith (s p : str) : bool :=
  match p, s with
  | [], _ => true
  | _ :: _, [] => false
  | a :: p', b :: s' => N.eqb a b && startsWith s' p'
  end.

(** [s.includes(p)]: [p] occurs in [s] as a contiguous run. *)
Fixpoint includes (s p : str) : bool :=
  startsWith s p ||
  match s with
  | [] => false
  | _ :: s' => includes s' p
  end.

(** [phrases.some(phrase => s.includes(phrase))]. *)
Definition includes_some (s : str) (phrases : list str) : bool :=
  existsb (includes s) phrases.

(** The empty string is the only falsy string. *)
Definition truthy (s : str) : bool :=
  match s with [] => false | _ => true end.

End Js.

(* ===================================================================== *)
(** ** Text chunking: [StreamingTTSManager.splitIntoSentences] *)
(* ===================================================================== *)

Module Chunker.
Import Js.

(** [[.!?]] *)
Definition is_terminator (c : char) : bool :=
  (N.eqb c 46 || N.eqb c 33 || N.eqb c 63)%N.

(** [[A-Z]] *)
Definition is_capital (c : char) : bool := (N.leb 65 c && N.leb c 90)%N.

Fixpoint space_run (s : str) : nat :=
  match s with
  | c :: s' => if is_space c then S (space_run s') else 0
  | [] => 0
  end.

(** Length of the match of [/(?<=[.!?])\s+(?=[A-Z])/] that starts at the
    head of [rest], when [prev] is the code unit just before it; [0] when
    the pattern does not match there.  [\s+] is greedy, and giving
    characters back cannot help: after a shorter run the next character is
    white space, not a capital. *)
Definition separator_at (prev : option char) (rest : str) : nat :=
  match prev with
  | Some p =>
      if is_terminator p then
        let n := space_run rest in
        match drop n rest with
        | c :: _ => if is_capital c then n else 0
        | [] => 0
        end
      else 0
  | None => 0
  end.

(** [text.split(sentencePattern)]: the scan of [RegExp.prototype[@@split]].
    [skip] counts the code units of the current separator still to be
    dropped, [piece] is the piece being collected (in reverse). *)
Fixpoint split_scan (prev : option char) (skip : nat) (piece : str)
    (rest : str) : list str :=
  match rest with
  | [] => [rev piece]
  | c :: rest' =>
      match skip with
      | S k => split_scan (Some c) k piece rest'
      | 0 =>
          match separator_at prev rest with
          | S k => rev piece :: split_scan (Some c) k [] rest'
          | 0 => split_scan (Some c) 0 (c :: piece) rest'
          end
      end
  end.

Definition split_sentencePattern (text : str) : list str :=
  split_scan None 0 [] text.

Definition shortTextThreshold : nat := 200.
Definition minChunkLength : nat := 100.

(** State of the recombination loop: the array [combined] and the string
    [currentChunk]. *)
Record Combine := { combined : list str; currentChunk : str }.

(** One iteration of [for (const sentence of rawSentences)]. *)
Definition combine_step (st : Combine) (sentence : str) : Combine :=
  let trimmed := trim sentence in
  if negb (truthy trimmed) then st
  else if length (currentChunk st) =? 0 then
    {| combined := combined st; currentChunk := trimmed |}
  else if length (currentChunk st) + length trimmed <? minChunkLength * 2 then
    {| combined := combined st;
       currentChunk := currentChunk st ++ lit " " ++ trimmed |}
  else if minChunkLength <=? length (currentChunk st) then
    {| combined := combined st ++ [currentChunk st];
       currentChunk := trimmed |}
  else
    {| combined := combined st;
       currentChunk := currentChunk st ++ lit " " ++ trimmed |}.

Definition combine_loop (rawSentences : list str) : Combine :=
  fold_left combine_step rawSentences
            {| combined := []; currentChunk := [] |}.

Definition splitIntoSentences (text : str) : list str :=
  if length text <? shortTextThreshold then [trim text]
  else
    let st := combine_loop (split_sentencePattern text) in
    let combined :=
      if truthy (trim (currentChunk st))
      then combined st ++ [trim (currentChunk st)]
      else combined st in
    match combined with
    | [] => [trim text]
    | _ => combined
    end.

End Chunker.

(* ===================================================================== *)
(** ** Streaming TTS scheduler: [StreamingTTSManager] *)
(* ===================================================================== *)

Module TTS.
Import Js.

(** Compressed audio as returned by [VoiceService.synthesize]. *)
Definition Buffer := list N.

(** [TTSQueueItem.status] *)
Module Status.
Inductive t :=
  pending | generating | ready | playing | completed | cancelled.
Definition eqb (a b : t) : bool :=
  match a, b with
  | pending, pending | generating, generating | ready, ready
  | playing, playing | completed, completed | cancelled, cancelled => true
  | _, _ => false
  end.
End Status.

(** [PlaybackState] *)
Module State.
Inductive t := idle | generating | playing | paused | stopped.
Definition eqb (a b : t) : bool :=
  match a, b with
  | idle, idle | generating, generating | playing, playing
  | paused, paused | stopped, stopped => true
  | _, _ => false
  end.
End State.

(** [id] is the string [tts-<Date.now()>-<index>]; within one stream two
    ids are equal exactly when the indices are, so the index stands for
    it. *)
Record TTSQueueItem := {
  id : nat;
  text : str;
  audioBuffer : option Buffer;
  status : Status.t
}.

Definition with_status (s : Status.t) (it : TTSQueueItem) : TTSQueueItem :=
  {| id := id it; text := text it; audioBuffer := audioBuffer it;
     status := s |}.

Definition with_audio (b : Buffer) (it : TTSQueueItem) : TTSQueueItem :=
  {| id := id it; text := text it; audioBuffer := Some b;
     status := status it |}.

(** [StreamingTTSOptions]: which optional callbacks were supplied.
    [isBrowserConnected] reads the bridge, which lives outside the
    manager; the loop calls it once per chunk, and the answer it gets for
    the chunk at index [i] is [f i]. *)
Record Options := {
  onBrowserAudio : bool;
  isBrowserConnected : option (nat -> bool);
  onWebviewAudio : bool;
  onStateChange : bool;
  onSentenceStart : bool;
  onComplete : bool
}.

(** Calls that leave the manager, in the order they are made. *)
Inductive Effect :=
| Synthesize (index : nat) (txt : str)
| StateChange (s : State.t)
| SentenceStart (txt : str) (index total : nat)
| BrowserAudio (index : nat) (audio : Buffer) (txt : str) (isLast : bool)
| PlayerAddToQueue (index : nat) (audio : Buffer) (txt : str)
| WebviewAudio (audio : Buffer) (txt : str) (index total : nat)
| PlayerStop
| PlayerPause
| PlayerResume
| Complete.

(** Where the coroutine [playbackLoop] stands.  There is one: this module
    follows a manager from [fresh] through its first [streamText] call and
    the events after it, up to the next [streamText] call.  A call made
    while a loop is suspended leaves that loop alive beside its own;
    [Streams] below is the manager with all its loops. *)
Inductive Loop :=
| Running                      (* at the head of the outer [while] *)
| AwaitGenerate (index : nat)  (* [await promise] of the item at [index] *)
| AwaitSleep                   (* [await this.sleep(100)] *)
| Finished.

(** An entry of [generatePromises]: has the synthesis call come back? *)
Inductive Promise := Unsettled | Settled.

Record Manager := {
  options : Options;
  queue : list TTSQueueItem;
  state : State.t;
  currentIndex : nat;
  isPaused : bool;
  isStopped : bool;
  generatePromises : list (nat * Promise);
  loop : Loop;
  trace : list Effect
}.

Definition set_queue (q : list TTSQueueItem) (m : Manager) : Manager :=
  {| options := options m; queue := q; state := state m;
     currentIndex := currentIndex m; isPaused := isPaused m;
     isStopped := isStopped m; generatePromises := generatePromises m;
     loop := loop m; trace := trace m |}.

Definition set_state_field (s : State.t) (m : Manager) : Manager :=
  {| options := options m; queue := queue m; state := s;
     currentIndex := currentIndex m; isPaused := isPaused m;
     isStopped := isStopped m; generatePromises := generatePromises m;
     loop := loop m; trace := trace m |}.

Definition set_currentIndex (i : nat) (m : Manager) : Manager :=
  {| options := options m; queue := queue m; state := state m;
     currentIndex := i; isPaused := isPaused m;
     isStopped := isStopped m; generatePromises := generatePromises m;
     loop := loop m; trace := trace m |}.

Definition set_isPaused (b : bool) (m : Manager) : Manager :=
  {| options := options m; queue := queue m; state := state m;
     currentIndex := currentIndex m; isPaused := b;
     isStopped := isStopped m; generatePromises := generatePromises m;
     loop := loop m; trace := trace m |}.

Definition set_isStopped (b : bool) (m : Manager) : Manager :=
  {| options := options m; queue := queue m; state := state m;
     currentIndex := currentIndex m; isPaused := isPaused m;
     isStopped := b; generatePromises := generatePromises m;
     loop := loop m; trace := trace m |}.

Definition set_generatePromises (g : list (nat * Promise)) (m : Manager)
  : Manager :=
  {| options := options m; queue := queue m; state := state m;
     currentIndex := currentIndex m; isPaused := isPaused m;
     isStopped := isStopped m; generatePromises := g;
     loop := loop m; trace := trace m |}.

Definition set_loop (l : Loop) (m : Manager) : Manager :=
  {| options := options m; queue := queue m; state := state m;
     currentIndex := currentIndex m; isPaused := isPaused m;
     isStopped := isStopped m; generatePromises := generatePromises m;
     loop := l; trace := trace m |}.

Definition emit (e : Effect) (m : Manager) : Manager :=
  {| options := options m; queue := queue m; state := state m;
     currentIndex := currentIndex m; isPaused := isPaused m;
     isStopped := isStopped m; generatePromises := generatePromises m;
     loop := loop m; trace := trace m ++ [e] |}.

(** A call through an optional callback. *)
Definition emit_if (present : bool) (e : Effect) (m : Manager) : Manager :=
  if present then emit e m else m.

(** [Map.prototype.get] and [set] on [generatePromises]. *)
Fixpoint promise_get (g : list (nat * Promise)) (k : nat) : option Promise :=
  match g with
  | [] => None
  | (k', p) :: g' => if k' =? k then Some p else promise_get g' k
  end.

Fixpoint promise_set (g : list (nat * Promise)) (k : nat) (p : Promise)
  : list (nat * Promise) :=
  match g with
  | [] => [(k, p)]
  | (k', p') :: g' =>
      if k' =? k then (k, p) :: g' else (k', p') :: promise_set g' k p
  end.

(** [item.status = s] for the item object at [index]. *)
Definition set_item_status (index : nat) (s : Status.t) (m : Manager)
  : Manager :=
  set_queue (alter (with_status s) index (queue m)) m.

Definition setState (s : State.t) (m : Manager) : Manager :=
  emit_if (onStateChange (options m)) (StateChange s) (set_state_field s m).

(** [startGenerating(index)] up to its return: the synthesis call is made
    and its promise registered; the [then] and [catch] handlers run when
    the call comes back ([synthesis_done] below). *)
Definition startGenerating (index : nat) (m : Manager) : Manager :=
  match queue m !! index with
  | None => m
  | Some item =>
      if Status.eqb (status item) Status.pending then
        let m := set_item_status index Status.generating m in
        let m := emit (Synthesize index (text item)) m in
        set_generatePromises
          (promise_set (generatePromises m) (id item) Unsettled) m
      else m
  end.


(** [stop()]; it has no [await] of its own. *)
Definition cancel_unfinished (it : TTSQueueItem) : TTSQueueItem :=
  if Status.eqb (status it) Status.pending
     || Status.eqb (status it) Status.generating
  then with_status Status.cancelled it else it.

Definition stop (m : Manager) : Manager :=
  let m := set_isStopped true m in
  let m := set_isPaused false m in
  let m := set_queue (map cancel_unfinished (queue m)) m in
  let m := emit PlayerStop m in
  let m := set_queue [] m in
  let m := set_currentIndex 0 m in
  let m := set_generatePromises [] m in
  setState State.idle m.

Definition pause (m : Manager) : Manager :=
  if State.eqb (state m) State.playing then
    emit PlayerPause (setState State.paused (set_isPaused true m))
  else m.

Definition resume (m : Manager) : Manager :=
  if State.eqb (state m) State.paused then
    emit PlayerResume (setState State.playing (set_isPaused false m))
  else m.

(** What one pass over the body of the outer [while] comes to. *)
Inductive Outcome :=
| Next (m : Manager)        (* reached [this.currentIndex++] *)
| Break (m : Manager)       (* left the loop by [break] *)
| Suspended (m : Manager).  (* stopped at an [await] not yet settled *)

Definition is_waiting (s : Status.t) : bool :=
  Status.eqb s Status.pending || Status.eqb s Status.generating.

(** "Start generating next sentence while playing current" and "Also
    pre-generate the one after next". *)
Definition pregenerate (index : nat) (m : Manager) : Manager :=
  if index <? length (queue m) then
    match queue m !! index with
    | Some nextItem =>
        if Status.eqb (status nextItem) Status.pending
        then startGenerating index m else m
    | None => m
    end
  else m.

(** "Play current item": the chunk goes to the browser bridge or to the
    local [AudioPlayer].  The audio is passed as it is (the source passes
    its base64 text); [index] in [BrowserAudio] and [PlayerAddToQueue] notes
    which queue item the call was made for.  [player.addToQueue] has no
    [await] inside, so the [await] on it resumes before any other event. *)
Definition play_current (m : Manager) : Manager :=
  let i := currentIndex m in
  match queue m !! i with
  | Some item =>
      match audioBuffer item with
      | Some audio =>
          if Status.eqb (status item) Status.ready then
            let m := setState State.playing m in
            let m := set_item_status i Status.playing m in
            let total := length (queue m) in
            let m := emit_if (onSentenceStart (options m))
                             (SentenceStart (text item) i total) m in
            let isLast := i =? total - 1 in
            let browserConnected :=
              match isBrowserConnected (options m) with
              | Some f => f i
              | None => false
              end in
            let m :=
              if browserConnected && onBrowserAudio (options m) then
                emit (BrowserAudio i audio (text item) isLast) m
              else
                let m := emit (PlayerAddToQueue i audio (text item)) m in
                emit_if (onWebviewAudio (options m))
                        (WebviewAudio audio (text item) i total) m in
            set_item_status i Status.completed m
          else m
      | None => m
      end
  | None => m
  end.

(** The body from [if (this.isStopped || item.status === 'cancelled')] to
    [this.currentIndex++]: where the loop resumes after [await promise]. *)
Definition after_ready (m : Manager) : Outcome :=
  match queue m !! currentIndex m with
  | Some item =>
      if isStopped m || Status.eqb (status item) Status.cancelled then Break m
      else
        let m := pregenerate (currentIndex m + 1) m in
        let m := pregenerate (currentIndex m + 2) m in
        let m := play_current m in
        Next (set_currentIndex (currentIndex m + 1) m)
  | None => Break m
  end.

(** "Wait for current item to be ready". *)
Definition wait_ready (m : Manager) : Outcome :=
  match queue m !! currentIndex m with
  | Some item =>
      if is_waiting (status item) then
        match promise_get (generatePromises m) (id item) with
        | Some Unsettled => Suspended (set_loop (AwaitGenerate (currentIndex m)) m)
        | Some Settled => after_ready m
        | None =>
            let m := startGenerating (currentIndex m) m in
            match promise_get (generatePromises m) (id item) with
            | Some Unsettled =>
                Suspended (set_loop (AwaitGenerate (currentIndex m)) m)
            | _ => after_ready m
            end
        end
      else after_ready m
  | None => Break m
  end.

(** The body from the inner [while (this.isPaused && !this.isStopped)]:
    also where the loop resumes after [await this.sleep(100)]. *)
Definition body (m : Manager) : Outcome :=
  if isPaused m && negb (isStopped m) then Suspended (set_loop AwaitSleep m)
  else if isStopped m then Break m
  else wait_ready m.

(** After the loop: "All done". *)
Definition finish (m : Manager) : Manager :=
  let m := setState State.idle m in
  let m := if negb (isStopped m)
           then emit_if (onComplete (options m)) Complete m else m in
  set_loop Finished m.

(** [playbackLoop()] from the test of the outer [while]; [fuel] bounds the
    number of passes.  [loop_fuel] is always enough: no reachable state is
    left in [Running], which is part of the invariant [Inv] below. *)
Fixpoint playbackLoop (fuel : nat) (m : Manager) : Manager :=
  match fuel with
  | 0 => set_loop Running m
  | S fuel' =>
      if (currentIndex m <? length (queue m)) && negb (isStopped m) then
        match body m with
        | Next m' => playbackLoop fuel' m'
        | Break m' => finish m'
        | Suspended m' => m'
        end
      else finish m
  end.

Definition loop_fuel (m : Manager) : nat := S (length (queue m)).

(** The rest of [playbackLoop] once the pass in progress came to [o]. *)
Definition continue_loop (o : Outcome) : Manager :=
  match o with
  | Next m' => playbackLoop (loop_fuel m') m'
  | Break m' => finish m'
  | Suspended m' => m'
  end.

Definition new_item (index : nat) (sentence : str) : TTSQueueItem :=
  {| id := index; text := sentence; audioBuffer := None;
     status := Status.pending |}.

Definition fresh (o : Options) : Manager :=
  {| options := o; queue := []; state := State.idle; currentIndex := 0;
     isPaused := false; isStopped := false; generatePromises := [];
     loop := Finished; trace := [] |}.

(** [streamText(text)], run until its loop first suspends or ends, on a
    manager no loop of which is suspended (as [fresh]); for the call on a
    manager with a suspended loop see [Streams.streamText]. *)
Definition streamText (text : str) (m : Manager) : Manager :=
  let m := stop m in
  let m := set_queue [] m in
  let m := set_currentIndex 0 m in
  let m := set_isPaused false m in
  let m := set_isStopped false m in
  let m := set_generatePromises [] m in
  let sentences := Chunker.splitIntoSentences text in
  if length sentences =? 0 then m
  else
    let m := set_queue (imap new_item sentences) m in
    let m := setState State.generating m in
    let m := startGenerating 0 m in
    let m := if 1 <? length sentences then startGenerating 1 m else m in
    playbackLoop (loop_fuel m) m.

(** How a synthesis call comes back. *)
Inductive Synthesis := Audio (b : Buffer) | Failed.

(** The [then] and [catch] handlers of [startGenerating] for the item at
    [index]. *)
Definition synthesis_handlers (index : nat) (r : Synthesis) (m : Manager)
  : Manager :=
  match r with
  | Audio b =>
      if negb (isStopped m) then
        set_queue
          (alter (fun it => with_status Status.ready (with_audio b it))
                 index (queue m)) m
      else m
  | Failed => set_item_status index Status.cancelled m
  end.

(** What can happen to a manager while a stream is running. *)
Inductive Event :=
| SynthesisDone (index : nat) (r : Synthesis)
| SleepDone
| Pause
| Resume.

Definition loop_awaits (l : Loop) (index : nat) : bool :=
  match l with
  | AwaitGenerate i => i =? index
  | _ => false
  end.

(** One event, with everything that runs before control goes back to the
    event loop.  [None]: the event cannot happen in [m] (no such synthesis
    call in flight, no sleep pending). *)
Definition step (m : Manager) (e : Event) : option Manager :=
  match e with
  | SynthesisDone index r =>
      match queue m !! index with
      | Some item =>
          match promise_get (generatePromises m) (id item) with
          | Some Unsettled =>
              let m := synthesis_handlers index r m in
              let m := set_generatePromises
                         (promise_set (generatePromises m) (id item) Settled)
                         m in
              if loop_awaits (loop m) index
              then Some (continue_loop (after_ready m))
              else Some m
          | _ => None
          end
      | None => None
      end
  | SleepDone =>
      match loop m with
      | AwaitSleep => Some (continue_loop (body m))
      | _ => None
      end
  | Pause => Some (pause m)
  | Resume => Some (resume m)
  end.

Fixpoint run (m : Manager) (es : list Event) : option Manager :=
  match es with
  | [] => Some m
  | e :: es' =>
      match step m e with
      | Some m' => run m' es'
      | None => None
      end
  end.

(** The chunks handed to a playback target so far, by queue index, in the
    order of the calls. *)
Definition handed_index (e : Effect) : option nat :=
  match e with
  | BrowserAudio i _ _ _ => Some i
  | PlayerAddToQueue i _ _ => Some i
  | _ => None
  end.

Definition handed (m : Manager) : list nat :=
  omap handed_index (trace m).

(** The same calls with the text and the audio they carried. *)
Definition handed_chunk (e : Effect) : option (str * Buffer) :=
  match e with
  | BrowserAudio _ audio txt _ => Some (txt, audio)
  | PlayerAddToQueue _ audio txt => Some (txt, audio)
  | _ => None
  end.

Definition handed_chunks (m : Manager) : list (str * Buffer) :=
  omap handed_chunk (trace m).

(** The audio that the synthesis call of the chunk at [i] came back with,
    according to the events [es] (if it came back with audio). *)
Fixpoint delivered (es : list Event) (i : nat) : option Buffer :=
  match es with
  | [] => None
  | e :: es' =>
      match delivered es' i with
      | Some b => Some b
      | None =>
          match e with
          | SynthesisDone j (Audio b) => if j =? i then Some b else None
          | _ => None
          end
      end
  end.

(** The synthesis call of the chunk at [i] failed. *)
Definition failed (es : list Event) (i : nat) : Prop :=
  In (SynthesisDone i Failed) es.

End TTS.

(* ===================================================================== *)
(** ** Native playback queue: [AudioPlayer] *)
(* ===================================================================== *)

Module Player.
Import Js.

Definition Buffer := list N.

(** [AudioQueueItem.status] *)
Module Status.
Inductive t :=
  pending | decoding | ready | playing | paused | completed | cancelled.
Definition eqb (a b : t) : bool :=
  match a, b with
  | pending, pending | decoding, decoding | ready, ready | playing, playing
  | paused, paused | completed, completed | cancelled, cancelled => true
  | _, _ => false
  end.
End Status.

(** [PlaybackState] *)
Module State.
Inductive t := idle | playing | paused | stopped.
Definition eqb (a b : t) : bool :=
  match a, b with
  | idle, idle | playing, playing | paused, paused | stopped, stopped => true
  | _, _ => false
  end.
End State.

(** Queue items are objects shared between [this.queue], [this.currentItem]
    and the closures of [processQueue] and of the frame timer; [stop()]
    replaces [this.queue] but the closures keep their item.  The objects
    live in [heap]; a reference is the position in it, and two items have
    the same [id] exactly when they are the same object. *)
Abbreviation ref := nat (only parsing).

Record AudioQueueItem := {
  audioBuffer : Buffer;
  pcmData : option Buffer;
  sampleRate : option N;
  channels : option N;
  text : option str;
  status : Status.t
}.

Definition with_status (s : Status.t) (it : AudioQueueItem) : AudioQueueItem :=
  {| audioBuffer := audioBuffer it; pcmData := pcmData it;
     sampleRate := sampleRate it; channels := channels it; text := text it;
     status := s |}.

Definition with_pcm (pcm : Buffer) (rate ch : N) (it : AudioQueueItem)
  : AudioQueueItem :=
  {| audioBuffer := audioBuffer it; pcmData := Some pcm;
     sampleRate := Some rate; channels := Some ch; text := text it;
     status := status it |}.

(** A live [setInterval] timer of [playItem] with what its callback closes
    over. *)
Record Timer := { handle : nat; item : ref; bytesPerFrame : nat }.

(** A [processQueue] call suspended at one of its two [await]s. *)
Inductive Task :=
| AwaitDecode (r : ref)            (* [await this.decodeMP3(...)] *)
| AwaitPlay (h : nat) (r : ref).   (* [await this.playItem(nextItem)],
                                      whose promise the timer [h] resolves *)

(** How a frame is written: as it is, scaled by the volume, or silence. *)
Inductive Gain := Unity | Scaled | Silence.

(** Calls to the callbacks of [AudioPlayerOptions] (absent ones default to
    no-ops, so they are always made) and to the RtAudio stream. *)
Inductive Effect :=
| StateChange (s : State.t) (current : option ref)
| QueueChange (q : list ref)
| PlayStart (r : ref) (index total : nat)
| Complete
| RtOpen (rate ch : N)
| RtClose
| RtStart
| RtStop
| RtWrite (r : ref) (offset len : nat) (g : Gain).

Record AudioPlayer := {
  isAudifyAvailable : bool;      (* module-level, fixed at load time *)
  heap : list AudioQueueItem;
  rtAudio : bool;                (* [this.rtAudio] is not null *)
  queue : list ref;
  currentIndex : nat;
  state : State.t;
  volume : Q;
  isMuted : bool;
  isProcessingQueue : bool;
  streamOpen : bool;
  currentItem : option ref;
  pcmOffset : nat;
  frameSize : nat;
  writeInterval : option nat;
  timers : list Timer;
  nextHandle : nat;
  tasks : list Task;
  log : list Effect
}.

(** Field updates. *)
Definition set_heap (x : list AudioQueueItem) (p : AudioPlayer) : AudioPlayer :=
  {| isAudifyAvailable := isAudifyAvailable p; heap := x;
     rtAudio := rtAudio p; queue := queue p; currentIndex := currentIndex p;
     state := state p; volume := volume p; isMuted := isMuted p;
     isProcessingQueue := isProcessingQueue p; streamOpen := streamOpen p;
     currentItem := currentItem p; pcmOffset := pcmOffset p;
     frameSize := frameSize p; writeInterval := writeInterval p;
     timers := timers p; nextHandle := nextHandle p; tasks := tasks p;
     log := log p |}.

Definition set_rtAudio (x : bool) (p : AudioPlayer) : AudioPlayer :=
  {| isAudifyAvailable := isAudifyAvailable p; heap := heap p; rtAudio := x;
     queue := queue p; currentIndex := currentIndex p; state := state p;
     volume := volume p; isMuted := isMuted p;
     isProcessingQueue := isProcessingQueue p; streamOpen := streamOpen p;
     currentItem := currentItem p; pcmOffset := pcmOffset p;
     frameSize := frameSize p; writeInterval := writeInterval p;
     timers := timers p; nextHandle := nextHandle p; tasks := tasks p;
     log := log p |}.

Definition set_queue (x : list ref) (p : AudioPlayer) : AudioPlayer :=
  {| isAudifyAvailable := isAudifyAvailable p; heap := heap p;
     rtAudio := rtAudio p; queue := x; currentIndex := currentIndex p;
     state := state p; volume := volume p; isMuted := isMuted p;
     isProcessingQueue := isProcessingQueue p; streamOpen := streamOpen p;
     currentItem := currentItem p; pcmOffset := pcmOffset p;
     frameSize := frameSize p; writeInterval := writeInterval p;
     timers := timers p; nextHandle := nextHandle p; tasks := tasks p;
     log := log p |}.

Definition set_currentIndex (x : nat) (p : AudioPlayer) : AudioPlayer :=
  {| isAudifyAvailable := isAudifyAvailable p; heap := heap p;
     rtAudio := rtAudio p; queue := queue p; currentIndex := x;
     state := state p; volume := volume p; isMuted := isMuted p;
     isProcessingQueue := isProcessingQueue p; streamOpen := streamOpen p;
     currentItem := currentItem p; pcmOffset := pcmOffset p;
     frameSize := frameSize p; writeInterval := writeInterval p;
     timers := timers p; nextHandle := nextHandle p; tasks := tasks p;
     log := log p |}.

Definition set_state (x : State.t) (p : AudioPlayer) : AudioPlayer :=
  {| isAudifyAvailable := isAudifyAvailable p; heap := heap p;
     rtAudio := rtAudio p; queue := queue p; currentIndex := currentIndex p;
     state := x; volume := volume p; isMuted := isMuted p;
     isProcessingQueue := isProcessingQueue p; streamOpen := streamOpen p;
     currentItem := currentItem p; pcmOffset := pcmOffset p;
     frameSize := frameSize p; writeInterval := writeInterval p;
     timers := timers p; nextHandle := nextHandle p; tasks := tasks p;
     log := log p |}.

Definition set_isMuted (x : bool) (p : AudioPlayer) : AudioPlayer :=
  {| isAudifyAvailable := isAudifyAvailable p; heap := heap p;
     rtAudio := rtAudio p; queue := queue p; currentIndex := currentIndex p;
     state := state p; volume := volume p; isMuted := x;
     isProcessingQueue := isProcessingQueue p; streamOpen := streamOpen p;
     currentItem := currentItem p; pcmOffset := pcmOffset p;
     frameSize := frameSize p; writeInterval := writeInterval p;
     timers := timers p; nextHandle := nextHandle p; tasks := tasks p;
     log := log p |}.

Definition set_isProcessingQueue (x : bool) (p : AudioPlayer) : AudioPlayer :=
  {| isAudifyAvailable := isAudifyAvailable p; heap := heap p;
     rtAudio := rtAudio p; queue := queue p; currentIndex := currentIndex p;
     state := state p; volume := volume p; isMuted := isMuted p;
     isProcessingQueue := x; streamOpen := streamOpen p;
     currentItem := currentItem p; pcmOffset := pcmOffset p;
     frameSize := frameSize p; writeInterval := writeInterval p;
     timers := timers p; nextHandle := nextHandle p; tasks := tasks p;
     log := log p |}.

Definition set_streamOpen (x : bool) (p : AudioPlayer) : AudioPlayer :=
  {| isAudifyAvailable := isAudifyAvailable p; heap := heap p;
     rtAudio := rtAudio p; queue := queue p; currentIndex := currentIndex p;
     state := state p; volume := volume p; isMuted := isMuted p;
     isProcessingQueue := isProcessingQueue p; streamOpen := x;
     currentItem := currentItem p; pcmOffset := pcmOffset p;
     frameSize := frameSize p; writeInterval := writeInterval p;
     timers := timers p; nextHandle := nextHandle p; tasks := tasks p;
     log := log p |}.

Definition set_currentItem (x : option ref) (p : AudioPlayer) : AudioPlayer :=
  {| isAudifyAvailable := isAudifyAvailable p; heap := heap p;
     rtAudio := rtAudio p; queue := queue p; currentIndex := currentIndex p;
     state := state p; volume := volume p; isMuted := isMuted p;
     isProcessingQueue := isProcessingQueue p; streamOpen := streamOpen p;
     currentItem := x; pcmOffset := pcmOffset p; frameSize := frameSize p;
     writeInterval := writeInterval p; timers := timers p;
     nextHandle := nextHandle p; tasks := tasks p; log := log p |}.

Definition set_pcmOffset (x : nat) (p : AudioPlayer) : AudioPlayer :=
  {| isAudifyAvailable := isAudifyAvailable p; heap := heap p;
     rtAudio := rtAudio p; queue := queue p; currentIndex := currentIndex p;
     state := state p; volume := volume p; isMuted := isMuted p;
     isProcessingQueue := isProcessingQueue p; streamOpen := streamOpen p;
     currentItem := currentItem p; pcmOffset := x; frameSize := frameSize p;
     writeInterval := writeInterval p; timers := timers p;
     nextHandle := nextHandle p; tasks := tasks p; log := log p |}.

Definition set_writeInterval (x : option nat) (p : AudioPlayer) : AudioPlayer :=
  {| isAudifyAvailable := isAudifyAvailable p; heap := heap p;
     rtAudio := rtAudio p; queue := queue p; currentIndex := currentIndex p;
     state := state p; volume := volume p; isMuted := isMuted p;
     isProcessingQueue := isProcessingQueue p; streamOpen := streamOpen p;
     currentItem := currentItem p; pcmOffset := pcmOffset p;
     frameSize := frameSize p; writeInterval := x; timers := timers p;
     nextHandle := nextHandle p; tasks := tasks p; log := log p |}.

Definition set_timers (x : list Timer) (p : AudioPlayer) : AudioPlayer :=
  {| isAudifyAvailable := isAudifyAvailable p; heap := heap p;
     rtAudio := rtAudio p; queue := queue p; currentIndex := currentIndex p;
     state := state p; volume := volume p; isMuted := isMuted p;
     isProcessingQueue := isProcessingQueue p; streamOpen := streamOpen p;
     currentItem := currentItem p; pcmOffset := pcmOffset p;
     frameSize := frameSize p; writeInterval := writeInterval p;
     timers := x; nextHandle := nextHandle p; tasks := tasks p;
     log := log p |}.

Definition set_nextHandle (x : nat) (p : AudioPlayer) : AudioPlayer :=
  {| isAudifyAvailable := isAudifyAvailable p; heap := heap p;
     rtAudio := rtAudio p; queue := queue p; currentIndex := currentIndex p;
     state := state p; volume := volume p; isMuted := isMuted p;
     isProcessingQueue := isProcessingQueue p; streamOpen := streamOpen p;
     currentItem := currentItem p; pcmOffset := pcmOffset p;
     frameSize := frameSize p; writeInterval := writeInterval p;
     timers := timers p; nextHandle := x; tasks := tasks p; log := log p |}.

Definition set_tasks (x : list Task) (p : AudioPlayer) : AudioPlayer :=
  {| isAudifyAvailable := isAudifyAvailable p; heap := heap p;
     rtAudio := rtAudio p; queue := queue p; currentIndex := currentIndex p;
     state := state p; volume := volume p; isMuted := isMuted p;
     isProcessingQueue := isProcessingQueue p; streamOpen := streamOpen p;
     currentItem := currentItem p; pcmOffset := pcmOffset p;
     frameSize := frameSize p; writeInterval := writeInterval p;
     timers := timers p; nextHandle := nextHandle p; tasks := x;
     log := log p |}.

Definition set_log (x : list Effect) (p : AudioPlayer) : AudioPlayer :=
  {| isAudifyAvailable := isAudifyAvailable p; heap := heap p;
     rtAudio := rtAudio p; queue := queue p; currentIndex := currentIndex p;
     state := state p; volume := volume p; isMuted := isMuted p;
     isProcessingQueue := isProcessingQueue p; streamOpen := streamOpen p;
     currentItem := currentItem p; pcmOffset := pcmOffset p;
     frameSize := frameSize p; writeInterval := writeInterval p;
     timers := timers p; nextHandle := nextHandle p; tasks := tasks p;
     log := x |}.

Definition emit (e : Effect) (p : AudioPlayer) : AudioPlayer :=
  set_log (log p ++ [e]) p.

Definition has_status (p : AudioPlayer) (s : Status.t) (r : ref) : bool :=
  match heap p !! r with
  | Some it => Status.eqb (status it) s
  | None => false
  end.

(** [item.status = s] on the object [r]. *)
Definition set_item_status (r : ref) (s : Status.t) (p : AudioPlayer)
  : AudioPlayer :=
  set_heap (alter (with_status s) r (heap p)) p.

Definition setState (s : State.t) (p : AudioPlayer) : AudioPlayer :=
  let p := set_state s p in
  emit (StateChange s (currentItem p)) p.

(** [new AudioPlayer()] *)
Definition create (audify : bool) : AudioPlayer :=
  {| isAudifyAvailable := audify; heap := []; rtAudio := false; queue := [];
     currentIndex := 0; state := State.idle; volume := 1%Q; isMuted := false;
     isProcessingQueue := false; streamOpen := false; currentItem := None;
     pcmOffset := 0; frameSize := 1024; writeInterval := None; timers := [];
     nextHandle := 0; tasks := []; log := [] |}.

(** [this.queue.find(item => item.status === 'pending')] together with
    [this.queue.indexOf(nextItem)]. *)
Fixpoint find_pending (p : AudioPlayer) (q : list ref) (index : nat)
  : option (nat * ref) :=
  match q with
  | [] => None
  | r :: q' =>
      if has_status p Status.pending r then Some (index, r)
      else find_pending p q' (S index)
  end.

Definition is_settled (p : AudioPlayer) (r : ref) : bool :=
  has_status p Status.completed r || has_status p Status.cancelled r.

(** [processQueue()] up to its first [await]. *)
Definition processQueue (p : AudioPlayer) : AudioPlayer :=
  if isProcessingQueue p then p
  else
    match find_pending p (queue p) 0 with
    | None =>
        let p := set_isProcessingQueue false p in
        if forallb (is_settled p) (queue p)
        then emit Complete (setState State.idle p)
        else p
    | Some (index, nextItem) =>
        let p := set_isProcessingQueue true p in
        let p := set_currentIndex index p in
        let p := set_item_status nextItem Status.decoding p in
        let p := emit (QueueChange (queue p)) p in
        set_tasks (tasks p ++ [AwaitDecode nextItem]) p
    end.

(** [addToQueue(mp3Buffer, text)] *)
Definition addToQueue (mp3Buffer : Buffer) (txt : option str)
    (p : AudioPlayer) : AudioPlayer :=
  let r := length (heap p) in
  let it := {| audioBuffer := mp3Buffer; pcmData := None; sampleRate := None;
               channels := None; text := txt; status := Status.pending |} in
  let p := set_heap (heap p ++ [it]) p in
  let p := set_queue (queue p ++ [r]) p in
  let p := emit (QueueChange (queue p)) p in
  if negb (isProcessingQueue p) then processQueue p else p.

(** [initStream(sampleRate, channels)]; [deviceOk] tells whether
    [openStream] goes through. *)
Definition initStream (rate ch : N) (deviceOk : bool) (p : AudioPlayer)
  : AudioPlayer * bool :=
  let p := if streamOpen p
           then set_streamOpen false (emit RtClose p) else p in
  if negb (isAudifyAvailable p) then (p, false)
  else
    let p := set_rtAudio true p in
    if deviceOk then (set_streamOpen true (emit (RtOpen rate ch) p), true)
    else (p, false).

Definition clearInterval (h : nat) (p : AudioPlayer) : AudioPlayer :=
  set_timers (filter (fun t => handle t ≠ h) (timers p)) p.

(** [if (this.writeInterval) { clearInterval(this.writeInterval);
    this.writeInterval = null; }] *)
Definition clear_writeInterval (p : AudioPlayer) : AudioPlayer :=
  match writeInterval p with
  | Some h => set_writeInterval None (clearInterval h p)
  | None => p
  end.

(** [playItem(item)] up to its return: [None] when it returns a promise
    already resolved, [Some h] when the promise waits for the timer [h]. *)
Definition playItem (r : ref) (p : AudioPlayer) : AudioPlayer * option nat :=
  match heap p !! r with
  | Some it =>
      match pcmData it with
      | Some pcm =>
          if rtAudio p && streamOpen p then
            let p := set_currentItem (Some r) p in
            let p := set_pcmOffset 0 p in
            let p := set_item_status r Status.playing p in
            let p := setState State.playing p in
            let p := emit (PlayStart r (currentIndex p) (length (queue p))) p in
            let p := emit (QueueChange (queue p)) p in
            let p := emit RtStart p in
            let ch := match channels it with
                      | Some c => if (c =? 0)%N then 2 else N.to_nat c
                      | None => 2
                      end in
            let h := nextHandle p in
            let t := {| handle := h; item := r;
                        bytesPerFrame := frameSize p * ch * 2 |} in
            let p := set_timers (timers p ++ [t]) p in
            let p := set_writeInterval (Some h) p in
            (set_nextHandle (S h) p, Some h)
          else (set_item_status r Status.completed p, None)
      | None => (set_item_status r Status.completed p, None)
      end
  | None => (p, None)
  end.

(** [processQueue] after its [try]/[catch]. *)
Definition after_try (p : AudioPlayer) : AudioPlayer :=
  let p := set_isProcessingQueue false p in
  let p := emit (QueueChange (queue p)) p in
  processQueue p.

(** How [decodeMP3] comes back. *)
Inductive Decode := Pcm (pcm : Buffer) (rate ch : N) | DecodeError.

(** [processQueue] from the return of [decodeMP3] to its next [await] or
    its end. *)
Definition decoded (r : ref) (d : Decode) (deviceOk : bool) (p : AudioPlayer)
  : AudioPlayer :=
  match d with
  | Pcm pcm rate ch =>
      let p := set_heap (alter (with_pcm pcm rate ch) r (heap p)) p in
      let p := set_item_status r Status.ready p in
      let '(p, opened) := initStream rate ch deviceOk p in
      if opened then
        match playItem r p with
        | (p, Some h) => set_tasks (tasks p ++ [AwaitPlay h r]) p
        | (p, None) => after_try p
        end
      else after_try (set_item_status r Status.completed p)
  | DecodeError => after_try (set_item_status r Status.completed p)
  end.

Definition awaits_play (h : nat) (t : Task) : bool :=
  match t with
  | AwaitPlay h' _ => h' =? h
  | AwaitDecode _ => false
  end.

Definition awaits_decode (r : ref) (t : Task) : bool :=
  match t with
  | AwaitDecode r' => r' =? r
  | AwaitPlay _ _ => false
  end.

Fixpoint remove_task (f : Task -> bool) (ts : list Task) : list Task :=
  match ts with
  | [] => []
  | t :: ts' => if f t then ts' else t :: remove_task f ts'
  end.

(** [resolve()] of the promise of the [playItem] call that made timer [h]:
    the [processQueue] call waiting for it goes on; a second [resolve()]
    does nothing. *)
Definition resolve (h : nat) (p : AudioPlayer) : AudioPlayer :=
  if existsb (awaits_play h) (tasks p) then
    after_try (set_tasks (remove_task (awaits_play h) (tasks p)) p)
  else p.

Definition pcm_length (p : AudioPlayer) (r : ref) : nat :=
  match heap p !! r with
  | Some it => match pcmData it with Some pcm => length pcm | None => 0 end
  | None => 0
  end.

Definition gain (p : AudioPlayer) : Gain :=
  if isMuted p || Qeq_bool (volume p) 0 then Silence
  else if negb (Qeq_bool (volume p) 1) then Scaled
  else Unity.

(** The callback of the frame timer [t], fired once. *)
Definition tick (t : Timer) (p : AudioPlayer) : AudioPlayer :=
  let r := item t in
  if negb (bool_decide (currentItem p = Some r)) then
    resolve (handle t) (clear_writeInterval p)
  else if State.eqb (state p) State.stopped
          || has_status p Status.cancelled r then
    let p := clear_writeInterval p in
    let p := set_item_status r Status.completed p in
    resolve (handle t) p
  else if State.eqb (state p) State.paused then p
  else if pcm_length p r <=? pcmOffset p then
    let p := clear_writeInterval p in
    let p := set_item_status r Status.completed p in
    let p := set_currentItem None p in
    let p := emit RtStop p in
    resolve (handle t) p
  else
    let remaining := pcm_length p r - pcmOffset p in
    if bytesPerFrame t <=? remaining then
      let off := pcmOffset p in
      let p := set_pcmOffset (off + bytesPerFrame t) p in
      emit (RtWrite r off (bytesPerFrame t) (gain p)) p
    else if 0 <? remaining then
      let off := pcmOffset p in
      let p := set_pcmOffset (pcm_length p r) p in
      emit (RtWrite r off remaining (gain p)) p
    else p.

(** [pause()] *)
Definition pause (p : AudioPlayer) : AudioPlayer :=
  if State.eqb (state p) State.playing then
    let p := setState State.paused p in
    match currentItem p with
    | Some r => emit (QueueChange (queue p)) (set_item_status r Status.paused p)
    | None => p
    end
  else p.

(** [resume()] *)
Definition resume (p : AudioPlayer) : AudioPlayer :=
  if State.eqb (state p) State.paused then
    let p := setState State.playing p in
    match currentItem p with
    | Some r => emit (QueueChange (queue p)) (set_item_status r Status.playing p)
    | None => p
    end
  else p.

Definition stop_stream (p : AudioPlayer) : AudioPlayer :=
  if rtAudio p && streamOpen p then emit RtStop p else p.

(** [for (const item of this.queue) if (item.status !== 'completed')
    item.status = 'cancelled'] *)
Definition cancel_item (it : AudioQueueItem) : AudioQueueItem :=
  if Status.eqb (status it) Status.completed then it
  else with_status Status.cancelled it.

Definition cancel_all (q : list ref) (p : AudioPlayer) : AudioPlayer :=
  foldl (fun p r => set_heap (alter cancel_item r (heap p)) p) p q.

(** [stop()] *)
Definition stop (p : AudioPlayer) : AudioPlayer :=
  let p := setState State.stopped p in
  let p := clear_writeInterval p in
  let p := stop_stream p in
  let p := cancel_all (queue p) p in
  let p := set_queue [] p in
  let p := set_currentItem None p in
  let p := set_pcmOffset 0 p in
  let p := set_isProcessingQueue false p in
  emit (QueueChange (queue p)) p.

(** [skip()] *)
Definition skip (p : AudioPlayer) : AudioPlayer :=
  match currentItem p with
  | Some r =>
      let p := set_item_status r Status.cancelled p in
      let p := clear_writeInterval p in
      let p := stop_stream p in
      let p := set_currentItem None p in
      let p := set_pcmOffset 0 p in
      emit (QueueChange (queue p)) p
  | None => p
  end.

(** What can happen to a player: the calls of its public interface, the
    return of a [decodeMP3] call and the firing of a live frame timer. *)
Inductive Event :=
| AddToQueue (mp3Buffer : Buffer) (txt : option str)
| Decoded (r : ref) (d : Decode) (deviceOk : bool)
| Tick (h : nat)
| Pause
| Resume
| Stop
| Skip.

Definition find_timer (h : nat) (p : AudioPlayer) : option Timer :=
  find (fun t => handle t =? h) (timers p).

(** One event with everything that runs before control goes back to the
    event loop; [None] when the event cannot happen in [p] (no such
    decoding in progress, no such live timer). *)
Definition step (p : AudioPlayer) (e : Event) : option AudioPlayer :=
  match e with
  | AddToQueue mp3 txt => Some (addToQueue mp3 txt p)
  | Decoded r d deviceOk =>
      if existsb (awaits_decode r) (tasks p) then
        Some (decoded r d deviceOk
                (set_tasks (remove_task (awaits_decode r) (tasks p)) p))
      else None
  | Tick h =>
      match find_timer h p with
      | Some t => Some (tick t p)
      | None => None
      end
  | Pause => Some (pause p)
  | Resume => Some (resume p)
  | Stop => Some (stop p)
  | Skip => Some (skip p)
  end.

Fixpoint run (p : AudioPlayer) (es : list Event) : option AudioPlayer :=
  match es with
  | [] => Some p
  | e :: es' =>
      match step p e with
      | Some p' => run p' es'
      | None => None
      end
  end.

(** Every live frame timer fired once, in the order they were started; a
    timer cleared by an earlier callback of the same round does not fire. *)
Definition tick_all (p : AudioPlayer) : AudioPlayer :=
  foldl (fun p t => match find_timer (handle t) p with
                    | Some t' => tick t' p
                    | None => p
                    end) p (timers p).

(** The frame timer registered in [writeInterval] is the only live one. *)
Definition registered_timers_only (p : AudioPlayer) : bool :=
  forallb (fun t => bool_decide (writeInterval p = Some (handle t)))
          (timers p).

(** No [processQueue] call is waiting for [decodeMP3]. *)
Definition is_decoding (t : Task) : bool :=
  match t with
  | AwaitDecode _ => true
  | AwaitPlay _ _ => false
  end.

Definition nothing_decoding (p : AudioPlayer) : bool :=
  forallb (fun t => negb (is_decoding t)) (tasks p).

End Player.

(* ===================================================================== *)
(** ** Browser voice bridge: [VoiceBridgeServer] *)
(* ===================================================================== *)

Module Bridge.
Import Js.

Definition SESSION_CODE_EXPIRY : Z := 5 * 60 * 1000.
Definition SESSION_TIMEOUT : Z := 30 * 60 * 1000.

(** The push channel of a session (an [http.ServerResponse]). *)
Record Response := { writableEnded : bool }.

Record Session := {
  code : str;
  token : str;
  createdAt : Z;
  lastActivity : Z;
  connected : bool;
  response : option Response
}.

(** An entry of [pendingPermissions]. *)
Record Permission := { id : str; tool : str; prompt : str }.

(** The data of a push event. *)
Inductive Payload :=
| TranscriptData (txt : str)
| PermissionRequestData (p : Permission) (queueCount : nat)
| PermissionHandledData (requestId : str) (approved : bool) (remaining : nat)
| PermissionUiCleared.                       (* [{ handled: true }] *)

(** What the server does to the outside, in order. *)
Inductive Effect :=
| SSE (sessionCode : str) (event : str) (data : Payload)
| PermissionResponse (requestId : str) (approved alwaysAllow : bool)
| Transcript (transcript : str)              (* [this.onTranscript] *)
| Synthesize (txt : str)                     (* prompt audio is requested *)
| ShowCurrentLater.  (* [setTimeout(() => this.showCurrentPermission(), 500)] *)

(** The JSON answer of a request. *)
Inductive Body :=
| Failure (error : str)                      (* [{ success: false, error }] *)
| ErrorOnly (error : str)                    (* [{ error }] *)
| Connected (tok : str)                      (* [{ success: true, token, message }] *)
| Transcribed (transcript : str) (isPermissionResponse : bool)
| Success.                                   (* [{ success: true }] *)

Record Reply := { statusCode : nat; body : Body }.

Record Server := {
  sessions : list (str * Session);           (* a [Map], in insertion order *)
  currentSessionCode : option str;
  pendingPermissions : list Permission;
  onPermissionResponse : bool;               (* the callback has been set *)
  trace : list Effect
}.

Definition set_sessions (x : list (str * Session)) (s : Server) : Server :=
  {| sessions := x; currentSessionCode := currentSessionCode s;
     pendingPermissions := pendingPermissions s;
     onPermissionResponse := onPermissionResponse s; trace := trace s |}.

Definition set_pendingPermissions (x : list Permission) (s : Server)
  : Server :=
  {| sessions := sessions s; currentSessionCode := currentSessionCode s;
     pendingPermissions := x;
     onPermissionResponse := onPermissionResponse s; trace := trace s |}.

Definition emit (e : Effect) (s : Server) : Server :=
  {| sessions := sessions s; currentSessionCode := currentSessionCode s;
     pendingPermissions := pendingPermissions s;
     onPermissionResponse := onPermissionResponse s;
     trace := trace s ++ [e] |}.

(** [Map.prototype.get], [delete], and the update of the object stored
    under a key (the entry keeps its place).  A [Map] has one entry per
    key; [sessions_get] and [sessions_update] work on the first entry of a
    key and [sessions_delete] leaves none. *)
Fixpoint sessions_get (m : list (str * Session)) (k : str) : option Session :=
  match m with
  | [] => None
  | (k', v) :: m' => if bool_decide (k' = k) then Some v else sessions_get m' k
  end.

Fixpoint sessions_delete (m : list (str * Session)) (k : str)
  : list (str * Session) :=
  match m with
  | [] => []
  | (k', v) :: m' =>
      if bool_decide (k' = k) then sessions_delete m' k
      else (k', v) :: sessions_delete m' k
  end.

Fixpoint sessions_update (m : list (str * Session)) (k : str)
    (f : Session -> Session) : list (str * Session) :=
  match m with
  | [] => []
  | (k', v) :: m' =>
      if bool_decide (k' = k) then (k', f v) :: m'
      else (k', v) :: sessions_update m' k f
  end.

Definition mark_connected (now : Z) (s : Session) : Session :=
  {| code := code s; token := token s; createdAt := createdAt s;
     lastActivity := now; connected := true; response := response s |}.

Definition touch (now : Z) (s : Session) : Session :=
  {| code := code s; token := token s; createdAt := createdAt s;
     lastActivity := now; connected := connected s; response := response s |}.

(** The loop "Validate token" of [handleSSE], [handleAudio] and
    [handlePermission]: the first session, in the order of the map, that
    is connected and has the token of the header (which may be missing). *)
Definition has_token (tok : option str) (s : Session) : bool :=
  match tok with
  | Some t => bool_decide (token s = t) && connected s
  | None => false
  end.

Definition session_for_token (srv : Server) (tok : option str)
  : option Session :=
  snd <$> find (fun kv => has_token tok (snd kv)) (sessions srv).

(** [validSession.lastActivity = Date.now()] on the object found by that
    loop. *)
Fixpoint touch_for_token (m : list (str * Session)) (tok : option str)
    (now : Z) : list (str * Session) :=
  match m with
  | [] => []
  | (k, v) :: m' =>
      if has_token tok v then (k, touch now v) :: m'
      else (k, v) :: touch_for_token m' tok now
  end.

(** [sendToSession(sessionCode, event, data)] *)
Definition sendToSession (sessionCode : str) (event : string) (data : Payload)
    (srv : Server) : Server :=
  match sessions_get (sessions srv) sessionCode with
  | Some session =>
      match response session with
      | Some res =>
          if negb (writableEnded res)
          then emit (SSE sessionCode (lit event) data) srv else srv
      | None => srv
      end
  | None => srv
  end.

(** [this.currentSessionCode] when it is truthy. *)
Definition current_session (srv : Server) : option str :=
  match currentSessionCode srv with
  | Some c => if truthy c then Some c else None
  | None => None
  end.

(** [showCurrentPermission()] up to the return of the synthesis call. *)
Definition showCurrentPermission (srv : Server) : Server :=
  match pendingPermissions srv, current_session srv with
  | current :: _, Some c =>
      let srv := sendToSession c "permissionRequest"
                   (PermissionRequestData current
                      (length (pendingPermissions srv))) srv in
      emit (Synthesize (prompt current ++ lit ". Say yes or no.")) srv
  | _, _ => srv
  end.

(** [findIndex(p => p.id === requestId)] followed by [splice(index, 1)]. *)
Fixpoint remove_permission (q : list Permission) (requestId : str)
  : list Permission :=
  match q with
  | [] => []
  | p :: q' =>
      if bool_decide (id p = requestId) then q'
      else p :: remove_permission q' requestId
  end.

(** [handlePermissionAndAdvance(requestId, approved, alwaysAllow)] *)
Definition handlePermissionAndAdvance (requestId : str)
    (approved alwaysAllow : bool) (srv : Server) : Server :=
  let srv := set_pendingPermissions
               (remove_permission (pendingPermissions srv) requestId) srv in
  let srv := if onPermissionResponse srv
             then emit (PermissionResponse requestId approved alwaysAllow) srv
             else srv in
  match current_session srv with
  | Some c =>
      let srv := sendToSession c "permissionHandled"
                   (PermissionHandledData requestId approved
                      (length (pendingPermissions srv))) srv in
      if 0 <? length (pendingPermissions srv)
      then emit ShowCurrentLater srv else srv
  | None => srv
  end.

Definition alwaysAllowPhrases : list str :=
  map lit ["always allow"; "always yes"; "allow always"; "always approve"]%string.
Definition allowAllPhrases : list str :=
  map lit ["allow all"; "yes to all"; "approve all"; "accept all"]%string.
Definition denyAllPhrases : list str :=
  map lit ["deny all"; "no to all"; "reject all"; "cancel all"]%string.
Definition approvalPhrases : list str :=
  map lit ["yes"; "yeah"; "yep"; "approve"; "allow"; "go ahead"; "do it";
           "okay"; "ok"]%string.
Definition denialPhrases : list str :=
  map lit ["no"; "nope"; "deny"; "stop"; "cancel"; "don't"; "reject"]%string.

(** A [/connect] request body after [JSON.parse]. *)
Inductive ConnectBody :=
| BadConnect                     (* not JSON, or the access to the code throws *)
| NoSessionCode                  (* [sessionCode] absent or null *)
| SessionCode (sessionCode : str).

(** A [/permission] request body after [JSON.parse], fields at the types
    the client sends them with. *)
Inductive PermissionBody :=
| BadPermission
| Decision (requestId : str) (approved : bool) (alwaysAllow : option bool).

(** A [/audio] request: did the body parse, and how did the transcription
    call come back. *)
Inductive Transcription :=
| Heard (transcript : str)
| SttError (message : str).
Inductive AudioBody :=
| BadAudio (message : str)
| AudioData (stt : Transcription).

(** The calls of the permission-response callback recorded in a trace. *)
Definition response_of (e : Effect) : option (str * bool * bool) :=
  match e with
  | PermissionResponse requestId approved alwaysAllow =>
      Some (requestId, approved, alwaysAllow)
  | _ => None
  end.

Definition responses (tr : list Effect) : list (str * bool * bool) :=
  omap response_of tr.

(** The transcripts forwarded to the assistant recorded in a trace. *)
Definition transcript_of (e : Effect) : option str :=
  match e with
  | Transcript t => Some t
  | _ => None
  end.

Definition transcripts (tr : list Effect) : list str :=
  omap transcript_of tr.

(** The push channel of the session [c] can be written to. *)
Definition channel_open (srv : Server) (c : str) : bool :=
  match sessions_get (sessions srv) c with
  | Some session =>
      match response session with
      | Some res => negb (writableEnded res)
      | None => false
      end
  | None => false
  end.

Section CaseMapping.

(** [String.prototype.toLowerCase] and [toUpperCase] are the host's; the
    server is modelled for any such pair of functions. *)
Variable toLowerCase toUpperCase : str -> str.

(** The five tests of [checkForPermissionResponse] on the lowered, trimmed
    transcript. *)
Definition lowered (transcript : str) : str := trim (toLowerCase transcript).
Definition isAlwaysAllow (transcript : str) : bool :=
  includes_some (lowered transcript) alwaysAllowPhrases.
Definition isAllowAll (transcript : str) : bool :=
  includes_some (lowered transcript) allowAllPhrases.
Definition isDenyAll (transcript : str) : bool :=
  includes_some (lowered transcript) denyAllPhrases.
Definition isApproval (transcript : str) : bool :=
  includes_some (lowered transcript) approvalPhrases.
Definition isDenial (transcript : str) : bool :=
  includes_some (lowered transcript) denialPhrases.

(** [for (const id of allIds) this.handlePermissionAndAdvance(id, approved,
    false)] *)
Definition resolve_all (allIds : list str) (approved : bool) (srv : Server)
  : Server :=
  foldl (fun srv i => handlePermissionAndAdvance i approved false srv)
        srv allIds.

(** [checkForPermissionResponse(transcript)] *)
Definition checkForPermissionResponse (transcript : str) (srv : Server)
  : Server * bool :=
  match pendingPermissions srv with
  | [] => (srv, false)
  | current :: _ =>
      if isAllowAll transcript then
        (resolve_all (map id (pendingPermissions srv)) true srv, true)
      else if isDenyAll transcript then
        (resolve_all (map id (pendingPermissions srv)) false srv, true)
      else if isAlwaysAllow transcript then
        (handlePermissionAndAdvance (id current) true true srv, true)
      else if isApproval transcript && negb (isDenial transcript) then
        (handlePermissionAndAdvance (id current) true false srv, true)
      else if isDenial transcript && negb (isApproval transcript) then
        (handlePermissionAndAdvance (id current) false false srv, true)
      else (srv, false)
  end.

(** [handleConnect]: [now] is [Date.now()] at the expiry test, [now'] at
    the update of [lastActivity]. *)
Definition handleConnect (req : ConnectBody) (now now' : Z) (srv : Server)
  : Server * Reply :=
  match req with
  | BadConnect =>
      (srv, {| statusCode := 400; body := Failure (lit "Invalid request") |})
  | NoSessionCode =>
      (srv, {| statusCode := 400;
               body := Failure (lit "Session code required") |})
  | SessionCode sessionCode =>
      let code := toUpperCase sessionCode in
      if negb (truthy code) then
        (srv, {| statusCode := 400;
                 body := Failure (lit "Session code required") |})
      else
        match sessions_get (sessions srv) code with
        | None =>
            (srv, {| statusCode := 404;
                     body := Failure (lit "Invalid or expired session code") |})
        | Some session =>
            if negb (connected session)
               && (now - createdAt session >? SESSION_CODE_EXPIRY)%Z then
              (set_sessions (sessions_delete (sessions srv) code) srv,
               {| statusCode := 410;
                  body := Failure (lit "Session code has expired") |})
            else
              (set_sessions
                 (sessions_update (sessions srv) code (mark_connected now'))
                 srv,
               {| statusCode := 200; body := Connected (token session) |})
        end
  end.

(** [handleAudio] *)
Definition handleAudio (tok : option str) (req : AudioBody) (now : Z)
    (srv : Server) : Server * Reply :=
  match session_for_token srv tok with
  | None =>
      (srv, {| statusCode := 401;
               body := ErrorOnly (lit "Invalid or expired session") |})
  | Some validSession =>
      let srv := set_sessions (touch_for_token (sessions srv) tok now) srv in
      match req with
      | AudioData (Heard transcript) =>
          let srv := sendToSession (code validSession) "transcript"
                       (TranscriptData transcript) srv in
          match checkForPermissionResponse transcript srv with
          | (srv, true) =>
              let srv := sendToSession (code validSession) "permissionHandled"
                           PermissionUiCleared srv in
              (srv, {| statusCode := 200;
                       body := Transcribed transcript true |})
          | (srv, false) =>
              (emit (Transcript transcript) srv,
               {| statusCode := 200; body := Transcribed transcript false |})
          end
      | AudioData (SttError message) | BadAudio message =>
          (srv, {| statusCode := 500; body := Failure message |})
      end
  end.

(** [handlePermission] *)
Definition handlePermission (tok : option str) (req : PermissionBody)
    (srv : Server) : Server * Reply :=
  match session_for_token srv tok with
  | None =>
      (srv, {| statusCode := 401;
               body := ErrorOnly (lit "Invalid or expired session") |})
  | Some _ =>
      match req with
      | BadPermission =>
          (srv, {| statusCode := 400;
                   body := ErrorOnly (lit "Invalid request") |})
      | Decision requestId approved alwaysAllow =>
          (handlePermissionAndAdvance requestId approved
             (default false alwaysAllow) srv,
           {| statusCode := 200; body := Success |})
      end
  end.

End CaseMapping.

(** Case mappings for the examples: the ASCII letters, other code units
    unchanged. *)
Definition ascii_lower (s : str) : str :=
  map (fun c => if (65 <=? c)%N && (c <=? 90)%N then (c + 32)%N else c) s.
Definition ascii_upper (s : str) : str :=
  map (fun c => if (97 <=? c)%N && (c <=? 122)%N then (c - 32)%N else c) s.

End Bridge.


(* ===================================================================== *)
(** ** Resampling: [AudioPlayer.resampleChannel] *)
(* ===================================================================== *)

Module Resample.
Local Open Scope Z_scope.

(** JavaScript numbers are IEEE 754 binary64 values; [spec_float] with
    [prec = 53] and [emax = 1024] is the Standard Library's executable
    specification of them (round to nearest, ties to even). *)
Definition prec : Z := 53.
Definition emax : Z := 1024.

Definition fadd : spec_float -> spec_float -> spec_float := SFadd prec emax.
Definition fsub : spec_float -> spec_float -> spec_float := SFsub prec emax.
Definition fmul : spec_float -> spec_float -> spec_float := SFmul prec emax.
Definition fdiv : spec_float -> spec_float -> spec_float := SFdiv prec emax.

Definition one : spec_float := S754_finite false 4503599627370496 (-52).

(** An integer as a number. *)
Definition of_Z (z : Z) : spec_float := binary_normalize prec emax z 0 false.

(** The elements of a [Float32Array] are binary32 values, read back as
    numbers; a store rounds to the nearest binary32 value
    ([Math.fround]). *)
Definition to_binary32 (x : spec_float) : spec_float :=
  match x with
  | S754_finite s m e => binary_round 24 128 s m e
  | _ => x
  end.

Definition of_binary32 (x : spec_float) : spec_float :=
  match x with
  | S754_finite s m e => binary_round prec emax s m e
  | _ => x
  end.

Definition fround (x : spec_float) : spec_float :=
  of_binary32 (to_binary32 x).

(** The value of an integral number: an integer, an infinity or NaN. *)
Inductive Integral :=
| Int (z : Z)
| PosInfinity
| NegInfinity
| NotANumber.

Definition signed (s : bool) (m : positive) : Z :=
  if s then Zneg m else Zpos m.

(** The value of [Math.floor(x)]. *)
Definition floor (x : spec_float) : Integral :=
  match x with
  | S754_zero _ => Int 0
  | S754_finite s m e => Int (Z.shiftl (signed s m) e)
  | S754_infinity s => if s then NegInfinity else PosInfinity
  | S754_nan => NotANumber
  end.

(** [Math.floor(x)] as a number ([Math.floor(-0)] is [-0]). *)
Definition ffloor (x : spec_float) : spec_float :=
  match x with
  | S754_finite s m e =>
      let z := Z.shiftl (signed s m) e in
      if z =? 0 then S754_zero false else of_Z z
  | _ => x
  end.

(** [new Float32Array(outputLength)]: the length of the new array, or
    [None] when the constructor throws a [RangeError]. *)
Definition typed_array_length (outputLength : Integral) : option nat :=
  match outputLength with
  | Int z =>
      if (z <? 0) || (2 ^ 53 - 1 <? z) then None else Some (Z.to_nat z)
  | NotANumber => Some 0%nat
  | PosInfinity | NegInfinity => None
  end.

(** [input[k]]: [undefined] outside the array, which is NaN in the
    arithmetic that follows. *)
Definition get (input : list spec_float) (k : Integral) : spec_float :=
  match k with
  | Int z =>
      if (0 <=? z) && (z <? Z.of_nat (length input))
      then nth (Z.to_nat z) input S754_nan else S754_nan
  | _ => S754_nan
  end.

(** [Math.min(srcIndexFloor + 1, input.length - 1)].  The two operands are
    integral; while the array is shorter than [2^53] the minimum, or
    whether it is an index of the array at all, is the same in integer
    arithmetic as in binary64. *)
Definition ceil_index (srcIndexFloor : Integral) (len : Z) : Integral :=
  match srcIndexFloor with
  | Int z => Int (Z.min (z + 1) (len - 1))
  | PosInfinity => Int (len - 1)
  | NegInfinity => NegInfinity
  | NotANumber => NotANumber
  end.

(** The body of the loop: [output[i]]. *)
Definition element (input : list spec_float) (ratio : spec_float) (i : nat)
  : spec_float :=
  let srcIndex := fmul (of_Z (Z.of_nat i)) ratio in
  let srcIndexFloor := floor srcIndex in
  let srcIndexCeil := ceil_index srcIndexFloor (Z.of_nat (length input)) in
  let fraction := fsub srcIndex (ffloor srcIndex) in
  fround (fadd (fmul (get input srcIndexFloor) (fsub one fraction))
               (fmul (get input srcIndexCeil) fraction)).

(** [resampleChannel(input, inputRate, outputRate)]; [None] when it
    throws. *)
Definition resampleChannel (input : list spec_float)
    (inputRate outputRate : spec_float) : option (list spec_float) :=
  let ratio := fdiv inputRate outputRate in
  let outputLength :=
    floor (fdiv (of_Z (Z.of_nat (length input))) ratio) in
  match typed_array_length outputLength with
  | Some n => Some (map (element input ratio) (seq 0 n))
  | None => None
  end.

(** A sample as a decoder delivers it: zero, or a finite binary64 value
    that is a binary32 value. *)
Definition is_sample (x : spec_float) : bool :=
  match x with
  | S754_zero _ => true
  | S754_finite s m e =>
      bounded prec emax m e
      && match fround x with
         | S754_finite s' m' e' =>
             Bool.eqb s s' && Pos.eqb m m' && Z.eqb e e'
         | _ => false
         end
  | _ => false
  end.

(** A sample rate: a finite number other than zero. *)
Definition is_rate (x : spec_float) : bool :=
  match x with
  | S754_finite _ _ _ => true
  | _ => false
  end.

Definition is_zero (x : spec_float) : bool :=
  match x with
  | S754_zero _ => true
  | _ => false
  end.

(** Two samples are the same number: identical, or both a zero. *)
Definition same_sample (x y : spec_float) : Prop :=
  x = y \/ (is_zero x = true /\ is_zero y = true).

End Resample.
(* ===================================================================== *)
(** ** Voice bridge: sessions and the permission queue *)
(* ===================================================================== *)

Module Pairing.
Import Js Bridge.

(** The alphabet of session codes, "Removed confusing chars (0,O,1,I)". *)
Definition chars : str := lit "ABCDEFGHJKLMNPQRSTUVWXYZ23456789".
Definition SESSION_CODE_LENGTH : nat := 6.

(** [s.charAt(index)] for an integral index: the empty string out of
    range. *)
Definition charAt (s : str) (index : Z) : str :=
  if (index <? 0)%Z then []
  else match s !! Z.to_nat index with
       | Some c => [c]
       | None => []
       end.

(** [chars.charAt(Math.floor(r * chars.length))] for [r] the number that
    [Math.random()] returned.  The product with 32 is exact in binary64, so
    the rational product has the same floor. *)
Definition pick (r : Q) : str :=
  charAt chars (Qfloor (r * inject_Z (Z.of_nat (length chars)))).

(** [generateSessionCode()]; [random i] is what the call of
    [Math.random()] in round [i] of the loop returns. *)
Definition generateSessionCode (random : nat -> Q) : str :=
  foldl (fun code i => code ++ pick (random i)) []
        (seq 0 SESSION_CODE_LENGTH).

Definition set_currentSessionCode (x : option str) (s : Server) : Server :=
  {| sessions := sessions s; currentSessionCode := x;
     pendingPermissions := pendingPermissions s;
     onPermissionResponse := onPermissionResponse s; trace := trace s |}.

(** [Map.prototype.set]: the value of an existing key is replaced where it
    stands, a new key goes to the end. *)
Fixpoint sessions_set (m : list (str * Session)) (k : str) (v : Session)
  : list (str * Session) :=
  match m with
  | [] => [(k, v)]
  | (k', v') :: m' =>
      if bool_decide (k' = k) then (k, v) :: m'
      else (k', v') :: sessions_set m' k v
  end.

(** The two tests of [cleanupSessions]. *)
Definition code_expired (now : Z) (s : Session) : bool :=
  negb (connected s) && (now - createdAt s >? SESSION_CODE_EXPIRY)%Z.

Definition inactive (now : Z) (s : Session) : bool :=
  connected s && (now - lastActivity s >? SESSION_TIMEOUT)%Z.

(** One round of [for (const [code, session] of this.sessions)]: the map as
    it is now, and the codes of the sessions whose push channel was closed
    by [session.response.end()] so far. *)
Definition cleanup_entry (now : Z)
    (acc : list (str * Session) * list str) (entry : str * Session)
  : list (str * Session) * list str :=
  let '(m, ended) := acc in
  let '(code, session) := entry in
  let m := if code_expired now session then sessions_delete m code else m in
  if inactive now session then
    (sessions_delete m code,
     match response session with
     | Some _ => ended ++ [code]
     | None => ended
     end)
  else (m, ended).

(** [cleanupSessions()], with [now] the value of [Date.now()] it reads
    once.  Deleting the entry being visited leaves the others to be
    visited, so the loop visits the entries the map had at the start. *)
Definition cleanupSessions (now : Z) (srv : Server) : Server * list str :=
  let '(m, ended) := foldl (cleanup_entry now) (sessions srv, [])
                           (sessions srv) in
  (set_sessions m srv, ended).

(** [createSession()]: [code] and [token] are what [generateSessionCode()]
    and [generateToken()] return, [now], [createdAt] and [lastActivity] the
    three readings of [Date.now()].  The result is the new state, the
    channels closed by the clean-up, and the returned code. *)
Definition createSession (code token : str) (now createdAt lastActivity : Z)
    (srv : Server) : Server * list str * str :=
  let '(srv, ended) := cleanupSessions now srv in
  let session := {| Bridge.code := code; Bridge.token := token;
                    Bridge.createdAt := createdAt;
                    Bridge.lastActivity := lastActivity;
                    connected := false; response := None |} in
  let srv := set_sessions (sessions_set (sessions srv) code session) srv in
  (set_currentSessionCode (Some code) srv, ended, code).

(** [hasActiveSession()] *)
Definition hasActiveSession (srv : Server) : bool :=
  match current_session srv with
  | None => false
  | Some c =>
      match sessions_get (sessions srv) c with
      | Some session => connected session
      | None => false
      end
  end.

(** The event [permissionQueue], with its data [{ count, queue, current }]. *)
Inductive QueuePush :=
| PermissionQueue (sessionCode : str) (count : nat)
    (queue : list Permission) (current : option Permission).

(** [sendPermissionRequest(request)]; of the request only [id], [tool] and
    [prompt] are read.  The [permissionQueue] event that [sendToSession]
    writes is returned (the empty list when the channel cannot be written
    to): it goes out before anything the call adds to the trace. *)
Definition sendPermissionRequest (request : Permission) (srv : Server)
  : Server * list QueuePush :=
  match current_session srv with
  | Some c =>
      match sessions_get (sessions srv) c with
      | Some session =>
          if connected session then
            let srv := set_pendingPermissions
                         (pendingPermissions srv ++ [request]) srv in
            let pushed :=
              if channel_open srv c
              then [PermissionQueue c (length (pendingPermissions srv))
                      (pendingPermissions srv)
                      (head (pendingPermissions srv))]
              else [] in
            (if length (pendingPermissions srv) =? 1
             then showCurrentPermission srv else srv, pushed)
          else (srv, [])
      | None => (srv, [])
      end
  | None => (srv, [])
  end.

End Pairing.

(* ===================================================================== *)
(** ** Queue of user messages: [MessageQueue] *)
(* ===================================================================== *)

Module Messages.
Import Js.

(** [QueuedMessage.status] *)
Module Status.
Inductive t := queued | processing | completed.
Definition eqb (a b : t) : bool :=
  match a, b with
  | queued, queued | processing, processing | completed, completed => true
  | _, _ => false
  end.
End Status.

(** Messages are objects shared between [this.queue], the copies of it
    passed to [onQueueChange] and the [processNext] call that works on
    one; they live in [heap], and a reference is the position in it. *)
Record QueuedMessage := {
  id : str;
  text : str;
  timestamp : Z;
  status : Status.t
}.

Definition with_status (s : Status.t) (m : QueuedMessage) : QueuedMessage :=
  {| id := id m; text := text m; timestamp := timestamp m; status := s |}.

(** Calls of the two callbacks, in order. *)
Inductive Effect :=
| QueueChange (snapshot : list nat)     (* [onQueueChange([...this.queue])] *)
| Process (r : nat) (message : str).    (* [processCallback(message.text)] *)

Record MessageQueue := {
  heap : list QueuedMessage;
  queue : list nat;
  isProcessing : bool;
  processCallback : bool;    (* is not null *)
  onQueueChange : bool;      (* is not null *)
  tasks : list nat;          (* [processNext] calls waiting for the callback,
                                each with its message *)
  timeouts : nat;            (* pending [setTimeout(() => this.processNext(),
                                100)] *)
  log : list Effect
}.

Definition set_heap (x : list QueuedMessage) (q : MessageQueue)
  : MessageQueue :=
  {| heap := x; queue := queue q; isProcessing := isProcessing q;
     processCallback := processCallback q; onQueueChange := onQueueChange q;
     tasks := tasks q; timeouts := timeouts q; log := log q |}.

Definition set_queue (x : list nat) (q : MessageQueue) : MessageQueue :=
  {| heap := heap q; queue := x; isProcessing := isProcessing q;
     processCallback := processCallback q; onQueueChange := onQueueChange q;
     tasks := tasks q; timeouts := timeouts q; log := log q |}.

Definition set_isProcessing (x : bool) (q : MessageQueue) : MessageQueue :=
  {| heap := heap q; queue := queue q; isProcessing := x;
     processCallback := processCallback q; onQueueChange := onQueueChange q;
     tasks := tasks q; timeouts := timeouts q; log := log q |}.

Definition set_tasks (x : list nat) (q : MessageQueue) : MessageQueue :=
  {| heap := heap q; queue := queue q; isProcessing := isProcessing q;
     processCallback := processCallback q; onQueueChange := onQueueChange q;
     tasks := x; timeouts := timeouts q; log := log q |}.

Definition set_timeouts (x : nat) (q : MessageQueue) : MessageQueue :=
  {| heap := heap q; queue := queue q; isProcessing := isProcessing q;
     processCallback := processCallback q; onQueueChange := onQueueChange q;
     tasks := tasks q; timeouts := x; log := log q |}.

Definition emit (e : Effect) (q : MessageQueue) : MessageQueue :=
  {| heap := heap q; queue := queue q; isProcessing := isProcessing q;
     processCallback := processCallback q; onQueueChange := onQueueChange q;
     tasks := tasks q; timeouts := timeouts q; log := log q ++ [e] |}.

(** [new MessageQueue(processCallback, onQueueChange)] *)
Definition create (processCallback onQueueChange : bool) : MessageQueue :=
  {| heap := []; queue := []; isProcessing := false;
     processCallback := processCallback; onQueueChange := onQueueChange;
     tasks := []; timeouts := 0; log := [] |}.

Definition has_status (q : MessageQueue) (s : Status.t) (r : nat) : bool :=
  match heap q !! r with
  | Some m => Status.eqb (status m) s
  | None => false
  end.

(** [message.status = s] on the object [r]. *)
Definition set_message_status (r : nat) (s : Status.t) (q : MessageQueue)
  : MessageQueue :=
  set_heap (alter (with_status s) r (heap q)) q.

(** [notifyQueueChange()] *)
Definition notifyQueueChange (q : MessageQueue) : MessageQueue :=
  if onQueueChange q then emit (QueueChange (queue q)) q else q.

Definition message_text (q : MessageQueue) (r : nat) : str :=
  match heap q !! r with
  | Some m => text m
  | None => []
  end.

(** [processNext] from the end of its [try]/[catch] (the message has been
    processed, or the callback failed) to its return. *)
Definition processed (r : nat) (q : MessageQueue) : MessageQueue :=
  let q := set_message_status r Status.completed q in
  let q := set_isProcessing false q in
  let q := notifyQueueChange q in
  set_timeouts (S (timeouts q)) q.

(** [processNext()] up to its [await] or, when it does not get there, to
    its return.  [throws] says how the callback behaves if it is called:
    it throws at once, or it returns a promise (settled later). *)
Definition processNext (throws : bool) (q : MessageQueue) : MessageQueue :=
  if isProcessing q || (length (queue q) =? 0) then q
  else
    match List.find (has_status q Status.queued) (queue q) with
    | None => q
    | Some r =>
        let q := set_isProcessing true q in
        let q := set_message_status r Status.processing q in
        let q := notifyQueueChange q in
        if processCallback q then
          let q := emit (Process r (message_text q r)) q in
          if throws then processed r q
          else set_tasks (tasks q ++ [r]) q
        else processed r q
    end.

(** [addMessage(text)]; [id] is the string made of the time and a random
    number, [timestamp] the time read for the field of that name.  The
    result is the new state and the message returned. *)
Definition addMessage (id text : str) (timestamp : Z) (throws : bool)
    (q : MessageQueue) : MessageQueue * nat :=
  let r := length (heap q) in
  let message := {| id := id; text := text; timestamp := timestamp;
                    status := Status.queued |} in
  let q := set_heap (heap q ++ [message]) q in
  let q := set_queue (queue q ++ [r]) q in
  let q := notifyQueueChange q in
  (if negb (isProcessing q) then processNext throws q else q, r).

(** [getQueuedMessages()] and [getQueueLength()] *)
Definition getQueuedMessages (q : MessageQueue) : list nat :=
  List.filter (has_status q Status.queued) (queue q).

Definition getQueueLength (q : MessageQueue) : nat :=
  length (getQueuedMessages q).

(** [isCurrentlyProcessing()] *)
Definition isCurrentlyProcessing (q : MessageQueue) : bool := isProcessing q.

(** [clearQueue()] *)
Definition clearQueue (q : MessageQueue) : MessageQueue :=
  notifyQueueChange
    (set_queue (List.filter (has_status q Status.processing) (queue q)) q).

(** [m.id === id && m.status === 'queued'] *)
Definition removable (q : MessageQueue) (i : str) (r : nat) : bool :=
  match heap q !! r with
  | Some m => bool_decide (id m = i) && Status.eqb (status m) Status.queued
  | None => false
  end.

(** [findIndex] followed by [splice(index, 1)]: the list without its first
    element that passes the test, if there is one. *)
Fixpoint remove_first (f : nat -> bool) (l : list nat) : option (list nat) :=
  match l with
  | [] => None
  | r :: l' =>
      if f r then Some l'
      else cons r <$> remove_first f l'
  end.

(** [removeMessage(id)] *)
Definition removeMessage (i : str) (q : MessageQueue) : MessageQueue * bool :=
  match remove_first (removable q i) (queue q) with
  | Some l => (notifyQueueChange (set_queue l q), true)
  | None => (q, false)
  end.

(** What can happen to a queue: the calls of its interface, the settling of
    the promise of a callback call (fulfilled or rejected), and the firing
    of one of the pending timers. *)
Inductive Event :=
| AddMessage (id text : str) (timestamp : Z) (throws : bool)
| CallbackDone (r : nat) (fulfilled : bool)
| Timeout (throws : bool)
| ClearQueue
| RemoveMessage (id : str).

Fixpoint remove_task (r : nat) (ts : list nat) : list nat :=
  match ts with
  | [] => []
  | t :: ts' => if t =? r then ts' else t :: remove_task r ts'
  end.

(** One event; [None] when it cannot happen (no such call in flight, no
    timer pending).  Whether the promise was fulfilled or rejected, the
    message ends as completed. *)
Definition step (q : MessageQueue) (e : Event) : option MessageQueue :=
  match e with
  | AddMessage i txt ts throws => Some (fst (addMessage i txt ts throws q))
  | CallbackDone r _ =>
      if existsb (Nat.eqb r) (tasks q)
      then Some (processed r (set_tasks (remove_task r (tasks q)) q))
      else None
  | Timeout throws =>
      match timeouts q with
      | S n => Some (processNext throws (set_timeouts n q))
      | 0 => None
      end
  | ClearQueue => Some (clearQueue q)
  | RemoveMessage i => Some (fst (removeMessage i q))
  end.

Fixpoint run (q : MessageQueue) (es : list Event) : option MessageQueue :=
  match es with
  | [] => Some q
  | e :: es' =>
      match step q e with
      | Some q' => run q' es'
      | None => None
      end
  end.

(** The messages handed to the callback, in the order of the calls. *)
Definition process_of (e : Effect) : option (nat * str) :=
  match e with
  | Process r message => Some (r, message)
  | QueueChange _ => None
  end.

Definition handled (q : MessageQueue) : list (nat * str) :=
  omap process_of (log q).

End Messages.

(* ===================================================================== *)
(** ** Streaming TTS scheduler: streams that overlap *)
(* ===================================================================== *)

(** [TTS] follows the first [streamText] call on a manager.  A later call
    may find the [playbackLoop] of an earlier one suspended at an [await].
    Nothing ends that loop: [stop()] sets [isStopped], but [streamText]
    sets it back to [false] before the loop runs again, and the loop goes
    on with the cursor and the queue of the manager, which are those of the
    new stream.  Here the manager is modelled with all the loops that are
    alive.

    - Items are objects: a suspended loop and the handlers of a synthesis
      call keep the item they were started with when [this.queue] is
      replaced.  They live in [heap]; a reference is the position in it.
    - The promise made by [startGenerating] is an object too:
      [generatePromises] maps ids to such objects and is cleared by
      [stop()], while a loop awaits the object it read from the map.
    - An [await] on a promise that is already settled, or on a value that
      is no promise, lets the jobs queued before it run first: [ready] is
      the queue of continuations waiting for their turn.  It is empty
      between two events. *)
Module Streams.
Import Js.

Definition Buffer := TTS.Buffer.

(** [`tts-${Date.now()}-${index}`]: the time read and the index. *)
Definition Id : Type := Z * nat.

Record TTSQueueItem := {
  id : Id;
  text : str;
  audioBuffer : option Buffer;
  status : TTS.Status.t
}.

Definition with_status (s : TTS.Status.t) (it : TTSQueueItem)
  : TTSQueueItem :=
  {| id := id it; text := text it; audioBuffer := audioBuffer it;
     status := s |}.

Definition with_audio (b : Buffer) (it : TTSQueueItem) : TTSQueueItem :=
  {| id := id it; text := text it; audioBuffer := Some b;
     status := status it |}.

(** The promise [synthesize(...).then(...).catch(...)] of one
    [startGenerating] call: the item its handlers close over, and whether
    it is settled. *)
Record Call := { target : nat; settled : bool }.

(** Where a [playbackLoop] call goes on.  [item] and [audio] are the local
    constants [item] and [base64] of the pass in progress. *)
Inductive Point :=
| Head                          (* the test of the outer [while] *)
| Inner                         (* the test of [while (this.isPaused ...)] *)
| AfterGenerate (item : nat)    (* after [await promise] *)
| AfterAdd (item : nat) (audio : Buffer)
                                (* after [await player.addToQueue(...)] *)
| AfterPlay (item : nat).       (* at [item.status = 'completed'] *)

(** Calls that leave the manager, in the order they are made; [item] is
    the item object a call is made for. *)
Inductive Effect :=
| Synthesize (item : nat) (txt : str)
| StateChange (s : TTS.State.t)
| SentenceStart (txt : str) (index total : nat)
| BrowserAudio (item : nat) (audio : Buffer) (txt : str) (isLast : bool)
| PlayerAddToQueue (item : nat) (audio : Buffer) (txt : str)
| WebviewAudio (audio : Buffer) (txt : str) (index total : nat)
| PlayerStop
| PlayerPause
| PlayerResume
| Complete.

Record Manager := {
  options : TTS.Options;
  heap : list TTSQueueItem;
  queue : list nat;
  state : TTS.State.t;
  currentIndex : nat;
  isPaused : bool;
  isStopped : bool;
  calls : list Call;
  generatePromises : list (Id * nat);
  awaiting : list (nat * Point);   (* loops at [await promise], by promise,
                                      in the order they began to wait *)
  sleepers : nat;                  (* loops at [await this.sleep(100)] *)
  ready : list Point;
  trace : list Effect
}.

Definition set_heap (x : list TTSQueueItem) (m : Manager) : Manager :=
  {| options := options m; heap := x; queue := queue m; state := state m;
     currentIndex := currentIndex m; isPaused := isPaused m;
     isStopped := isStopped m; calls := calls m;
     generatePromises := generatePromises m; awaiting := awaiting m;
     sleepers := sleepers m; ready := ready m; trace := trace m |}.

Definition set_queue (x : list nat) (m : Manager) : Manager :=
  {| options := options m; heap := heap m; queue := x; state := state m;
     currentIndex := currentIndex m; isPaused := isPaused m;
     isStopped := isStopped m; calls := calls m;
     generatePromises := generatePromises m; awaiting := awaiting m;
     sleepers := sleepers m; ready := ready m; trace := trace m |}.

Definition set_state (x : TTS.State.t) (m : Manager) : Manager :=
  {| options := options m; heap := heap m; queue := queue m; state := x;
     currentIndex := currentIndex m; isPaused := isPaused m;
     isStopped := isStopped m; calls := calls m;
     generatePromises := generatePromises m; awaiting := awaiting m;
     sleepers := sleepers m; ready := ready m; trace := trace m |}.

Definition set_currentIndex (x : nat) (m : Manager) : Manager :=
  {| options := options m; heap := heap m; queue := queue m;
     state := state m; currentIndex := x; isPaused := isPaused m;
     isStopped := isStopped m; calls := calls m;
     generatePromises := generatePromises m; awaiting := awaiting m;
     sleepers := sleepers m; ready := ready m; trace := trace m |}.

Definition set_isPaused (x : bool) (m : Manager) : Manager :=
  {| options := options m; heap := heap m; queue := queue m;
     state := state m; currentIndex := currentIndex m; isPaused := x;
     isStopped := isStopped m; calls := calls m;
     generatePromises := generatePromises m; awaiting := awaiting m;
     sleepers := sleepers m; ready := ready m; trace := trace m |}.

Definition set_isStopped (x : bool) (m : Manager) : Manager :=
  {| options := options m; heap := heap m; queue := queue m;
     state := state m; currentIndex := currentIndex m;
     isPaused := isPaused m; isStopped := x; calls := calls m;
     generatePromises := generatePromises m; awaiting := awaiting m;
     sleepers := sleepers m; ready := ready m; trace := trace m |}.

Definition set_calls (x : list Call) (m : Manager) : Manager :=
  {| options := options m; heap := heap m; queue := queue m;
     state := state m; currentIndex := currentIndex m;
     isPaused := isPaused m; isStopped := isStopped m; calls := x;
     generatePromises := generatePromises m; awaiting := awaiting m;
     sleepers := sleepers m; ready := ready m; trace := trace m |}.

Definition set_generatePromises (x : list (Id * nat)) (m : Manager)
  : Manager :=
  {| options := options m; heap := heap m; queue := queue m;
     state := state m; currentIndex := currentIndex m;
     isPaused := isPaused m; isStopped := isStopped m; calls := calls m;
     generatePromises := x; awaiting := awaiting m;
     sleepers := sleepers m; ready := ready m; trace := trace m |}.

Definition set_awaiting (x : list (nat * Point)) (m : Manager) : Manager :=
  {| options := options m; heap := heap m; queue := queue m;
     state := state m; currentIndex := currentIndex m;
     isPaused := isPaused m; isStopped := isStopped m; calls := calls m;
     generatePromises := generatePromises m; awaiting := x;
     sleepers := sleepers m; ready := ready m; trace := trace m |}.

Definition set_sleepers (x : nat) (m : Manager) : Manager :=
  {| options := options m; heap := heap m; queue := queue m;
     state := state m; currentIndex := currentIndex m;
     isPaused := isPaused m; isStopped := isStopped m; calls := calls m;
     generatePromises := generatePromises m; awaiting := awaiting m;
     sleepers := x; ready := ready m; trace := trace m |}.

Definition set_ready (x : list Point) (m : Manager) : Manager :=
  {| options := options m; heap := heap m; queue := queue m;
     state := state m; currentIndex := currentIndex m;
     isPaused := isPaused m; isStopped := isStopped m; calls := calls m;
     generatePromises := generatePromises m; awaiting := awaiting m;
     sleepers := sleepers m; ready := x; trace := trace m |}.

Definition emit (e : Effect) (m : Manager) : Manager :=
  {| options := options m; heap := heap m; queue := queue m;
     state := state m; currentIndex := currentIndex m;
     isPaused := isPaused m; isStopped := isStopped m; calls := calls m;
     generatePromises := generatePromises m; awaiting := awaiting m;
     sleepers := sleepers m; ready := ready m; trace := trace m ++ [e] |}.

(** A call through an optional callback. *)
Definition emit_if (present : bool) (e : Effect) (m : Manager) : Manager :=
  if present then emit e m else m.

(** [new StreamingTTSManager(voiceService, options)] *)
Definition create (o : TTS.Options) : Manager :=
  {| options := o; heap := []; queue := []; state := TTS.State.idle;
     currentIndex := 0; isPaused := false; isStopped := false; calls := [];
     generatePromises := []; awaiting := []; sleepers := 0; ready := [];
     trace := [] |}.

Definition id_eqb (a b : Id) : bool :=
  (fst a =? fst b)%Z && (snd a =? snd b).

(** [Map.prototype.get] and [set] on [generatePromises]. *)
Fixpoint promise_get (g : list (Id * nat)) (k : Id) : option nat :=
  match g with
  | [] => None
  | (k', p) :: g' => if id_eqb k' k then Some p else promise_get g' k
  end.

Fixpoint promise_set (g : list (Id * nat)) (k : Id) (p : nat)
  : list (Id * nat) :=
  match g with
  | [] => [(k, p)]
  | (k', p') :: g' =>
      if id_eqb k' k then (k, p) :: g' else (k', p') :: promise_set g' k p
  end.

(** [item.status = s] on the object [r]. *)
Definition set_item_status (r : nat) (s : TTS.Status.t) (m : Manager)
  : Manager :=
  set_heap (alter (with_status s) r (heap m)) m.

Definition has_status (m : Manager) (s : TTS.Status.t) (r : nat) : bool :=
  match heap m !! r with
  | Some it => TTS.Status.eqb (status it) s
  | None => false
  end.

Definition setState (s : TTS.State.t) (m : Manager) : Manager :=
  emit_if (TTS.onStateChange (options m)) (StateChange s) (set_state s m).

(** [startGenerating(index)] up to its return: the synthesis call is made
    and its promise registered under the id of the item. *)
Definition startGenerating (index : nat) (m : Manager) : Manager :=
  match queue m !! index with
  | None => m
  | Some r =>
      match heap m !! r with
      | Some item =>
          if TTS.Status.eqb (status item) TTS.Status.pending then
            let m := set_item_status r TTS.Status.generating m in
            let m := emit (Synthesize r (text item)) m in
            let promise := length (calls m) in
            let m := set_calls
                       (calls m ++ [{| target := r; settled := false |}])
                       m in
            set_generatePromises
              (promise_set (generatePromises m) (id item) promise) m
          else m
      | None => m
      end
  end.

(** The [then] and [catch] handlers of the promise of a [startGenerating]
    call, for the item they close over. *)
Definition synthesis_handlers (r : nat) (result : TTS.Synthesis)
    (m : Manager) : Manager :=
  match result with
  | TTS.Audio b =>
      if negb (isStopped m) then
        set_heap
          (alter (fun it => with_status TTS.Status.ready (with_audio b it))
                 r (heap m)) m
      else m
  | TTS.Failed => set_item_status r TTS.Status.cancelled m
  end.

(** [for (const item of this.queue) if (item.status === 'pending' ||
    item.status === 'generating') item.status = 'cancelled'] *)
Definition cancel_unfinished (it : TTSQueueItem) : TTSQueueItem :=
  if TTS.Status.eqb (status it) TTS.Status.pending
     || TTS.Status.eqb (status it) TTS.Status.generating
  then with_status TTS.Status.cancelled it else it.

Definition cancel_all (q : list nat) (m : Manager) : Manager :=
  foldl (fun m r => set_heap (alter cancel_unfinished r (heap m)) m) m q.

(** [stop()] *)
Definition stop (m : Manager) : Manager :=
  let m := set_isStopped true m in
  let m := set_isPaused false m in
  let m := cancel_all (queue m) m in
  let m := emit PlayerStop m in
  let m := set_queue [] m in
  let m := set_currentIndex 0 m in
  let m := set_generatePromises [] m in
  setState TTS.State.idle m.

(** [pause()] and [resume()] *)
Definition pause (m : Manager) : Manager :=
  if TTS.State.eqb (state m) TTS.State.playing then
    emit PlayerPause (setState TTS.State.paused (set_isPaused true m))
  else m.

Definition resume (m : Manager) : Manager :=
  if TTS.State.eqb (state m) TTS.State.paused then
    emit PlayerResume (setState TTS.State.playing (set_isPaused false m))
  else m.

(** "Start generating next sentence while playing current", for the index
    [j]. *)
Definition pregenerate (j : nat) (m : Manager) : Manager :=
  if j <? length (queue m) then
    match queue m !! j with
    | Some r =>
        if has_status m TTS.Status.pending r then startGenerating j m else m
    | None => m
    end
  else m.

(** [await promise]: the loop goes on at [k] when the promise is settled,
    after the continuations that are ready already. *)
Definition await (promise : nat) (k : Point) (m : Manager) : Manager :=
  match calls m !! promise with
  | Some c =>
      if settled c then set_ready (ready m ++ [k]) m
      else set_awaiting (awaiting m ++ [(promise, k)]) m
  | None => m
  end.

(** After the loop: "All done". *)
Definition finish (m : Manager) : Manager :=
  let m := setState TTS.State.idle m in
  if negb (isStopped m)
  then emit_if (TTS.onComplete (options m)) Complete m else m.

(** One [playbackLoop] call from the point [pt] to its next [await] or to
    its end.  The loop reads [this.queue], [this.currentIndex] and the
    flags where the code reads them, and [item] where the code reads the
    local constant.  [None]: out of fuel. *)
Fixpoint go (fuel : nat) (pt : Point) (m : Manager) : option Manager :=
  match fuel with
  | 0 => None
  | S fuel =>
      match pt with
      | Head =>
          if (currentIndex m <? length (queue m)) && negb (isStopped m)
          then go fuel Inner m
          else Some (finish m)
      | Inner =>
          if isPaused m && negb (isStopped m) then
            Some (set_sleepers (S (sleepers m)) m)
          else if isStopped m then Some (finish m)
          else
            match queue m !! currentIndex m with
            | None =>
                (* [item] is [undefined]: reading [item.status] throws and
                   the call ends, rejected *)
                Some m
            | Some r =>
                if has_status m TTS.Status.pending r
                   || has_status m TTS.Status.generating r then
                  match heap m !! r with
                  | Some item =>
                      match promise_get (generatePromises m) (id item) with
                      | Some promise => Some (await promise (AfterGenerate r) m)
                      | None =>
                          let m := startGenerating (currentIndex m) m in
                          match promise_get (generatePromises m) (id item)
                          with
                          | Some promise =>
                              Some (await promise (AfterGenerate r) m)
                          | None =>
                              Some (set_ready (ready m ++ [AfterGenerate r]) m)
                          end
                      end
                  | None => Some m
                  end
                else go fuel (AfterGenerate r) m
            end
      | AfterGenerate r =>
          if isStopped m || has_status m TTS.Status.cancelled r
          then Some (finish m)
          else
            let m := pregenerate (currentIndex m + 1) m in
            let m := pregenerate (currentIndex m + 2) m in
            match heap m !! r with
            | Some item =>
                match audioBuffer item with
                | Some audio =>
                    if TTS.Status.eqb (status item) TTS.Status.ready then
                      let m := setState TTS.State.playing m in
                      let m := set_item_status r TTS.Status.playing m in
                      let index := currentIndex m in
                      let total := length (queue m) in
                      let m := emit_if (TTS.onSentenceStart (options m))
                                 (SentenceStart (text item) index total) m in
                      let isLast :=
                        (Z.of_nat index =? Z.of_nat total - 1)%Z in
                      let browserConnected :=
                        match TTS.isBrowserConnected (options m) with
                        | Some f => f index
                        | None => false
                        end in
                      if browserConnected && TTS.onBrowserAudio (options m)
                      then
                        go fuel (AfterPlay r)
                           (emit (BrowserAudio r audio (text item) isLast) m)
                      else
                        let m := emit (PlayerAddToQueue r audio (text item))
                                      m in
                        Some (set_ready (ready m ++ [AfterAdd r audio]) m)
                    else go fuel Head (set_currentIndex (S (currentIndex m)) m)
                | None =>
                    go fuel Head (set_currentIndex (S (currentIndex m)) m)
                end
            | None => Some m
            end
      | AfterAdd r audio =>
          let txt := match heap m !! r with
                     | Some item => text item
                     | None => []
                     end in
          let m := emit_if (TTS.onWebviewAudio (options m))
                     (WebviewAudio audio txt (currentIndex m)
                        (length (queue m))) m in
          go fuel (AfterPlay r) m
      | AfterPlay r =>
          let m := set_item_status r TTS.Status.completed m in
          go fuel Head (set_currentIndex (S (currentIndex m)) m)
      end
  end.

(** The continuations that are ready run one after the other, those they
    make ready after them.  [None]: out of fuel. *)
Fixpoint drain (fuel : nat) (m : Manager) : option Manager :=
  match ready m with
  | [] => Some m
  | pt :: rest =>
      match fuel with
      | 0 => None
      | S fuel' =>
          match go fuel pt (set_ready rest m) with
          | Some m' => drain fuel' m'
          | None => None
          end
      end
  end.

Definition new_item (now : nat -> Z) (index : nat) (sentence : str)
  : TTSQueueItem :=
  {| id := (now index, index); text := sentence; audioBuffer := None;
     status := TTS.Status.pending |}.

(** [streamText(text)] up to the first [await] of its [playbackLoop] call
    that takes time; [now i] is what [Date.now()] returns for the id of
    the item at index [i].  The promise of [await this.stop()] is settled
    when it is awaited and no continuation is ready when the call is made,
    so the call goes on at once; a suspended loop does not run in
    between. *)
Definition streamText (fuel : nat) (text : str) (now : nat -> Z)
    (m : Manager) : option Manager :=
  let m := stop m in
  let m := set_queue [] m in
  let m := set_currentIndex 0 m in
  let m := set_isPaused false m in
  let m := set_isStopped false m in
  let m := set_generatePromises [] m in
  let sentences := Chunker.splitIntoSentences text in
  if length sentences =? 0 then Some m
  else
    let first := length (heap m) in
    let m := set_heap (heap m ++ imap (new_item now) sentences) m in
    let m := set_queue (seq first (length sentences)) m in
    let m := setState TTS.State.generating m in
    let m := startGenerating 0 m in
    let m := if 1 <? length sentences then startGenerating 1 m else m in
    match go fuel Head m with
    | Some m => drain fuel m
    | None => None
    end.

(** What can happen to a manager: a call of [streamText], [pause] or
    [resume], the return of a synthesis call (by the promise made for it),
    and the end of a sleep of one of the loops. *)
Inductive Event :=
| StreamText (text : str) (now : nat -> Z)
| SynthesisDone (promise : nat) (result : TTS.Synthesis)
| SleepDone
| Pause
| Resume.

Definition waits_for (promise : nat) (w : nat * Point) : bool :=
  fst w =? promise.

(** One event with everything that runs before control goes back to the
    event loop.  [None]: the event cannot happen in [m] (no such synthesis
    call in flight, no loop asleep), or [fuel] is not enough. *)
Definition step (fuel : nat) (m : Manager) (e : Event) : option Manager :=
  match e with
  | StreamText text now => streamText fuel text now m
  | SynthesisDone promise result =>
      match calls m !! promise with
      | Some c =>
          if settled c then None
          else
            let m := synthesis_handlers (target c) result m in
            let m := set_calls
                       (<[promise := {| target := target c;
                                        settled := true |}]> (calls m)) m in
            let woken := List.filter (waits_for promise) (awaiting m) in
            let m := set_awaiting
                       (List.filter (fun w => negb (waits_for promise w))
                                    (awaiting m)) m in
            drain fuel (set_ready (ready m ++ map snd woken) m)
      | None => None
      end
  | SleepDone =>
      match sleepers m with
      | S n =>
          match go fuel Inner (set_sleepers n m) with
          | Some m => drain fuel m
          | None => None
          end
      | 0 => None
      end
  | Pause => Some (pause m)
  | Resume => Some (resume m)
  end.

Fixpoint run (fuel : nat) (m : Manager) (es : list Event) : option Manager :=
  match es with
  | [] => Some m
  | e :: es' =>
      match step fuel m e with
      | Some m' => run fuel m' es'
      | None => None
      end
  end.

(** The items handed to a playback target so far, in the order of the
    calls. *)
Definition handed_item (e : Effect) : option nat :=
  match e with
  | BrowserAudio r _ _ _ => Some r
  | PlayerAddToQueue r _ _ => Some r
  | _ => None
  end.

Definition handed (m : Manager) : list nat := omap handed_item (trace m).

Definition text_of (m : Manager) (r : nat) : str :=
  match heap m !! r with
  | Some item => text item
  | None => []
  end.

End Streams.


(* ===================================================================== *)
(** ** Inputs of the examples *)
(* ===================================================================== *)

Module Examples.
Import Js.

(** A short text, and a text of three sentences of 112 code units each. *)
Definition short_text : str := lit "  Hello there. How are you?  ".

Definition sentence_of (c : N) : str := c :: repeat 97%N 110 ++ lit ".".

Definition three_sentences : str :=
  sentence_of 65 ++ lit " " ++ sentence_of 66 ++ lit "  " ++ sentence_of 67.

(** A stream played on the local [AudioPlayer]. *)
Definition local_playback : TTS.Options :=
  {| TTS.onBrowserAudio := false; TTS.isBrowserConnected := None;
     TTS.onWebviewAudio := false; TTS.onStateChange := false;
     TTS.onSentenceStart := false; TTS.onComplete := true |}.

(** The second synthesis call comes back before the first. *)
Definition second_first : list TTS.Event :=
  [ TTS.SynthesisDone 1 (TTS.Audio [2%N]);
    TTS.SynthesisDone 0 (TTS.Audio [1%N]);
    TTS.SynthesisDone 2 (TTS.Audio [3%N]) ].

(** The second synthesis call fails after the third has come back. *)
Definition second_fails : list TTS.Event :=
  [ TTS.SynthesisDone 0 (TTS.Audio [1%N]);
    TTS.SynthesisDone 2 (TTS.Audio [3%N]);
    TTS.SynthesisDone 1 TTS.Failed ].

(** A player with a first item playing (one frame written) and a second
    one pending. *)
Definition playing_then_pending : list Player.Event :=
  [ Player.AddToQueue [1%N] None;
    Player.Decoded 0 (Player.Pcm (repeat 0%N 5000) 48000 1) true;
    Player.AddToQueue [2%N] None;
    Player.Tick 0 ].

Definition player_playing : Player.AudioPlayer :=
  default (Player.create true)
          (Player.run (Player.create true) playing_then_pending).

(** What may follow a [skip()]. *)
Definition after_skip : list Player.Event :=
  [ Player.AddToQueue [3%N] None; Player.Pause; Player.Resume; Player.Skip ].

(** A bridge with a connected session (the current one, its push channel
    open), a session not yet paired, and two permission requests queued. *)
Definition paired_session : Bridge.Session :=
  {| Bridge.code := lit "ABC234"; Bridge.token := lit "token-one";
     Bridge.createdAt := 0; Bridge.lastActivity := 0;
     Bridge.connected := true;
     Bridge.response := Some {| Bridge.writableEnded := false |} |}.

Definition unpaired_session : Bridge.Session :=
  {| Bridge.code := lit "XYZ789"; Bridge.token := lit "token-two";
     Bridge.createdAt := 1000; Bridge.lastActivity := 1000;
     Bridge.connected := false; Bridge.response := None |}.

Definition edit_request : Bridge.Permission :=
  {| Bridge.id := lit "perm-1"; Bridge.tool := lit "Edit";
     Bridge.prompt := lit "Allow editing main.ts" |}.

Definition bash_request : Bridge.Permission :=
  {| Bridge.id := lit "perm-2"; Bridge.tool := lit "Bash";
     Bridge.prompt := lit "Allow running npm test" |}.

Definition bridge : Bridge.Server :=
  {| Bridge.sessions := [ (lit "ABC234", paired_session);
                          (lit "XYZ789", unpaired_session) ];
     Bridge.currentSessionCode := Some (lit "ABC234");
     Bridge.pendingPermissions := [edit_request; bash_request];
     Bridge.onPermissionResponse := true;
     Bridge.trace := [] |}.

(** The samples 0.5, -0.25, 0 and 1, and the rate 48000. *)
Definition quiet_samples : list spec_float :=
  [ S754_finite false 4503599627370496 (-53);
    S754_finite true 4503599627370496 (-54);
    S754_zero false;
    S754_finite false 4503599627370496 (-52) ].

Definition rate_48000 : spec_float := Resample.of_Z 48000.

End Examples.

(* ===================================================================== *)
(** ** More inputs of the examples *)
(* ===================================================================== *)

Module Scenarios.
Import Js.

(** [Math.random()] returning 0, 1/8, 1/4, ... in turn. *)
Definition eighths (i : nat) : Q := (Z.of_nat i # 8)%Q.

(** Three messages added while the callback is still working on the
    first. *)
Definition three_messages : list Messages.Event :=
  [ Messages.AddMessage (lit "msg-1") (lit "first") 10 false;
    Messages.AddMessage (lit "msg-2") (lit "second") 20 false;
    Messages.AddMessage (lit "msg-3") (lit "third") 30 false ].

Definition busy_queue : Messages.MessageQueue :=
  default (Messages.create true true)
          (Messages.run (Messages.create true true) three_messages).

(** A player whose first item has just started playing (nothing written
    yet), with a second one pending; the same after the three frames of
    the first item were written; and the frame timer of the first item. *)
Definition player_started : Player.AudioPlayer :=
  default (Player.create true)
          (Player.run (Player.create true)
             [ Player.AddToQueue [1%N] None;
               Player.Decoded 0 (Player.Pcm (repeat 0%N 5000) 48000 1) true;
               Player.AddToQueue [2%N] None ]).

Definition player_written : Player.AudioPlayer :=
  default (Player.create true)
          (Player.run player_started
             [Player.Tick 0; Player.Tick 0; Player.Tick 0]).

Definition first_timer : Player.Timer :=
  {| Player.handle := 0; Player.item := 0; Player.bytesPerFrame := 2048 |}.

(** A second text of three sentences, and a stream of it started while
    the first chunk of [three_sentences] is being synthesised: the
    syntheses come back for the first chunk of the second text, the first
    chunk of the first text, and the third and the second chunk of the
    second text, in this order.  The promises are numbered in the order of
    the [startGenerating] calls: 0 and 1 for the first text, 2 and 3 for
    the second, 4 for its third chunk. *)
Definition xyz_sentences : str :=
  Examples.sentence_of 88 ++ lit " " ++ Examples.sentence_of 89
  ++ lit "  " ++ Examples.sentence_of 90.

Definition restart (bA bX bY bZ : TTS.Buffer) : list Streams.Event :=
  [ Streams.StreamText Examples.three_sentences (fun _ => 1000%Z);
    Streams.StreamText xyz_sentences (fun _ => 2000%Z);
    Streams.SynthesisDone 2 (TTS.Audio bX);
    Streams.SynthesisDone 0 (TTS.Audio bA);
    Streams.SynthesisDone 4 (TTS.Audio bZ);
    Streams.SynthesisDone 3 (TTS.Audio bY) ].

End Scenarios.
(* ===================================================================== *)
(** * Properties *)
(* ===================================================================== *)

(** ** Text chunking *)

Section ChunkerFacts.
Import Js Chunker Examples.

Definition long_enough (c : str) : Prop := minChunkLength <= length c.

Lemma combine_step_long (st : Combine) (sentence : str) :
  Forall long_enough (combined st) ->
  Forall long_enough (combined (combine_step st sentence)).
Proof.
  intros Hst. unfold combine_step.
  destruct (negb (truthy (trim sentence))); [assumption|].
  destruct (length (currentChunk st) =? 0); [assumption|].
  destruct (length (currentChunk st) + length (trim sentence) <?
            minChunkLength * 2); [assumption|].
  destruct (minChunkLength <=? length (currentChunk st)) eqn:Hlong;
    [|assumption].
  cbn [combined]. apply Forall_app. split; [assumption|].
  constructor; [|constructor].
  unfold long_enough. apply Nat.leb_le. exact Hlong.
Qed.

Lemma fold_combine_long (rawSentences : list str) (st : Combine) :
  Forall long_enough (combined st) ->
  Forall long_enough (combined (fold_left combine_step rawSentences st)).
Proof.
  revert st. induction rawSentences as [|s rest IH]; intros st Hst.
  - exact Hst.
  - cbn [fold_left]. apply IH. apply combine_step_long. exact Hst.
Qed.

Lemma combine_loop_long (rawSentences : list str) :
  Forall long_enough (combined (combine_loop rawSentences)).
Proof. apply fold_combine_long. constructor. Qed.

(** Every chunk but the last comes from [combined] as the loop left it. *)
Lemma all_but_last_long (l : list str) (i : nat) (c : str) :
  Forall long_enough (removelast l) ->
  l !! i = Some c -> S i < length l -> long_enough c.
Proof.
  intros Hall Hi Hlt.
  destruct (exists_last (l := l)) as (l' & x & ->).
  { intros ->. cbn in Hlt. lia. }
  rewrite removelast_last in Hall.
  rewrite length_app in Hlt. cbn in Hlt.
  rewrite lookup_app_l in Hi by lia.
  rewrite Forall_forall in Hall. apply Hall.
  apply list_elem_of_lookup. eauto.
Qed.

Lemma splitIntoSentences_removelast (text : str) :
  Forall long_enough (removelast (splitIntoSentences text)).
Proof.
  unfold splitIntoSentences.
  destruct (length text <? shortTextThreshold); [constructor|].
  pose proof (combine_loop_long (split_sentencePattern text)) as Hall.
  set (st := combine_loop (split_sentencePattern text)) in *.
  destruct (truthy (trim (currentChunk st))).
  - destruct (combined st ++ [trim (currentChunk st)]) eqn:E.
    + constructor.
    + rewrite <- E, removelast_last. exact Hall.
  - destruct (combined st) as [|c cs] eqn:E; [constructor|].
    clear E. revert Hall. generalize (c :: cs). intros l Hl.
    induction Hl as [|x l' Hx Hl' IH]; [constructor|].
    destruct l'; [constructor|]. cbn [removelast].
    constructor; assumption.
Qed.

(** C6.  A text shorter than the threshold of 200 code units gives exactly
    one chunk, the trimmed text; for a longer text every chunk except
    possibly the last has at least the minimum chunk length of 100. *)
Theorem splitIntoSentences_chunk_lengths (text : str) :
  (length text < shortTextThreshold ->
   splitIntoSentences text = [trim text]) /\
  (shortTextThreshold <= length text ->
   forall (i : nat) (chunk : str),
     splitIntoSentences text !! i = Some chunk ->
     S i < length (splitIntoSentences text) ->
     minChunkLength <= length chunk).
Proof.
  split.
  - intros Hshort. unfold splitIntoSentences.
    apply Nat.ltb_lt in Hshort. rewrite Hshort. reflexivity.
  - intros _ i chunk Hi Hlt.
    exact (all_but_last_long _ i chunk
             (splitIntoSentences_removelast text) Hi Hlt).
Qed.

Lemma splitIntoSentences_chunk_lengths_witness :
  splitIntoSentences short_text = [lit "Hello there. How are you?"] /\
  (forall (i : nat) (chunk : str),
     splitIntoSentences three_sentences !! i = Some chunk ->
     S i < length (splitIntoSentences three_sentences) ->
     minChunkLength <= length chunk).
Proof.
  split.
  - apply (proj1 (splitIntoSentences_chunk_lengths short_text)).
    apply Nat.ltb_lt. vm_compute. reflexivity.
  - apply (proj2 (splitIntoSentences_chunk_lengths three_sentences)).
    apply Nat.leb_le. vm_compute. reflexivity.
Defined.

Example three_sentences_chunks :
  splitIntoSentences three_sentences =
  [sentence_of 65; sentence_of 66; sentence_of 67].
Proof. vm_compute. reflexivity. Qed.

End ChunkerFacts.
(** ** Streaming TTS scheduler *)

Section TTSFacts.
Import Js TTS Examples.

Lemma promise_get_set (g : list (nat * Promise)) (k k' : nat) (p : Promise) :
  promise_get (promise_set g k p) k' =
  if k =? k' then Some p else promise_get g k'.
Proof.
  induction g as [|[k0 p0] g IH]; cbn.
  - destruct (k =? k'); reflexivity.
  - destruct (k0 =? k) eqn:E0; cbn.
    + apply Nat.eqb_eq in E0. subst k0. destruct (k =? k'); reflexivity.
    + rewrite IH. destruct (k0 =? k') eqn:E1; [|reflexivity].
      apply Nat.eqb_eq in E1. subst k0. rewrite Nat.eqb_sym, E0. reflexivity.
Qed.

Lemma delivered_app (es1 es2 : list Event) (i : nat) :
  delivered (es1 ++ es2) i =
  match delivered es2 i with
  | Some b => Some b
  | None => delivered es1 i
  end.
Proof.
  induction es1 as [|e es1 IH]; cbn.
  - destruct (delivered es2 i); reflexivity.
  - rewrite IH. destruct (delivered es2 i); reflexivity.
Qed.

(** *** Effects change nothing but the trace *)

Lemma handed_emit (e : Effect) (m : Manager) :
  handed (emit e m) = handed m ++ option_list (handed_index e).
Proof.
  unfold handed. cbn. rewrite omap_app. cbn.
  destruct (handed_index e); reflexivity.
Qed.

Lemma handed_chunks_emit (e : Effect) (m : Manager) :
  handed_chunks (emit e m) = handed_chunks m ++ option_list (handed_chunk e).
Proof.
  unfold handed_chunks. cbn. rewrite omap_app. cbn.
  destruct (handed_chunk e); reflexivity.
Qed.


(** *** The invariant of a running stream *)

(** What the item at [i] looks like, given the cursor [ci], the promises
    [g] and the events [es] so far. *)
Definition slot_ok (ci : nat) (g : list (nat * Promise)) (es : list Event)
    (i : nat) (it : TTSQueueItem) : Prop :=
  id it = i /\
  match status it with
  | Status.pending =>
      promise_get g i = None /\ ci <= i /\ audioBuffer it = None
  | Status.generating =>
      promise_get g i = Some Unsettled /\ ci <= i
  | Status.ready =>
      promise_get g i = Some Settled /\ ci <= i /\
      exists b, audioBuffer it = Some b /\ delivered es i = Some b
  | Status.cancelled =>
      promise_get g i = Some Settled /\ ci <= i /\ failed es i
  | Status.playing => False
  | Status.completed =>
      promise_get g i = Some Settled /\ i < ci /\
      exists b, audioBuffer it = Some b /\ delivered es i = Some b
  end.

Definition chunk_of (it : TTSQueueItem) : option (str * Buffer) :=
  pair (text it) <$> audioBuffer it.

(** The invariant at the head of the loop. *)
Record LInv (chunks : list str) (es : list Event) (m : Manager) : Prop := {
  inv_texts : map text (queue m) = chunks;
  inv_running : isStopped m = false;
  inv_cursor : currentIndex m <= length (queue m);
  inv_slots : forall i it, queue m !! i = Some it ->
                slot_ok (currentIndex m) (generatePromises m) es i it;
  inv_handed : handed m = seq 0 (currentIndex m);
  inv_chunks : handed_chunks m = omap chunk_of (take (currentIndex m) (queue m));
  inv_failed : forall i, failed es i ->
                 exists it, queue m !! i = Some it /\
                            status it = Status.cancelled
}.

(** What the stored position of the loop says about the queue. *)
Definition loop_ok (es : list Event) (m : Manager) : Prop :=
  match loop m with
  | Running => False
  | AwaitGenerate i =>
      i = currentIndex m /\
      exists it, queue m !! i = Some it /\ status it = Status.generating
  | AwaitSleep => True
  | Finished =>
      currentIndex m = length (queue m) \/ failed es (currentIndex m)
  end.

Definition Inv (chunks : list str) (es : list Event) (m : Manager) : Prop :=
  LInv chunks es m /\ loop_ok es m.

(** [slot_ok] does not depend on anything but the listed data. *)
Lemma slot_ok_events (ci : nat) g (es es' : list Event) i it :
  slot_ok ci g es i it ->
  (forall b, delivered es i = Some b -> delivered es' i = Some b) ->
  (failed es i -> failed es' i) ->
  slot_ok ci g es' i it.
Proof.
  unfold slot_ok. intros [Hid H] Hd Hf. split; [exact Hid|].
  destruct (status it); try exact H.
  - destruct H as (? & ? & b & ? & ?). eauto 10.
  - destruct H as (? & ? & b & ? & ?). eauto 10.
  - destruct H as (? & ? & ?). eauto.
Qed.


(** *** What the pieces of the loop do *)

Lemma status_eqb_eq (a b : Status.t) : Status.eqb a b = true <-> a = b.
Proof. destruct a, b; cbn; split; intros H; try reflexivity; discriminate H. Qed.

Lemma map_text_alter_status (s : Status.t) (j : nat) (q : list TTSQueueItem) :
  map text (alter (with_status s) j q) = map text q.
Proof.
  revert j. induction q as [|it q IH]; intros [|j]; cbn; try reflexivity.
  f_equal. apply IH.
Qed.

(** [startGenerating j] on a pending item inside the look-ahead window. *)
Lemma startGenerating_LInv chunks es (j : nat) (m : Manager) :
  LInv chunks es m -> LInv chunks es (startGenerating j m).
Proof.
  intros [Htexts Hrun Hcur Hslots Hhanded Hchunks Hfailed].
  unfold startGenerating.
  destruct (queue m !! j) as [item|] eqn:Hj; [|by constructor].
  destruct (Status.eqb (status item) Status.pending) eqn:Hp; [|by constructor].
  apply status_eqb_eq in Hp.
  pose proof (Hslots j item Hj) as [Hid Hitem]. rewrite Hp in Hitem.
  destruct Hitem as (Hnone & Hle & Hnoaudio).
  constructor; cbn.
  - rewrite map_text_alter_status. exact Htexts.
  - exact Hrun.
  - rewrite length_alter. exact Hcur.
  - intros i it Hi. rewrite Hid.
    destruct (decide (j = i)) as [->|Hne].
    + rewrite list_lookup_alter_eq, Hj in Hi. cbn in Hi.
      injection Hi as <-. split; [exact Hid|]. cbn.
      rewrite promise_get_set, Nat.eqb_refl. split; [reflexivity|exact Hle].
    + rewrite list_lookup_alter_ne in Hi by exact Hne.
      destruct (Hslots i it Hi) as [Hid' Hit]. split; [exact Hid'|].
      rewrite promise_get_set.
      destruct (j =? i) eqn:E; [apply Nat.eqb_eq in E; contradiction|].
      exact Hit.
  - unfold handed in *. rewrite omap_app. cbn. rewrite app_nil_r.
    exact Hhanded.
  - unfold handed_chunks in *. rewrite omap_app. cbn. rewrite app_nil_r.
    rewrite take_alter_ge by exact Hle. exact Hchunks.
  - intros i Hf. destruct (Hfailed i Hf) as (it & Hit & Hc).
    exists it. split; [|exact Hc].
    rewrite list_lookup_alter_ne; [exact Hit|].
    intros <-. rewrite Hj in Hit. injection Hit as <-.
    rewrite Hp in Hc. discriminate Hc.
Qed.

Lemma startGenerating_frame (j : nat) (m : Manager) :
  currentIndex (startGenerating j m) = currentIndex m /\
  isStopped (startGenerating j m) = isStopped m /\
  isPaused (startGenerating j m) = isPaused m /\
  options (startGenerating j m) = options m /\
  loop (startGenerating j m) = loop m /\
  length (queue (startGenerating j m)) = length (queue m).
Proof.
  unfold startGenerating.
  destruct (queue m !! j) as [item|]; [|by repeat split].
  destruct (Status.eqb (status item) Status.pending); [|by repeat split].
  cbn. rewrite length_alter. by repeat split.
Qed.

(** Items other than [j] are left alone by [startGenerating j]; the item
    at [j] keeps its status unless it was pending. *)
Lemma startGenerating_lookup (j i : nat) (m : Manager) (it : TTSQueueItem) :
  queue m !! i = Some it ->
  status it <> Status.pending ->
  queue (startGenerating j m) !! i = Some it.
Proof.
  intros Hi Hnp. unfold startGenerating.
  destruct (queue m !! j) as [item|] eqn:Hj; [|exact Hi].
  destruct (Status.eqb (status item) Status.pending) eqn:Hp; [|exact Hi].
  apply status_eqb_eq in Hp. cbn.
  destruct (decide (j = i)) as [->|Hne].
  - rewrite Hi in Hj. injection Hj as ->. contradiction.
  - rewrite list_lookup_alter_ne by exact Hne. exact Hi.
Qed.

Lemma pregenerate_LInv chunks es (j : nat) (m : Manager) :
  LInv chunks es m -> LInv chunks es (pregenerate j m).
Proof.
  intros H. unfold pregenerate.
  destruct (j <? length (queue m)); [|exact H].
  destruct (queue m !! j) as [nextItem|]; [|exact H].
  destruct (Status.eqb (status nextItem) Status.pending); [|exact H].
  apply startGenerating_LInv. exact H.
Qed.

Lemma pregenerate_frame (j : nat) (m : Manager) :
  currentIndex (pregenerate j m) = currentIndex m /\
  isStopped (pregenerate j m) = isStopped m /\
  isPaused (pregenerate j m) = isPaused m /\
  options (pregenerate j m) = options m /\
  loop (pregenerate j m) = loop m /\
  length (queue (pregenerate j m)) = length (queue m).
Proof.
  unfold pregenerate.
  destruct (j <? length (queue m)); [|by repeat split].
  destruct (queue m !! j) as [nextItem|]; [|by repeat split].
  destruct (Status.eqb (status nextItem) Status.pending); [|by repeat split].
  apply startGenerating_frame.
Qed.

Lemma pregenerate_lookup (j i : nat) (m : Manager) (it : TTSQueueItem) :
  queue m !! i = Some it ->
  status it <> Status.pending ->
  queue (pregenerate j m) !! i = Some it.
Proof.
  intros Hi Hnp. unfold pregenerate.
  destruct (j <? length (queue m)); [|exact Hi].
  destruct (queue m !! j) as [nextItem|]; [|exact Hi].
  destruct (Status.eqb (status nextItem) Status.pending); [|exact Hi].
  apply startGenerating_lookup; assumption.
Qed.


(** "Play current item" on a ready item, followed by the increment of the
    cursor. *)
Lemma play_current_spec (m : Manager) (item : TTSQueueItem) (audio : Buffer) :
  queue m !! currentIndex m = Some item ->
  status item = Status.ready ->
  audioBuffer item = Some audio ->
  let m' := play_current m in
  queue m' = alter (with_status Status.completed) (currentIndex m) (queue m) /\
  currentIndex m' = currentIndex m /\
  isStopped m' = isStopped m /\
  isPaused m' = isPaused m /\
  options m' = options m /\
  generatePromises m' = generatePromises m /\
  loop m' = loop m /\
  handed m' = handed m ++ [currentIndex m] /\
  handed_chunks m' = handed_chunks m ++ [(text item, audio)].
Proof.
  intros Hi Hready Haudio. unfold play_current.
  rewrite Hi, Haudio, Hready. cbn [Status.eqb].
  unfold setState, emit_if, set_item_status, handed, handed_chunks.
  destruct m as [[oBrowser oConn oWeb oState oStart oDone] q st ci ip isS g l tr].
  cbn in *.
  assert (Halter : alter (with_status Status.completed) ci
                     (alter (with_status Status.playing) ci q)
                   = alter (with_status Status.completed) ci q).
  { rewrite list_alter_alter_eq. apply list_alter_ext; [|reflexivity].
    intros x _. reflexivity. }
  destruct oState, oStart, oBrowser, oWeb, oConn as [f|];
    cbn; try destruct (f ci); cbn;
    rewrite ?Halter, ?omap_app; cbn;
    rewrite ?app_nil_r, <- ?app_assoc; cbn;
    repeat split; reflexivity.
Qed.

Lemma after_ready_next chunks es (m : Manager) (item : TTSQueueItem) :
  LInv chunks es m ->
  queue m !! currentIndex m = Some item ->
  status item = Status.ready ->
  exists m',
    after_ready m = Next m' /\ LInv chunks es m' /\
    currentIndex m' = S (currentIndex m) /\
    length (queue m') = length (queue m) /\
    loop m' = loop m.
Proof.
  intros HI Hi Hready. unfold after_ready. rewrite Hi, Hready.
  rewrite (inv_running _ _ _ HI). cbn [orb Status.eqb].
  set (m1 := pregenerate (currentIndex m + 1) m).
  assert (H1 : LInv chunks es m1) by (apply pregenerate_LInv; exact HI).
  destruct (pregenerate_frame (currentIndex m + 1) m)
    as (Hc1 & Hs1 & Hp1 & Ho1 & Hl1 & Hn1). fold m1 in Hc1, Hs1, Hp1, Ho1, Hl1, Hn1.
  assert (Hi1 : queue m1 !! currentIndex m = Some item).
  { apply pregenerate_lookup; [exact Hi|]. rewrite Hready. discriminate. }
  set (m2 := pregenerate (currentIndex m1 + 2) m1).
  assert (H2 : LInv chunks es m2) by (apply pregenerate_LInv; exact H1).
  destruct (pregenerate_frame (currentIndex m1 + 2) m1)
    as (Hc2 & Hs2 & Hp2 & Ho2 & Hl2 & Hn2). fold m2 in Hc2, Hs2, Hp2, Ho2, Hl2, Hn2.
  assert (Hi2 : queue m2 !! currentIndex m2 = Some item).
  { rewrite Hc2, Hc1. apply pregenerate_lookup; [exact Hi1|].
    rewrite Hready. discriminate. }
  destruct (inv_slots _ _ _ H2 _ _ Hi2) as [Hid Hslot].
  rewrite Hready in Hslot. destruct Hslot as (Hset & _ & b & Hb & Hdel).
  destruct (play_current_spec m2 item b Hi2 Hready Hb)
    as (Hq & Hc & Hs & Hp & Ho & Hg & Hl & Hh & Hhc).
  set (m3 := play_current m2) in *.
  exists (set_currentIndex (currentIndex m3 + 1) m3).
  split; [reflexivity|].
  destruct H2 as [Htexts Hrun Hcur Hslots Hhanded Hchunks Hfailed].
  assert (Hlt : currentIndex m2 < length (queue m2)).
  { apply lookup_lt_is_Some. eauto. }
  split; [constructor; cbn|].
  - rewrite Hq, map_text_alter_status. exact Htexts.
  - rewrite Hs. exact Hrun.
  - rewrite Hq, length_alter, Hc. lia.
  - intros i it Hit. rewrite Hq in Hit. rewrite Hc, Hg.
    destruct (decide (currentIndex m2 = i)) as [<-|Hne].
    + rewrite list_lookup_alter_eq, Hi2 in Hit. cbn in Hit.
      injection Hit as <-. split; [exact Hid|]. cbn.
      split; [exact Hset|]. split; [lia|]. eauto.
    + rewrite list_lookup_alter_ne in Hit by exact Hne.
      destruct (Hslots i it Hit) as [Hid' Hit']. split; [exact Hid'|].
      destruct (status it); try exact Hit'.
      * destruct Hit' as (? & ? & ?). repeat split; [assumption|lia|assumption].
      * destruct Hit' as (? & ?). split; [assumption|lia].
      * destruct Hit' as (? & ? & ?). repeat split; [assumption|lia|assumption].
      * destruct Hit' as (? & ? & ?). repeat split; [assumption|lia|assumption].
      * destruct Hit' as (? & ? & ?). repeat split; [assumption|lia|assumption].
  - change (handed m3 = seq 0 (currentIndex m3 + 1)).
    rewrite Hh, Hhanded, Hc, Nat.add_1_r, seq_S. reflexivity.
  - change (handed_chunks m3 =
            omap chunk_of (take (currentIndex m3 + 1) (queue m3))).
    rewrite Hhc, Hchunks, Hq, Hc, Nat.add_1_r.
    rewrite (take_S_r _ _ (with_status Status.completed item)).
    + rewrite take_alter_ge by lia. rewrite omap_app. cbn.
      unfold chunk_of at 2. cbn. rewrite Hb. reflexivity.
    + rewrite list_lookup_alter_eq, Hi2. reflexivity.
  - intros i Hf. destruct (Hfailed i Hf) as (it & Hit & Hcan).
    exists it. split; [|exact Hcan]. rewrite Hq.
    rewrite list_lookup_alter_ne; [exact Hit|].
    intros Heq. rewrite <- Heq, Hi2 in Hit. injection Hit as <-.
    rewrite Hready in Hcan. discriminate Hcan.
  - cbn. rewrite Hc, Hc2, Hc1, Hq, length_alter, Hn2, Hn1, Hl, Hl2, Hl1.
    repeat split; lia.
Qed.


(** The invariant reads six things of the manager, and only grows with the
    events. *)
Lemma LInv_same chunks (es es' : list Event) (m m' : Manager) :
  LInv chunks es m ->
  queue m' = queue m ->
  isStopped m' = isStopped m ->
  currentIndex m' = currentIndex m ->
  generatePromises m' = generatePromises m ->
  handed m' = handed m ->
  handed_chunks m' = handed_chunks m ->
  (forall i b, delivered es i = Some b -> delivered es' i = Some b) ->
  (forall i, failed es i <-> failed es' i) ->
  LInv chunks es' m'.
Proof.
  intros [Htexts Hrun Hcur Hslots Hhanded Hchunks Hfailed]
    Hq Hs Hc Hg Hh Hhc Hd Hf.
  constructor; rewrite ?Hq, ?Hs, ?Hc, ?Hg, ?Hh, ?Hhc; try assumption.
  - intros i it Hi. apply (slot_ok_events _ _ es); eauto.
    apply Hf.
  - intros i Hi. apply Hfailed, Hf, Hi.
Qed.

Lemma LInv_set_loop chunks es (l : Loop) (m : Manager) :
  LInv chunks es m -> LInv chunks es (set_loop l m).
Proof. intros H. apply (LInv_same chunks es es m); auto; reflexivity. Qed.

Lemma LInv_setState chunks es (s : State.t) (m : Manager) :
  LInv chunks es m -> LInv chunks es (setState s m).
Proof.
  intros H. unfold setState, emit_if.
  destruct (onStateChange (options m));
    apply (LInv_same chunks es es m); auto; try reflexivity.
  - rewrite handed_emit. apply app_nil_r.
  - rewrite handed_chunks_emit. apply app_nil_r.
Qed.

(** What a pass over the loop body must come to, from a state [m] that
    satisfies the invariant. *)
Definition outcome_ok chunks (es : list Event) (m : Manager) (o : Outcome)
  : Prop :=
  match o with
  | Next m' =>
      LInv chunks es m' /\ currentIndex m' = S (currentIndex m) /\
      length (queue m') = length (queue m)
  | Break m' =>
      LInv chunks es m' /\
      (currentIndex m' = length (queue m') \/ failed es (currentIndex m'))
  | Suspended m' => Inv chunks es m'
  end.

Lemma after_ready_ok chunks es (m : Manager) (item : TTSQueueItem) :
  LInv chunks es m ->
  queue m !! currentIndex m = Some item ->
  status item = Status.ready \/ status item = Status.cancelled ->
  outcome_ok chunks es m (after_ready m).
Proof.
  intros HI Hi [Hready|Hcancelled].
  - destruct (after_ready_next chunks es m item HI Hi Hready)
      as (m' & -> & HI' & Hc & Hn & _).
    cbn. auto.
  - unfold after_ready. rewrite Hi, Hcancelled.
    rewrite (inv_running _ _ _ HI). cbn.
    split; [exact HI|]. right.
    destruct (inv_slots _ _ _ HI _ _ Hi) as [_ Hslot].
    rewrite Hcancelled in Hslot. apply Hslot.
Qed.

Lemma suspended_ok chunks es (m : Manager) (item : TTSQueueItem) :
  LInv chunks es m ->
  queue m !! currentIndex m = Some item ->
  status item = Status.generating ->
  Inv chunks es (set_loop (AwaitGenerate (currentIndex m)) m).
Proof.
  intros HI Hi Hgen. split; [apply LInv_set_loop; exact HI|].
  unfold loop_ok. cbn. split; [reflexivity|]. eauto.
Qed.

Lemma wait_ready_ok chunks es (m : Manager) :
  LInv chunks es m -> outcome_ok chunks es m (wait_ready m).
Proof.
  intros HI. unfold wait_ready.
  destruct (queue m !! currentIndex m) as [item|] eqn:Hi.
  2:{ cbn. split; [exact HI|]. left.
      apply lookup_ge_None in Hi. pose proof (inv_cursor _ _ _ HI). lia. }
  destruct (inv_slots _ _ _ HI _ _ Hi) as [Hid Hslot].
  rewrite Hid.
  destruct (status item) eqn:Hst; cbn [is_waiting Status.eqb orb].
  - (* pending: the call is made now *)
    destruct Hslot as (Hnone & Hle & Hnoaudio). rewrite Hnone.
    pose proof (startGenerating_LInv chunks es (currentIndex m) m HI) as HI'.
    destruct (startGenerating_frame (currentIndex m) m)
      as (Hc & _ & _ & _ & _ & _).
    assert (Hq : queue (startGenerating (currentIndex m) m) !! currentIndex m
                 = Some (with_status Status.generating item)).
    { unfold startGenerating. rewrite Hi, Hst. cbn.
      rewrite list_lookup_alter_eq, Hi. reflexivity. }
    assert (Hg : promise_get
                   (generatePromises (startGenerating (currentIndex m) m))
                   (currentIndex m) = Some Unsettled).
    { unfold startGenerating. rewrite Hi, Hst. cbn.
      rewrite Hid, promise_get_set, Nat.eqb_refl. reflexivity. }
    set (m1 := startGenerating (currentIndex m) m) in *.
    rewrite Hg. cbn.
    apply (suspended_ok chunks es m1 (with_status Status.generating item));
      [exact HI'| |reflexivity].
    rewrite Hc. exact Hq.
  - destruct Hslot as (Hg & _). rewrite Hg. cbn.
    exact (suspended_ok chunks es m item HI Hi Hst).
  - apply (after_ready_ok chunks es m item HI Hi). left. exact Hst.
  - destruct Hslot.
  - destruct Hslot as (_ & Hlt & _). lia.
  - apply (after_ready_ok chunks es m item HI Hi). right. exact Hst.
Qed.

Lemma body_ok chunks es (m : Manager) :
  LInv chunks es m -> outcome_ok chunks es m (body m).
Proof.
  intros HI. unfold body. rewrite (inv_running _ _ _ HI).
  destruct (isPaused m); cbn.
  - split; [apply LInv_set_loop; exact HI|]. exact I.
  - apply wait_ready_ok. exact HI.
Qed.

Lemma finish_Inv chunks es (m : Manager) :
  LInv chunks es m ->
  currentIndex m = length (queue m) \/ failed es (currentIndex m) ->
  Inv chunks es (finish m).
Proof.
  intros HI Hend. unfold finish.
  assert (H1 : LInv chunks es (setState State.idle m))
    by (apply LInv_setState; exact HI).
  assert (Hsame : queue (setState State.idle m) = queue m /\
                  currentIndex (setState State.idle m) = currentIndex m).
  { unfold setState, emit_if.
    destruct (onStateChange (options m)); auto. }
  destruct Hsame as [Hq Hc].
  set (m1 := setState State.idle m) in *.
  set (m2 := if negb (isStopped m1)
             then emit_if (onComplete (options m1)) Complete m1 else m1).
  assert (H2 : LInv chunks es m2 /\ queue m2 = queue m1 /\
               currentIndex m2 = currentIndex m1).
  { unfold m2, emit_if.
    destruct (negb (isStopped m1)); [|auto].
    destruct (onComplete (options m1)); [|auto].
    split; [|auto].
    apply (LInv_same chunks es es m1); auto; try reflexivity.
    - rewrite handed_emit. apply app_nil_r.
    - rewrite handed_chunks_emit. apply app_nil_r. }
  destruct H2 as (H2 & Hq2 & Hc2).
  split; [apply LInv_set_loop; exact H2|].
  unfold loop_ok. cbn. rewrite Hq2, Hc2, Hq, Hc. exact Hend.
Qed.

Lemma playbackLoop_Inv chunks es (fuel : nat) (m : Manager) :
  LInv chunks es m ->
  length (queue m) - currentIndex m < fuel ->
  Inv chunks es (playbackLoop fuel m).
Proof.
  revert m. induction fuel as [|fuel IH]; intros m HI Hfuel; [lia|].
  cbn [playbackLoop]. rewrite (inv_running _ _ _ HI). cbn [negb].
  rewrite andb_true_r.
  destruct (currentIndex m <? length (queue m)) eqn:Hlt.
  - apply Nat.ltb_lt in Hlt.
    pose proof (body_ok chunks es m HI) as Hbody.
    destruct (body m) as [m'|m'|m']; cbn in Hbody.
    + destruct Hbody as (HI' & Hc & Hn). apply IH; [exact HI'|]. lia.
    + destruct Hbody as (HI' & Hend). apply finish_Inv; assumption.
    + exact Hbody.
  - apply Nat.ltb_ge in Hlt. apply finish_Inv; [exact HI|]. left.
    pose proof (inv_cursor _ _ _ HI). lia.
Qed.

Lemma continue_loop_Inv chunks es (m : Manager) (o : Outcome) :
  outcome_ok chunks es m o -> Inv chunks es (continue_loop o).
Proof.
  destruct o as [m'|m'|m']; cbn [continue_loop outcome_ok].
  - intros (HI' & _ & _). apply playbackLoop_Inv; [exact HI'|].
    unfold loop_fuel. lia.
  - intros (HI' & Hend). apply finish_Inv; assumption.
  - auto.
Qed.



(** *** The invariant holds when the stream starts *)

Lemma LInv_start chunks (m : Manager) :
  isStopped m = false -> currentIndex m = 0 -> generatePromises m = [] ->
  handed m = [] -> handed_chunks m = [] ->
  queue m = imap new_item chunks ->
  LInv chunks [] m.
Proof.
  intros Hs Hc Hg Hh Hhc Hq. constructor.
  - rewrite Hq. apply list_eq. intros i.
    change (map text) with (fmap (M := list) text).
    rewrite list_lookup_fmap, list_lookup_imap.
    destruct (chunks !! i); reflexivity.
  - exact Hs.
  - rewrite Hc. lia.
  - intros i it Hi. rewrite Hq, list_lookup_imap in Hi.
    destruct (chunks !! i) as [c|]; [|discriminate Hi].
    injection Hi as <-. split; [reflexivity|]. cbn.
    rewrite Hg, Hc. repeat split. lia.
  - rewrite Hh, Hc. reflexivity.
  - rewrite Hhc, Hc. reflexivity.
  - intros i [].
Qed.

Lemma streamText_Inv (o : Options) (text : str) :
  Inv (Chunker.splitIntoSentences text) [] (streamText text (fresh o)).
Proof.
  unfold streamText.
  set (chunks := Chunker.splitIntoSentences text).
  destruct (length chunks =? 0) eqn:Hlen.
  - apply Nat.eqb_eq in Hlen. destruct chunks; [|discriminate Hlen].
    split.
    + constructor; cbn; try reflexivity; try lia.
      * intros i it Hi. rewrite lookup_nil in Hi. discriminate Hi.
      * unfold handed, stop, setState, emit_if, fresh. cbn.
        destruct (onStateChange o); reflexivity.
      * unfold handed_chunks, stop, setState, emit_if, fresh. cbn.
        destruct (onStateChange o); reflexivity.
    + unfold loop_ok, stop, setState, emit_if, fresh. cbn.
      destruct (onStateChange o); cbn; left; reflexivity.
  - match goal with
    | |- Inv _ _ (playbackLoop _ ?m) => set (m2 := m)
    end.
    apply playbackLoop_Inv; [|unfold loop_fuel; lia].
    assert (H0 : LInv chunks []
              (setState State.generating
                 (set_queue (imap new_item chunks)
                    (set_generatePromises []
                       (set_isStopped false
                          (set_isPaused false
                             (set_currentIndex 0
                                (set_queue [] (stop (fresh o)))))))))).
    { apply LInv_setState. apply LInv_start; try reflexivity.
      - unfold handed, stop, setState, emit_if, fresh. cbn.
        destruct (onStateChange o); reflexivity.
      - unfold handed_chunks, stop, setState, emit_if, fresh. cbn.
        destruct (onStateChange o); reflexivity. }
    apply (startGenerating_LInv _ _ 0) in H0.
    unfold m2. destruct (1 <? length chunks).
    + apply startGenerating_LInv. exact H0.
    + exact H0.
Qed.

(** *** Every event keeps the invariant *)

Lemma delivered_snoc_other (es : list Event) (e : Event) (i : nat) :
  (forall b, e <> SynthesisDone i (Audio b)) ->
  delivered (es ++ [e]) i = delivered es i.
Proof.
  intros Hne. rewrite delivered_app. cbn.
  destruct e as [j [b|]| | |]; try reflexivity.
  destruct (j =? i) eqn:E; [|reflexivity].
  apply Nat.eqb_eq in E. subst j. exfalso. exact (Hne b eq_refl).
Qed.

Lemma failed_snoc (es : list Event) (e : Event) (i : nat) :
  failed es i -> failed (es ++ [e]) i.
Proof. unfold failed. intros H. apply in_or_app. left. exact H. Qed.

Lemma LInv_snoc chunks es (e : Event) (m : Manager) :
  LInv chunks es m ->
  (forall i r, e <> SynthesisDone i r) ->
  LInv chunks (es ++ [e]) m.
Proof.
  intros HI Hne. apply (LInv_same chunks es _ m); auto.
  - intros i b Hd. rewrite delivered_snoc_other; [exact Hd|].
    intros b'. apply Hne.
  - intros i. split; [apply failed_snoc|].
    unfold failed. intros H. apply in_app_or in H.
    destruct H as [H|[H|[]]]; [exact H|].
    exfalso. exact (Hne _ _ H).
Qed.

Lemma loop_ok_snoc es (e : Event) (m : Manager) :
  loop_ok es m -> loop_ok (es ++ [e]) m.
Proof.
  unfold loop_ok. destruct (loop m); try (intros H; exact H).
  intros [H|H]; [left; exact H|right; apply failed_snoc; exact H].
Qed.

Lemma pause_Inv chunks es (m : Manager) :
  Inv chunks es m -> Inv chunks es (pause m).
Proof.
  intros [HI Hl]. unfold pause.
  destruct (State.eqb (state m) State.playing); [|split; assumption].
  assert (H1 : LInv chunks es (set_isPaused true m)).
  { apply (LInv_same chunks es es m); auto; reflexivity. }
  apply (LInv_setState _ _ State.paused) in H1.
  split.
  - apply (LInv_same chunks es es _ _ H1); auto; try reflexivity.
    + rewrite handed_emit. apply app_nil_r.
    + rewrite handed_chunks_emit. apply app_nil_r.
  - revert Hl. unfold loop_ok, setState, emit_if. cbn.
    destruct (onStateChange (options m)); intros H; exact H.
Qed.

Lemma resume_Inv chunks es (m : Manager) :
  Inv chunks es m -> Inv chunks es (resume m).
Proof.
  intros [HI Hl]. unfold resume.
  destruct (State.eqb (state m) State.paused); [|split; assumption].
  assert (H1 : LInv chunks es (set_isPaused false m)).
  { apply (LInv_same chunks es es m); auto; reflexivity. }
  apply (LInv_setState _ _ State.playing) in H1.
  split.
  - apply (LInv_same chunks es es _ _ H1); auto; try reflexivity.
    + rewrite handed_emit. apply app_nil_r.
    + rewrite handed_chunks_emit. apply app_nil_r.
  - revert Hl. unfold loop_ok, setState, emit_if. cbn.
    destruct (onStateChange (options m)); intros H; exact H.
Qed.


(** The handlers of a synthesis call in flight, and the settling of its
    promise. *)
Lemma synthesis_done_LInv chunks es (index : nat) (r : Synthesis)
    (m : Manager) (item : TTSQueueItem) :
  LInv chunks es m ->
  queue m !! index = Some item ->
  promise_get (generatePromises m) (id item) = Some Unsettled ->
  let m' := synthesis_handlers index r m in
  let m'' := set_generatePromises
               (promise_set (generatePromises m') (id item) Settled) m' in
  LInv chunks (es ++ [SynthesisDone index r]) m'' /\
  currentIndex m'' = currentIndex m /\
  loop m'' = loop m /\
  length (queue m'') = length (queue m) /\
  (forall i it, i <> index -> queue m !! i = Some it ->
                queue m'' !! i = Some it) /\
  exists item', queue m'' !! index = Some item' /\
    (status item' = Status.ready \/ status item' = Status.cancelled).
Proof.
  intros HI Hi Hg.
  destruct (inv_slots _ _ _ HI _ _ Hi) as [Hid Hslot].
  rewrite Hid in Hg |- *.
  assert (Hgen : status item = Status.generating /\ currentIndex m <= index).
  { destruct (status item);
      try (destruct Hslot as [Hp Hrest]; rewrite Hp in Hg; discriminate Hg).
    - split; [reflexivity|apply Hslot].
    - destruct Hslot. }
  destruct Hgen as [Hgen Hle].
  destruct HI as [Htexts Hrun Hcur Hslots Hhanded Hchunks Hfailed].
  set (f := match r with
            | Audio b => fun it => with_status Status.ready (with_audio b it)
            | Failed => with_status Status.cancelled
            end).
  assert (Hm' : synthesis_handlers index r m
                = set_queue (alter f index (queue m)) m).
  { unfold synthesis_handlers, set_item_status, f. rewrite Hrun.
    destruct r; reflexivity. }
  cbn zeta. rewrite Hm'. cbn.
  assert (Htext : forall it, text (f it) = text it)
    by (intros it; unfold f; destruct r; reflexivity).
  assert (Hidf : forall it, id (f it) = id it)
    by (intros it; unfold f; destruct r; reflexivity).
  split; [constructor; cbn|].
  - rewrite <- Htexts. apply list_eq. intros i.
    change (map text) with (fmap (M := list) text).
    rewrite !list_lookup_fmap.
    destruct (decide (index = i)) as [->|Hne].
    + rewrite list_lookup_alter_eq. destruct (queue m !! i); cbn; [|reflexivity].
      rewrite Htext. reflexivity.
    + rewrite list_lookup_alter_ne by exact Hne. reflexivity.
  - exact Hrun.
  - rewrite length_alter. exact Hcur.
  - intros i it Hit.
    destruct (decide (index = i)) as [<-|Hne].
    + rewrite list_lookup_alter_eq, Hi in Hit. cbn in Hit.
      injection Hit as <-. split; [rewrite Hidf; exact Hid|].
      unfold f. destruct r as [b|]; cbn;
        rewrite promise_get_set, Nat.eqb_refl.
      * split; [reflexivity|]. split; [exact Hle|]. exists b.
        split; [reflexivity|]. rewrite delivered_app. cbn.
        rewrite Nat.eqb_refl. reflexivity.
      * split; [reflexivity|]. split; [exact Hle|].
        unfold failed. apply in_or_app. right. left. reflexivity.
    + rewrite list_lookup_alter_ne in Hit by exact Hne.
      destruct (index =? i) eqn:E; [apply Nat.eqb_eq in E; contradiction|].
      assert (Hok : slot_ok (currentIndex m) (generatePromises m)
                      (es ++ [SynthesisDone index r]) i it).
      { apply (slot_ok_events _ _ es); [exact (Hslots i it Hit)| |].
        - intros b Hb. rewrite delivered_app. cbn.
          destruct r as [b'|]; [|exact Hb]. rewrite E. exact Hb.
        - apply failed_snoc. }
      unfold slot_ok in *. rewrite promise_get_set, E. exact Hok.
  - exact Hhanded.
  - change (handed_chunks m =
            omap chunk_of (take (currentIndex m) (alter f index (queue m)))).
    rewrite take_alter_ge by exact Hle. exact Hchunks.
  - intros i Hf. unfold failed in Hf. apply in_app_or in Hf.
    destruct Hf as [Hf|[Hf|[]]].
    + destruct (Hfailed i Hf) as (it & Hit & Hcan).
      exists it. split; [|exact Hcan].
      rewrite list_lookup_alter_ne; [exact Hit|].
      intros <-. rewrite Hi in Hit. injection Hit as <-.
      rewrite Hgen in Hcan. discriminate Hcan.
    + injection Hf as -> ->. exists (f item).
      rewrite list_lookup_alter_eq, Hi. split; reflexivity.
  - rewrite length_alter. repeat split.
    + intros i it Hne Hit. rewrite list_lookup_alter_ne by auto. exact Hit.
    + exists (f item). rewrite list_lookup_alter_eq, Hi.
      split; [reflexivity|]. unfold f. destruct r; cbn; auto.
Qed.

Lemma step_Inv chunks es (m m' : Manager) (e : Event) :
  Inv chunks es m -> step m e = Some m' -> Inv chunks (es ++ [e]) m'.
Proof.
  intros [HI Hl] Hstep. destruct e as [index r| | |]; cbn [step] in Hstep.
  - destruct (queue m !! index) as [item|] eqn:Hi; [|discriminate Hstep].
    destruct (promise_get (generatePromises m) (id item)) as [[|]|] eqn:Hg;
      try discriminate Hstep.
    destruct (synthesis_done_LInv chunks es index r m item HI Hi Hg)
      as (HI' & Hc & Hloop & Hn & Hother & item' & Hi' & Hst').
    cbn zeta in HI', Hc, Hloop, Hn, Hother, Hi'.
    set (m1 := set_generatePromises _ _) in *.
    rewrite Hloop in Hstep.
    destruct (loop_awaits (loop m) index) eqn:Hawait;
      injection Hstep as <-.
    + apply (continue_loop_Inv chunks _ m1).
      unfold loop_awaits in Hawait. unfold loop_ok in Hl.
      destruct (loop m) as [|i| |]; try discriminate Hawait.
      apply Nat.eqb_eq in Hawait. subst i. destruct Hl as [Hci _].
      apply (after_ready_ok chunks _ m1 item' HI'); [|exact Hst'].
      rewrite Hc, <- Hci. exact Hi'.
    + split; [exact HI'|]. unfold loop_ok in *. rewrite Hloop, Hc, Hn.
      destruct (loop m) as [|i| |]; [contradiction| |exact I|].
      * destruct Hl as [Hci (it & Hit & Hgen)]. split; [exact Hci|].
        exists it. split; [|exact Hgen]. apply Hother; [|exact Hit].
        intros ->. cbn in Hawait. rewrite Nat.eqb_refl in Hawait.
        discriminate Hawait.
      * destruct Hl as [Hl|Hl]; [left; exact Hl|right].
        apply failed_snoc. exact Hl.
  - destruct (loop m) eqn:Hloop; try discriminate Hstep.
    injection Hstep as <-.
    apply (continue_loop_Inv chunks _ m). apply body_ok.
    apply LInv_snoc; [exact HI|]. intros i r. discriminate.
  - injection Hstep as <-. apply pause_Inv. split.
    + apply LInv_snoc; [exact HI|]. intros i r. discriminate.
    + apply loop_ok_snoc. exact Hl.
  - injection Hstep as <-. apply resume_Inv. split.
    + apply LInv_snoc; [exact HI|]. intros i r. discriminate.
    + apply loop_ok_snoc. exact Hl.
Qed.

Lemma run_Inv chunks (es' es : list Event) (m m' : Manager) :
  Inv chunks es m -> run m es' = Some m' -> Inv chunks (es ++ es') m'.
Proof.
  revert es m. induction es' as [|e es' IH]; intros es m HI Hrun.
  - injection Hrun as <-. rewrite app_nil_r. exact HI.
  - cbn [run] in Hrun. destruct (step m e) as [m1|] eqn:Hstep;
      [|discriminate Hrun].
    replace (es ++ e :: es') with ((es ++ [e]) ++ es')
      by (rewrite <- app_assoc; reflexivity).
    apply (IH _ m1); [|exact Hrun].
    apply (step_Inv chunks es m); assumption.
Qed.



Lemma played_prefix chunks es (m : Manager) (k : nat) :
  LInv chunks es m -> k <= currentIndex m ->
  map fst (omap chunk_of (take k (queue m))) = take k chunks /\
  map (fun c => Some (snd c)) (omap chunk_of (take k (queue m)))
  = map (delivered es) (seq 0 k).
Proof.
  intros HI. induction k as [|k IH]; intros Hk.
  - rewrite !take_0. split; reflexivity.
  - destruct IH as [IH1 IH2]; [lia|].
    pose proof (inv_cursor _ _ _ HI) as Hcur.
    destruct (lookup_lt_is_Some_2 (queue m) k) as [it Hit]; [lia|].
    destruct (inv_slots _ _ _ HI _ _ Hit) as [Hid Hslot].
    assert (Hdone : exists b, audioBuffer it = Some b /\
                              delivered es k = Some b).
    { destruct (status it); try (destruct Hslot as (_ & Hle & _); lia);
        try (destruct Hslot as (_ & Hle); lia); try contradiction.
      apply Hslot. }
    destruct Hdone as (b & Hb & Hd).
    rewrite (take_S_r _ _ it Hit), omap_app, !map_app, IH1, IH2.
    assert (Hone : omap chunk_of [it] = [(text it, b)]).
    { cbn. unfold chunk_of. rewrite Hb. reflexivity. }
    rewrite Hone. cbn [map fst snd].
    rewrite seq_S, map_app. cbn. rewrite Hd. split; [|reflexivity].
    assert (Hchunk : chunks !! k = Some (text it)).
    { rewrite <- (inv_texts _ _ _ HI).
      change (map text) with (fmap (M := list) text).
      rewrite list_lookup_fmap, Hit. reflexivity. }
    rewrite (take_S_r _ _ _ Hchunk). reflexivity.
Qed.

(** X27.  One stream, started on a new manager and not followed by another
    [streamText] call: whatever the order in which its synthesis calls come
    back (and whenever the stream is paused and resumed in between), the
    chunks are handed to the playback target in enqueue order without gaps:
    the calls are made for the queue positions 0, 1, ..., k-1 in this
    order, each with the text of its chunk and with the audio its own
    synthesis call returned.  The loop never runs out of fuel, and once it
    has ended without a failed synthesis every chunk has been handed over. *)
Theorem playback_order_is_enqueue_order (o : Options) (text : str)
    (es : list Event) (m : Manager) :
  run (streamText text (fresh o)) es = Some m ->
  let chunks := Chunker.splitIntoSentences text in
  exists k : nat,
    k <= length chunks /\
    handed m = seq 0 k /\
    map fst (handed_chunks m) = take k chunks /\
    map (fun c => Some (snd c)) (handed_chunks m)
    = map (delivered es) (seq 0 k) /\
    loop m <> Running /\
    (loop m = Finished -> (forall i, ~ failed es i) -> k = length chunks).
Proof.
  intros Hrun chunks.
  pose proof (run_Inv chunks es [] _ m (streamText_Inv o text) Hrun)
    as [HI Hloop].
  cbn [app] in HI, Hloop.
  exists (currentIndex m).
  destruct (played_prefix chunks es m (currentIndex m) HI (le_n _))
    as [Htexts Haudio].
  assert (Hlen : length (queue m) = length chunks).
  { rewrite <- (inv_texts _ _ _ HI). symmetry. apply length_map. }
  repeat split.
  - rewrite <- Hlen. apply (inv_cursor _ _ _ HI).
  - apply (inv_handed _ _ _ HI).
  - rewrite (inv_chunks _ _ _ HI). exact Htexts.
  - rewrite (inv_chunks _ _ _ HI). exact Haudio.
  - unfold loop_ok in Hloop. intros Heq. rewrite Heq in Hloop. exact Hloop.
  - intros Hfin Hnofail. unfold loop_ok in Hloop. rewrite Hfin in Hloop.
    destruct Hloop as [Hend|Hf]; [lia|]. destruct (Hnofail _ Hf).
Qed.

Lemma playback_order_is_enqueue_order_witness :
  let m := default (fresh local_playback)
             (run (streamText three_sentences (fresh local_playback))
                  second_first) in
  exists k : nat,
    k <= length (Chunker.splitIntoSentences three_sentences) /\
    handed m = seq 0 k /\
    map fst (handed_chunks m)
    = take k (Chunker.splitIntoSentences three_sentences) /\
    map (fun c => Some (snd c)) (handed_chunks m)
    = map (delivered second_first) (seq 0 k) /\
    loop m <> Running /\
    (loop m = Finished -> (forall i, ~ failed second_first i) ->
     k = length (Chunker.splitIntoSentences three_sentences)).
Proof.
  intros m.
  apply (playback_order_is_enqueue_order local_playback three_sentences
           second_first m).
  vm_compute. reflexivity.
Defined.

Example second_first_plays_in_order :
  option_map (fun m => (handed m, map snd (handed_chunks m), loop m))
    (run (streamText three_sentences (fresh local_playback)) second_first)
  = Some ([0; 1; 2], [[1%N]; [2%N]; [3%N]], Finished).
Proof. vm_compute. reflexivity. Qed.

(** *** A failed synthesis *)

(** C3, as the code has it.  When the synthesis call of the chunk at [i]
    fails, the item at [i] is marked cancelled, and from then on no chunk
    at [i] or after it is handed to a playback target, whether its own
    synthesis succeeds or not: the chunks handed over are those before
    some position [k <= i], in order. *)
Theorem failed_synthesis_ends_stream (o : Options) (text : str)
    (es : list Event) (m : Manager) (i : nat) :
  run (streamText text (fresh o)) es = Some m ->
  In (SynthesisDone i Failed) es ->
  (exists it, queue m !! i = Some it /\ status it = Status.cancelled) /\
  (exists k : nat, k <= i /\ handed m = seq 0 k) /\
  (forall j, i <= j -> ~ In j (handed m)).
Proof.
  intros Hrun Hfail.
  pose proof (run_Inv _ es [] _ m (streamText_Inv o text) Hrun)
    as [HI Hloop].
  cbn [app] in HI, Hloop.
  destruct (inv_failed _ _ _ HI i Hfail) as (it & Hit & Hcan).
  destruct (inv_slots _ _ _ HI _ _ Hit) as [_ Hslot].
  rewrite Hcan in Hslot. destruct Hslot as (_ & Hle & _).
  split; [eauto|]. split.
  - exists (currentIndex m). split; [exact Hle|apply (inv_handed _ _ _ HI)].
  - intros j Hj Hin. rewrite (inv_handed _ _ _ HI) in Hin.
    apply in_seq in Hin. lia.
Qed.

Lemma failed_synthesis_ends_stream_witness :
  let m := default (fresh local_playback)
             (run (streamText three_sentences (fresh local_playback))
                  second_fails) in
  (exists it, queue m !! 1 = Some it /\ status it = Status.cancelled) /\
  (exists k : nat, k <= 1 /\ handed m = seq 0 k) /\
  (forall j, 1 <= j -> ~ In j (handed m)).
Proof.
  intros m.
  apply (failed_synthesis_ends_stream local_playback three_sentences
           second_fails m 1).
  - vm_compute. reflexivity.
  - vm_compute. right. right. left. reflexivity.
Defined.

(** C3 as the claim states it does not hold: the synthesis of the second of
    three chunks fails after the third has come back with audio; the third
    chunk stays ready and is never handed over, the loop has ended and the
    manager is idle. *)
Lemma failed_synthesis_does_not_skip_counterexample :
  option_map (fun m => (map status (queue m), handed m, loop m, state m))
    (run (streamText three_sentences (fresh local_playback)) second_fails)
  = Some ([Status.completed; Status.cancelled; Status.ready], [0],
          Finished, State.idle).
Proof. vm_compute. reflexivity. Qed.

End TTSFacts.

(** ** Native playback queue *)

Section PlayerFacts.
Import Player Examples.

Lemma status_eqb_eq' (a b : Status.t) : Status.eqb a b = true <-> a = b.
Proof.
  destruct a, b; cbn; split; intros H; try reflexivity; discriminate H.
Qed.





Lemma filter_handle_all (h : nat) (ts : list Timer) :
  (forall t, t ∈ ts -> handle t = h) ->
  filter (fun t => handle t ≠ h) ts = [].
Proof.
  induction ts as [|t ts IH]; intros Hall; [reflexivity|].
  rewrite filter_cons.
  destruct (decide (handle t ≠ h)) as [Hne|_].
  - destruct Hne. apply Hall. left.
  - apply IH. intros t' Hin. apply Hall. right. exact Hin.
Qed.

Lemma registered_timers_only_spec (p : AudioPlayer) (t : Timer) :
  registered_timers_only p = true -> t ∈ timers p ->
  writeInterval p = Some (handle t).
Proof.
  unfold registered_timers_only. intros Hall Hin.
  rewrite forallb_forall in Hall.
  apply list_elem_of_In in Hin. specialize (Hall t Hin).
  apply bool_decide_eq_true_1 in Hall. exact Hall.
Qed.

Lemma clear_writeInterval_timers (p : AudioPlayer) :
  registered_timers_only p = true ->
  timers (clear_writeInterval p) = [].
Proof.
  intros Hreg. unfold clear_writeInterval.
  destruct (writeInterval p) as [h|] eqn:Hw.
  - cbn. apply filter_handle_all. intros t Hin.
    pose proof (registered_timers_only_spec p t Hreg Hin). congruence.
  - destruct (timers p) as [|t ts] eqn:Hts; [reflexivity|].
    assert (Hin : t ∈ timers p) by (rewrite Hts; left).
    pose proof (registered_timers_only_spec p t Hreg Hin). congruence.
Qed.





(** *** After [skip()] *)

(** The state [skip()] leaves a playing queue in: [processQueue] is still
    marked as running, but no timer is live and no decoding is in flight
    that could resume it. *)
Definition stranded (p : AudioPlayer) : Prop :=
  isProcessingQueue p = true /\ timers p = [] /\
  nothing_decoding p = true /\ currentItem p = None.

Lemma skip_stranded (p : AudioPlayer) (k : ref) :
  currentItem p = Some k ->
  registered_timers_only p = true ->
  isProcessingQueue p = true ->
  nothing_decoding p = true ->
  stranded (skip p) /\
  heap (skip p) = alter (with_status Status.cancelled) k (heap p).
Proof.
  intros Hcur Hreg Hpq Hdec. unfold skip. rewrite Hcur.
  set (p1 := set_item_status k Status.cancelled p).
  assert (Hreg1 : registered_timers_only p1 = true) by exact Hreg.
  pose proof (clear_writeInterval_timers p1 Hreg1) as Ht.
  assert (Hframe : isProcessingQueue (clear_writeInterval p1) = true /\
                   tasks (clear_writeInterval p1) = tasks p /\
                   heap (clear_writeInterval p1)
                   = alter (with_status Status.cancelled) k (heap p)).
  { unfold clear_writeInterval. destruct (writeInterval p1); cbn; auto. }
  destruct Hframe as (H1 & H2 & H3).
  unfold stranded, nothing_decoding, stop_stream.
  destruct (rtAudio (clear_writeInterval p1)
            && streamOpen (clear_writeInterval p1)); cbn;
    rewrite H1, H2, H3, Ht; auto.
Qed.

(** A stranded player stays stranded under every event but [stop()], and no
    item changes any more. *)
Lemma step_stranded (p p' : AudioPlayer) (e : Event) :
  stranded p -> e <> Stop -> step p e = Some p' ->
  stranded p' /\
  forall r it, heap p !! r = Some it -> heap p' !! r = Some it.
Proof.
  intros (Hpq & Ht & Hdec & Hcur) Hns Hstep.
  destruct e as [mp3 txt|r d ok|h| | | |]; cbn [step] in Hstep.
  - injection Hstep as <-. unfold addToQueue. cbn. rewrite Hpq. cbn.
    split; [repeat split; assumption|].
    intros r it Hr. apply lookup_app_l_Some. exact Hr.
  - exfalso. unfold nothing_decoding in Hdec.
    destruct (existsb (awaits_decode r) (tasks p)) eqn:E;
      [|discriminate Hstep].
    apply existsb_exists in E. destruct E as (t & Hin & Hat).
    rewrite forallb_forall in Hdec. specialize (Hdec t Hin).
    destruct t; [discriminate Hdec|discriminate Hat].
  - unfold find_timer in Hstep. rewrite Ht in Hstep. discriminate Hstep.
  - injection Hstep as <-. unfold pause, setState.
    destruct (State.eqb (state p) State.playing); cbn; rewrite ?Hcur;
      (split; [repeat split; assumption|auto]).
  - injection Hstep as <-. unfold resume, setState.
    destruct (State.eqb (state p) State.paused); cbn; rewrite ?Hcur;
      (split; [repeat split; assumption|auto]).
  - destruct (Hns eq_refl).
  - injection Hstep as <-. unfold skip. rewrite Hcur.
    split; [repeat split; assumption|auto].
Qed.

Lemma run_stranded (es : list Event) (p p' : AudioPlayer) :
  stranded p -> Forall (fun e => e <> Stop) es -> run p es = Some p' ->
  stranded p' /\
  forall r it, heap p !! r = Some it -> heap p' !! r = Some it.
Proof.
  revert p. induction es as [|e es IH]; intros p Hs Hall Hrun.
  - injection Hrun as <-. auto.
  - cbn [run] in Hrun. destruct (step p e) as [p1|] eqn:Hstep;
      [|discriminate Hrun].
    apply Forall_cons in Hall. destruct Hall as [He Hall].
    destruct (step_stranded p p1 e Hs He Hstep) as [Hs1 Hheap1].
    destruct (IH p1 Hs1 Hall Hrun) as [Hs' Hheap'].
    split; [exact Hs'|]. intros r it Hr. apply Hheap', Hheap1, Hr.
Qed.

(** C8, where the code goes wrong.  When item [k] is playing (the frame
    timer of [playItem] is the only live timer and [processQueue] waits for
    it) and [skip()] is called, item [k] is cancelled, but the timer that
    alone could resolve the promise of [playItem] is cleared with it:
    whatever is called afterwards, short of [stop()], no timer is live,
    [processQueue] stays marked as running and every item that was pending
    is still pending; the next item never starts. *)
Theorem skip_never_starts_next (p p' : AudioPlayer) (k : ref)
    (es : list Event) :
  currentItem p = Some k ->
  registered_timers_only p = true ->
  isProcessingQueue p = true ->
  nothing_decoding p = true ->
  Forall (fun e => e <> Stop) es ->
  run (skip p) es = Some p' ->
  (is_Some (heap p !! k) -> has_status p' Status.cancelled k = true) /\
  (forall r, r <> k -> has_status p Status.pending r = true ->
             has_status p' Status.pending r = true) /\
  timers p' = [] /\ isProcessingQueue p' = true /\ currentItem p' = None.
Proof.
  intros Hcur Hreg Hpq Hdec Hall Hrun.
  destruct (skip_stranded p k Hcur Hreg Hpq Hdec) as [Hs Hheap].
  destruct (run_stranded es (skip p) p' Hs Hall Hrun)
    as [(Hpq' & Ht' & _ & Hcur') Hkeep].
  split; [|split; [|auto]].
  - intros [it Hk]. unfold has_status.
    rewrite (Hkeep k (with_status Status.cancelled it)); [reflexivity|].
    rewrite Hheap, list_lookup_alter_eq, Hk. reflexivity.
  - intros r Hne Hpending. unfold has_status in *.
    destruct (heap p !! r) as [it|] eqn:Hr; [|discriminate Hpending].
    rewrite (Hkeep r it); [exact Hpending|].
    rewrite Hheap, list_lookup_alter_ne by auto. exact Hr.
Qed.

Lemma skip_never_starts_next_witness :
  let p' := default player_playing
              (run (skip player_playing) after_skip) in
  (is_Some (heap player_playing !! 0) ->
   has_status p' Status.cancelled 0 = true) /\
  (forall r, r <> 0 -> has_status player_playing Status.pending r = true ->
             has_status p' Status.pending r = true) /\
  timers p' = [] /\ isProcessingQueue p' = true /\ currentItem p' = None.
Proof.
  intros p'.
  apply (skip_never_starts_next player_playing p' 0 after_skip).
  - vm_compute. reflexivity.
  - vm_compute. reflexivity.
  - vm_compute. reflexivity.
  - vm_compute. reflexivity.
  - repeat constructor; discriminate.
  - vm_compute. reflexivity.
Defined.

(** The failing input of C8: the first item is playing, the second is
    pending, and [skip()] is called; after it and after the next ticks the
    second item is still pending and nothing is playing. *)
Example skip_leaves_next_pending :
  map (fun r => status <$> heap (tick_all (skip player_playing)) !! r)
      (queue (tick_all (skip player_playing)))
  = [Some Status.cancelled; Some Status.pending] /\
  step (skip player_playing) (Tick 0) = None.
Proof. vm_compute. split; reflexivity. Qed.

End PlayerFacts.

(** ** Browser voice bridge *)

Section BridgeFacts.
Import Js Bridge Examples.

Variable toLowerCase toUpperCase : str -> str.

(** *** The map of sessions *)

Lemma sessions_get_delete (m : list (str * Session)) (k k' : str) :
  sessions_get (sessions_delete m k) k' =
  if bool_decide (k = k') then None else sessions_get m k'.
Proof.
  induction m as [|[k0 v] m IH]; cbn.
  - destruct (bool_decide (k = k')); reflexivity.
  - repeat case_bool_decide; subst; cbn; rewrite ?IH;
      repeat case_bool_decide; subst; congruence.
Qed.

Lemma sessions_get_update (m : list (str * Session)) (k k' : str)
    (f : Session -> Session) :
  sessions_get (sessions_update m k f) k' =
  if bool_decide (k = k') then f <$> sessions_get m k'
  else sessions_get m k'.
Proof.
  induction m as [|[k0 v] m IH]; cbn.
  - destruct (bool_decide (k = k')); reflexivity.
  - repeat case_bool_decide; subst; cbn; rewrite ?IH;
      repeat case_bool_decide; subst; congruence.
Qed.

(** C5.  For a request that carries a session code ([code] is the code as
    looked up, that is upper-cased, and not empty): an unknown code is
    answered with 404 and nothing changes; the code of a session that never
    connected and was created more than the pairing window ago is answered
    with 410 and the session is deleted; any other known code is answered
    with 200 and the token of the session, which is now marked connected
    with its last-activity time set to the current time.  No other session
    is touched. *)
Theorem handleConnect_outcomes (srv : Server) (sessionCode : str)
    (now now' : Z) :
  let code := toUpperCase sessionCode in
  let result := handleConnect toUpperCase (SessionCode sessionCode) now now'
                              srv in
  truthy code = true ->
  (sessions_get (sessions srv) code = None ->
     result = (srv, {| statusCode := 404;
                       body := Failure (lit "Invalid or expired session code") |}))
  /\
  (forall s, sessions_get (sessions srv) code = Some s ->
     connected s = false ->
     (now - createdAt s > SESSION_CODE_EXPIRY)%Z ->
     statusCode (snd result) = 410 /\
     body (snd result) = Failure (lit "Session code has expired") /\
     sessions_get (sessions (fst result)) code = None /\
     (forall k, k <> code ->
        sessions_get (sessions (fst result)) k = sessions_get (sessions srv) k))
  /\
  (forall s, sessions_get (sessions srv) code = Some s ->
     (connected s = true \/ (now - createdAt s <= SESSION_CODE_EXPIRY)%Z) ->
     snd result = {| statusCode := 200; body := Connected (token s) |} /\
     sessions_get (sessions (fst result)) code
     = Some {| code := Bridge.code s; token := token s;
               createdAt := createdAt s; lastActivity := now';
               connected := true; response := response s |} /\
     (forall k, k <> code ->
        sessions_get (sessions (fst result)) k = sessions_get (sessions srv) k))
  /\
  currentSessionCode (fst result) = currentSessionCode srv /\
  pendingPermissions (fst result) = pendingPermissions srv /\
  trace (fst result) = trace srv.
Proof.
  intros code result Htruthy. subst result. unfold handleConnect.
  fold code. rewrite Htruthy. cbn [negb].
  destruct (sessions_get (sessions srv) code) as [s|] eqn:Hget.
  2:{ split; [intros _; reflexivity|].
      split; [intros s' Hs'; discriminate Hs'|].
      split; [intros s' Hs'; discriminate Hs'|]. repeat split. }
  destruct (negb (connected s)
            && (now - createdAt s >? SESSION_CODE_EXPIRY)%Z) eqn:Hexp.
  - apply andb_true_iff in Hexp. destruct Hexp as [Hc Ht].
    apply negb_true_iff in Hc. apply Z.gtb_lt in Ht.
    split; [intros H; discriminate H|]. split; [|split].
    + intros s' Hs' _ _. injection Hs' as <-. cbn.
      repeat split.
      * rewrite sessions_get_delete, bool_decide_eq_true_2; reflexivity.
      * intros k Hk. rewrite sessions_get_delete.
        rewrite bool_decide_eq_false_2; [reflexivity|]. auto.
    + intros s' Hs' [Hcon|Hle]; injection Hs' as <-.
      * rewrite Hcon in Hc. discriminate Hc.
      * lia.
    + repeat split.
  - apply andb_false_iff in Hexp.
    split; [intros H; discriminate H|]. split; [|split].
    + intros s' Hs' Hc Hgt. injection Hs' as <-.
      destruct Hexp as [Hexp|Hexp].
      * rewrite Hc in Hexp. discriminate Hexp.
      * rewrite Z.gtb_ltb, Z.ltb_ge in Hexp. lia.
    + intros s' Hs' _. injection Hs' as <-. cbn.
      repeat split.
      * rewrite sessions_get_update, bool_decide_eq_true_2 by reflexivity.
        rewrite Hget. reflexivity.
      * intros k Hk. rewrite sessions_get_update.
        rewrite bool_decide_eq_false_2; [reflexivity|]. auto.
    + repeat split.
Qed.

(** *** Resolving permissions *)

Lemma sendToSession_trace (c : str) (event : string) (data : Payload)
    (srv : Server) :
  sendToSession c event data srv =
  if channel_open srv c then emit (SSE c (lit event) data) srv else srv.
Proof.
  unfold sendToSession, channel_open.
  destruct (sessions_get (sessions srv) c) as [session|]; [|reflexivity].
  destruct (response session) as [res|]; [|reflexivity].
  destruct (writableEnded res); reflexivity.
Qed.

(** What [handlePermissionAndAdvance] adds to the trace. *)
Definition handled_effects (srv : Server) (requestId : str)
    (approved alwaysAllow : bool) : list Effect :=
  let remaining := length (remove_permission (pendingPermissions srv)
                                             requestId) in
  (if onPermissionResponse srv
   then [PermissionResponse requestId approved alwaysAllow] else [])
  ++ match current_session srv with
     | Some c =>
         (if channel_open srv c
          then [SSE c (lit "permissionHandled")
                    (PermissionHandledData requestId approved remaining)]
          else [])
         ++ (if 0 <? remaining then [ShowCurrentLater] else [])
     | None => []
     end.

Lemma handlePermissionAndAdvance_eq (requestId : str)
    (approved alwaysAllow : bool) (srv : Server) :
  handlePermissionAndAdvance requestId approved alwaysAllow srv =
  {| sessions := sessions srv;
     currentSessionCode := currentSessionCode srv;
     pendingPermissions := remove_permission (pendingPermissions srv)
                                             requestId;
     onPermissionResponse := onPermissionResponse srv;
     trace := trace srv
              ++ handled_effects srv requestId approved alwaysAllow |}.
Proof.
  unfold handlePermissionAndAdvance, handled_effects, current_session,
    sendToSession, channel_open.
  destruct srv as [ss cur q cb tr]. cbn.
  generalize (remove_permission q requestId). intros q'.
  destruct cb, cur as [c|]; cbn; try destruct (truthy c); cbn;
    try (destruct (sessions_get ss c) as [session|]; cbn;
         [destruct (response session) as [res|]; cbn;
          [destruct (writableEnded res); cbn|]|]);
    destruct q'; unfold emit, set_pendingPermissions; cbn;
    rewrite <- ?app_assoc, ?app_nil_r; reflexivity.
Qed.

Lemma responses_handled_effects (srv : Server) (requestId : str)
    (approved alwaysAllow : bool) :
  responses (handled_effects srv requestId approved alwaysAllow) =
  if onPermissionResponse srv then [(requestId, approved, alwaysAllow)]
  else [].
Proof.
  unfold handled_effects, responses. rewrite omap_app.
  assert (Hrest : omap response_of
            match current_session srv with
            | Some c =>
                (if channel_open srv c
                 then [SSE c (lit "permissionHandled")
                           (PermissionHandledData requestId approved
                              (length (remove_permission
                                         (pendingPermissions srv) requestId)))]
                 else [])
                ++ (if 0 <? length (remove_permission
                                      (pendingPermissions srv) requestId)
                    then [ShowCurrentLater] else [])
            | None => []
            end = []).
  { destruct (current_session srv) as [c|]; [|reflexivity].
    destruct (channel_open srv c), (0 <? _); reflexivity. }
  rewrite Hrest, app_nil_r. destruct (onPermissionResponse srv); reflexivity.
Qed.

Lemma remove_permission_head (p : Permission) (q : list Permission) :
  remove_permission (p :: q) (id p) = q.
Proof. cbn. rewrite bool_decide_eq_true_2 by reflexivity. reflexivity. Qed.

Lemma remove_permission_absent (q : list Permission) (requestId : str) :
  requestId ∉ map id q -> remove_permission q requestId = q.
Proof.
  induction q as [|p q IH]; intros Hnot; [reflexivity|]. cbn.
  rewrite bool_decide_eq_false_2.
  - f_equal. apply IH. intros Hin. apply Hnot. right. exact Hin.
  - intros Heq. apply Hnot. rewrite <- Heq. left.
Qed.

(** Resolving the ids of the whole queue, in the order of the queue, empties
    it with one call of the callback per entry. *)
Lemma resolve_all_spec (approved : bool) (q : list Permission)
    (srv : Server) :
  pendingPermissions srv = q ->
  let srv' := resolve_all (map id q) approved srv in
  pendingPermissions srv' = [] /\
  onPermissionResponse srv' = onPermissionResponse srv /\
  sessions srv' = sessions srv /\
  responses (trace srv') =
  responses (trace srv)
  ++ (if onPermissionResponse srv
      then map (fun p => (id p, approved, false)) q else []).
Proof.
  revert srv. induction q as [|p q IH]; intros srv Hq; cbn zeta.
  - cbn. rewrite Hq. repeat split.
    destruct (onPermissionResponse srv); rewrite app_nil_r; reflexivity.
  - change (resolve_all (map id (p :: q)) approved srv)
      with (resolve_all (map id q) approved
              (handlePermissionAndAdvance (id p) approved false srv)).
    set (srv1 := handlePermissionAndAdvance (id p) approved false srv).
    assert (H1 : pendingPermissions srv1 = q /\
                 onPermissionResponse srv1 = onPermissionResponse srv /\
                 sessions srv1 = sessions srv /\
                 responses (trace srv1) =
                 responses (trace srv)
                 ++ (if onPermissionResponse srv
                     then [(id p, approved, false)] else [])).
    { unfold srv1. rewrite handlePermissionAndAdvance_eq.
      cbn [pendingPermissions onPermissionResponse sessions trace].
      rewrite Hq, remove_permission_head. repeat split.
      unfold responses at 1. rewrite omap_app.
      fold (responses (trace srv)).
      fold (responses (handled_effects srv (id p) approved false)).
      rewrite responses_handled_effects. reflexivity. }
    destruct H1 as (Hq1 & Hcb1 & Hs1 & Hr1).
    destruct (IH srv1 Hq1) as (Hq' & Hcb' & Hs' & Hr'). cbn zeta in *.
    rewrite Hq', Hcb', Hs', Hr', Hcb1, Hs1, Hr1. repeat split.
    rewrite <- app_assoc. destruct (onPermissionResponse srv); reflexivity.
Qed.

(** C2.  With at least one permission request queued and the callback set,
    a transcript that contains an allow-all phrase is taken as a permission
    response: the callback is called once for every queued entry, in the
    order of the queue, with [approved = true] (and [alwaysAllow = false]),
    and the queue is empty afterwards. *)
Theorem allow_all_resolves_every_request (srv : Server) (transcript : str) :
  pendingPermissions srv <> [] ->
  isAllowAll toLowerCase transcript = true ->
  onPermissionResponse srv = true ->
  let result := checkForPermissionResponse toLowerCase transcript srv in
  snd result = true /\
  pendingPermissions (fst result) = [] /\
  responses (trace (fst result)) =
  responses (trace srv)
  ++ map (fun p => (id p, true, false)) (pendingPermissions srv).
Proof.
  intros Hne Hall Hcb result. subst result.
  unfold checkForPermissionResponse.
  destruct (pendingPermissions srv) as [|current q] eqn:Hq;
    [destruct (Hne eq_refl)|].
  rewrite Hall. cbn [fst snd]. split; [reflexivity|].
  destruct (resolve_all_spec true (current :: q) srv Hq)
    as (Hq' & _ & _ & Hr'). cbn zeta in *.
  rewrite Hq', Hr', Hcb. split; reflexivity.
Qed.

(** C10.  A resolution for an id that is not in the queue, arriving on
    [/permission] with a valid token while the callback is set and the
    current session has an open push channel: the request is answered with
    200; the queue is as before; the callback is called for that id, and a
    [permissionHandled] event is pushed with the length of the unchanged
    queue as remaining count (followed, when the queue is not empty, by the
    timer that shows the head again). *)
Theorem unknown_permission_id_still_handled (srv : Server) (tok : option str)
    (requestId : str) (approved : bool) (alwaysAllow : option bool)
    (s : Session) (c : str) :
  session_for_token srv tok = Some s ->
  requestId ∉ map id (pendingPermissions srv) ->
  onPermissionResponse srv = true ->
  current_session srv = Some c ->
  channel_open srv c = true ->
  let result := handlePermission tok
                  (Decision requestId approved alwaysAllow) srv in
  snd result = {| statusCode := 200; body := Success |} /\
  pendingPermissions (fst result) = pendingPermissions srv /\
  sessions (fst result) = sessions srv /\
  trace (fst result) =
  trace srv
  ++ [ PermissionResponse requestId approved (default false alwaysAllow);
       SSE c (lit "permissionHandled")
           (PermissionHandledData requestId approved
              (length (pendingPermissions srv))) ]
  ++ (if 0 <? length (pendingPermissions srv) then [ShowCurrentLater]
      else []).
Proof.
  intros Htok Habsent Hcb Hcur Hopen result. subst result.
  unfold handlePermission. rewrite Htok. cbn [fst snd].
  rewrite handlePermissionAndAdvance_eq.
  cbn [pendingPermissions sessions trace].
  unfold handled_effects.
  rewrite (remove_permission_absent _ _ Habsent), Hcb, Hcur, Hopen.
  repeat split.
Qed.

(** C7.  A transcript that contains no allow-all, deny-all or always-allow
    phrase and that contains both an approval and a denial phrase, or
    neither, is not taken as a permission response whatever is queued: the
    queue is as before, the permission callback is not called, and the
    transcript is forwarded to the assistant as the last thing the request
    does, which is answered with 200 and the transcript (no
    [isPermissionResponse]). *)
Theorem ambiguous_transcript_is_forwarded (srv : Server) (tok : option str)
    (transcript : str) (now : Z) (s : Session) :
  session_for_token srv tok = Some s ->
  isAllowAll toLowerCase transcript = false ->
  isDenyAll toLowerCase transcript = false ->
  isAlwaysAllow toLowerCase transcript = false ->
  isApproval toLowerCase transcript = isDenial toLowerCase transcript ->
  let result := handleAudio toLowerCase tok (AudioData (Heard transcript))
                            now srv in
  snd result = {| statusCode := 200; body := Transcribed transcript false |}
  /\
  pendingPermissions (fst result) = pendingPermissions srv /\
  responses (trace (fst result)) = responses (trace srv) /\
  transcripts (trace (fst result)) = transcripts (trace srv) ++ [transcript]
  /\
  last (trace (fst result)) = Some (Transcript transcript).
Proof.
  intros Htok Hall Hdeny Halways Hsame result. subst result.
  unfold handleAudio. rewrite Htok.
  set (srv1 := set_sessions (touch_for_token (sessions srv) tok now) srv).
  rewrite sendToSession_trace.
  set (srv2 := if channel_open srv1 (code s)
               then emit (SSE (code s) (lit "transcript")
                              (TranscriptData transcript)) srv1
               else srv1).
  assert (H2 : pendingPermissions srv2 = pendingPermissions srv /\
               responses (trace srv2) = responses (trace srv) /\
               transcripts (trace srv2) = transcripts (trace srv)).
  { unfold srv2. destruct (channel_open srv1 (code s)); cbn.
    - unfold responses, transcripts. rewrite !omap_app. cbn.
      rewrite !app_nil_r. repeat split.
    - repeat split. }
  destruct H2 as (Hq2 & Hr2 & Ht2).
  assert (Hcheck : checkForPermissionResponse toLowerCase transcript srv2
                   = (srv2, false)).
  { unfold checkForPermissionResponse.
    destruct (pendingPermissions srv2); [reflexivity|].
    rewrite Hall, Hdeny, Halways, Hsame.
    destruct (isDenial toLowerCase transcript); reflexivity. }
  rewrite Hcheck. cbn [fst snd emit pendingPermissions trace].
  split; [reflexivity|]. split; [exact Hq2|].
  unfold responses, transcripts in *. rewrite !omap_app. cbn.
  rewrite app_nil_r, Hr2, Ht2. repeat split.
  apply last_snoc.
Qed.

End BridgeFacts.

Section BridgeExamples.
Import Js Bridge Examples.

Lemma handleConnect_outcomes_witness :
  snd (handleConnect ascii_upper (SessionCode (lit "xyz789")) 2000 2001 bridge)
  = {| statusCode := 200; body := Connected (lit "token-two") |} /\
  sessions_get
    (sessions (fst (handleConnect ascii_upper (SessionCode (lit "xyz789"))
                                  2000 2001 bridge)))
    (lit "XYZ789")
  = Some {| code := lit "XYZ789"; token := lit "token-two";
            createdAt := 1000; lastActivity := 2001; connected := true;
            response := None |}.
Proof.
  assert (Htruthy : truthy (ascii_upper (lit "xyz789")) = true)
    by (vm_compute; reflexivity).
  destruct (handleConnect_outcomes ascii_upper bridge (lit "xyz789")
              2000 2001 Htruthy) as (_ & _ & Hknown & _).
  destruct (Hknown unpaired_session) as (Hreply & Hsession & _).
  - vm_compute. reflexivity.
  - right. vm_compute. discriminate.
  - split; [exact Hreply|exact Hsession].
Defined.

Example handleConnect_unknown_code :
  handleConnect ascii_upper (SessionCode (lit "QQQ222")) 2000 2001 bridge
  = (bridge, {| statusCode := 404;
                body := Failure (lit "Invalid or expired session code") |}).
Proof. vm_compute. reflexivity. Qed.

Example handleConnect_expired_code :
  let result := handleConnect ascii_upper (SessionCode (lit "XYZ789"))
                              400000 400001 bridge in
  statusCode (snd result) = 410 /\
  sessions (fst result) = [(lit "ABC234", paired_session)].
Proof. vm_compute. split; reflexivity. Qed.

Example handleConnect_empty_code :
  statusCode (snd (handleConnect ascii_upper (SessionCode []) 2000 2001
                                 bridge)) = 400.
Proof. vm_compute. reflexivity. Qed.

Lemma allow_all_resolves_every_request_witness :
  let result := checkForPermissionResponse ascii_lower
                  (lit "Yes, Allow All of them") bridge in
  snd result = true /\
  pendingPermissions (fst result) = [] /\
  responses (trace (fst result)) =
  responses (trace bridge)
  ++ map (fun p => (id p, true, false)) (pendingPermissions bridge).
Proof.
  apply (allow_all_resolves_every_request ascii_lower bridge
           (lit "Yes, Allow All of them")).
  - vm_compute. discriminate.
  - vm_compute. reflexivity.
  - vm_compute. reflexivity.
Defined.

Example allow_all_calls :
  responses (trace (fst (checkForPermissionResponse ascii_lower
                           (lit "allow all") bridge)))
  = [(lit "perm-1", true, false); (lit "perm-2", true, false)].
Proof. vm_compute. reflexivity. Qed.

Lemma unknown_permission_id_still_handled_witness :
  let result := handlePermission (Some (lit "token-one"))
                  (Decision (lit "perm-9") true None) bridge in
  snd result = {| statusCode := 200; body := Success |} /\
  pendingPermissions (fst result) = pendingPermissions bridge /\
  sessions (fst result) = sessions bridge /\
  trace (fst result) =
  trace bridge
  ++ [ PermissionResponse (lit "perm-9") true (default false None);
       SSE (lit "ABC234") (lit "permissionHandled")
           (PermissionHandledData (lit "perm-9") true
              (length (pendingPermissions bridge))) ]
  ++ (if 0 <? length (pendingPermissions bridge) then [ShowCurrentLater]
      else []).
Proof.
  apply (unknown_permission_id_still_handled bridge (Some (lit "token-one"))
           (lit "perm-9") true None paired_session (lit "ABC234")).
  - vm_compute. reflexivity.
  - intros Hin. vm_compute in Hin.
    repeat (apply elem_of_cons in Hin;
            destruct Hin as [Hin|Hin]; [discriminate Hin|]).
    apply elem_of_nil in Hin. exact Hin.
  - vm_compute. reflexivity.
  - vm_compute. reflexivity.
  - vm_compute. reflexivity.
Defined.

Lemma ambiguous_transcript_is_forwarded_witness :
  let result := handleAudio ascii_lower (Some (lit "token-one"))
                  (AudioData (Heard (lit "maybe okay no"))) 5000 bridge in
  snd result = {| statusCode := 200;
                  body := Transcribed (lit "maybe okay no") false |} /\
  pendingPermissions (fst result) = pendingPermissions bridge /\
  responses (trace (fst result)) = responses (trace bridge) /\
  transcripts (trace (fst result))
  = transcripts (trace bridge) ++ [lit "maybe okay no"] /\
  last (trace (fst result)) = Some (Transcript (lit "maybe okay no")).
Proof.
  apply (ambiguous_transcript_is_forwarded ascii_lower bridge
           (Some (lit "token-one")) (lit "maybe okay no") 5000
           paired_session).
  - vm_compute. reflexivity.
  - vm_compute. reflexivity.
  - vm_compute. reflexivity.
  - vm_compute. reflexivity.
  - vm_compute. reflexivity.
Defined.

Example plain_no_denies_head :
  let result := checkForPermissionResponse ascii_lower (lit "No") bridge in
  snd result = true /\
  pendingPermissions (fst result) = [bash_request] /\
  responses (trace (fst result)) = [(lit "perm-1", false, false)].
Proof. vm_compute. repeat split; reflexivity. Qed.

End BridgeExamples.

(** ** Resampling at the same rate *)

Section ResampleFacts.
Import Resample Examples.
Local Open Scope Z_scope.

(** *** Binary64 arithmetic with one and zero *)

Lemma digits2_pos_size (p : positive) : digits2_pos p = Pos.size p.
Proof. induction p as [p IH|p IH|]; cbn; rewrite ?IH; reflexivity. Qed.

Lemma digits2_pos_iter (p k : positive) :
  Zpos (digits2_pos (Pos.iter xO p k)) = Zpos (digits2_pos p) + Zpos k.
Proof.
  induction k as [|k IH] using Pos.peano_ind.
  - cbn. lia.
  - rewrite Pos.iter_succ. cbn [digits2_pos]. lia.
Qed.

Lemma Zpos_iter (p k : positive) :
  Zpos (Pos.iter xO p k) = Zpos p * 2 ^ Zpos k.
Proof.
  induction k as [|k IH] using Pos.peano_ind.
  - cbn. lia.
  - rewrite Pos.iter_succ, Pos2Z.inj_xO, IH, Pos2Z.inj_succ.
    rewrite Z.pow_succ_r by lia. ring.
Qed.

Lemma div_eucl_exact (a b : Z) :
  b <> 0 -> Z.div_eucl (a * b) b = (a, 0).
Proof.
  intros Hb. pose proof (Z.div_mul a b Hb) as Hq.
  pose proof (Z.mod_mul a b Hb) as Hr.
  unfold Z.div, Z.modulo in *. destruct (Z.div_eucl (a * b) b) as [q r].
  subst. reflexivity.
Qed.

Lemma new_location_exact (n : Z) : new_location n 0 = loc_Exact.
Proof.
  unfold new_location, new_location_even, new_location_odd.
  destruct (Z.even n); reflexivity.
Qed.

(** A finite number divided by itself is one. *)
Lemma fdiv_self (s : bool) (m : positive) (e : Z) :
  fdiv (S754_finite s m e) (S754_finite s m e) = one.
Proof.
  unfold fdiv, SFdiv, SFdiv_core_binary.
  rewrite !Z.sub_diag. cbn [fexp Z.sub Z.opp]. 
  change (Z.min (fexp prec emax 0) 0) with (-53).
  change (0 - -53) with 53.
  rewrite Z.shiftl_mul_pow2 by lia.
  rewrite (Z.mul_comm (Zpos m)), div_eucl_exact by lia.
  rewrite new_location_exact.
  destruct s; vm_compute; reflexivity.
Qed.


Lemma canonical_fexp (m : positive) (e : Z) :
  bounded prec emax m e = true ->
  fexp prec emax (Zpos (digits2_pos m) + e) = e /\ e <= emax - prec.
Proof.
  unfold bounded, canonical_mantissa. intros H.
  apply andb_true_iff in H. destruct H as [Hc He].
  apply Z.eqb_eq in Hc. apply Z.leb_le in He. auto.
Qed.

Lemma iter_pos_iter {A : Type} (f : A -> A) (n : positive) (x : A) :
  SpecFloat.iter_pos f n x = Pos.iter f x n.
Proof.
  revert x. induction n as [n IH|n IH|]; intros x; cbn.
  - rewrite !IH, <- !Pos.iter_swap. reflexivity.
  - rewrite !IH. reflexivity.
  - reflexivity.
Qed.

(** Shifting out the zeros that a multiplication by a power of two put
    in loses nothing. *)
Lemma shr_exact (m k : positive) (e : Z) :
  shr {| shr_m := Zpos (Pos.iter xO m k); shr_r := false; shr_s := false |}
      e (Zpos k)
  = ({| shr_m := Zpos m; shr_r := false; shr_s := false |}, e + Zpos k).
Proof.
  unfold shr. f_equal. rewrite iter_pos_iter.
  induction k as [|k IH] using Pos.peano_ind.
  - reflexivity.
  - rewrite Pos.iter_succ_r, Pos.iter_succ. cbn [shr_1 orb]. exact IH.
Qed.

Lemma mul_pow2 (m k : positive) :
  (m * Pos.iter xO 1 k)%positive = Pos.iter xO m k.
Proof.
  apply Pos2Z.inj. rewrite Pos2Z.inj_mul, !Zpos_iter. ring.
Qed.

(** The second rounding step of [binary_round_aux] on a mantissa that fits
    does nothing. *)
Lemma round_canonical (s : bool) (m : positive) (e : Z) :
  bounded prec emax m e = true ->
  binary_round_aux prec emax s (Zpos m) e loc_Exact = S754_finite s m e.
Proof.
  intros Hb. destruct (canonical_fexp m e Hb) as [Hfexp Hle].
  unfold binary_round_aux, shr_fexp.
  cbn [Zdigits2 shr_record_of_loc]. rewrite Hfexp, Z.sub_diag.
  cbn [shr shr_m loc_of_shr_record round_nearest_even Zdigits2].
  rewrite Hfexp, Z.sub_diag. cbn [shr shr_m].
  apply Z.leb_le in Hle. rewrite Hle. reflexivity.
Qed.

(** Rounding [m * 2^k] at exponent [e - k] when [m] fits at [e]. *)
Lemma round_scaled (s : bool) (m k : positive) (e : Z) :
  bounded prec emax m e = true ->
  binary_round_aux prec emax s (Zpos (Pos.iter xO m k)) (e - Zpos k)
                   loc_Exact
  = S754_finite s m e.
Proof.
  intros Hb. destruct (canonical_fexp m e Hb) as [Hfexp Hle].
  unfold binary_round_aux, shr_fexp.
  cbn [Zdigits2 shr_record_of_loc]. rewrite digits2_pos_iter.
  replace (Zpos (digits2_pos m) + Zpos k + (e - Zpos k))
    with (Zpos (digits2_pos m) + e) by lia.
  rewrite Hfexp.
  replace (e - (e - Zpos k)) with (Zpos k) by lia.
  rewrite shr_exact.
  cbn [shr_m loc_of_shr_record round_nearest_even Zdigits2].
  replace (e - Zpos k + Zpos k) with e by lia.
  rewrite Hfexp, Z.sub_diag. cbn [shr shr_m].
  apply Z.leb_le in Hle. rewrite Hle. reflexivity.
Qed.

(** Multiplying a finite number by one gives the number. *)
Lemma fmul_one_r (s : bool) (m : positive) (e : Z) :
  bounded prec emax m e = true ->
  fmul (S754_finite s m e) one = S754_finite s m e.
Proof.
  intros Hb. unfold fmul, one, SFmul.
  change 4503599627370496%positive with (Pos.iter xO 1%positive 52%positive).
  rewrite mul_pow2. change (e + -52) with (e - 52).
  rewrite (round_scaled _ m 52 e Hb). destruct s; reflexivity.
Qed.


(** A finite number minus itself is [+0]. *)
Lemma fsub_self (s : bool) (m : positive) (e : Z) :
  fsub (S754_finite s m e) (S754_finite s m e) = S754_zero false.
Proof.
  unfold fsub, SFsub, shl_align. rewrite Z.min_id.
  repeat rewrite Z.sub_diag. cbn [fst]. repeat rewrite Z.sub_diag.
  reflexivity.
Qed.

(** Dividing a normal number (a mantissa of 53 digits) by one gives the
    number. *)
Lemma fdiv_one_r (s : bool) (m : positive) (e : Z) :
  bounded prec emax m e = true ->
  Zpos (digits2_pos m) = 53 -> -1073 <= e ->
  fdiv (S754_finite s m e) one = S754_finite s m e.
Proof.
  intros Hb Hd He. unfold fdiv, one, SFdiv, SFdiv_core_binary.
  cbn [Zdigits2]. rewrite Hd.
  change (Zpos (digits2_pos 4503599627370496)) with 53.
  replace (Z.min (fexp prec emax (53 + e - (53 + -52))) (e - -52))
    with (e - 1).
  2:{ unfold fexp, emin, prec, emax. lia. }
  replace (e - -52 - (e - 1)) with 53 by lia.
  rewrite Z.shiftl_mul_pow2 by lia.
  replace (Zpos m * 2 ^ 53) with (Zpos m~0 * Zpos 4503599627370496) by lia.
  rewrite div_eucl_exact by lia. rewrite new_location_exact.
  change (m~0)%positive with (Pos.iter xO m 1%positive).
  rewrite (round_scaled _ m 1 e Hb). destruct s; reflexivity.
Qed.

(** *** Integers as numbers *)

Lemma digits2_pos_bound (p : positive) :
  Zpos p < 2 ^ 53 -> 1 <= Zpos (digits2_pos p) <= 53.
Proof.
  intros Hp. rewrite digits2_pos_size. split; [lia|].
  pose proof (Pos.size_le p) as Hle.
  apply Pos2Z.pos_le_pos in Hle.
  rewrite Pos2Z.inj_pow, (Pos2Z.inj_xO p) in Hle.
  destruct (Z.le_gt_cases (Zpos (Pos.size p)) 53) as [H|H]; [exact H|].
  exfalso.
  assert (Hpow : 2 ^ 54 <= 2 ^ Zpos (Pos.size p))
    by (apply Z.pow_le_mono_r; lia).
  change (2 ^ 54) with (2 * 2 ^ 53) in Hpow. lia.
Qed.

(** A positive integer below [2^53] is a normal number with that value. *)
Lemma of_Z_pos (p : positive) :
  Zpos p < 2 ^ 53 ->
  exists (m : positive) (e : Z),
    of_Z (Zpos p) = S754_finite false m e /\
    bounded prec emax m e = true /\
    Zpos (digits2_pos m) = 53 /\
    -52 <= e <= 0 /\
    Zpos m = Zpos p * 2 ^ (- e).
Proof.
  intros Hp. pose proof (digits2_pos_bound p Hp) as Hd.
  unfold of_Z, binary_normalize, binary_round, shl_align.
  assert (Hfexp : fexp prec emax (Zpos (digits2_pos p) + 0)
                  = Zpos (digits2_pos p) - 53).
  { unfold fexp, emin, prec, emax. lia. }
  rewrite Hfexp.
  destruct (Zpos (digits2_pos p) - 53 - 0) as [|k|k] eqn:Hk; [|lia|].
  - exists p, 0.
    assert (Hb : bounded prec emax p 0 = true).
    { unfold bounded, canonical_mantissa.
      apply andb_true_iff. split; [apply Z.eqb_eq|apply Z.leb_le].
      - unfold fexp, emin, prec, emax. lia.
      - unfold prec, emax. lia. }
    rewrite (round_canonical _ p 0 Hb).
    repeat split; try lia. exact Hb.
  - exists (Pos.iter xO p k), (Zpos (digits2_pos p) - 53).
    assert (Hdig : Zpos (digits2_pos (Pos.iter xO p k)) = 53).
    { rewrite digits2_pos_iter. lia. }
    assert (Hb : bounded prec emax (Pos.iter xO p k)
                         (Zpos (digits2_pos p) - 53) = true).
    { unfold bounded, canonical_mantissa.
      apply andb_true_iff. split; [apply Z.eqb_eq|apply Z.leb_le].
      - rewrite Hdig. unfold fexp, emin, prec, emax. lia.
      - unfold prec, emax. lia. }
    rewrite (round_canonical _ _ _ Hb).
    repeat split; try lia; try assumption.
    rewrite Zpos_iter. f_equal. f_equal. lia.
Qed.

Lemma floor_scaled (m p : positive) (e : Z) :
  e <= 0 -> Zpos m = Zpos p * 2 ^ (- e) ->
  Z.shiftl (Zpos m) e = Zpos p.
Proof.
  intros He Hm. rewrite Z.shiftl_div_pow2 by exact He. rewrite Hm.
  apply Z.div_mul. apply Z.pow_nonzero; lia.
Qed.

(** What the identity needs of the number of an index or of a length:
    times one, by one, floor, and minus itself. *)
Lemma of_Z_index (z : Z) :
  0 <= z < 2 ^ 53 ->
  fmul (of_Z z) one = of_Z z /\
  fdiv (of_Z z) one = of_Z z /\
  floor (of_Z z) = Int z /\
  ffloor (of_Z z) = of_Z z /\
  fsub (of_Z z) (of_Z z) = S754_zero false.
Proof.
  intros [Hz0 Hz]. destruct z as [|p|p]; [| |lia].
  - vm_compute. repeat split; reflexivity.
  - destruct (of_Z_pos p Hz) as (m & e & Hof & Hb & Hd & He & Hm).
    rewrite Hof.
    assert (Hfloor : Z.shiftl (Zpos m) e = Zpos p)
      by (apply floor_scaled; [lia|exact Hm]).
    split; [apply fmul_one_r; exact Hb|].
    split; [apply fdiv_one_r; [exact Hb|exact Hd|lia]|].
    split; [cbn [floor signed]; rewrite Hfloor; reflexivity|].
    split; [|apply fsub_self].
    cbn [ffloor signed]. rewrite Hfloor. cbn [Z.eqb]. exact Hof.
Qed.


(** *** The loop at ratio one *)

Lemma is_sample_finite (s : bool) (m : positive) (e : Z) :
  is_sample (S754_finite s m e) = true ->
  bounded prec emax m e = true /\
  fround (S754_finite s m e) = S754_finite s m e.
Proof.
  unfold is_sample. intros H. apply andb_true_iff in H.
  destruct H as [Hb Hf]. split; [exact Hb|].
  destruct (fround (S754_finite s m e)) as [| | |s' m' e'];
    try discriminate Hf.
  apply andb_true_iff in Hf. destruct Hf as [Hf He].
  apply andb_true_iff in Hf. destruct Hf as [Hs Hm].
  apply Bool.eqb_prop in Hs. apply Pos.eqb_eq in Hm. apply Z.eqb_eq in He.
  subst. reflexivity.
Qed.

(** A sample times [+0] is a zero. *)
Lemma fmul_sample_zero (y : spec_float) :
  is_sample y = true -> is_zero (fmul y (S754_zero false)) = true.
Proof. destruct y; intros H; try discriminate H; reflexivity. Qed.

(** A sample times one, plus a zero, stored in the output array. *)
Lemma interpolate_at_zero (x z : spec_float) :
  is_sample x = true -> is_zero z = true ->
  same_sample (fround (fadd (fmul x one) z)) x.
Proof.
  intros Hx Hz. destruct z as [sz| | |]; try discriminate Hz.
  destruct x as [sx| | |sx m e]; try discriminate Hx.
  - right. destruct sx, sz; split; reflexivity.
  - left. destruct (is_sample_finite sx m e Hx) as [Hb Hf].
    rewrite (fmul_one_r sx m e Hb). exact Hf.
Qed.

Lemma element_at_ratio_one (input : list spec_float) (i : nat)
    (x : spec_float) :
  Forall (fun x => is_sample x = true) input ->
  Z.of_nat (length input) < 2 ^ 53 ->
  input !! i = Some x ->
  same_sample (element input one i) x.
Proof.
  intros Hall Hlen Hi.
  assert (Hlt : (i < length input)%nat) by (apply lookup_lt_Some in Hi; lia).
  destruct (of_Z_index (Z.of_nat i)) as (Hmul & _ & Hfloor & Hffloor & Hsub);
    [lia|].
  unfold element. rewrite Hmul, Hffloor, Hsub, Hfloor.
  change (fsub one (S754_zero false)) with one.
  cbn [ceil_index get].
  assert (Hin : (0 <=? Z.of_nat i) && (Z.of_nat i <? Z.of_nat (length input))
                = true).
  { apply andb_true_iff. split; [apply Z.leb_le|apply Z.ltb_lt]; lia. }
  rewrite Hin, Nat2Z.id, nth_lookup, Hi. cbn [default].
  set (c := Z.min (Z.of_nat i + 1) (Z.of_nat (length input) - 1)).
  assert (Hc : 0 <= c < Z.of_nat (length input)) by (unfold c; lia).
  assert (Hcin : (0 <=? c) && (c <? Z.of_nat (length input)) = true).
  { apply andb_true_iff. split; [apply Z.leb_le|apply Z.ltb_lt]; lia. }
  rewrite Hcin, nth_lookup.
  destruct (lookup_lt_is_Some_2 input (Z.to_nat c)) as [y Hy]; [lia|].
  rewrite Hy. cbn [default].
  rewrite Forall_forall in Hall.
  apply interpolate_at_zero.
  - apply Hall. apply list_elem_of_lookup. eauto.
  - apply fmul_sample_zero. apply Hall. apply list_elem_of_lookup. eauto.
Qed.

(** C9.  For every finite non-zero rate [r] and every buffer of samples
    (finite binary32 values, fewer than [2^53] of them),
    [resampleChannel(input, r, r)] returns a buffer of the same length
    whose elements are the same numbers as those of the input: the ratio is
    exactly one, the output length is [floor(length / 1)], and every
    interpolation has fraction zero.  Each element is identical to the
    input element, except that a zero may come out as a zero of the other
    sign. *)
Theorem resample_same_rate_is_identity (input : list spec_float)
    (r : spec_float) :
  is_rate r = true ->
  Forall (fun x => is_sample x = true) input ->
  Z.of_nat (length input) < 2 ^ 53 ->
  exists output,
    resampleChannel input r r = Some output /\
    length output = length input /\
    Forall2 same_sample output input.
Proof.
  intros Hr Hall Hlen.
  destruct r as [| | |s m e]; try discriminate Hr.
  unfold resampleChannel. rewrite fdiv_self.
  destruct (of_Z_index (Z.of_nat (length input)))
    as (_ & Hdiv & Hfloor & _ & _); [lia|].
  rewrite Hdiv, Hfloor. unfold typed_array_length.
  assert (Hok : (Z.of_nat (length input) <? 0)
                || (2 ^ 53 - 1 <? Z.of_nat (length input)) = false).
  { apply orb_false_iff. split; apply Z.ltb_ge; lia. }
  rewrite Hok, Nat2Z.id.
  eexists. split; [reflexivity|].
  assert (Hlength : length (map (element input one)
                               (seq 0 (length input))) = length input).
  { rewrite length_map, length_seq. reflexivity. }
  split; [exact Hlength|].
  apply Forall2_same_length_lookup_2; [exact Hlength|].
  intros i out x Hout Hi.
  change (map (element input one)) with (fmap (M := list) (element input one))
    in Hout.
  rewrite list_lookup_fmap in Hout.
  assert (Hlt : (i < length input)%nat) by (apply lookup_lt_Some in Hi; lia).
  rewrite lookup_seq_lt in Hout by exact Hlt. cbn in Hout.
  injection Hout as <-.
  apply element_at_ratio_one; assumption.
Qed.

Lemma resample_same_rate_is_identity_witness :
  exists output,
    resampleChannel quiet_samples rate_48000 rate_48000 = Some output /\
    length output = length quiet_samples /\
    Forall2 same_sample output quiet_samples.
Proof.
  apply (resample_same_rate_is_identity quiet_samples rate_48000).
  - vm_compute. reflexivity.
  - repeat constructor.
  - vm_compute. reflexivity.
Defined.

Example resample_same_rate_result :
  resampleChannel quiet_samples rate_48000 rate_48000
  = Some [ S754_finite false 4503599627370496 (-53);
           S754_finite true 4503599627370496 (-54);
           S754_zero false;
           S754_finite false 4503599627370496 (-52) ].
Proof. vm_compute. reflexivity. Qed.

(** From 24000 Hz to 48000 Hz the ratio is one half: twice as many
    elements, every other one half-way between two samples (the last one
    repeated). *)
Example resample_doubles :
  resampleChannel quiet_samples (of_Z 24000) rate_48000
  = Some [ S754_finite false 4503599627370496 (-53);   (* 0.5 *)
           S754_finite false 4503599627370496 (-55);   (* 0.125 *)
           S754_finite true 4503599627370496 (-54);    (* -0.25 *)
           S754_finite true 4503599627370496 (-55);    (* -0.125 *)
           S754_zero false;
           S754_finite false 4503599627370496 (-53);   (* 0.5 *)
           S754_finite false 4503599627370496 (-52);   (* 1 *)
           S754_finite false 4503599627370496 (-52) ].
Proof. vm_compute. reflexivity. Qed.

(** With a rate of zero the ratio [0 / 0] is not a number, the length
    [Math.floor(input.length / ratio)] is not a number either, and
    [new Float32Array(NaN)] is empty: the hypothesis [is_rate] is needed. *)
Example resample_zero_rate :
  resampleChannel quiet_samples (S754_zero false) (S754_zero false) = Some [].
Proof. vm_compute. reflexivity. Qed.

(** An infinite element spoils its neighbour as well, since
    [Infinity * 0] is not a number: the hypothesis [is_sample] is needed. *)
Example resample_infinite_sample :
  resampleChannel [one; S754_infinity false] rate_48000 rate_48000
  = Some [S754_nan; S754_nan].
Proof. vm_compute. reflexivity. Qed.

End ResampleFacts.

(** ** Text chunking: what the chunks are made of *)

Section ChunkerMore.
Import Js Chunker Examples.

#[local] Arguments is_space : simpl never.

(** The code units of a string that are not white space, in order. *)
Definition letters (s : str) : str :=
  List.filter (fun c => negb (is_space c)) s.

Lemma letters_app (a b : str) : letters (a ++ b) = letters a ++ letters b.
Proof. apply List.filter_app. Qed.

Lemma letters_rev (s : str) : letters (rev s) = rev (letters s).
Proof.
  induction s as [|c s IH]; [reflexivity|].
  cbn [rev]. rewrite letters_app, IH. cbn.
  destruct (is_space c); cbn; rewrite ?app_nil_r; reflexivity.
Qed.

Lemma letters_trimStart (s : str) : letters (trimStart s) = letters s.
Proof.
  induction s as [|c s IH]; [reflexivity|]. cbn.
  destruct (is_space c) eqn:E; cbn; [exact IH|rewrite E; reflexivity].
Qed.

Lemma letters_trim (s : str) : letters (trim s) = letters s.
Proof.
  unfold trim, trimEnd.
  rewrite letters_rev, letters_trimStart, letters_rev, rev_involutive.
  apply letters_trimStart.
Qed.

Lemma letters_nil_trim (s : str) : letters s = [] -> trim s = [].
Proof.
  intros H. assert (Hs : trimStart s = []).
  { induction s as [|c s IH]; [reflexivity|]. cbn in *.
    destruct (is_space c); [apply IH; exact H|discriminate H]. }
  unfold trim, trimEnd. rewrite Hs. reflexivity.
Qed.

Lemma truthy_false (s : str) : truthy s = false -> s = [].
Proof. destruct s; [reflexivity|discriminate]. Qed.

Lemma space_run_head (c : char) (s : str) (k : nat) :
  S k <= space_run (c :: s) -> is_space c = true /\ k <= space_run s.
Proof.
  cbn. destruct (is_space c); [intros H; split; [reflexivity|lia]|lia].
Qed.

Lemma separator_at_run (prev : option char) (rest : str) (k : nat) :
  separator_at prev rest = S k -> space_run rest = S k.
Proof.
  unfold separator_at. destruct prev as [p|]; [|discriminate].
  destruct (is_terminator p); [|discriminate].
  destruct (drop (space_run rest) rest) as [|c ?]; [discriminate|].
  destruct (is_capital c); [auto|discriminate].
Qed.

Lemma letters_split_scan (rest : str) (prev : option char) (skip : nat)
    (piece : str) :
  skip <= space_run rest ->
  letters (concat (split_scan prev skip piece rest))
  = letters (rev piece) ++ letters rest.
Proof.
  revert prev skip piece.
  induction rest as [|c rest IH]; intros prev skip piece Hskip.
  - cbn. rewrite !app_nil_r. reflexivity.
  - cbn [split_scan]. destruct skip as [|k].
    + destruct (separator_at prev (c :: rest)) as [|k] eqn:Hsep.
      * rewrite IH by lia. cbn [rev]. rewrite letters_app, <- app_assoc.
        rewrite <- letters_app. reflexivity.
      * apply separator_at_run in Hsep.
        destruct (space_run_head c rest k) as [Hc Hk];
          [apply Nat.eq_le_incl; symmetry; exact Hsep|].
        cbn [concat]. rewrite letters_app, IH by exact Hk.
        cbn. rewrite Hc. reflexivity.
    + destruct (space_run_head c rest k Hskip) as [Hc Hk].
      rewrite IH by exact Hk. cbn. rewrite Hc. reflexivity.
Qed.

Lemma letters_split (text : str) :
  letters (concat (split_sentencePattern text)) = letters text.
Proof.
  unfold split_sentencePattern. rewrite letters_split_scan by lia.
  reflexivity.
Qed.

(** What the recombination loop holds at any time. *)
Definition collected (st : Combine) : str :=
  concat (combined st) ++ currentChunk st.

Lemma letters_combine_step (st : Combine) (sentence : str) :
  letters (collected (combine_step st sentence))
  = letters (collected st) ++ letters sentence.
Proof.
  unfold combine_step, collected.
  destruct (truthy (trim sentence)) eqn:Ht; cbn [negb].
  2:{ apply truthy_false in Ht.
      rewrite <- (letters_trim sentence), Ht, app_nil_r. reflexivity. }
  rewrite <- (letters_trim sentence).
  destruct (length (currentChunk st) =? 0) eqn:E0.
  { apply Nat.eqb_eq in E0. apply nil_length_inv in E0.
    cbn [combined currentChunk]. rewrite E0, app_nil_r.
    rewrite letters_app. reflexivity. }
  destruct (_ <? _).
  { cbn [combined currentChunk]. rewrite !letters_app, <- !app_assoc.
    reflexivity. }
  destruct (_ <=? _); cbn [combined currentChunk].
  - rewrite concat_app. cbn [concat]. rewrite app_nil_r.
    rewrite !letters_app. reflexivity.
  - rewrite !letters_app, <- !app_assoc. reflexivity.
Qed.

Lemma letters_fold_combine (rawSentences : list str) (st : Combine) :
  letters (collected (fold_left combine_step rawSentences st))
  = letters (collected st) ++ letters (concat rawSentences).
Proof.
  revert st. induction rawSentences as [|s rest IH]; intros st.
  - cbn. rewrite app_nil_r. reflexivity.
  - cbn [fold_left concat]. rewrite IH, letters_combine_step, letters_app.
    rewrite app_assoc. reflexivity.
Qed.

Lemma letters_chunks (text : str) :
  letters (concat (splitIntoSentences text)) = letters text.
Proof.
  unfold splitIntoSentences.
  destruct (length text <? shortTextThreshold).
  { cbn. rewrite app_nil_r. apply letters_trim. }
  pose proof (letters_fold_combine (split_sentencePattern text)
                {| combined := []; currentChunk := [] |}) as H.
  fold (combine_loop (split_sentencePattern text)) in H.
  rewrite letters_split in H. cbn in H.
  set (st := combine_loop (split_sentencePattern text)) in *.
  unfold collected in H. rewrite letters_app in H.
  destruct (truthy (trim (currentChunk st))) eqn:Ht.
  - assert (Hl : letters (concat (combined st ++ [trim (currentChunk st)]))
                 = letters text).
    { rewrite concat_app, letters_app. cbn. rewrite app_nil_r, letters_trim.
      exact H. }
    destruct (combined st ++ [trim (currentChunk st)]) eqn:E; [|exact Hl].
    destruct (combined st); discriminate E.
  - apply truthy_false in Ht.
    rewrite <- (letters_trim (currentChunk st)), Ht, app_nil_r in H.
    destruct (combined st) eqn:E; [|exact H].
    cbn. rewrite app_nil_r, letters_trim. reflexivity.
Qed.

(** X1.  Chunking drops and adds white space only: the other code units of
    the text appear in the chunks, all of them and in the same order. *)
Theorem splitIntoSentences_keeps_letters (text : str) :
  letters (concat (splitIntoSentences text)) = letters text.
Proof. exact (letters_chunks text). Qed.

(** *** Chunks are trimmed *)

(** The string does not begin with white space. *)
Definition starts_clean (s : str) : Prop :=
  match s with
  | [] => True
  | c :: _ => is_space c = false
  end.

(** The string neither begins nor ends with white space. *)
Definition tidy (s : str) : Prop := starts_clean s /\ starts_clean (rev s).

Lemma trimStart_clean (s : str) : starts_clean (trimStart s).
Proof.
  induction s as [|c s IH]; cbn; [exact I|].
  destruct (is_space c) eqn:E; [exact IH|exact E].
Qed.

Lemma trimStart_id (s : str) : starts_clean s -> trimStart s = s.
Proof. destruct s as [|c s]; cbn; [reflexivity|]. intros ->. reflexivity. Qed.

Lemma trimStart_snoc (s : str) (c : char) :
  is_space c = false -> trimStart (s ++ [c]) = trimStart s ++ [c].
Proof.
  intros Hc. induction s as [|a s IH]; cbn.
  - rewrite Hc. reflexivity.
  - destruct (is_space a); [exact IH|reflexivity].
Qed.

Lemma trimEnd_clean (s : str) : starts_clean s -> starts_clean (trimEnd s).
Proof.
  destruct s as [|c s]; [intros _; exact I|]. cbn [starts_clean]. intros Hc.
  unfold trimEnd. cbn [rev]. rewrite trimStart_snoc by exact Hc.
  rewrite rev_app_distr. cbn. exact Hc.
Qed.

Lemma trim_tidy (s : str) : tidy (trim s).
Proof.
  unfold tidy, trim. split.
  - apply trimEnd_clean, trimStart_clean.
  - unfold trimEnd. rewrite rev_involutive. apply trimStart_clean.
Qed.

Lemma tidy_trim (s : str) : tidy s -> trim s = s.
Proof.
  intros [H1 H2]. unfold trim, trimEnd.
  rewrite (trimStart_id s H1), (trimStart_id (rev s) H2).
  apply rev_involutive.
Qed.

Lemma tidy_join (a b : str) :
  tidy a -> tidy b -> a <> [] -> b <> [] -> tidy (a ++ lit " " ++ b).
Proof.
  intros [Ha _] [_ Hb] Hna Hnb. split.
  - destruct a as [|c a]; [destruct (Hna eq_refl)|exact Ha].
  - rewrite !rev_app_distr.
    destruct (rev b) as [|c b'] eqn:E; [|exact Hb].
    apply (f_equal (@rev _)) in E. rewrite rev_involutive in E.
    destruct (Hnb E).
Qed.

Definition neat (s : str) : Prop := tidy s /\ s <> [].

Lemma truthy_neat (s : str) : truthy (trim s) = true -> neat (trim s).
Proof.
  intros H. split; [apply trim_tidy|]. intros E. rewrite E in H.
  discriminate H.
Qed.

Lemma combine_step_neat (st : Combine) (sentence : str) :
  Forall neat (combined st) -> tidy (currentChunk st) ->
  Forall neat (combined (combine_step st sentence)) /\
  tidy (currentChunk (combine_step st sentence)).
Proof.
  intros Hall Hcur. unfold combine_step.
  destruct (truthy (trim sentence)) eqn:Ht; cbn [negb]; [|auto].
  destruct (truthy_neat sentence Ht) as [Htidy Hne].
  destruct (length (currentChunk st) =? 0) eqn:E0; [auto|].
  apply Nat.eqb_neq in E0.
  assert (Hcne : currentChunk st <> []).
  { intros E. rewrite E in E0. apply E0. reflexivity. }
  destruct (_ <? _); cbn [combined currentChunk].
  { split; [exact Hall|]. apply tidy_join; assumption. }
  destruct (_ <=? _); cbn [combined currentChunk].
  - split; [|exact Htidy]. apply Forall_app. split; [exact Hall|].
    constructor; [split; assumption|constructor].
  - split; [exact Hall|]. apply tidy_join; assumption.
Qed.

Lemma fold_combine_neat (rawSentences : list str) (st : Combine) :
  Forall neat (combined st) -> tidy (currentChunk st) ->
  Forall neat (combined (fold_left combine_step rawSentences st)) /\
  tidy (currentChunk (fold_left combine_step rawSentences st)).
Proof.
  revert st. induction rawSentences as [|s rest IH]; intros st Hall Hcur.
  - auto.
  - cbn [fold_left].
    destruct (combine_step_neat st s Hall Hcur) as [H1 H2].
    apply IH; assumption.
Qed.

(** The result is the trimmed text alone, or a list of chunks none of which
    is empty or has white space at either end. *)
Lemma splitIntoSentences_shape (text : str) :
  splitIntoSentences text = [trim text] \/
  (splitIntoSentences text <> [] /\ Forall neat (splitIntoSentences text)).
Proof.
  unfold splitIntoSentences.
  destruct (length text <? shortTextThreshold); [left; reflexivity|].
  destruct (fold_combine_neat (split_sentencePattern text)
              {| combined := []; currentChunk := [] |})
    as [Hall Hcur]; [constructor|split; exact I|].
  fold (combine_loop (split_sentencePattern text)) in Hall, Hcur.
  set (st := combine_loop (split_sentencePattern text)) in *.
  destruct (truthy (trim (currentChunk st))) eqn:Ht.
  - right.
    assert (Hl : Forall neat (combined st ++ [trim (currentChunk st)])).
    { apply Forall_app. split; [exact Hall|].
      constructor; [apply truthy_neat; exact Ht|constructor]. }
    destruct (combined st ++ [trim (currentChunk st)]) eqn:E.
    + destruct (combined st); discriminate E.
    + split; [discriminate|exact Hl].
  - destruct (combined st) eqn:E; [left; reflexivity|].
    right. split; [discriminate|exact Hall].
Qed.

(** X2.  There is always at least one chunk, so that [streamText] never
    takes its early return for an empty list; a text with nothing but white
    space in it (the empty text too) gives one chunk, the empty string. *)
Theorem splitIntoSentences_never_empty (text : str) :
  splitIntoSentences text <> [] /\
  (letters text = [] -> splitIntoSentences text = [[]]).
Proof.
  pose proof (letters_chunks text) as Hkeep.
  destruct (splitIntoSentences_shape text) as [E|[Hne Hall]].
  - rewrite E. split; [discriminate|].
    intros Hblank. rewrite (letters_nil_trim text Hblank). reflexivity.
  - split; [exact Hne|]. intros Hblank. exfalso.
    destruct (splitIntoSentences text) as [|c l]; [apply Hne; reflexivity|].
    apply Forall_cons in Hall. destruct Hall as [[Htidy Hc] _].
    rewrite Hblank in Hkeep. cbn [concat] in Hkeep.
    rewrite letters_app in Hkeep. apply app_eq_nil in Hkeep.
    destruct Hkeep as [Hl _]. apply letters_nil_trim in Hl.
    rewrite (tidy_trim c Htidy) in Hl. exact (Hc Hl).
Qed.

(** X3.  No chunk begins or ends with white space, and no chunk is empty
    unless the text has nothing but white space in it. *)
Theorem splitIntoSentences_chunks_trimmed (text chunk : str) :
  chunk ∈ splitIntoSentences text ->
  trim chunk = chunk /\ (chunk = [] -> letters text = []).
Proof.
  intros Hin.
  destruct (splitIntoSentences_shape text) as [E|[_ Hall]].
  - rewrite E in Hin. apply list_elem_of_singleton in Hin. subst chunk.
    split; [apply tidy_trim, trim_tidy|].
    intros Hnil. rewrite <- (letters_trim text), Hnil. reflexivity.
  - rewrite Forall_forall in Hall. destruct (Hall chunk Hin) as [Htidy Hne].
    split; [apply tidy_trim; exact Htidy|]. intros Hnil. destruct (Hne Hnil).
Qed.

Lemma splitIntoSentences_chunks_trimmed_witness :
  trim (sentence_of 66) = sentence_of 66 /\
  (sentence_of 66 = [] -> letters three_sentences = []).
Proof.
  apply (splitIntoSentences_chunks_trimmed three_sentences (sentence_of 66)).
  vm_compute. right. left.
Defined.

End ChunkerMore.

(** ** Streaming TTS: how far synthesis runs ahead *)

Section TTSWindow.
Import Js TTS Examples.

(** *** The synthesis calls of a stream *)

(** The synthesis calls made so far, by queue index, with the text they
    were made with. *)
Definition request_of (e : Effect) : option (nat * str) :=
  match e with
  | Synthesize i txt => Some (i, txt)
  | _ => None
  end.

Definition requested (m : Manager) : list (nat * str) :=
  omap request_of (trace m).

Definition indexed (q : list TTSQueueItem) : list (nat * str) :=
  imap (fun i it => (i, text it)) q.

(** The synthesis calls made are those of the first [n] items, in order,
    and these are the items that are no longer pending. *)
Definition requested_upto (n : nat) (m : Manager) : Prop :=
  requested m = take n (indexed (queue m)) /\
  forall i it, queue m !! i = Some it ->
               (status it = Status.pending <-> n <= i).

(** The look-ahead: the item under the cursor and the two after it. *)
Definition frontier (m : Manager) : nat :=
  Nat.min (length (queue m)) (currentIndex m + 2).

Definition look_ahead (m : Manager) : Prop := requested_upto (frontier m) m.

Lemma requested_emit (e : Effect) (m : Manager) :
  requested (emit e m) = requested m ++ option_list (request_of e).
Proof.
  unfold requested. cbn. rewrite omap_app. cbn.
  destruct (request_of e); reflexivity.
Qed.

Lemma requested_emit_if (b : bool) (e : Effect) (m : Manager) :
  request_of e = None -> requested (emit_if b e m) = requested m.
Proof.
  intros He. unfold emit_if. destruct b; [|reflexivity].
  rewrite requested_emit, He. apply app_nil_r.
Qed.

Lemma requested_setState (s : State.t) (m : Manager) :
  requested (setState s m) = requested m.
Proof.
  unfold setState. rewrite requested_emit_if by reflexivity. reflexivity.
Qed.

Lemma indexed_alter (f : TTSQueueItem -> TTSQueueItem) (j : nat)
    (q : list TTSQueueItem) :
  (forall it, text (f it) = text it) ->
  indexed (alter f j q) = indexed q.
Proof.
  intros Hf. unfold indexed. apply list_eq. intros i.
  rewrite !list_lookup_imap.
  destruct (decide (i = j)) as [->|Hne].
  - rewrite list_lookup_alter_eq. destruct (q !! j); cbn; [|reflexivity].
    rewrite Hf. reflexivity.
  - rewrite list_lookup_alter_ne by auto. reflexivity.
Qed.

(** An item that is not pending changes, and is not pending afterwards. *)
Lemma R_alter (n : nat) (m m' : Manager) (f : TTSQueueItem -> TTSQueueItem)
    (j : nat) :
  requested_upto n m ->
  queue m' = alter f j (queue m) ->
  requested m' = requested m ->
  (forall it, text (f it) = text it) ->
  (forall it, queue m !! j = Some it ->
     status it <> Status.pending /\ status (f it) <> Status.pending) ->
  requested_upto n m'.
Proof.
  intros [Hreq Hst] Hq Hr Htext Hj. split.
  - rewrite Hr, Hq, indexed_alter by exact Htext. exact Hreq.
  - intros i it Hi. rewrite Hq in Hi.
    destruct (decide (i = j)) as [->|Hne].
    + rewrite list_lookup_alter_eq in Hi.
      destruct (queue m !! j) as [it0|] eqn:E; [|discriminate Hi].
      injection Hi as <-. destruct (Hj it0 eq_refl) as [H1 H2].
      pose proof (Hst j it0 E) as H. split; [contradiction|].
      intros Hle. apply H in Hle. contradiction.
    + rewrite list_lookup_alter_ne in Hi by auto. apply Hst. exact Hi.
Qed.

Lemma R_same (n : nat) (m m' : Manager) :
  requested_upto n m -> queue m' = queue m -> requested m' = requested m -> requested_upto n m'.
Proof. unfold requested_upto. intros H -> ->. exact H. Qed.

Lemma indexed_lookup (q : list TTSQueueItem) (i : nat) (it : TTSQueueItem) :
  q !! i = Some it -> indexed q !! i = Some (i, text it).
Proof. intros H. unfold indexed. rewrite list_lookup_imap, H. reflexivity. Qed.

(** [startGenerating j] at or below the frontier [n]: it makes the call for
    the item at [n] when [j] is [n], and nothing otherwise. *)
Lemma startGenerating_R (n j : nat) (m : Manager) :
  requested_upto n m -> j <= n ->
  requested_upto (if decide (j = n /\ n < length (queue m)) then S n else n)
    (startGenerating j m).
Proof.
  intros [Hreq Hst] Hle. unfold startGenerating.
  destruct (queue m !! j) as [item|] eqn:Hj.
  2:{ apply lookup_ge_None in Hj.
      destruct (decide _) as [[-> H]|_]; [lia|]. split; assumption. }
  pose proof (Hst j item Hj) as Hpend.
  destruct (Status.eqb (status item) Status.pending) eqn:Hp.
  - apply status_eqb_eq in Hp. apply Hpend in Hp.
    assert (j = n) by lia. subst j.
    pose proof (lookup_lt_Some _ _ _ Hj) as Hlt.
    destruct (decide _) as [_|H]; [|lia].
    split.
    + unfold requested. cbn [trace set_generatePromises emit
                             set_item_status set_queue].
      rewrite omap_app. fold (requested m). cbn [omap request_of].
      cbn [queue set_generatePromises emit set_item_status set_queue].
      rewrite indexed_alter by reflexivity.
      rewrite (take_S_r _ _ (n, text item)) by (apply indexed_lookup, Hj).
      rewrite Hreq. reflexivity.
    + intros i it Hi.
      cbn [queue set_generatePromises emit set_item_status set_queue] in Hi.
      destruct (decide (i = n)) as [->|Hne].
      * rewrite list_lookup_alter_eq, Hj in Hi. injection Hi as <-.
        cbn. split; [discriminate|lia].
      * rewrite list_lookup_alter_ne in Hi by auto.
        rewrite (Hst i it Hi). lia.
  - assert (Hnp : status item <> Status.pending).
    { intros E. rewrite E in Hp. discriminate Hp. }
    destruct (decide _) as [[-> H]|_]; [|split; assumption].
    exfalso. apply Hnp, Hpend. lia.
Qed.

Lemma pregenerate_R (n j : nat) (m : Manager) :
  requested_upto n m -> j <= n ->
  requested_upto (if decide (j = n /\ n < length (queue m)) then S n else n)
    (pregenerate j m).
Proof.
  intros HR Hle. pose proof (startGenerating_R n j m HR Hle) as Hstart.
  unfold pregenerate.
  destruct (j <? length (queue m)) eqn:Hlt.
  - destruct (queue m !! j) as [nextItem|] eqn:Hj.
    + destruct (Status.eqb (status nextItem) Status.pending) eqn:Hp;
        [exact Hstart|].
      revert Hstart. unfold startGenerating. rewrite Hj, Hp. auto.
    + revert Hstart. unfold startGenerating. rewrite Hj. auto.
  - apply Nat.ltb_ge in Hlt. destruct (decide _) as [[-> H]|_]; [lia|].
    exact HR.
Qed.

Lemma requested_play_current (m : Manager) :
  requested (play_current m) = requested m.
Proof.
  unfold play_current.
  destruct (queue m !! currentIndex m) as [item|]; [|reflexivity].
  destruct (audioBuffer item) as [audio|]; [|reflexivity].
  destruct (Status.eqb (status item) Status.ready); [|reflexivity].
  unfold setState, emit_if, set_item_status, requested.
  destruct m as [[oBrowser oConn oWeb oState oStart oDone] q st ci ip isS g l tr].
  cbn.
  destruct oState, oStart, oBrowser, oWeb, oConn as [f|];
    cbn; try destruct (f ci); cbn;
    rewrite ?omap_app; cbn; rewrite ?app_nil_r; reflexivity.
Qed.

Definition outcome_W (o : Outcome) : Prop :=
  match o with
  | Next m' | Break m' | Suspended m' => look_ahead m'
  end.

Lemma W_set_loop (l : Loop) (m : Manager) : look_ahead m -> look_ahead (set_loop l m).
Proof. intros H. apply (R_same _ m); [exact H| |]; reflexivity. Qed.

Lemma after_ready_W chunks es (m : Manager) (item : TTSQueueItem) :
  LInv chunks es m -> look_ahead m ->
  queue m !! currentIndex m = Some item ->
  status item = Status.ready \/ status item = Status.cancelled ->
  outcome_W (after_ready m).
Proof.
  intros HI HW Hi [Hready|Hcancelled].
  2:{ unfold after_ready. rewrite Hi, Hcancelled.
      rewrite (inv_running _ _ _ HI). cbn. exact HW. }
  unfold after_ready. rewrite Hi, Hready.
  rewrite (inv_running _ _ _ HI). cbn [orb Status.eqb].
  pose proof (lookup_lt_Some _ _ _ Hi) as Hlt.
  set (ci := currentIndex m) in *. set (len := length (queue m)) in *.
  unfold look_ahead, frontier in HW. fold ci len in HW.
  (* the item after the cursor *)
  set (m1 := pregenerate (ci + 1) m).
  assert (H1 : LInv chunks es m1) by (apply pregenerate_LInv; exact HI).
  destruct (pregenerate_frame (ci + 1) m) as (Hc1 & _ & _ & _ & _ & Hn1).
  fold m1 ci len in Hc1, Hn1.
  assert (R1 : requested_upto (Nat.min len (ci + 2)) m1).
  { pose proof (pregenerate_R _ (ci + 1) m HW) as H. fold len m1 in H.
    destruct (decide _) as [[E Hl]|_] in H; [lia|]. apply H. lia. }
  assert (Hi1 : queue m1 !! ci = Some item).
  { apply pregenerate_lookup; [exact Hi|]. rewrite Hready. discriminate. }
  (* the one after next *)
  rewrite Hc1.
  set (m2 := pregenerate (ci + 2) m1).
  assert (H2 : LInv chunks es m2) by (apply pregenerate_LInv; exact H1).
  destruct (pregenerate_frame (ci + 2) m1) as (Hc2 & _ & _ & _ & _ & Hn2).
  fold m2 in Hc2, Hn2. rewrite Hc1 in Hc2. rewrite Hn1 in Hn2.
  assert (R2 : requested_upto (Nat.min len (ci + 3)) m2).
  { destruct (decide (ci + 2 <= len)) as [Hge|Hsmall].
    - pose proof (pregenerate_R _ (ci + 2) m1 R1) as H. fold m2 in H.
      rewrite Hn1 in H.
      destruct (decide _) as [[E Hl]|Hn] in H.
      + replace (Nat.min len (ci + 3)) with (S (Nat.min len (ci + 2)))
          by lia. apply H. lia.
      + replace (Nat.min len (ci + 3)) with (Nat.min len (ci + 2)) by lia.
        apply H. lia.
    - replace (Nat.min len (ci + 3)) with (Nat.min len (ci + 2)) by lia.
      unfold m2, pregenerate. rewrite Hn1.
      rewrite (proj2 (Nat.ltb_ge _ _)) by lia. exact R1. }
  assert (Hi2 : queue m2 !! currentIndex m2 = Some item).
  { rewrite Hc2. apply pregenerate_lookup; [exact Hi1|].
    rewrite Hready. discriminate. }
  destruct (inv_slots _ _ _ H2 _ _ Hi2) as [_ Hslot].
  rewrite Hready in Hslot. destruct Hslot as (_ & _ & b & Hb & _).
  destruct (play_current_spec m2 item b Hi2 Hready Hb)
    as (Hq & Hc & _).
  set (m3 := play_current m2) in *.
  cbn [outcome_W]. unfold look_ahead, frontier.
  cbn [queue currentIndex set_currentIndex].
  rewrite Hq, length_alter, Hn2, Hc, Hc2.
  replace (ci + 1 + 2) with (ci + 3) by lia.
  apply (R_same _ m3); [|reflexivity|reflexivity].
  apply (R_alter _ m2 m3 (with_status Status.completed) (currentIndex m2) R2);
    [exact Hq|apply requested_play_current|reflexivity|].
  intros it Hit. rewrite Hi2 in Hit. injection Hit as <-.
  rewrite Hready. split; discriminate.
Qed.

Lemma wait_ready_W chunks es (m : Manager) :
  LInv chunks es m -> look_ahead m -> outcome_W (wait_ready m).
Proof.
  intros HI HW. unfold wait_ready.
  destruct (queue m !! currentIndex m) as [item|] eqn:Hi; [|exact HW].
  destruct (inv_slots _ _ _ HI _ _ Hi) as [Hid Hslot].
  pose proof (lookup_lt_Some _ _ _ Hi) as Hlt.
  rewrite Hid.
  destruct (status item) eqn:Hst; cbn [is_waiting Status.eqb orb].
  - exfalso. destruct HW as [_ HW]. apply (HW _ _ Hi) in Hst.
    unfold frontier in Hst. lia.
  - destruct Hslot as (Hg & _). rewrite Hg. cbn.
    apply W_set_loop. exact HW.
  - apply (after_ready_W chunks es m item HI HW Hi). left. exact Hst.
  - destruct Hslot.
  - destruct Hslot as (_ & Hlt' & _). lia.
  - apply (after_ready_W chunks es m item HI HW Hi). right. exact Hst.
Qed.

Lemma body_W chunks es (m : Manager) :
  LInv chunks es m -> look_ahead m -> outcome_W (body m).
Proof.
  intros HI HW. unfold body. rewrite (inv_running _ _ _ HI).
  destruct (isPaused m); cbn.
  - apply W_set_loop. exact HW.
  - apply (wait_ready_W chunks es); assumption.
Qed.

Lemma W_same (m m' : Manager) :
  look_ahead m -> queue m' = queue m -> currentIndex m' = currentIndex m ->
  requested m' = requested m -> look_ahead m'.
Proof.
  unfold look_ahead, frontier. intros H Hq Hc Hr. rewrite Hq, Hc.
  apply (R_same _ m); assumption.
Qed.

Lemma W_emit_if (f : Manager -> bool) (e : Effect) (m : Manager) :
  request_of e = None -> look_ahead m -> look_ahead (emit_if (f m) e m).
Proof.
  intros He HW. unfold emit_if. destruct (f m); [|exact HW].
  apply (W_same m); [exact HW|reflexivity|reflexivity|].
  rewrite requested_emit, He. apply app_nil_r.
Qed.

Lemma W_setState (s : State.t) (m : Manager) : look_ahead m -> look_ahead (setState s m).
Proof.
  intros HW. apply (W_same m); [exact HW| | |apply requested_setState].
  - unfold setState, emit_if. destruct (onStateChange _); reflexivity.
  - unfold setState, emit_if. destruct (onStateChange _); reflexivity.
Qed.

Lemma finish_W (m : Manager) : look_ahead m -> look_ahead (finish m).
Proof.
  intros HW. unfold finish. apply W_set_loop.
  pose proof (W_setState State.idle m HW) as H1.
  destruct (negb (isStopped (setState State.idle m))); [|exact H1].
  apply (W_same (setState State.idle m)); [exact H1| | |].
  - unfold emit_if. destruct (onComplete _); reflexivity.
  - unfold emit_if. destruct (onComplete _); reflexivity.
  - apply requested_emit_if. reflexivity.
Qed.

Lemma playbackLoop_W chunks es (fuel : nat) (m : Manager) :
  LInv chunks es m -> look_ahead m -> look_ahead (playbackLoop fuel m).
Proof.
  revert m. induction fuel as [|fuel IH]; intros m HI HW.
  - apply W_set_loop. exact HW.
  - cbn [playbackLoop].
    destruct ((currentIndex m <? length (queue m)) && negb (isStopped m));
      [|apply finish_W; exact HW].
    pose proof (body_ok chunks es m HI) as Hbody.
    pose proof (body_W chunks es m HI HW) as HbodyW.
    destruct (body m) as [m'|m'|m']; cbn in Hbody, HbodyW.
    + apply IH; [apply Hbody|exact HbodyW].
    + apply finish_W. exact HbodyW.
    + exact HbodyW.
Qed.

Lemma continue_loop_W chunks es (m : Manager) (o : Outcome) :
  outcome_ok chunks es m o -> outcome_W o -> look_ahead (continue_loop o).
Proof.
  destruct o as [m'|m'|m']; cbn [continue_loop outcome_ok outcome_W].
  - intros (HI' & _ & _) HW. apply (playbackLoop_W chunks es); assumption.
  - intros _ HW. apply finish_W. exact HW.
  - auto.
Qed.

Lemma requested_stop_fresh (o : Options) :
  requested (stop (fresh o)) = [].
Proof.
  unfold requested, stop, setState, emit_if, fresh. cbn.
  destruct (onStateChange o); reflexivity.
Qed.

Lemma streamText_W (o : Options) (text : str) :
  look_ahead (streamText text (fresh o)).
Proof.
  unfold streamText.
  set (chunks := Chunker.splitIntoSentences text).
  destruct (length chunks =? 0) eqn:Hlen.
  - split.
    + cbn. apply requested_stop_fresh.
    + intros i it Hi. cbn in Hi. rewrite lookup_nil in Hi. discriminate Hi.
  - apply Nat.eqb_neq in Hlen.
    match goal with
    | |- look_ahead (playbackLoop _ ?m) => set (m2 := m)
    end.
    set (m0 := setState State.generating
                 (set_queue (imap new_item chunks)
                    (set_generatePromises []
                       (set_isStopped false
                          (set_isPaused false
                             (set_currentIndex 0
                                (set_queue [] (stop (fresh o))))))))) in *.
    assert (Hq0 : queue m0 = imap new_item chunks).
    { unfold m0, setState, emit_if. destruct (onStateChange _); reflexivity. }
    assert (Hc0 : currentIndex m0 = 0).
    { unfold m0, setState, emit_if. destruct (onStateChange _); reflexivity. }
    assert (H0 : LInv chunks [] m0).
    { apply LInv_setState. apply LInv_start; try reflexivity.
      - unfold handed, stop, setState, emit_if, fresh. cbn.
        destruct (onStateChange o); reflexivity.
      - unfold handed_chunks, stop, setState, emit_if, fresh. cbn.
        destruct (onStateChange o); reflexivity. }
    assert (R0 : requested_upto 0 m0).
    { split.
      - unfold m0. rewrite requested_setState. cbn.
        apply requested_stop_fresh.
      - intros i it Hi. rewrite Hq0, list_lookup_imap in Hi.
        destruct (chunks !! i); [|discriminate Hi]. injection Hi as <-.
        cbn. split; [lia|reflexivity]. }
    assert (Hn0 : length (queue m0) = length chunks)
      by (rewrite Hq0; apply length_imap).
    pose proof (startGenerating_R 0 0 m0 R0 (le_n 0)) as R1.
    destruct (decide _) as [_|Hno] in R1; [|rewrite Hn0 in Hno; lia].
    destruct (startGenerating_frame 0 m0) as (Hc1 & _ & _ & _ & _ & Hn1).
    pose proof (startGenerating_LInv chunks [] 0 m0 H0) as H1.
    set (m1 := startGenerating 0 m0) in *.
    assert (H2 : LInv chunks [] m2 /\ look_ahead m2).
    { unfold m2. destruct (1 <? length chunks) eqn:Hone.
      - apply Nat.ltb_lt in Hone. split; [apply startGenerating_LInv, H1|].
        pose proof (startGenerating_R 1 1 m1 R1 (le_n 1)) as R2.
        destruct (decide _) as [_|Hno] in R2; [|rewrite Hn1, Hn0 in Hno; lia].
        destruct (startGenerating_frame 1 m1) as (Hc2 & _ & _ & _ & _ & Hn2).
        unfold look_ahead, frontier. rewrite Hc2, Hc1, Hc0, Hn2, Hn1, Hn0.
        replace (Nat.min (length chunks) (0 + 2)) with 2 by lia. exact R2.
      - apply Nat.ltb_ge in Hone. split; [exact H1|].
        unfold look_ahead, frontier. rewrite Hc1, Hc0, Hn1, Hn0.
        replace (Nat.min (length chunks) (0 + 2)) with 1 by lia. exact R1. }
    destruct H2 as [H2 W2].
    apply (playbackLoop_W chunks []); assumption.
Qed.

Lemma pause_W (m : Manager) : look_ahead m -> look_ahead (pause m).
Proof.
  intros HW. unfold pause.
  destruct (State.eqb (state m) State.playing); [|exact HW].
  assert (H1 : look_ahead (set_isPaused true m))
    by (apply (W_same m); [exact HW|reflexivity..]).
  apply (W_setState State.paused) in H1.
  apply (W_same _ _ H1); [reflexivity..|].
  rewrite requested_emit. apply app_nil_r.
Qed.

Lemma resume_W (m : Manager) : look_ahead m -> look_ahead (resume m).
Proof.
  intros HW. unfold resume.
  destruct (State.eqb (state m) State.paused); [|exact HW].
  assert (H1 : look_ahead (set_isPaused false m))
    by (apply (W_same m); [exact HW|reflexivity..]).
  apply (W_setState State.playing) in H1.
  apply (W_same _ _ H1); [reflexivity..|].
  rewrite requested_emit. apply app_nil_r.
Qed.

(** The handlers of a synthesis call change the status of an item that
    was asked for, and make no call. *)
Lemma synthesis_done_W chunks es (index : nat) (r : Synthesis)
    (m : Manager) (item : TTSQueueItem) :
  LInv chunks es m -> look_ahead m ->
  queue m !! index = Some item ->
  promise_get (generatePromises m) (id item) = Some Unsettled ->
  look_ahead (set_generatePromises
       (promise_set (generatePromises (synthesis_handlers index r m))
                    (id item) Settled)
       (synthesis_handlers index r m)).
Proof.
  intros HI HW Hi Hg.
  destruct (inv_slots _ _ _ HI _ _ Hi) as [Hid Hslot].
  rewrite Hid in Hg.
  assert (Hgen : status item = Status.generating).
  { destruct (status item);
      try (destruct Hslot as [Hp Hrest]; rewrite Hp in Hg; discriminate Hg).
    - reflexivity.
    - destruct Hslot. }
  set (f := match r with
            | Audio b => fun it => with_status Status.ready (with_audio b it)
            | Failed => with_status Status.cancelled
            end).
  assert (Hm' : synthesis_handlers index r m
                = set_queue (alter f index (queue m)) m).
  { unfold synthesis_handlers, set_item_status, f.
    rewrite (inv_running _ _ _ HI). destruct r; reflexivity. }
  rewrite Hm'.
  unfold look_ahead, frontier. cbn [queue currentIndex set_generatePromises set_queue].
  rewrite length_alter.
  apply (R_alter _ m _ f index HW); [reflexivity|reflexivity| |].
  - intros it. unfold f. destruct r; reflexivity.
  - intros it Hit. rewrite Hi in Hit. injection Hit as <-.
    rewrite Hgen. unfold f. destruct r; cbn; split; discriminate.
Qed.

Lemma step_W chunks es (m m' : Manager) (e : Event) :
  Inv chunks es m -> look_ahead m -> step m e = Some m' -> look_ahead m'.
Proof.
  intros [HI Hl] HW Hstep. destruct e as [index r| | |]; cbn [step] in Hstep.
  - destruct (queue m !! index) as [item|] eqn:Hi; [|discriminate Hstep].
    destruct (promise_get (generatePromises m) (id item)) as [[|]|] eqn:Hg;
      try discriminate Hstep.
    pose proof (synthesis_done_W chunks es index r m item HI HW Hi Hg) as HW'.
    destruct (synthesis_done_LInv chunks es index r m item HI Hi Hg)
      as (HI' & Hc & Hloop & Hn & Hother & item' & Hi' & Hst').
    cbn zeta in HI', Hc, Hloop, Hn, Hother, Hi'.
    set (m1 := set_generatePromises _ _) in *.
    rewrite Hloop in Hstep.
    destruct (loop_awaits (loop m) index) eqn:Hawait;
      injection Hstep as <-; [|exact HW'].
    unfold loop_awaits in Hawait. unfold loop_ok in Hl.
    destruct (loop m) as [|i| |]; try discriminate Hawait.
    apply Nat.eqb_eq in Hawait. subst i. destruct Hl as [Hci _].
    assert (Hcur : queue m1 !! currentIndex m1 = Some item')
      by (rewrite Hc, <- Hci; exact Hi').
    apply (continue_loop_W chunks (es ++ [SynthesisDone index r]) m1).
    + apply (after_ready_ok chunks _ m1 item' HI'); assumption.
    + apply (after_ready_W chunks _ m1 item' HI'); assumption.
  - destruct (loop m) eqn:Hloop; try discriminate Hstep.
    injection Hstep as <-.
    apply (continue_loop_W chunks es m).
    + apply body_ok. exact HI.
    + apply (body_W chunks es); assumption.
  - injection Hstep as <-. apply pause_W. exact HW.
  - injection Hstep as <-. apply resume_W. exact HW.
Qed.

Lemma run_W chunks (es' es : list Event) (m m' : Manager) :
  Inv chunks es m -> look_ahead m -> run m es' = Some m' -> look_ahead m'.
Proof.
  revert es m. induction es' as [|e es' IH]; intros es m HI HW Hrun.
  - injection Hrun as <-. exact HW.
  - cbn [run] in Hrun. destruct (step m e) as [m1|] eqn:Hstep;
      [|discriminate Hrun].
    apply (IH (es ++ [e]) m1); [| |exact Hrun].
    + apply (step_Inv chunks es m); assumption.
    + apply (step_W chunks es m m1 e); assumption.
Qed.

Lemma indexed_texts (q : list TTSQueueItem) :
  indexed q = imap pair (map text q).
Proof.
  unfold indexed. apply list_eq. intros i.
  change (map text) with (fmap (M := list) text).
  rewrite !list_lookup_imap, list_lookup_fmap.
  destruct (q !! i); reflexivity.
Qed.

(** X4.  At every point of a stream, the synthesis calls made so far are
    those of the chunks up to two places past the last chunk handed to the
    playback target, each made once, in the order of the chunks and with the
    text of its chunk. Synthesis runs ahead of playback by two chunks, never
    by more. *)
Theorem synthesis_stays_two_chunks_ahead (o : Options) (text : str)
    (es : list Event) (m : Manager) :
  run (streamText text (fresh o)) es = Some m ->
  requested m
  = take (length (handed m) + 2)
         (imap pair (Chunker.splitIntoSentences text)).
Proof.
  intros Hrun.
  pose proof (run_Inv _ es [] _ m (streamText_Inv o text) Hrun) as [HI _].
  pose proof (run_W _ es [] _ m (streamText_Inv o text)
                (streamText_W o text) Hrun) as [Hreq _].
  rewrite Hreq, indexed_texts, (inv_texts _ _ _ HI).
  rewrite (inv_handed _ _ _ HI), length_seq.
  unfold frontier.
  assert (Hlen : length (imap pair (Chunker.splitIntoSentences text))
                 = length (queue m)).
  { rewrite length_imap, <- (inv_texts _ _ _ HI), length_map. reflexivity. }
  destruct (Nat.min_spec (length (queue m)) (currentIndex m + 2))
    as [[Hlt ->]|[Hge ->]]; [|reflexivity].
  rewrite !take_ge by lia. reflexivity.
Qed.

End TTSWindow.

Section TTSWindowExamples.
Import Js TTS Examples.

Lemma synthesis_stays_two_chunks_ahead_witness :
  let events := [SynthesisDone 1 (Audio [2%N]);
                 SynthesisDone 0 (Audio [1%N])] in
  let m := default (fresh local_playback)
             (run (streamText three_sentences (fresh local_playback))
                  events) in
  requested m
  = take (length (handed m) + 2)
         (imap pair (Chunker.splitIntoSentences three_sentences)).
Proof.
  intros events m.
  apply (synthesis_stays_two_chunks_ahead local_playback three_sentences
           events m).
  vm_compute. reflexivity.
Defined.

End TTSWindowExamples.

(** ** Audio player: pausing, playing to the end, handing over *)

Section PlaybackFacts.
Import Player Examples.

(** *** Pausing *)

Lemma alter_status_back (h : list AudioQueueItem) (r : ref)
    (it : AudioQueueItem) (s : Status.t) :
  h !! r = Some it ->
  alter (with_status (status it)) r (alter (with_status s) r h) = h.
Proof.
  intros Hr. apply list_eq. intros i.
  destruct (decide (i = r)) as [->|Hne].
  - rewrite !list_lookup_alter_eq, Hr. destruct it; reflexivity.
  - rewrite !list_lookup_alter_ne by auto. reflexivity.
Qed.

(** X5.  While the player is paused, the frame timer of the current item
    fires without writing anything and without moving the read position, and
    [resume()] puts the player back where [pause()] found it: the state, the
    item and its status, the position and the timer are as before, and all
    that has happened is the four calls of the callbacks. *)
Theorem pause_resume_loses_nothing (p : AudioPlayer) (r : ref)
    (it : AudioQueueItem) (ts : list Timer) :
  state p = State.playing ->
  currentItem p = Some r ->
  heap p !! r = Some it ->
  status it = Status.playing ->
  Forall (fun t => item t = r) ts ->
  let paused := foldl (fun p t => tick t p) (pause p) ts in
  paused = pause p /\
  state paused = State.paused /\
  has_status paused Status.paused r = true /\
  resume paused =
  set_log (log p ++ [ StateChange State.paused (Some r);
                      QueueChange (queue p);
                      StateChange State.playing (Some r);
                      QueueChange (queue p) ]) p.
Proof.
  intros Hstate Hcur Hr Hst Hts paused.
  assert (Hpause : pause p =
    set_log (log p ++ [StateChange State.paused (Some r);
                       QueueChange (queue p)])
      (set_heap (alter (with_status Status.paused) r (heap p))
         (set_state State.paused p))).
  { unfold pause, setState, emit, set_item_status. rewrite Hstate.
    destruct p as [av hp rt q ci st vol mu pq so cur off fs wi tm nh tk lg].
    cbn in Hcur |- *. subst cur. cbn. rewrite <- app_assoc. reflexivity. }
  assert (Hpaused_status : has_status (pause p) Status.paused r = true).
  { unfold has_status. rewrite Hpause. cbn [heap set_log set_heap].
    rewrite list_lookup_alter_eq, Hr. reflexivity. }
  assert (Htick : forall t, item t = r -> tick t (pause p) = pause p).
  { intros t Ht. unfold tick. rewrite Ht.
    assert (E1 : currentItem (pause p) = Some r)
      by (rewrite Hpause; exact Hcur).
    assert (E2 : state (pause p) = State.paused)
      by (rewrite Hpause; reflexivity).
    assert (E3 : has_status (pause p) Status.cancelled r = false).
    { unfold has_status in *. destruct (heap (pause p) !! r) as [x|];
        [|reflexivity].
      destruct (status x); try discriminate Hpaused_status; reflexivity. }
    rewrite E1, E2, E3, bool_decide_eq_true_2 by reflexivity. reflexivity. }
  assert (Hfold : paused = pause p).
  { subst paused. induction Hts as [|t ts Ht Hts IH]; [reflexivity|].
    cbn [foldl]. rewrite (Htick t Ht). exact IH. }
  split; [exact Hfold|]. rewrite Hfold.
  split; [rewrite Hpause; reflexivity|]. split; [exact Hpaused_status|].
  rewrite Hpause. unfold resume, setState, emit, set_item_status.
  pose proof (alter_status_back (heap p) r it Status.paused Hr) as Hback.
  rewrite Hst in Hback.
  destruct p as [av hp rt q ci st vol mu pq so cur off fs wi tm nh tk lg].
  cbn in Hcur, Hstate, Hback |- *. subst cur st. cbn.
  rewrite Hback, <- !app_assoc. reflexivity.
Qed.

(** *** Playing an item to its end *)

(** The [k]-th frame of an item of [L] bytes written [b] bytes at a time:
    where it starts and how many bytes of the item it carries (the rest of
    the frame is silence). *)
Definition frame_of (r : ref) (L b : nat) (g : Gain) (k : nat) : Effect :=
  RtWrite r (k * b) (Nat.min b (L - k * b)) g.

(** The number of frames: [L / b], rounded up. *)
Definition frame_count (L b : nat) : nat := (L + b - 1) / b.

Lemma frame_count_spec (L b k : nat) :
  0 < b -> (k < frame_count L b <-> k * b < L).
Proof.
  intros Hb. unfold frame_count.
  pose proof (Nat.div_mod_eq (L + b - 1) b) as Hdm.
  pose proof (Nat.mod_upper_bound (L + b - 1) b) as Hm.
  split; intros H; nia.
Qed.

Lemma set_log_pcmOffset_id (p : AudioPlayer) :
  set_log (log p ++ []) (set_pcmOffset (pcmOffset p) p) = p.
Proof. destruct p. cbn. rewrite app_nil_r. reflexivity. Qed.

(** One tick in the middle of an item. *)
Lemma tick_writes (p : AudioPlayer) (t : Timer) (k : nat) :
  state p = State.playing ->
  currentItem p = Some (item t) ->
  has_status p Status.cancelled (item t) = false ->
  0 < bytesPerFrame t ->
  pcmOffset p = k * bytesPerFrame t ->
  k * bytesPerFrame t < pcm_length p (item t) ->
  tick t p =
  set_log (log p ++ [frame_of (item t) (pcm_length p (item t))
                              (bytesPerFrame t) (gain p) k])
    (set_pcmOffset (Nat.min (S k * bytesPerFrame t)
                            (pcm_length p (item t))) p).
Proof.
  intros Hstate Hcur Hnc Hb Hoff Hlt. unfold tick, frame_of.
  rewrite Hcur, bool_decide_eq_true_2 by reflexivity.
  rewrite Hstate, Hnc. cbn [negb State.eqb orb].
  assert (E1 : (pcm_length p (item t) <=? pcmOffset p) = false).
  { apply Nat.leb_gt. lia. }
  rewrite E1.
  destruct (bytesPerFrame t <=? pcm_length p (item t) - pcmOffset p) eqn:E2.
  - apply Nat.leb_le in E2.
    assert (Hmin : Nat.min (bytesPerFrame t)
                     (pcm_length p (item t) - k * bytesPerFrame t)
                   = bytesPerFrame t) by lia.
    assert (Hnext : Nat.min (S k * bytesPerFrame t) (pcm_length p (item t))
                    = pcmOffset p + bytesPerFrame t) by lia.
    rewrite Hmin, Hnext, <- Hoff. destruct p; reflexivity.
  - apply Nat.leb_gt in E2.
    assert (E3 : (0 <? pcm_length p (item t) - pcmOffset p) = true).
    { apply Nat.ltb_lt. lia. }
    rewrite E3.
    assert (Hmin : Nat.min (bytesPerFrame t)
                     (pcm_length p (item t) - k * bytesPerFrame t)
                   = pcm_length p (item t) - pcmOffset p) by lia.
    assert (Hnext : Nat.min (S k * bytesPerFrame t) (pcm_length p (item t))
                    = pcm_length p (item t)) by lia.
    rewrite Hmin, Hnext, <- Hoff. destruct p; reflexivity.
Qed.

(** The first [k] ticks of an uninterrupted playback. *)
Lemma ticks_write (p : AudioPlayer) (t : Timer) (k : nat) :
  state p = State.playing ->
  currentItem p = Some (item t) ->
  has_status p Status.cancelled (item t) = false ->
  0 < bytesPerFrame t ->
  pcmOffset p = 0 ->
  k <= frame_count (pcm_length p (item t)) (bytesPerFrame t) ->
  Nat.iter k (tick t) p =
  set_log (log p ++ map (frame_of (item t) (pcm_length p (item t))
                                  (bytesPerFrame t) (gain p)) (seq 0 k))
    (set_pcmOffset (Nat.min (k * bytesPerFrame t)
                            (pcm_length p (item t))) p).
Proof.
  intros Hstate Hcur Hnc Hb Hoff. induction k as [|k IH]; intros Hk.
  - change (Nat.iter 0 (tick t) p) with p. cbn [seq map Nat.mul Nat.min].
    pose proof (set_log_pcmOffset_id p) as Hid. rewrite Hoff in Hid.
    symmetry. exact Hid.
  - change (Nat.iter (S k) (tick t) p)
      with (tick t (Nat.iter k (tick t) p)).
    rewrite IH by lia.
    assert (Hlt : k * bytesPerFrame t < pcm_length p (item t)).
    { apply frame_count_spec; [exact Hb|lia]. }
    set (p1 := set_log _ (set_pcmOffset _ p)).
    assert (Hlen : pcm_length p1 (item t) = pcm_length p (item t))
      by reflexivity.
    assert (Hgain : gain p1 = gain p) by reflexivity.
    rewrite (tick_writes p1 t k); try assumption.
    + rewrite Hlen, Hgain. unfold p1. rewrite seq_S, map_app.
      cbn [map Nat.add]. destruct p; cbn. rewrite <- app_assoc.
      reflexivity.
    + unfold p1. cbn [pcmOffset set_log set_pcmOffset]. lia.
Qed.

Lemma frames_total (L b k : nat) :
  0 < b ->
  list_sum (map (fun j => Nat.min b (L - j * b)) (seq 0 k))
  = Nat.min (k * b) L.
Proof.
  intros Hb. induction k as [|k IH]; [reflexivity|].
  rewrite seq_S, map_app, list_sum_app, IH. cbn [map list_sum Nat.add].
  change (S k * b) with (b + k * b). generalize (k * b). intros x.
  assert (E : list_sum [Nat.min b (L - x)] = Nat.min b (L - x))
    by (cbn; lia).
  rewrite E. lia.
Qed.

(** X6.  An item played without interruption: [n] ticks, [n] the number of
    frames, write the item frame by frame, every byte of it once and in
    order, the last frame filled up with silence; nothing else changes
    meanwhile, and the read position ends at the length of the item. *)
Theorem playback_writes_every_byte_once (p : AudioPlayer) (t : Timer) :
  let r := item t in
  let b := bytesPerFrame t in
  let L := pcm_length p r in
  let n := frame_count L b in
  state p = State.playing ->
  currentItem p = Some r ->
  has_status p Status.playing r = true ->
  pcmOffset p = 0 ->
  0 < b ->
  Nat.iter n (tick t) p =
  set_log (log p ++ map (frame_of r L b (gain p)) (seq 0 n))
          (set_pcmOffset L p) /\
  list_sum (map (fun k => Nat.min b (L - k * b)) (seq 0 n)) = L /\
  (forall k, k < n -> 0 < Nat.min b (L - k * b) /\
                      k * b + Nat.min b (L - k * b) <= L).
Proof.
  intros r b L n Hstate Hcur Hplaying Hoff Hb.
  assert (Hnc : has_status p Status.cancelled r = false).
  { unfold has_status in *. destruct (heap p !! r) as [x|]; [|reflexivity].
    destruct (status x); try discriminate Hplaying; reflexivity. }
  assert (Hend : Nat.min (n * b) L = L).
  { destruct (decide (L <= n * b)) as [H|H]; [lia|].
    assert (Hn : n < frame_count L b) by (apply frame_count_spec; lia).
    unfold n in Hn. lia. }
  split; [|split].
  - rewrite (ticks_write p t n Hstate Hcur Hnc Hb Hoff) by reflexivity.
    fold r b L. rewrite Hend. reflexivity.
  - rewrite frames_total by exact Hb. exact Hend.
  - intros k Hk. apply frame_count_spec in Hk; [|exact Hb]. lia.
Qed.

(** *** From one item to the next *)

Lemma find_pending_ext (p p' : AudioPlayer) (q : list ref) (i : nat) :
  (forall x, has_status p' Status.pending x = has_status p Status.pending x) ->
  find_pending p' q i = find_pending p q i.
Proof.
  intros Hsame. revert i. induction q as [|x q IH]; intros i; [reflexivity|].
  cbn. rewrite Hsame, IH. reflexivity.
Qed.

Lemma find_pending_pending (p : AudioPlayer) (q : list ref) (i j : nat)
    (r : ref) :
  find_pending p q i = Some (j, r) ->
  has_status p Status.pending r = true /\ q !! (j - i) = Some r /\ i <= j /\
  forall k x, k < j - i -> q !! k = Some x ->
              has_status p Status.pending x = false.
Proof.
  revert i. induction q as [|x q IH]; intros i; [discriminate|]. cbn.
  destruct (has_status p Status.pending x) eqn:E.
  - intros H. injection H as <- <-. rewrite Nat.sub_diag.
    split; [exact E|]. split; [reflexivity|]. split; [lia|].
    intros k y Hk. lia.
  - intros H. destruct (IH (S i) H) as (H1 & H2 & H3 & H4).
    split; [exact H1|]. replace (j - i) with (S (j - S i)) by lia.
    split; [exact H2|]. split; [lia|].
    intros [|k] y Hk Hy.
    + injection Hy as <-. exact E.
    + apply (H4 k y); [lia|exact Hy].
Qed.

(** What [processQueue] does once a round is over: the first pending item
    of the queue starts decoding; when none is pending, processing ends,
    and the player goes idle and reports completion if every item of the
    queue is completed or cancelled. *)
Lemma after_try_spec (p : AudioPlayer) :
  let p' := after_try p in
  currentItem p' = currentItem p /\ timers p' = timers p /\
  writeInterval p' = writeInterval p /\ queue p' = queue p /\
  pcmOffset p' = pcmOffset p /\
  match find_pending p (queue p) 0 with
  | Some (i, r') =>
      heap p' = alter (with_status Status.decoding) r' (heap p) /\
      has_status p' Status.decoding r' = true /\
      tasks p' = tasks p ++ [AwaitDecode r'] /\
      isProcessingQueue p' = true /\ currentIndex p' = i /\
      state p' = state p /\
      log p' = log p ++ [QueueChange (queue p); QueueChange (queue p)]
  | None =>
      heap p' = heap p /\ tasks p' = tasks p /\
      isProcessingQueue p' = false /\
      if forallb (is_settled p) (queue p)
      then state p' = State.idle /\
           log p' = log p ++ [QueueChange (queue p);
                              StateChange State.idle (currentItem p);
                              Complete]
      else state p' = state p /\ log p' = log p ++ [QueueChange (queue p)]
  end.
Proof.
  unfold after_try, processQueue.
  cbn [isProcessingQueue emit set_log set_isProcessingQueue].
  assert (Hfp : find_pending
            (emit (QueueChange (queue (set_isProcessingQueue false p)))
                  (set_isProcessingQueue false p))
            (queue (emit (QueueChange (queue (set_isProcessingQueue false p)))
                         (set_isProcessingQueue false p))) 0
          = find_pending p (queue p) 0).
  { apply find_pending_ext. intros x. reflexivity. }
  unfold emit in *. cbn [queue set_log set_isProcessingQueue log] in *.
  rewrite Hfp.
  destruct (find_pending p (queue p) 0) as [[i r']|] eqn:Hfind.
  - destruct (find_pending_pending p (queue p) 0 i r' Hfind) as (Hp & _).
    destruct p as [av hp rt q ci st vol mu pq so cur off fs wi tm nh tk lg].
    cbn in *. repeat split.
    + unfold has_status in *. cbn in *. rewrite list_lookup_alter_eq.
      destruct (hp !! r') as [x|]; [reflexivity|discriminate Hp].
    + rewrite <- app_assoc. reflexivity.
  - assert (Hsettled : forallb
              (is_settled
                 (set_isProcessingQueue false
                    (set_log (log p ++ [QueueChange (queue p)])
                       (set_isProcessingQueue false p))))
              (queue p) = forallb (is_settled p) (queue p)) by reflexivity.
    cbn [queue set_isProcessingQueue set_log]. rewrite Hsettled.
    destruct (forallb (is_settled p) (queue p));
      destruct p as [av hp rt q ci st vol mu pq so cur off fs wi tm nh tk lg];
      cbn; rewrite <- ?app_assoc; repeat split.
Qed.

Lemma has_status_heap (p p' : AudioPlayer) (s : Status.t) (x : ref) :
  heap p' = heap p -> has_status p' s x = has_status p s x.
Proof. unfold has_status. intros ->. reflexivity. Qed.

Lemma has_status_alter (p p' : AudioPlayer) (s s' : Status.t) (r x : ref) :
  heap p' = alter (with_status s') r (heap p) ->
  has_status p' s x =
  if bool_decide (x = r) && bool_decide (is_Some (heap p !! r))
  then Status.eqb s' s else has_status p s x.
Proof.
  intros Hh. unfold has_status. rewrite Hh.
  destruct (decide (x = r)) as [->|Hne].
  - rewrite bool_decide_eq_true_2 by reflexivity.
    rewrite list_lookup_alter_eq. destruct (heap p !! r) as [it|]; cbn.
    + try (rewrite bool_decide_eq_true_2 by eauto). reflexivity.
    + try (rewrite bool_decide_eq_false_2
             by (intros [? H]; discriminate H)).
      reflexivity.
  - rewrite bool_decide_eq_false_2 by exact Hne.
    rewrite list_lookup_alter_ne by auto. reflexivity.
Qed.

Lemma has_status_exclusive (p : AudioPlayer) (s s' : Status.t) (x : ref) :
  has_status p s x = true -> s <> s' -> has_status p s' x = false.
Proof.
  unfold has_status. destruct (heap p !! x) as [it|]; [|discriminate].
  intros H Hne. apply status_eqb_eq' in H. subst s.
  destruct (Status.eqb (status it) s') eqn:E; [|reflexivity].
  apply status_eqb_eq' in E. contradiction.
Qed.

Lemma forallb_ext_heap (p p' : AudioPlayer) (q : list ref) :
  heap p' = heap p ->
  forallb (is_settled p') q = forallb (is_settled p) q.
Proof.
  intros Hh. induction q as [|x q IH]; [reflexivity|]. cbn.
  rewrite IH. unfold is_settled.
  rewrite !(has_status_heap p p' _ x Hh). reflexivity.
Qed.

(** X7.  The tick that finds the data of the playing item used up ends the
    item and takes up the queue again: the item is completed, the stream is
    stopped and the timer cleared; the first pending item of the queue, if
    there is one, starts decoding; if there is none, processing ends, and
    the player goes idle and reports completion once every item of the queue
    is completed or cancelled. *)
Theorem finished_item_hands_over (p : AudioPlayer) (t : Timer) :
  let r := item t in
  state p = State.playing ->
  currentItem p = Some r ->
  has_status p Status.playing r = true ->
  pcm_length p r <= pcmOffset p ->
  writeInterval p = Some (handle t) ->
  timers p = [t] ->
  tasks p = [AwaitPlay (handle t) r] ->
  let p' := tick t p in
  has_status p' Status.completed r = true /\
  currentItem p' = None /\ timers p' = [] /\ writeInterval p' = None /\
  match find_pending p (queue p) 0 with
  | Some (i, r') =>
      has_status p' Status.decoding r' = true /\
      tasks p' = [AwaitDecode r'] /\
      isProcessingQueue p' = true /\ currentIndex p' = i
  | None =>
      tasks p' = [] /\ isProcessingQueue p' = false /\
      (forallb (is_settled p') (queue p') = true ->
       state p' = State.idle /\ last (log p') = Some Complete)
  end.
Proof.
  intros r Hstate Hcur Hplaying Hdone Hwi Htm Htk p'.
  assert (Hnc : has_status p Status.cancelled r = false)
    by (apply (has_status_exclusive p _ _ r Hplaying); discriminate).
  set (p2 := set_tasks []
               (emit RtStop
                  (set_currentItem None
                     (set_item_status r Status.completed
                        (clear_writeInterval p))))).
  assert (Htick : p' = after_try p2).
  { subst p'. unfold tick. fold r.
    rewrite Hcur, bool_decide_eq_true_2 by reflexivity.
    rewrite Hstate, Hnc. cbn [negb State.eqb orb].
    rewrite (proj2 (Nat.leb_le _ _) Hdone).
    unfold resolve.
    assert (E : tasks (emit RtStop
                  (set_currentItem None
                     (set_item_status r Status.completed
                        (clear_writeInterval p))))
                = [AwaitPlay (handle t) r]).
    { unfold clear_writeInterval. rewrite Hwi. exact Htk. }
    rewrite E. cbn [existsb awaits_play orb remove_task].
    rewrite Nat.eqb_refl. reflexivity. }
  assert (H2 : heap p2 = alter (with_status Status.completed) r (heap p) /\
               currentItem p2 = None /\ timers p2 = [] /\
               writeInterval p2 = None /\ tasks p2 = [] /\
               queue p2 = queue p).
  { unfold p2, clear_writeInterval, clearInterval. rewrite Hwi.
    cbn [heap currentItem timers writeInterval tasks queue set_tasks emit
         set_log set_currentItem set_item_status set_heap set_writeInterval
         set_timers].
    rewrite Htm. repeat split. rewrite filter_cons.
    destruct (decide (handle t ≠ handle t)) as [Hne|_];
      [destruct (Hne eq_refl)|reflexivity]. }
  destruct H2 as (Hh2 & Hcur2 & Htm2 & Hwi2 & Htk2 & Hq2).
  assert (Hin : is_Some (heap p !! r)).
  { unfold has_status in Hplaying. destruct (heap p !! r); [eauto|].
    discriminate Hplaying. }
  assert (Hpend : forall x, has_status p2 Status.pending x
                            = has_status p Status.pending x).
  { intros x. rewrite (has_status_alter p p2 _ _ r x Hh2).
    destruct (decide (x = r)) as [->|Hne].
    - rewrite bool_decide_eq_true_2 by reflexivity.
      rewrite bool_decide_eq_true_2 by exact Hin. cbn.
      symmetry. apply (has_status_exclusive p _ _ r Hplaying). discriminate.
    - rewrite bool_decide_eq_false_2 by exact Hne. reflexivity. }
  assert (Hdone2 : has_status p2 Status.completed r = true).
  { rewrite (has_status_alter p p2 _ _ r r Hh2).
    rewrite !bool_decide_eq_true_2 by (reflexivity || exact Hin).
    reflexivity. }
  destruct (after_try_spec p2) as (A1 & A2 & A3 & A4 & A5 & Hnext).
  rewrite <- Htick in A1, A2, A3, A4, A5, Hnext.
  rewrite Hq2, (find_pending_ext p p2 (queue p) 0 Hpend) in Hnext.
  rewrite Hcur2 in A1. rewrite Htm2 in A2. rewrite Hwi2 in A3.
  destruct (find_pending p (queue p) 0) as [[i r']|] eqn:Hfind.
  - destruct Hnext as (B1 & B2 & B3 & B4 & B5 & _).
    destruct (find_pending_pending p (queue p) 0 i r' Hfind) as (Hp & _).
    assert (Hne : r <> r').
    { intros ->. rewrite (has_status_exclusive p _ _ r' Hplaying) in Hp
        by discriminate. discriminate Hp. }
    split.
    { rewrite (has_status_alter p2 p' _ _ r' r B1).
      rewrite bool_decide_eq_false_2 by exact Hne. exact Hdone2. }
    split; [exact A1|]. split; [exact A2|]. split; [exact A3|].
    split; [exact B2|]. split; [rewrite B3, Htk2; reflexivity|].
    split; assumption.
  - destruct Hnext as (B1 & B2 & B3 & B4).
    split; [rewrite (has_status_heap p2 p' _ r B1); exact Hdone2|].
    split; [exact A1|]. split; [exact A2|]. split; [exact A3|].
    split; [rewrite B2; exact Htk2|]. split; [exact B3|].
    rewrite A4, Hq2, (forallb_ext_heap p2 p' _ B1). intros Hall.
    rewrite Hall in B4. destruct B4 as [B4 B5]. split; [exact B4|].
    rewrite B5.
    change [QueueChange (queue p); StateChange State.idle (currentItem p2);
            Complete]
      with ([QueueChange (queue p);
             StateChange State.idle (currentItem p2)] ++ [Complete]).
    rewrite app_assoc. apply last_snoc.
Qed.

Lemma initStream_fails (rate ch : N) (deviceOk : bool) (p : AudioPlayer) :
  deviceOk = false \/ isAudifyAvailable p = false ->
  exists p' extra,
    initStream rate ch deviceOk p = (p', false) /\
    heap p' = heap p /\ currentItem p' = currentItem p /\
    timers p' = timers p /\ tasks p' = tasks p /\ queue p' = queue p /\
    log p' = log p ++ extra /\ Forall (fun e => e = RtClose) extra.
Proof.
  intros Hwhy. unfold initStream.
  destruct p as [av hp rt q ci st vol mu pq so cur off fs wi tm nh tk lg].
  cbn in Hwhy. cbn [streamOpen].
  destruct so, av, deviceOk;
    try (destruct Hwhy as [Hwhy|Hwhy]; discriminate Hwhy);
    cbn; eexists;
    first [ solve [ exists [RtClose]; split; [reflexivity|]; cbn;
                    repeat split; repeat constructor ]
          | solve [ exists []; split; [reflexivity|]; cbn;
                    rewrite ?app_nil_r; repeat split; constructor ] ].
Qed.

(** X8.  An item that cannot be played (its audio does not decode, the
    output stream does not open, or the audio library is missing) is marked
    as completed without a single write, and the queue goes on as after an
    item that was played: the first pending item starts decoding. *)
Theorem unplayable_item_is_passed_over (p : AudioPlayer) (r : ref)
    (d : Decode) (deviceOk : bool) :
  tasks p = [AwaitDecode r] ->
  has_status p Status.decoding r = true ->
  d = DecodeError \/ deviceOk = false \/ isAudifyAvailable p = false ->
  exists p', step p (Decoded r d deviceOk) = Some p' /\
    has_status p' Status.completed r = true /\
    currentItem p' = currentItem p /\ timers p' = timers p /\
    Forall (fun e => forall x off len g, e <> RtWrite x off len g)
           (drop (length (log p)) (log p')) /\
    match find_pending p (queue p) 0 with
    | Some (i, r') =>
        has_status p' Status.decoding r' = true /\
        tasks p' = [AwaitDecode r'] /\
        isProcessingQueue p' = true /\ currentIndex p' = i
    | None =>
        tasks p' = [] /\ isProcessingQueue p' = false /\
        (forallb (is_settled p') (queue p') = true ->
         state p' = State.idle /\ last (log p') = Some Complete)
    end.
Proof.
  intros Htk Hdec Hwhy.
  assert (Hin : is_Some (heap p !! r)).
  { unfold has_status in Hdec. destruct (heap p !! r); [eauto|].
    discriminate Hdec. }
  cbn [step]. rewrite Htk. cbn [existsb awaits_decode orb remove_task].
  rewrite Nat.eqb_refl. cbn [orb]. eexists. split; [reflexivity|].
  set (p0 := set_tasks [] p).
  (* the state handed to [after_try] *)
  assert (Hshape : exists p2 extra,
    decoded r d deviceOk p0 = after_try p2 /\
    (forall x, x <> r -> heap p2 !! x = heap p !! x) /\
    has_status p2 Status.completed r = true /\
    currentItem p2 = currentItem p /\ timers p2 = timers p /\
    tasks p2 = [] /\ queue p2 = queue p /\
    log p2 = log p ++ extra /\ Forall (fun e => e = RtClose) extra).
  { unfold decoded. destruct d as [pcm rate ch|].
    - set (p1 := set_item_status r Status.ready
                   (set_heap (alter (with_pcm pcm rate ch) r (heap p0)) p0)).
      destruct (initStream_fails rate ch deviceOk p1)
        as (p1' & extra & -> & F1 & F2 & F3 & F4 & F5 & F6 & F7).
      { destruct Hwhy as [Hd|[Hd|Hd]]; [discriminate Hd|left; exact Hd|].
        right. exact Hd. }
      exists (set_item_status r Status.completed p1'), extra.
      split; [reflexivity|].
      cbn [heap currentItem timers tasks queue log set_item_status set_heap].
      rewrite F1, F2, F3, F4, F5, F6.
      split; [|split; [|repeat split; exact F7]].
      + intros x Hne. rewrite list_lookup_alter_ne by auto.
        unfold p1. cbn [heap set_item_status set_heap p0 set_tasks].
        rewrite !list_lookup_alter_ne by auto. reflexivity.
      + unfold has_status. cbn [heap set_item_status set_heap].
        rewrite F1, list_lookup_alter_eq. unfold p1.
        cbn [heap set_item_status set_heap p0 set_tasks].
        rewrite !list_lookup_alter_eq.
        destruct Hin as [it ->]. reflexivity.
    - exists (set_item_status r Status.completed p0), [].
      split; [reflexivity|].
      cbn [heap currentItem timers tasks queue log set_item_status set_heap
           p0 set_tasks].
      split; [|split; [|repeat split]].
      + intros x Hne. rewrite list_lookup_alter_ne by auto. reflexivity.
      + unfold has_status. cbn [heap set_item_status set_heap p0 set_tasks].
        rewrite list_lookup_alter_eq. destruct Hin as [it ->]. reflexivity.
      + symmetry. apply app_nil_r.
      + constructor. }
  destruct Hshape as (p2 & extra & -> & Hh2 & Hdone2 & Hcur2 & Htm2 & Htk2
                      & Hq2 & Hlog2 & Hextra).
  assert (Hpend : forall x, has_status p2 Status.pending x
                            = has_status p Status.pending x).
  { intros x. destruct (decide (x = r)) as [->|Hne].
    - rewrite (has_status_exclusive p2 _ Status.pending r Hdone2)
        by discriminate.
      rewrite (has_status_exclusive p _ Status.pending r Hdec)
        by discriminate. reflexivity.
    - unfold has_status. rewrite (Hh2 x Hne). reflexivity. }
  destruct (after_try_spec p2) as (A1 & A2 & A3 & A4 & A5 & Hnext).
  rewrite Hq2, (find_pending_ext p p2 (queue p) 0 Hpend) in Hnext.
  rewrite Hcur2 in A1. rewrite Htm2 in A2.
  assert (Hwrites : forall tail,
    Forall (fun e => forall x off len g, e <> RtWrite x off len g) tail ->
    log (after_try p2) = log p2 ++ tail ->
    Forall (fun e => forall x off len g, e <> RtWrite x off len g)
           (drop (length (log p)) (log (after_try p2)))).
  { intros tail Htail ->. rewrite Hlog2, <- app_assoc, drop_app_length.
    apply Forall_app. split; [|exact Htail].
    eapply Forall_impl; [exact Hextra|]. cbn. intros e -> x off len g.
    discriminate. }
  destruct (find_pending p (queue p) 0) as [[i r']|] eqn:Hfind.
  - destruct Hnext as (B1 & B2 & B3 & B4 & B5 & B6 & B7).
    destruct (find_pending_pending p (queue p) 0 i r' Hfind) as (Hp & _).
    assert (Hne : r <> r').
    { intros ->. rewrite (has_status_exclusive p _ _ r' Hdec) in Hp
        by discriminate. discriminate Hp. }
    split.
    { rewrite (has_status_alter p2 _ _ _ r' r B1).
      rewrite bool_decide_eq_false_2 by exact Hne. exact Hdone2. }
    split; [exact A1|]. split; [exact A2|]. split.
    { eapply Hwrites; cycle 1; [exact B7|].
      repeat (apply Forall_cons; split; [intros ? ? ? ?; discriminate|]).
      apply Forall_nil. exact I. }
    split; [exact B2|]. split; [rewrite B3, Htk2; reflexivity|].
    split; assumption.
  - destruct Hnext as (B1 & B2 & B3 & B4).
    split; [rewrite (has_status_heap p2 _ _ r B1); exact Hdone2|].
    split; [exact A1|]. split; [exact A2|].
    destruct (forallb (is_settled p2) (queue p)) eqn:Hall.
    + destruct B4 as [B4 B5]. split.
      { eapply Hwrites; cycle 1; [exact B5|].
      repeat (apply Forall_cons; split; [intros ? ? ? ?; discriminate|]).
      apply Forall_nil. exact I. }
      split; [rewrite B2; exact Htk2|]. split; [exact B3|].
      intros _. split; [exact B4|]. rewrite B5.
      change [QueueChange (queue p); StateChange State.idle (currentItem p2);
              Complete]
        with ([QueueChange (queue p);
               StateChange State.idle (currentItem p2)] ++ [Complete]).
      rewrite app_assoc. apply last_snoc.
    + destruct B4 as [B4 B5]. split.
      { eapply Hwrites; cycle 1; [exact B5|].
      repeat (apply Forall_cons; split; [intros ? ? ? ?; discriminate|]).
      apply Forall_nil. exact I. }
      split; [rewrite B2; exact Htk2|]. split; [exact B3|].
      rewrite A4, Hq2, (forallb_ext_heap p2 _ _ B1), Hall. discriminate.
Qed.

End PlaybackFacts.

Section PlaybackExamples.
Import Player Examples Scenarios.

Lemma pause_resume_loses_nothing_witness :
  let p := player_playing in
  let paused := foldl (fun p t => tick t p) (pause p) [first_timer] in
  paused = pause p /\
  state paused = State.paused /\
  has_status paused Status.paused 0 = true /\
  resume paused =
  set_log (log p ++ [ StateChange State.paused (Some 0);
                      QueueChange (queue p);
                      StateChange State.playing (Some 0);
                      QueueChange (queue p) ]) p.
Proof.
  destruct (heap player_playing !! 0) as [it|] eqn:Hit;
    [|vm_compute in Hit; discriminate Hit].
  apply (pause_resume_loses_nothing player_playing 0 it [first_timer]).
  - vm_compute. reflexivity.
  - vm_compute. reflexivity.
  - exact Hit.
  - vm_compute in Hit. injection Hit as <-. reflexivity.
  - repeat constructor.
Defined.

Lemma playback_writes_every_byte_once_witness :
  let p := player_started in
  Nat.iter 3 (tick first_timer) p =
  set_log (log p ++ map (frame_of 0 5000 2048 (gain p)) (seq 0 3))
          (set_pcmOffset 5000 p) /\
  list_sum (map (fun k => Nat.min 2048 (5000 - k * 2048)) (seq 0 3)) = 5000 /\
  (forall k, k < 3 -> 0 < Nat.min 2048 (5000 - k * 2048) /\
                      k * 2048 + Nat.min 2048 (5000 - k * 2048) <= 5000).
Proof.
  apply (playback_writes_every_byte_once player_started first_timer).
  - vm_compute. reflexivity.
  - vm_compute. reflexivity.
  - vm_compute. reflexivity.
  - vm_compute. reflexivity.
  - vm_compute. lia.
Defined.

Lemma finished_item_hands_over_witness :
  let p := player_written in
  let p' := tick first_timer p in
  has_status p' Status.completed 0 = true /\
  currentItem p' = None /\ timers p' = [] /\ writeInterval p' = None /\
  match find_pending p (queue p) 0 with
  | Some (i, r') =>
      has_status p' Status.decoding r' = true /\
      tasks p' = [AwaitDecode r'] /\
      isProcessingQueue p' = true /\ currentIndex p' = i
  | None =>
      tasks p' = [] /\ isProcessingQueue p' = false /\
      (forallb (is_settled p') (queue p') = true ->
       state p' = State.idle /\ last (log p') = Some Complete)
  end.
Proof.
  apply (finished_item_hands_over player_written first_timer).
  - vm_compute. reflexivity.
  - vm_compute. reflexivity.
  - vm_compute. reflexivity.
  - vm_compute. lia.
  - vm_compute. reflexivity.
  - vm_compute. reflexivity.
  - vm_compute. reflexivity.
Defined.

Lemma unplayable_item_is_passed_over_witness :
  let p := default (create true)
             (run (create true) [AddToQueue [1%N] None;
                                 AddToQueue [2%N] None]) in
  exists p', step p (Decoded 0 DecodeError true) = Some p' /\
    has_status p' Status.completed 0 = true /\
    currentItem p' = currentItem p /\ timers p' = timers p /\
    Forall (fun e => forall x off len g, e <> RtWrite x off len g)
           (drop (length (log p)) (log p')) /\
    match find_pending p (queue p) 0 with
    | Some (i, r') =>
        has_status p' Status.decoding r' = true /\
        tasks p' = [AwaitDecode r'] /\
        isProcessingQueue p' = true /\ currentIndex p' = i
    | None =>
        tasks p' = [] /\ isProcessingQueue p' = false /\
        (forallb (is_settled p') (queue p') = true ->
         state p' = State.idle /\ last (log p') = Some Complete)
    end.
Proof.
  intros p.
  apply (unplayable_item_is_passed_over p 0 DecodeError true).
  - vm_compute. reflexivity.
  - vm_compute. reflexivity.
  - left. reflexivity.
Defined.

End PlaybackExamples.

(** ** Voice bridge: answers by voice, sessions, permission requests *)

Section BridgeAnswers.
Import Js Bridge Examples.

Variable toLowerCase toUpperCase : str -> str.

(** *** Answers by voice *)

Lemma transcripts_handled_effects (srv : Server) (requestId : str)
    (approved alwaysAllow : bool) :
  transcripts (handled_effects srv requestId approved alwaysAllow) = [].
Proof.
  unfold handled_effects, transcripts. rewrite omap_app.
  destruct (onPermissionResponse srv), (current_session srv) as [c|];
    cbn; try reflexivity;
    repeat match goal with
           | |- context [if ?b then _ else _] => destruct b
           end; reflexivity.
Qed.

Lemma transcripts_handlePermissionAndAdvance (srv : Server) (requestId : str)
    (approved alwaysAllow : bool) :
  transcripts (trace (handlePermissionAndAdvance requestId approved
                        alwaysAllow srv))
  = transcripts (trace srv).
Proof.
  rewrite handlePermissionAndAdvance_eq. cbn [trace].
  unfold transcripts at 1. rewrite omap_app.
  fold (transcripts (trace srv)).
  fold (transcripts (handled_effects srv requestId approved alwaysAllow)).
  rewrite transcripts_handled_effects, app_nil_r. reflexivity.
Qed.

Lemma transcripts_resolve_all (ids : list str) (approved : bool)
    (srv : Server) :
  transcripts (trace (resolve_all ids approved srv))
  = transcripts (trace srv).
Proof.
  revert srv. induction ids as [|i ids IH]; intros srv; [reflexivity|].
  change (resolve_all (i :: ids) approved srv)
    with (resolve_all ids approved
            (handlePermissionAndAdvance i approved false srv)).
  rewrite IH. apply transcripts_handlePermissionAndAdvance.
Qed.

(** X9.  A deny-all phrase (with no allow-all phrase, which goes first)
    denies every queued request: one call of the callback per entry, in the
    order of the queue, with [approved = false], and the queue is empty. *)
Theorem deny_all_resolves_every_request (srv : Server) (transcript : str) :
  pendingPermissions srv <> [] ->
  isAllowAll toLowerCase transcript = false ->
  isDenyAll toLowerCase transcript = true ->
  onPermissionResponse srv = true ->
  let result := checkForPermissionResponse toLowerCase transcript srv in
  snd result = true /\
  pendingPermissions (fst result) = [] /\
  responses (trace (fst result)) =
  responses (trace srv)
  ++ map (fun p => (id p, false, false)) (pendingPermissions srv).
Proof.
  intros Hne Hallow Hdeny Hcb result. subst result.
  unfold checkForPermissionResponse.
  destruct (pendingPermissions srv) as [|current q] eqn:Hq;
    [destruct (Hne eq_refl)|].
  rewrite Hallow, Hdeny. cbn [fst snd]. split; [reflexivity|].
  destruct (resolve_all_spec false (current :: q) srv Hq)
    as (Hq' & _ & _ & Hr'). cbn zeta in *.
  rewrite Hq', Hr', Hcb. split; reflexivity.
Qed.

(** A plain answer: no batch phrase, no always-allow phrase, and either an
    approval phrase or a denial phrase but not both. *)
Definition plain (transcript : str) : Prop :=
  isAllowAll toLowerCase transcript = false /\
  isDenyAll toLowerCase transcript = false /\
  isAlwaysAllow toLowerCase transcript = false /\
  isApproval toLowerCase transcript = negb (isDenial toLowerCase transcript).

Lemma plain_answer (srv : Server) (transcript : str) (current : Permission)
    (q : list Permission) :
  pendingPermissions srv = current :: q -> plain transcript ->
  checkForPermissionResponse toLowerCase transcript srv =
  (handlePermissionAndAdvance (id current)
     (isApproval toLowerCase transcript) false srv, true).
Proof.
  intros Hq (Hallow & Hdeny & Halways & Hone).
  unfold checkForPermissionResponse. rewrite Hq, Hallow, Hdeny, Halways, Hone.
  destruct (isDenial toLowerCase transcript); reflexivity.
Qed.

(** The transcripts of one answer after the other. *)
Definition answer_all (transcripts : list str) (srv : Server) : Server :=
  foldl (fun srv t => fst (checkForPermissionResponse toLowerCase t srv))
        srv transcripts.

(** X10.  Plain answers resolve the queued requests one by one in the order
    of the queue: the n-th answer decides the n-th request, and the requests
    not yet answered stay queued. *)
Theorem plain_answers_resolve_in_order (transcripts : list str)
    (srv : Server) :
  Forall plain transcripts ->
  length transcripts <= length (pendingPermissions srv) ->
  onPermissionResponse srv = true ->
  pendingPermissions (answer_all transcripts srv)
  = drop (length transcripts) (pendingPermissions srv) /\
  responses (trace (answer_all transcripts srv))
  = responses (trace srv)
    ++ zip_with (fun p t => (id p, isApproval toLowerCase t, false))
                (pendingPermissions srv) transcripts.
Proof.
  intros Hplain. revert srv.
  induction Hplain as [|t ts Ht Hts IH]; intros srv Hlen Hcb.
  - cbn. rewrite drop_0. destruct (pendingPermissions srv);
      rewrite app_nil_r; split; reflexivity.
  - destruct (pendingPermissions srv) as [|current q] eqn:Hq;
      [cbn in Hlen; lia|].
    cbn [answer_all foldl].
    rewrite (plain_answer srv t current q Hq Ht). cbn [fst].
    set (srv1 := handlePermissionAndAdvance (id current)
                   (isApproval toLowerCase t) false srv).
    assert (H1 : pendingPermissions srv1 = q /\
                 onPermissionResponse srv1 = true /\
                 responses (trace srv1) =
                 responses (trace srv)
                 ++ [(id current, isApproval toLowerCase t, false)]).
    { unfold srv1. rewrite handlePermissionAndAdvance_eq.
      cbn [pendingPermissions onPermissionResponse trace].
      rewrite Hq, remove_permission_head. repeat split; [exact Hcb|].
      unfold responses at 1. rewrite omap_app.
      fold (responses (trace srv)).
      fold (responses (handled_effects srv (id current)
                         (isApproval toLowerCase t) false)).
      rewrite responses_handled_effects, Hcb. reflexivity. }
    destruct H1 as (Hq1 & Hcb1 & Hr1).
    destruct (IH srv1) as [Hq' Hr']; [rewrite Hq1; cbn in Hlen; lia|exact Hcb1|].
    fold (answer_all ts srv1). rewrite Hq', Hr', Hq1, Hr1.
    cbn [length drop zip_with]. rewrite <- app_assoc. split; reflexivity.
Qed.

(** [checkForPermissionResponse] looks at the queue and the transcript
    only. *)
Lemma check_answer_frame (srv srv' : Server) (transcript : str) :
  pendingPermissions srv' = pendingPermissions srv ->
  snd (checkForPermissionResponse toLowerCase transcript srv')
  = snd (checkForPermissionResponse toLowerCase transcript srv).
Proof.
  intros Hq. unfold checkForPermissionResponse. rewrite Hq.
  destruct (pendingPermissions srv); [reflexivity|].
  repeat match goal with
         | |- context [if ?b then _ else _] => destruct b
         end; reflexivity.
Qed.

Lemma length_remove_permission_head (p : Permission) (q : list Permission) :
  length (remove_permission (p :: q) (id p)) < length (p :: q).
Proof. rewrite remove_permission_head. cbn. lia. Qed.

Lemma check_answer_effects (srv : Server) (transcript : str) :
  snd (checkForPermissionResponse toLowerCase transcript srv) = true ->
  transcripts (trace (fst (checkForPermissionResponse toLowerCase transcript
                             srv)))
  = transcripts (trace srv) /\
  length (pendingPermissions
            (fst (checkForPermissionResponse toLowerCase transcript srv)))
  < length (pendingPermissions srv).
Proof.
  unfold checkForPermissionResponse.
  destruct (pendingPermissions srv) as [|current q] eqn:Hq;
    [discriminate|].
  assert (Hone : forall approved alwaysAllow,
    transcripts (trace (handlePermissionAndAdvance (id current) approved
                          alwaysAllow srv)) = transcripts (trace srv) /\
    length (pendingPermissions (handlePermissionAndAdvance (id current)
                                  approved alwaysAllow srv))
    < length (current :: q)).
  { intros approved alwaysAllow.
    split; [apply transcripts_handlePermissionAndAdvance|].
    rewrite handlePermissionAndAdvance_eq. cbn [pendingPermissions].
    rewrite Hq. apply length_remove_permission_head. }
  assert (Hall : forall approved,
    transcripts (trace (resolve_all (map id (current :: q)) approved srv))
    = transcripts (trace srv) /\
    length (pendingPermissions (resolve_all (map id (current :: q)) approved
                                  srv))
    < length (current :: q)).
  { intros approved. split; [apply transcripts_resolve_all|].
    destruct (resolve_all_spec approved (current :: q) srv Hq) as (Hq' & _).
    cbn zeta in Hq'. rewrite Hq'. cbn. lia. }
  repeat match goal with
         | |- context [if ?b then _ else _] => destruct b
         end; cbn [fst snd]; intros H; try discriminate H; auto.
Qed.

(** X11.  A transcript taken as an answer to a permission request stays in
    the bridge: at least one request leaves the queue, the request is
    answered with 200 and [isPermissionResponse], and the transcript is not
    handed on to the assistant. *)
Theorem permission_answer_is_not_forwarded (srv : Server) (tok : option str)
    (transcript : str) (now : Z) (s : Session) :
  session_for_token srv tok = Some s ->
  snd (checkForPermissionResponse toLowerCase transcript srv) = true ->
  let result := handleAudio toLowerCase tok (AudioData (Heard transcript))
                            now srv in
  snd result = {| statusCode := 200; body := Transcribed transcript true |}
  /\
  transcripts (trace (fst result)) = transcripts (trace srv) /\
  length (pendingPermissions (fst result)) < length (pendingPermissions srv).
Proof.
  intros Htok Hanswer result. subst result.
  unfold handleAudio. rewrite Htok.
  set (srv1 := set_sessions (touch_for_token (sessions srv) tok now) srv).
  rewrite sendToSession_trace.
  set (srv2 := if channel_open srv1 (code s)
               then emit (SSE (code s) (lit "transcript")
                              (TranscriptData transcript)) srv1
               else srv1).
  assert (H2 : pendingPermissions srv2 = pendingPermissions srv /\
               transcripts (trace srv2) = transcripts (trace srv)).
  { unfold srv2. destruct (channel_open srv1 (code s)); cbn.
    - unfold transcripts. rewrite !omap_app. cbn.
      rewrite !app_nil_r. repeat split.
    - repeat split. }
  destruct H2 as (Hq2 & Ht2).
  pose proof (check_answer_frame srv srv2 transcript Hq2) as Hsame.
  rewrite Hanswer in Hsame.
  destruct (check_answer_effects srv2 transcript Hsame) as [Ht3 Hlen3].
  destruct (checkForPermissionResponse toLowerCase transcript srv2)
    as [srv3 answered].
  cbn [fst snd] in *. subst answered.
  rewrite sendToSession_trace.
  destruct (channel_open srv3 (code s)); cbn [fst snd];
    (split; [reflexivity|]); rewrite <- Hq2, <- Ht2, <- Ht3;
    (split; [|exact Hlen3]).
  - cbn. unfold transcripts. rewrite omap_app. cbn. rewrite app_nil_r.
    reflexivity.
  - reflexivity.
Qed.

(** X12.  With no permission request queued nothing is taken as an answer:
    every transcript, whatever it says, is handed on to the assistant. *)
Theorem no_pending_request_forwards_transcript (srv : Server)
    (tok : option str) (transcript : str) (now : Z) (s : Session) :
  session_for_token srv tok = Some s ->
  pendingPermissions srv = [] ->
  let result := handleAudio toLowerCase tok (AudioData (Heard transcript))
                            now srv in
  snd result = {| statusCode := 200; body := Transcribed transcript false |}
  /\
  transcripts (trace (fst result)) = transcripts (trace srv) ++ [transcript]
  /\
  responses (trace (fst result)) = responses (trace srv) /\
  pendingPermissions (fst result) = [].
Proof.
  intros Htok Hq result. subst result.
  unfold handleAudio. rewrite Htok.
  set (srv1 := set_sessions (touch_for_token (sessions srv) tok now) srv).
  rewrite sendToSession_trace.
  set (srv2 := if channel_open srv1 (code s)
               then emit (SSE (code s) (lit "transcript")
                              (TranscriptData transcript)) srv1
               else srv1).
  assert (H2 : pendingPermissions srv2 = [] /\
               responses (trace srv2) = responses (trace srv) /\
               transcripts (trace srv2) = transcripts (trace srv)).
  { unfold srv2. destruct (channel_open srv1 (code s)); cbn.
    - unfold responses, transcripts. rewrite !omap_app. cbn.
      rewrite !app_nil_r. repeat split. exact Hq.
    - repeat split. exact Hq. }
  destruct H2 as (Hq2 & Hr2 & Ht2).
  unfold checkForPermissionResponse. rewrite Hq2.
  cbn [fst snd emit pendingPermissions trace].
  split; [reflexivity|].
  unfold responses, transcripts in *. rewrite !omap_app. cbn.
  rewrite app_nil_r, Hr2, Ht2, Hq2. repeat split.
Qed.

(** *** Requests that are turned away *)

Lemma session_for_token_None (srv : Server) (tok : option str) :
  (forall k s t, tok = Some t -> (k, s) ∈ sessions srv -> token s = t ->
                 connected s = false) ->
  session_for_token srv tok = None.
Proof.
  intros Hnone. unfold session_for_token.
  destruct (find (fun kv => has_token tok (snd kv)) (sessions srv))
    as [[k s]|] eqn:E; [|reflexivity].
  exfalso. apply find_some in E. destruct E as [Hin Htok].
  cbn in Htok. unfold has_token in Htok.
  destruct tok as [t|]; [|discriminate Htok].
  apply andb_true_iff in Htok. destruct Htok as [Ht Hc].
  apply bool_decide_eq_true_1 in Ht.
  apply list_elem_of_In in Hin.
  rewrite (Hnone k s t eq_refl Hin Ht) in Hc. discriminate Hc.
Qed.

(** X13.  A request without the token header, or with a token that no
    connected session carries (the token of a session created but not yet
    paired included), is answered with 401 by [/audio] and by [/permission],
    and nothing changes: nothing is transcribed, forwarded or resolved. *)
Theorem unpaired_token_is_rejected (srv : Server) (tok : option str)
    (audio : AudioBody) (decision : PermissionBody) (now : Z) :
  (forall k s t, tok = Some t -> (k, s) ∈ sessions srv -> token s = t ->
                 connected s = false) ->
  handleAudio toLowerCase tok audio now srv
  = (srv, {| statusCode := 401;
             body := ErrorOnly (lit "Invalid or expired session") |}) /\
  handlePermission tok decision srv
  = (srv, {| statusCode := 401;
             body := ErrorOnly (lit "Invalid or expired session") |}).
Proof.
  intros Hnone. unfold handleAudio, handlePermission.
  rewrite (session_for_token_None srv tok Hnone). split; reflexivity.
Qed.

Lemma session_for_token_touch (m : list (str * Session)) (tok : option str)
    (now : Z) (s : Session) :
  snd <$> find (fun kv => has_token tok (snd kv)) m = Some s ->
  snd <$> find (fun kv => has_token tok (snd kv)) (touch_for_token m tok now)
  = Some (touch now s) /\
  map fst (touch_for_token m tok now) = map fst m.
Proof.
  induction m as [|[k v] m IH]; [discriminate|]. cbn.
  destruct (has_token tok v) eqn:E; cbn.
  - intros H. injection H as <-.
    assert (E' : has_token tok (touch now v) = true) by exact E.
    rewrite E'. split; reflexivity.
  - rewrite E. intros H. destruct (IH H) as [H1 H2]. rewrite H1, H2.
    split; reflexivity.
Qed.

(** X14.  When the transcription fails (or the body cannot be read) the
    request is answered with 500 and the message of the error; nothing is
    pushed, forwarded or resolved. The session has been touched all the
    same: its last-activity time is the time of the request. *)
Theorem failed_transcription_is_reported (srv : Server) (tok : option str)
    (message : str) (now : Z) (s : Session) :
  session_for_token srv tok = Some s ->
  let result := handleAudio toLowerCase tok (AudioData (SttError message))
                            now srv in
  snd result = {| statusCode := 500; body := Failure message |} /\
  handleAudio toLowerCase tok (BadAudio message) now srv = result /\
  trace (fst result) = trace srv /\
  pendingPermissions (fst result) = pendingPermissions srv /\
  session_for_token (fst result) tok = Some (touch now s) /\
  map fst (sessions (fst result)) = map fst (sessions srv).
Proof.
  intros Htok result. subst result. unfold handleAudio. rewrite Htok.
  cbn [fst snd]. repeat split; try reflexivity.
  - unfold session_for_token in *. cbn [sessions set_sessions].
    apply (session_for_token_touch _ _ _ _ Htok).
  - cbn [sessions set_sessions].
    apply (session_for_token_touch _ _ now _ Htok).
Qed.

End BridgeAnswers.

Section PairingFacts.
Import Js Bridge Pairing Examples.

Variable toLowerCase toUpperCase : str -> str.

(** *** Session codes *)

Lemma pick_in_chars (r : Q) :
  (0 <= r)%Q -> (r < 1)%Q -> exists c, pick r = [c] /\ c ∈ chars.
Proof.
  intros H0 H1. unfold pick, charAt.
  set (x := (r * inject_Z (Z.of_nat (length chars)))%Q).
  assert (Hlo : (0 <= Qfloor x)%Z).
  { change 0%Z with (Qfloor 0). apply Qfloor_resp_le. unfold x.
    apply Qmult_le_0_compat; [exact H0|]. vm_compute. discriminate. }
  assert (Hhi : (Qfloor x < 32)%Z).
  { assert (Hx : (x < inject_Z 32)%Q).
    { unfold x. change (inject_Z (Z.of_nat (length chars))) with (inject_Z 32).
      apply Qlt_le_trans with (1 * inject_Z 32)%Q.
      - apply Qmult_lt_compat_r; [reflexivity|exact H1].
      - unfold Qle. cbn. lia. }
    pose proof (Qfloor_le x) as Hfl.
    assert (Hlt : (inject_Z (Qfloor x) < inject_Z 32)%Q)
      by (eapply Qle_lt_trans; eassumption).
    rewrite <- Zlt_Qlt in Hlt. exact Hlt. }
  destruct (Qfloor x <? 0)%Z eqn:E; [apply Z.ltb_lt in E; lia|].
  destruct (chars !! Z.to_nat (Qfloor x)) as [c|] eqn:Hc.
  - exists c. split; [reflexivity|]. apply list_elem_of_lookup. eauto.
  - apply lookup_ge_None in Hc.
    change (length chars) with 32 in Hc. lia.
Qed.

Lemma ascii_upper_chars (c : char) : c ∈ chars -> ascii_upper [c] = [c].
Proof.
  intros Hin. unfold chars in Hin. vm_compute in Hin.
  repeat (apply elem_of_cons in Hin;
          destruct Hin as [->|Hin]; [vm_compute; reflexivity|]).
  apply elem_of_nil in Hin. destruct Hin.
Qed.

Lemma ascii_upper_app (a b : str) :
  ascii_upper (a ++ b) = ascii_upper a ++ ascii_upper b.
Proof. apply map_app. Qed.

(** X15.  A generated code has six code units, all from the alphabet of
    capital letters and digits without 0, O, 1 and I, and upper-casing,
    which [/connect] applies to what the user typed, leaves it as it is. *)
Theorem generateSessionCode_shape (random : nat -> Q) :
  (forall i, i < SESSION_CODE_LENGTH ->
             (0 <= random i)%Q /\ (random i < 1)%Q) ->
  length (generateSessionCode random) = SESSION_CODE_LENGTH /\
  Forall (fun c => c ∈ chars) (generateSessionCode random) /\
  ascii_upper (generateSessionCode random) = generateSessionCode random /\
  truthy (generateSessionCode random) = true.
Proof.
  intros Hrandom. unfold generateSessionCode.
  assert (Hgen : forall (rounds : list nat) (code : str),
    (forall i, i ∈ rounds -> i < SESSION_CODE_LENGTH) ->
    Forall (fun c => c ∈ chars) code -> ascii_upper code = code ->
    let code' := foldl (fun code i => code ++ pick (random i)) code rounds in
    length code' = length code + length rounds /\
    Forall (fun c => c ∈ chars) code' /\ ascii_upper code' = code').
  { induction rounds as [|i rounds IH]; intros code Hin Hall Hup.
    - cbn. split; [lia|]. split; assumption.
    - cbn [foldl].
      destruct (Hrandom i) as [H0 H1]; [apply Hin; left|].
      destruct (pick_in_chars (random i) H0 H1) as (c & -> & Hc).
      destruct (IH (code ++ [c])) as (Hlen & Hall' & Hup').
      + intros j Hj. apply Hin. right. exact Hj.
      + apply Forall_app. split; [exact Hall|]. constructor; [exact Hc|].
        constructor.
      + rewrite ascii_upper_app, Hup. f_equal.
        apply ascii_upper_chars. exact Hc.
      + cbn zeta in *. rewrite Hlen, length_app. cbn. split; [lia|].
        split; assumption. }
  destruct (Hgen (seq 0 SESSION_CODE_LENGTH) []) as (Hlen & Hall & Hup).
  - intros i Hi. apply elem_of_seq in Hi. lia.
  - constructor.
  - reflexivity.
  - cbn zeta in *. rewrite length_seq in Hlen. cbn [length] in Hlen.
    split; [exact Hlen|]. split; [exact Hall|]. split; [exact Hup|].
    destruct (foldl _ _ _); [discriminate Hlen|reflexivity].
Qed.

(** *** The life of a session *)

Lemma sessions_delete_absent (m : list (str * Session)) (k : str) :
  k ∉ map fst m -> sessions_delete m k = m.
Proof.
  induction m as [|[k' v] m IH]; intros Hnot; [reflexivity|]. cbn.
  rewrite bool_decide_eq_false_2.
  - f_equal. apply IH. intros Hin. apply Hnot. right. exact Hin.
  - intros ->. apply Hnot. left.
Qed.

Lemma sessions_delete_app (a b : list (str * Session)) (k : str) :
  sessions_delete (a ++ b) k = sessions_delete a k ++ sessions_delete b k.
Proof.
  induction a as [|[k' v] a IH]; [reflexivity|]. cbn.
  destruct (bool_decide (k' = k)); [exact IH|]. cbn. rewrite IH.
  reflexivity.
Qed.

(** A session that [cleanupSessions] removes. *)
Definition stale (now : Z) (s : Session) : bool :=
  code_expired now s || inactive now s.

(** The sessions whose push channel [cleanupSessions] closes. *)
Definition closes (now : Z) (s : Session) : bool :=
  inactive now s && bool_decide (is_Some (response s)).

Lemma cleanup_entry_eq (now : Z) (m : list (str * Session))
    (ended : list str) (k : str) (v : Session) :
  cleanup_entry now (m, ended) (k, v) =
  (if stale now v then sessions_delete m k else m,
   if closes now v then ended ++ [k] else ended).
Proof.
  unfold cleanup_entry, stale, closes, code_expired, inactive.
  destruct (connected v); cbn [negb andb orb].
  - destruct (now - lastActivity v >? SESSION_TIMEOUT)%Z; cbn [andb];
      [|reflexivity].
    destruct (response v); reflexivity.
  - destruct (now - createdAt v >? SESSION_CODE_EXPIRY)%Z; reflexivity.
Qed.

Lemma cleanup_fold (now : Z) (suf pre : list (str * Session))
    (ended : list str) :
  NoDup (map fst (pre ++ suf)) ->
  foldl (cleanup_entry now) (pre ++ suf, ended) suf =
  (pre ++ List.filter (fun kv => negb (stale now (snd kv))) suf,
   ended ++ map fst (List.filter (fun kv => closes now (snd kv)) suf)).
Proof.
  revert pre ended. induction suf as [|[k v] suf IH]; intros pre ended Hnd.
  - cbn. rewrite !app_nil_r. reflexivity.
  - cbn [foldl List.filter snd]. rewrite cleanup_entry_eq.
    rewrite map_app in Hnd. cbn [map fst] in Hnd.
    apply NoDup_app in Hnd. destruct Hnd as (Hpre & Hdisj & Hsuf).
    apply NoDup_cons in Hsuf. destruct Hsuf as [Hk Hsuf].
    assert (Hkpre : k ∉ map fst pre).
    { intros Hin. apply (Hdisj k Hin). left. }
    assert (Hended :
      (if closes now v then ended ++ [k] else ended)
      ++ map fst (List.filter (fun kv => closes now (snd kv)) suf)
      = ended ++ map fst (if closes now v
                          then (k, v) :: List.filter
                                 (fun kv => closes now (snd kv)) suf
                          else List.filter
                                 (fun kv => closes now (snd kv)) suf)).
    { destruct (closes now v); [|reflexivity].
      rewrite <- app_assoc. reflexivity. }
    destruct (stale now v); cbn [negb].
    + rewrite sessions_delete_app, (sessions_delete_absent pre k Hkpre).
      cbn [sessions_delete]. rewrite bool_decide_eq_true_2 by reflexivity.
      rewrite (sessions_delete_absent suf k Hk).
      rewrite IH.
      * rewrite Hended. reflexivity.
      * rewrite map_app. apply NoDup_app. split; [exact Hpre|].
        split; [|exact Hsuf]. intros x Hx Hx'. apply (Hdisj x Hx).
        right. exact Hx'.
    + change (pre ++ (k, v) :: suf) with (pre ++ [(k, v)] ++ suf).
      rewrite app_assoc. rewrite IH.
      * rewrite Hended, <- app_assoc. reflexivity.
      * rewrite <- app_assoc, map_app. cbn [app map fst].
        apply NoDup_app. split; [exact Hpre|]. split; [exact Hdisj|].
        apply NoDup_cons. split; assumption.
Qed.

(** X16.  [cleanupSessions] removes the sessions that never connected and
    are older than the pairing window, and the connected ones that were idle
    for longer than the session time-out, closing the push channel of the
    latter; every other session stays, untouched and in place. Nothing else
    changes: the current session code is kept even when its session goes. *)
Theorem cleanupSessions_removes_stale_sessions (now : Z) (srv : Server) :
  NoDup (map fst (sessions srv)) ->
  let result := cleanupSessions now srv in
  sessions (fst result)
  = List.filter (fun kv => negb (stale now (snd kv))) (sessions srv) /\
  snd result
  = map fst (List.filter (fun kv => closes now (snd kv)) (sessions srv)) /\
  currentSessionCode (fst result) = currentSessionCode srv /\
  pendingPermissions (fst result) = pendingPermissions srv /\
  trace (fst result) = trace srv.
Proof.
  intros Hnd result. subst result. unfold cleanupSessions.
  pose proof (cleanup_fold now (sessions srv) [] [] Hnd) as H.
  cbn [app] in H. rewrite H. cbn. repeat split.
Qed.

Lemma sessions_get_set (m : list (str * Session)) (k k' : str)
    (v : Session) :
  sessions_get (sessions_set m k v) k' =
  if bool_decide (k = k') then Some v else sessions_get m k'.
Proof.
  induction m as [|[k0 v0] m IH]; cbn.
  - destruct (bool_decide (k = k')); reflexivity.
  - repeat case_bool_decide; subst; cbn; rewrite ?IH;
      repeat case_bool_decide; subst; congruence.
Qed.

(** X17.  Pairing, from both ends. [createSession] makes the new code the
    current one, with no active session yet. When the browser then sends the
    code (in any case that upper-cases to it) within the pairing window, it
    gets 200 and the token, and the session is active; when it sends it
    later, it gets 410 and there is no active session. *)
Theorem created_session_can_be_paired (srv : Server)
    (code token typed : str) (now createdAt lastActivity at' at'' : Z) :
  truthy code = true ->
  toUpperCase typed = code ->
  let created := createSession code token now createdAt lastActivity srv in
  let srv1 := fst (fst created) in
  let result := handleConnect toUpperCase (SessionCode typed) at' at'' srv1 in
  snd created = code /\
  currentSessionCode srv1 = Some code /\
  hasActiveSession srv1 = false /\
  ((at' - createdAt <= SESSION_CODE_EXPIRY)%Z ->
     snd result = {| statusCode := 200; body := Connected token |} /\
     hasActiveSession (fst result) = true) /\
  ((at' - createdAt > SESSION_CODE_EXPIRY)%Z ->
     statusCode (snd result) = 410 /\
     hasActiveSession (fst result) = false).
Proof.
  intros Htruthy Htyped created srv1 result.
  unfold createSession in created.
  destruct (cleanupSessions now srv) as [srv0 ended] eqn:Hclean.
  cbn in created. subst created. cbn [fst snd] in srv1.
  set (session := {| Bridge.code := code; Bridge.token := token;
                     Bridge.createdAt := createdAt;
                     Bridge.lastActivity := lastActivity;
                     connected := false; response := None |}) in *.
  assert (Hget : sessions_get (sessions srv1) code = Some session).
  { unfold srv1. cbn [sessions set_currentSessionCode set_sessions].
    rewrite sessions_get_set, bool_decide_eq_true_2 by reflexivity.
    reflexivity. }
  assert (Hcur : current_session srv1 = Some code).
  { unfold current_session, srv1. cbn. rewrite Htruthy. reflexivity. }
  split; [reflexivity|]. split; [reflexivity|]. split.
  { unfold hasActiveSession. rewrite Hcur, Hget. reflexivity. }
  subst result. unfold handleConnect. rewrite Htyped, Htruthy, Hget.
  cbn [negb connected session Bridge.createdAt].
  split.
  - intros Hle.
    assert (E : (at' - createdAt >? SESSION_CODE_EXPIRY)%Z = false).
    { rewrite Z.gtb_ltb. apply Z.ltb_ge. exact Hle. }
    rewrite E. cbn [andb fst snd]. split; [reflexivity|].
    unfold hasActiveSession.
    assert (Hcur' : current_session
              (set_sessions
                 (sessions_update (sessions srv1) code (mark_connected at''))
                 srv1) = Some code) by exact Hcur.
    rewrite Hcur'. cbn [sessions set_sessions].
    rewrite sessions_get_update, bool_decide_eq_true_2 by reflexivity.
    rewrite Hget. reflexivity.
  - intros Hgt.
    assert (E : (at' - createdAt >? SESSION_CODE_EXPIRY)%Z = true).
    { rewrite Z.gtb_ltb. apply Z.ltb_lt. lia. }
    rewrite E. cbn [andb fst snd]. split; [reflexivity|].
    unfold hasActiveSession.
    assert (Hcur' : current_session
              (set_sessions (sessions_delete (sessions srv1) code) srv1)
              = Some code) by exact Hcur.
    rewrite Hcur'. cbn [sessions set_sessions].
    rewrite sessions_get_delete, bool_decide_eq_true_2 by reflexivity.
    reflexivity.
Qed.

(** *** Queueing permission requests *)

Lemma hasActiveSession_true (srv : Server) :
  hasActiveSession srv = true ->
  exists c session, current_session srv = Some c /\
    sessions_get (sessions srv) c = Some session /\
    connected session = true.
Proof.
  unfold hasActiveSession.
  destruct (current_session srv) as [c|]; [|discriminate].
  destruct (sessions_get (sessions srv) c) as [session|] eqn:Hs;
    [|discriminate].
  intros H. exists c, session. repeat split; assumption.
Qed.

(** The effects of [showCurrentPermission] for the head [current] of a
    queue of [n] entries. *)
Definition shown (srv : Server) (c : str) (current : Permission) (n : nat)
  : list Effect :=
  (if channel_open srv c
   then [SSE c (lit "permissionRequest") (PermissionRequestData current n)]
   else [])
  ++ [Synthesize (prompt current ++ lit ". Say yes or no.")].

Lemma sendPermissionRequest_active (request : Permission) (srv : Server) :
  hasActiveSession srv = true ->
  let result := sendPermissionRequest request srv in
  pendingPermissions (fst result) = pendingPermissions srv ++ [request] /\
  sessions (fst result) = sessions srv /\
  onPermissionResponse (fst result) = onPermissionResponse srv /\
  (pendingPermissions srv <> [] -> trace (fst result) = trace srv) /\
  (pendingPermissions srv = [] ->
   exists c, current_session srv = Some c /\
     trace (fst result) = trace srv ++ shown srv c request 1).
Proof.
  intros Hactive.
  destruct (hasActiveSession_true srv Hactive) as (c & session & Hc & Hs & Hcon).
  unfold sendPermissionRequest. rewrite Hc, Hs, Hcon. cbn [fst snd].
  cbn [pendingPermissions set_pendingPermissions].
  destruct (pendingPermissions srv) as [|p q] eqn:Hq.
  + cbn [app length Nat.eqb].
    unfold showCurrentPermission.
    cbn [pendingPermissions set_pendingPermissions].
    assert (Hc' : current_session
              (set_pendingPermissions [request] srv) = Some c) by exact Hc.
    rewrite Hc', sendToSession_trace.
    assert (Hopen : channel_open (set_pendingPermissions [request] srv) c
                    = channel_open srv c) by reflexivity.
    rewrite Hopen. unfold shown.
    split; [|split; [|split; [|split]]].
    * destruct (channel_open srv c); reflexivity.
    * destruct (channel_open srv c); reflexivity.
    * destruct (channel_open srv c); reflexivity.
    * intros H. destruct (H eq_refl).
    * intros _. exists c. split; [reflexivity|].
      destruct (channel_open srv c); cbn; rewrite <- ?app_assoc;
        reflexivity.
  + assert (Hlen : (length ((p :: q) ++ [request]) =? 1) = false).
    { rewrite length_app. cbn. apply Nat.eqb_neq. lia. }
    rewrite Hlen. cbn [pendingPermissions set_pendingPermissions sessions
                       trace onPermissionResponse].
    split; [reflexivity|]. split; [reflexivity|]. split; [reflexivity|].
    split; [reflexivity|]. intros H. discriminate H.
Qed.

(** X18.  Without an active session (no current session code, its session
    gone, or not yet paired) a permission request is dropped: it is not
    queued and nothing is sent, so that no answer to it can ever come. With
    an active session it goes to the end of the queue, and it is shown and
    spoken at once only when it is the only entry; otherwise it waits for
    its turn. *)
Theorem sendPermissionRequest_queues_or_drops (request : Permission)
    (srv : Server) :
  (hasActiveSession srv = false ->
   sendPermissionRequest request srv = (srv, [])) /\
  (hasActiveSession srv = true ->
   let result := sendPermissionRequest request srv in
   pendingPermissions (fst result) = pendingPermissions srv ++ [request] /\
   (pendingPermissions srv <> [] -> trace (fst result) = trace srv) /\
   (pendingPermissions srv = [] ->
    exists c, current_session srv = Some c /\
      trace (fst result) = trace srv ++ shown srv c request 1)).
Proof.
  split.
  - unfold hasActiveSession, sendPermissionRequest.
    destruct (current_session srv) as [c|]; [|reflexivity].
    destruct (sessions_get (sessions srv) c) as [session|]; [|reflexivity].
    intros ->. reflexivity.
  - intros Hactive.
    destruct (sendPermissionRequest_active request srv Hactive)
      as (H1 & _ & _ & H2 & H3).
    split; [exact H1|]. split; assumption.
Qed.

Lemma remove_permission_last (q : list Permission) (request : Permission) :
  id request ∉ map id q ->
  remove_permission (q ++ [request]) (id request) = q.
Proof.
  induction q as [|p q IH]; intros Hnot; cbn.
  - rewrite bool_decide_eq_true_2 by reflexivity. reflexivity.
  - rewrite bool_decide_eq_false_2.
    + f_equal. apply IH. intros Hin. apply Hnot. right. exact Hin.
    + intros Heq. apply Hnot. rewrite <- Heq. left.
Qed.

Lemma responses_shown (srv : Server) (c : str) (current : Permission)
    (n : nat) :
  responses (shown srv c current n) = [].
Proof. unfold shown. destruct (channel_open srv c); reflexivity. Qed.

(** X19.  A request sent to an active session and then decided on
    [/permission] under its id (an id that no queued request has) comes back
    through the callback with that decision, and the queue is as it was
    before the request. *)
Theorem request_then_decision (request : Permission) (srv : Server)
    (tok : option str) (s : Session) (approved : bool)
    (alwaysAllow : option bool) :
  hasActiveSession srv = true ->
  session_for_token srv tok = Some s ->
  onPermissionResponse srv = true ->
  id request ∉ map id (pendingPermissions srv) ->
  let srv1 := fst (sendPermissionRequest request srv) in
  let result := handlePermission tok
                  (Decision (id request) approved alwaysAllow) srv1 in
  snd result = {| statusCode := 200; body := Success |} /\
  pendingPermissions (fst result) = pendingPermissions srv /\
  responses (trace (fst result))
  = responses (trace srv)
    ++ [(id request, approved, default false alwaysAllow)].
Proof.
  intros Hactive Htok Hcb Hfresh srv1 result.
  destruct (sendPermissionRequest_active request srv Hactive)
    as (Hq1 & Hs1 & Hcb1 & Htr & Htr0).
  fold srv1 in Hq1, Hs1, Hcb1, Htr, Htr0. rewrite Hcb in Hcb1.
  assert (Hr1 : responses (trace srv1) = responses (trace srv)).
  { destruct (pendingPermissions srv) as [|p q] eqn:Hq.
    - destruct (Htr0 eq_refl) as (c & _ & ->).
      unfold responses. rewrite omap_app.
      fold (responses (shown srv c request 1)).
      rewrite responses_shown, app_nil_r. reflexivity.
    - rewrite Htr by discriminate. reflexivity. }
  assert (Htok1 : session_for_token srv1 tok = Some s).
  { unfold session_for_token in *. rewrite Hs1. exact Htok. }
  subst result. unfold handlePermission. rewrite Htok1. cbn [fst snd].
  rewrite handlePermissionAndAdvance_eq.
  cbn [pendingPermissions trace]. rewrite Hq1.
  rewrite (remove_permission_last _ _ Hfresh).
  split; [reflexivity|]. split; [reflexivity|].
  unfold responses at 1. rewrite omap_app. fold (responses (trace srv1)).
  fold (responses (handled_effects srv1 (id request) approved
                     (default false alwaysAllow))).
  rewrite responses_handled_effects, Hcb1, Hr1. reflexivity.
Qed.

End PairingFacts.

Section BridgeMoreExamples.
Import Js Bridge Pairing Examples Scenarios.

Lemma deny_all_resolves_every_request_witness :
  let result := checkForPermissionResponse ascii_lower
                  (lit "No, reject all of these") bridge in
  snd result = true /\
  pendingPermissions (fst result) = [] /\
  responses (trace (fst result)) =
  responses (trace bridge)
  ++ map (fun p => (id p, false, false)) (pendingPermissions bridge).
Proof.
  apply (deny_all_resolves_every_request ascii_lower bridge
           (lit "No, reject all of these")).
  - vm_compute. discriminate.
  - vm_compute. reflexivity.
  - vm_compute. reflexivity.
  - vm_compute. reflexivity.
Defined.

Lemma plain_answers_resolve_in_order_witness :
  let answers := [lit "Yes please"; lit "Nope"] in
  pendingPermissions (answer_all ascii_lower answers bridge)
  = drop (length answers) (pendingPermissions bridge) /\
  responses (trace (answer_all ascii_lower answers bridge))
  = responses (trace bridge)
    ++ zip_with (fun p t => (id p, isApproval ascii_lower t, false))
                (pendingPermissions bridge) answers.
Proof.
  apply (plain_answers_resolve_in_order ascii_lower
           [lit "Yes please"; lit "Nope"] bridge).
  - repeat constructor; vm_compute; reflexivity.
  - vm_compute. lia.
  - vm_compute. reflexivity.
Defined.

Lemma permission_answer_is_not_forwarded_witness :
  let result := handleAudio ascii_lower (Some (lit "token-one"))
                  (AudioData (Heard (lit "yes"))) 5000 bridge in
  snd result = {| statusCode := 200; body := Transcribed (lit "yes") true |}
  /\
  transcripts (trace (fst result)) = transcripts (trace bridge) /\
  length (pendingPermissions (fst result))
  < length (pendingPermissions bridge).
Proof.
  apply (permission_answer_is_not_forwarded ascii_lower bridge
           (Some (lit "token-one")) (lit "yes") 5000 paired_session).
  - vm_compute. reflexivity.
  - vm_compute. reflexivity.
Defined.

Lemma no_pending_request_forwards_transcript_witness :
  let srv := set_pendingPermissions [] bridge in
  let result := handleAudio ascii_lower (Some (lit "token-one"))
                  (AudioData (Heard (lit "yes"))) 5000 srv in
  snd result = {| statusCode := 200; body := Transcribed (lit "yes") false |}
  /\
  transcripts (trace (fst result)) = transcripts (trace srv) ++ [lit "yes"]
  /\
  responses (trace (fst result)) = responses (trace srv) /\
  pendingPermissions (fst result) = [].
Proof.
  apply (no_pending_request_forwards_transcript ascii_lower
           (set_pendingPermissions [] bridge)
           (Some (lit "token-one")) (lit "yes") 5000 paired_session).
  - vm_compute. reflexivity.
  - reflexivity.
Defined.

Lemma unpaired_token_is_rejected_witness :
  handleAudio ascii_lower (Some (lit "token-two"))
              (AudioData (Heard (lit "yes"))) 5000 bridge
  = (bridge, {| statusCode := 401;
                body := ErrorOnly (lit "Invalid or expired session") |}) /\
  handlePermission (Some (lit "token-two"))
                   (Decision (lit "perm-1") true None) bridge
  = (bridge, {| statusCode := 401;
                body := ErrorOnly (lit "Invalid or expired session") |}).
Proof.
  apply (unpaired_token_is_rejected ascii_lower bridge
           (Some (lit "token-two"))).
  intros k s t Ht Hin Htok. injection Ht as <-.
  apply list_elem_of_In in Hin.
  destruct Hin as [E|[E|[]]]; injection E as <- <-.
  - vm_compute in Htok. discriminate Htok.
  - reflexivity.
Defined.

Lemma failed_transcription_is_reported_witness :
  let result := handleAudio ascii_lower (Some (lit "token-one"))
                  (AudioData (SttError (lit "no speech"))) 5000 bridge in
  snd result = {| statusCode := 500; body := Failure (lit "no speech") |} /\
  handleAudio ascii_lower (Some (lit "token-one"))
              (BadAudio (lit "no speech")) 5000 bridge = result /\
  trace (fst result) = trace bridge /\
  pendingPermissions (fst result) = pendingPermissions bridge /\
  session_for_token (fst result) (Some (lit "token-one"))
  = Some (touch 5000 paired_session) /\
  map fst (sessions (fst result)) = map fst (sessions bridge).
Proof.
  apply (failed_transcription_is_reported ascii_lower bridge
           (Some (lit "token-one")) (lit "no speech") 5000 paired_session).
  vm_compute. reflexivity.
Defined.

Lemma generateSessionCode_shape_witness :
  length (generateSessionCode eighths) = SESSION_CODE_LENGTH /\
  Forall (fun c => c ∈ chars) (generateSessionCode eighths) /\
  ascii_upper (generateSessionCode eighths) = generateSessionCode eighths /\
  truthy (generateSessionCode eighths) = true.
Proof.
  apply (generateSessionCode_shape eighths).
  intros i Hi. unfold SESSION_CODE_LENGTH in Hi. unfold eighths, Qle, Qlt.
  cbn. lia.
Defined.

Lemma cleanupSessions_removes_stale_sessions_witness :
  let result := cleanupSessions 400000 bridge in
  sessions (fst result)
  = List.filter (fun kv => negb (stale 400000 (snd kv))) (sessions bridge) /\
  snd result
  = map fst (List.filter (fun kv => closes 400000 (snd kv))
                         (sessions bridge)) /\
  currentSessionCode (fst result) = currentSessionCode bridge /\
  pendingPermissions (fst result) = pendingPermissions bridge /\
  trace (fst result) = trace bridge.
Proof.
  apply (cleanupSessions_removes_stale_sessions 400000 bridge).
  vm_compute. repeat constructor; rewrite ?list_elem_of_In; cbn;
    intuition discriminate.
Defined.

Lemma created_session_can_be_paired_witness :
  let created := createSession (lit "QRS456") (lit "token-three")
                               2000 2001 2002 bridge in
  let srv1 := fst (fst created) in
  let result := handleConnect ascii_upper (SessionCode (lit "qrs456"))
                              3000 3001 srv1 in
  snd created = lit "QRS456" /\
  currentSessionCode srv1 = Some (lit "QRS456") /\
  hasActiveSession srv1 = false /\
  ((3000 - 2001 <= SESSION_CODE_EXPIRY)%Z ->
     snd result
     = {| statusCode := 200; body := Connected (lit "token-three") |} /\
     hasActiveSession (fst result) = true) /\
  ((3000 - 2001 > SESSION_CODE_EXPIRY)%Z ->
     statusCode (snd result) = 410 /\
     hasActiveSession (fst result) = false).
Proof.
  apply (created_session_can_be_paired ascii_upper bridge (lit "QRS456")
           (lit "token-three") (lit "qrs456") 2000 2001 2002 3000 3001).
  - vm_compute. reflexivity.
  - vm_compute. reflexivity.
Defined.

Lemma sendPermissionRequest_queues_or_drops_witness :
  sendPermissionRequest edit_request
    (set_currentSessionCode (Some (lit "XYZ789")) bridge)
  = (set_currentSessionCode (Some (lit "XYZ789")) bridge, []) /\
  pendingPermissions (fst (sendPermissionRequest edit_request bridge))
  = pendingPermissions bridge ++ [edit_request] /\
  trace (fst (sendPermissionRequest edit_request bridge)) = trace bridge.
Proof.
  split.
  - apply (sendPermissionRequest_queues_or_drops edit_request
             (set_currentSessionCode (Some (lit "XYZ789")) bridge)).
    vm_compute. reflexivity.
  - destruct (sendPermissionRequest_queues_or_drops edit_request bridge)
      as [_ H].
    destruct (H eq_refl) as (Hq & Htrace & _).
    split; [exact Hq|]. apply Htrace. vm_compute. discriminate.
Defined.

Lemma request_then_decision_witness :
  let request := {| id := lit "perm-3"; tool := lit "Write";
                    prompt := lit "Allow writing notes.md" |} in
  let srv1 := fst (sendPermissionRequest request bridge) in
  let result := handlePermission (Some (lit "token-one"))
                  (Decision (id request) false (Some true)) srv1 in
  snd result = {| statusCode := 200; body := Success |} /\
  pendingPermissions (fst result) = pendingPermissions bridge /\
  responses (trace (fst result))
  = responses (trace bridge) ++ [(id request, false, true)].
Proof.
  apply (request_then_decision
           {| id := lit "perm-3"; tool := lit "Write";
              prompt := lit "Allow writing notes.md" |}
           bridge (Some (lit "token-one")) paired_session false (Some true)).
  - vm_compute. reflexivity.
  - vm_compute. reflexivity.
  - vm_compute. reflexivity.
  - intros Hin. apply list_elem_of_In in Hin. cbn in Hin.
    intuition discriminate.
Defined.

End BridgeMoreExamples.

(** ** Queue of user messages *)

Section MessagesFacts.
Import Js Messages.

Lemma status_eqb_spec (a b : Status.t) : Status.eqb a b = true <-> a = b.
Proof.
  destruct a, b; cbn; split; intros H; try reflexivity; discriminate H.
Qed.

Lemma has_status_set (q : MessageQueue) (r r' : nat) (s s' : Status.t) :
  has_status (set_message_status r s q) s' r' =
  if bool_decide (r' = r) && bool_decide (r < length (heap q))
  then Status.eqb s s' else has_status q s' r'.
Proof.
  unfold has_status, set_message_status. cbn [heap set_heap].
  destruct (decide (r' = r)) as [->|Hne].
  - rewrite bool_decide_eq_true_2 by reflexivity. cbn [andb].
    rewrite list_lookup_alter_eq.
    destruct (heap q !! r) as [m|] eqn:E; cbn.
    + rewrite bool_decide_eq_true_2; [reflexivity|].
      apply lookup_lt_Some in E. exact E.
    + rewrite bool_decide_eq_false_2; [reflexivity|].
      apply lookup_ge_None in E. lia.
  - rewrite bool_decide_eq_false_2 by exact Hne. cbn [andb].
    rewrite list_lookup_alter_ne by auto. reflexivity.
Qed.

Lemma has_status_lt (q : MessageQueue) (s : Status.t) (r : nat) :
  has_status q s r = true -> r < length (heap q).
Proof.
  unfold has_status. destruct (heap q !! r) eqn:E; [|discriminate].
  intros _. apply lookup_lt_Some in E. exact E.
Qed.

Lemma has_status_unique (q : MessageQueue) (s s' : Status.t) (r : nat) :
  has_status q s r = true -> has_status q s' r = true -> s = s'.
Proof.
  unfold has_status. destruct (heap q !! r); [|discriminate].
  intros H1 H2. apply status_eqb_spec in H1, H2. congruence.
Qed.

Lemma message_text_set (q : MessageQueue) (r r' : nat) (s : Status.t) :
  message_text (set_message_status r s q) r' = message_text q r'.
Proof.
  unfold message_text, set_message_status. cbn [heap set_heap].
  destruct (decide (r' = r)) as [->|Hne].
  - rewrite list_lookup_alter_eq. destruct (heap q !! r); reflexivity.
  - rewrite list_lookup_alter_ne by auto. reflexivity.
Qed.

Lemma handled_notify (q : MessageQueue) :
  handled (notifyQueueChange q) = handled q.
Proof.
  unfold notifyQueueChange, handled. destruct (onQueueChange q);
    [|reflexivity].
  cbn. rewrite omap_app. cbn. apply app_nil_r.
Qed.

(** [notifyQueueChange] changes the log only. *)
Lemma notify_frame (q : MessageQueue) :
  heap (notifyQueueChange q) = heap q /\
  queue (notifyQueueChange q) = queue q /\
  isProcessing (notifyQueueChange q) = isProcessing q /\
  tasks (notifyQueueChange q) = tasks q /\
  timeouts (notifyQueueChange q) = timeouts q /\
  processCallback (notifyQueueChange q) = processCallback q /\
  onQueueChange (notifyQueueChange q) = onQueueChange q.
Proof.
  unfold notifyQueueChange. destruct (onQueueChange q) eqn:E; cbn;
    rewrite ?E; repeat split.
Qed.

(** *** The invariant *)

(** The status of the message object [r]. *)
Definition st (h : list QueuedMessage) (r : nat) : option Status.t :=
  status <$> h !! r.

Lemma has_status_st (q : MessageQueue) (s : Status.t) (r : nat) :
  has_status q s r = true <-> st (heap q) r = Some s.
Proof.
  unfold has_status, st. destruct (heap q !! r) as [m|]; cbn.
  - rewrite status_eqb_spec. split; congruence.
  - split; discriminate.
Qed.

Lemma st_alter (h : list QueuedMessage) (r r' : nat) (s : Status.t) :
  st (alter (with_status s) r h) r' =
  if bool_decide (r' = r) then (fun _ => s) <$> st h r' else st h r'.
Proof.
  unfold st. case_bool_decide as E.
  - subst r'. rewrite list_lookup_alter_eq. destruct (h !! r); reflexivity.
  - rewrite list_lookup_alter_ne by auto. reflexivity.
Qed.

Lemma st_lt (h : list QueuedMessage) (r : nat) (s : Status.t) :
  st h r = Some s -> r < length h.
Proof.
  unfold st. destruct (h !! r) eqn:E; [|discriminate]. intros _.
  apply lookup_lt_Some in E. exact E.
Qed.

Lemma st_is_Some (h : list QueuedMessage) (r : nat) :
  r < length h -> is_Some (st h r).
Proof.
  intros Hlt. unfold st. destruct (lookup_lt_is_Some_2 h r Hlt) as [m ->].
  eexists. reflexivity.
Qed.

Lemma text_alter (h : list QueuedMessage) (r r' : nat) (s : Status.t) :
  text <$> alter (with_status s) r h !! r' = text <$> h !! r'.
Proof.
  destruct (decide (r' = r)) as [->|Hne].
  - rewrite list_lookup_alter_eq. destruct (h !! r); reflexivity.
  - rewrite list_lookup_alter_ne by auto. reflexivity.
Qed.

(** What holds of the objects [h], the queue [qu] and the calls [hd] of the
    callback so far: the queue holds references in the order they were
    made; every message that has left the state [queued] is older than
    every message waiting in the queue; the callback has been called for
    messages in that order, each no longer [queued]. *)
Record Core (h : list QueuedMessage) (qu : list nat)
    (hd : list (nat * str)) : Prop := {
  core_sorted : StronglySorted lt qu;
  core_bound : Forall (fun r => r < length h) qu;
  core_order : forall r r', r ∈ qu -> st h r = Some Status.queued ->
    r' < length h -> st h r' <> Some Status.queued -> r' < r;
  core_handled : StronglySorted lt (map fst hd);
  core_done : forall r txt, (r, txt) ∈ hd ->
    st h r <> Some Status.queued /\ r < length h /\
    text <$> h !! r = Some txt
}.

(** The calls of the callback in flight: none, and then no message is
    [processing]; or one, for the one message that is. *)
Definition flight (q : MessageQueue) : Prop :=
  match tasks q with
  | [] => isProcessing q = false /\
          forall r, st (heap q) r <> Some Status.processing
  | [r] => isProcessing q = true /\ r ∈ queue q /\
           forall r', st (heap q) r' = Some Status.processing <-> r' = r
  | _ => False
  end.

Definition MInv (q : MessageQueue) : Prop :=
  Core (heap q) (queue q) (handled q) /\ flight q.

Lemma MInv_create (cb oc : bool) : MInv (create cb oc).
Proof.
  split.
  - constructor; cbn.
    + constructor.
    + constructor.
    + intros r r' Hin. apply elem_of_nil in Hin. destruct Hin.
    + constructor.
    + intros r txt Hin. apply elem_of_nil in Hin. destruct Hin.
  - cbn. split; [reflexivity|]. intros r. unfold st. cbn.
    rewrite lookup_nil. discriminate.
Qed.

(** A message that is not [queued] changes to a status other than
    [queued]. *)
Lemma Core_settle (h : list QueuedMessage) (qu : list nat)
    (hd : list (nat * str)) (r : nat) (s : Status.t) :
  Core h qu hd -> st h r <> Some Status.queued -> s <> Status.queued ->
  Core (alter (with_status s) r h) qu hd.
Proof.
  intros [Hs Hb Ho Hh Hd] Hr Hsq.
  assert (Hq : forall x, st (alter (with_status s) r h) x = Some Status.queued
                         <-> st h x = Some Status.queued).
  { intros x. rewrite st_alter. case_bool_decide as E; [|reflexivity].
    subst x. destruct (st h r) as [s0|]; cbn; split; intros H;
      try discriminate H; congruence. }
  constructor.
  - exact Hs.
  - rewrite length_alter. exact Hb.
  - intros x x' Hin Hx Hx' Hnq. rewrite length_alter in Hx'.
    apply Hq in Hx. apply (Ho x x' Hin Hx Hx'). intros H. apply Hnq, Hq, H.
  - exact Hh.
  - intros x txt Hin. destruct (Hd x txt Hin) as (H1 & H2 & H3).
    rewrite length_alter, text_alter. split; [|split; assumption].
    intros H. apply H1, Hq, H.
Qed.

Lemma StronglySorted_snoc (l : list nat) (x : nat) :
  StronglySorted lt l -> Forall (fun y => y < x) l ->
  StronglySorted lt (l ++ [x]).
Proof.
  induction l as [|a l IH]; intros Hs Hall; cbn.
  - constructor; constructor.
  - apply StronglySorted_inv in Hs. destruct Hs as [Hs Ha].
    apply Forall_cons in Hall. destruct Hall as [Hax Hall].
    constructor; [apply IH; assumption|].
    apply Forall_app. split; [exact Ha|]. constructor; [exact Hax|].
    constructor.
Qed.

Lemma StronglySorted_after (l1 l2 : list nat) (x y : nat) :
  StronglySorted lt (l1 ++ x :: l2) -> y ∈ l2 -> x < y.
Proof.
  induction l1 as [|a l1 IH]; cbn; intros Hs Hy.
  - apply StronglySorted_inv in Hs. destruct Hs as [_ Hall].
    rewrite List.Forall_forall in Hall. apply Hall.
    apply list_elem_of_In. exact Hy.
  - apply StronglySorted_inv in Hs. destruct Hs as [Hs _].
    apply IH; assumption.
Qed.

(** [find] returns the first element that passes the test. *)
Lemma find_first (f : nat -> bool) (l : list nat) (x : nat) :
  List.find f l = Some x ->
  f x = true /\
  exists l1 l2, l = l1 ++ x :: l2 /\ Forall (fun y => f y = false) l1.
Proof.
  induction l as [|a l IH]; [discriminate|]. cbn.
  destruct (f a) eqn:E.
  - intros H. injection H as <-. split; [exact E|].
    exists [], l. split; [reflexivity|constructor].
  - intros H. destruct (IH H) as (Hx & l1 & l2 & -> & Hall).
    split; [exact Hx|]. exists (a :: l1), l2. split; [reflexivity|].
    constructor; assumption.
Qed.

(** The first queued message of the queue goes to [processing] and the
    callback is called for it. *)
Lemma Core_start (q : MessageQueue) (r : nat) (hd' : list (nat * str)) :
  Core (heap q) (queue q) (handled q) ->
  List.find (has_status q Status.queued) (queue q) = Some r ->
  hd' = handled q \/
  hd' = handled q ++ [(r, message_text q r)] ->
  Core (alter (with_status Status.processing) r (heap q)) (queue q) hd' /\
  r ∈ queue q /\
  st (alter (with_status Status.processing) r (heap q)) r
  = Some Status.processing.
Proof.
  intros [Hs Hb Ho Hh Hd] Hfind Hhd.
  destruct (find_first _ _ _ Hfind) as (Hr & l1 & l2 & Hq & Hl1).
  apply has_status_st in Hr.
  assert (Hin : r ∈ queue q).
  { rewrite Hq. apply elem_of_app. right. left. }
  assert (Hlt : r < length (heap q)) by (eapply st_lt; exact Hr).
  assert (Hst : forall x, st (alter (with_status Status.processing) r
                                (heap q)) x
                = if bool_decide (x = r) then Some Status.processing
                  else st (heap q) x).
  { intros x. rewrite st_alter. case_bool_decide as E; [|reflexivity].
    subst x. rewrite Hr. reflexivity. }
  assert (Hfirst : forall x, x ∈ queue q ->
            st (heap q) x = Some Status.queued -> x <> r -> r < x).
  { intros x Hx Hxq Hne. rewrite Hq in Hx, Hs.
    apply elem_of_app in Hx. destruct Hx as [Hx|Hx].
    - rewrite Forall_forall in Hl1. specialize (Hl1 x Hx).
      apply has_status_st in Hxq. congruence.
    - apply elem_of_cons in Hx. destruct Hx as [->|Hx];
        [destruct (Hne eq_refl)|].
      exact (StronglySorted_after l1 l2 r x Hs Hx). }
  assert (Hbefore : Forall (fun y => y < r) (map fst (handled q))).
  { apply Forall_forall. intros y Hy. apply list_elem_of_fmap in Hy.
    destruct Hy as ([y' txt] & -> & Hy). cbn.
    destruct (Hd y' txt Hy) as (H1 & H2 & _).
    exact (Ho r y' Hin Hr H2 H1). }
  split; [|split; [exact Hin|]].
  2:{ rewrite Hst, bool_decide_eq_true_2 by reflexivity. reflexivity. }
  constructor.
  - exact Hs.
  - rewrite length_alter. exact Hb.
  - intros x x' Hx Hxq Hx' Hnq. rewrite length_alter in Hx'.
    rewrite Hst in Hxq, Hnq.
    destruct (decide (x = r)) as [->|Ex].
    { rewrite bool_decide_eq_true_2 in Hxq by reflexivity.
      discriminate Hxq. }
    rewrite bool_decide_eq_false_2 in Hxq by exact Ex.
    destruct (decide (x' = r)) as [->|Ex'].
    + apply Hfirst; assumption.
    + rewrite bool_decide_eq_false_2 in Hnq by exact Ex'.
      apply (Ho x x' Hx Hxq Hx' Hnq).
  - destruct Hhd as [->| ->]; [exact Hh|].
    rewrite map_app. cbn. apply StronglySorted_snoc; assumption.
  - intros x txt Hx. rewrite length_alter, text_alter, Hst.
    assert (Hold : (x, txt) ∈ handled q ->
              (if bool_decide (x = r) then Some Status.processing
               else st (heap q) x) <> Some Status.queued /\
              x < length (heap q) /\ text <$> heap q !! x = Some txt).
    { intros Hx0. destruct (Hd x txt Hx0) as (H1 & H2 & H3).
      split; [|split; assumption].
      case_bool_decide; [discriminate|exact H1]. }
    destruct Hhd as [->| ->]; [apply Hold; exact Hx|].
    apply elem_of_app in Hx. destruct Hx as [Hx|Hx]; [apply Hold; exact Hx|].
    apply list_elem_of_singleton in Hx. injection Hx as -> ->.
    rewrite bool_decide_eq_true_2 by reflexivity.
    split; [discriminate|]. split; [exact Hlt|].
    unfold message_text. unfold st in Hr.
    destruct (heap q !! r); [reflexivity|discriminate Hr].
Qed.

(** *** The operations, field by field *)

Lemma processed_fields (r : nat) (q : MessageQueue) :
  heap (processed r q) = alter (with_status Status.completed) r (heap q) /\
  queue (processed r q) = queue q /\
  handled (processed r q) = handled q /\
  tasks (processed r q) = tasks q /\
  isProcessing (processed r q) = false /\
  timeouts (processed r q) = S (timeouts q).
Proof.
  unfold processed, notifyQueueChange, handled.
  destruct q as [h qu ip cb oc tk tm lg]. cbn.
  destruct oc; cbn; rewrite ?omap_app; cbn; rewrite ?app_nil_r;
    repeat split.
Qed.

(** The three ways [processNext] can go: nothing to do; the callback is
    called and awaited; the message is done with at once (no callback, or
    the callback threw). *)
Inductive Next (q q' : MessageQueue) : Prop :=
| Nothing : q' = q -> Next q q'
| Awaiting (r : nat) :
    isProcessing q = false ->
    List.find (has_status q Status.queued) (queue q) = Some r ->
    heap q' = alter (with_status Status.processing) r (heap q) ->
    queue q' = queue q ->
    handled q' = handled q ++ [(r, message_text q r)] ->
    tasks q' = tasks q ++ [r] ->
    isProcessing q' = true ->
    timeouts q' = timeouts q ->
    Next q q'
| Done (r : nat) :
    isProcessing q = false ->
    List.find (has_status q Status.queued) (queue q) = Some r ->
    heap q' = alter (with_status Status.completed) r
                (alter (with_status Status.processing) r (heap q)) ->
    queue q' = queue q ->
    (handled q' = handled q \/
     handled q' = handled q ++ [(r, message_text q r)]) ->
    tasks q' = tasks q ->
    isProcessing q' = false ->
    timeouts q' = S (timeouts q) ->
    Next q q'.

Lemma processNext_cases (throws : bool) (q : MessageQueue) :
  Next q (processNext throws q).
Proof.
  unfold processNext.
  destruct (isProcessing q) eqn:Hip; cbn [orb]; [apply Nothing; reflexivity|].
  destruct (length (queue q) =? 0); [apply Nothing; reflexivity|].
  destruct (List.find (has_status q Status.queued) (queue q)) as [r|] eqn:Hf;
    [|apply Nothing; reflexivity].
  set (q1 := notifyQueueChange
               (set_message_status r Status.processing
                  (set_isProcessing true q))).
  assert (H1 : heap q1 = alter (with_status Status.processing) r (heap q) /\
               queue q1 = queue q /\ handled q1 = handled q /\
               tasks q1 = tasks q /\ isProcessing q1 = true /\
               timeouts q1 = timeouts q /\
               processCallback q1 = processCallback q /\
               message_text q1 r = message_text q r).
  { unfold q1. rewrite handled_notify.
    destruct (notify_frame (set_message_status r Status.processing
                              (set_isProcessing true q)))
      as (E1 & E2 & E3 & E4 & E5 & E6 & _).
    unfold message_text at 1. rewrite E1, E2, E3, E4, E5, E6.
    repeat split. unfold message_text. cbn [heap set_message_status set_heap
      set_isProcessing].
    generalize (text_alter (heap q) r r Status.processing).
    destruct (alter _ r (heap q) !! r), (heap q !! r); cbn; congruence. }
  destruct H1 as (Hh & Hq & Hhd & Htk & Hip1 & Htm & Hcb & Htxt).
  rewrite Hcb. destruct (processCallback q).
  - set (q2 := emit (Process r (message_text q1 r)) q1).
    assert (H2 : heap q2 = heap q1 /\ queue q2 = queue q1 /\
                 handled q2 = handled q1 ++ [(r, message_text q r)] /\
                 tasks q2 = tasks q1 /\ isProcessing q2 = isProcessing q1 /\
                 timeouts q2 = timeouts q1).
    { unfold q2, handled. cbn. rewrite omap_app. cbn. rewrite Htxt.
      repeat split. }
    destruct H2 as (Hh2 & Hq2 & Hhd2 & Htk2 & Hip2 & Htm2).
    destruct throws.
    + destruct (processed_fields r q2) as (E1 & E2 & E3 & E4 & E5 & E6).
      apply (Done q _ r); try congruence.
      right. congruence.
    + apply (Awaiting q _ r); cbn [heap queue tasks isProcessing timeouts
        set_tasks]; try congruence.
      all: change (handled (set_tasks (tasks q2 ++ [r]) q2))
             with (handled q2); congruence.
  - destruct (processed_fields r q1) as (E1 & E2 & E3 & E4 & E5 & E6).
    apply (Done q _ r); try congruence.
    left. congruence.
Qed.

(** The end of a call: the message that was [processing] is [completed]. *)
Lemma flight_done (h : list QueuedMessage) (r : nat) :
  (forall r', st h r' = Some Status.processing <-> r' = r) ->
  forall r', st (alter (with_status Status.completed) r h) r'
             <> Some Status.processing.
Proof.
  intros Honly r'. rewrite st_alter. case_bool_decide as E.
  - destruct (st h r'); discriminate.
  - intros H. apply Honly in H. contradiction.
Qed.

Lemma processNext_MInv (throws : bool) (q : MessageQueue) :
  MInv q -> MInv (processNext throws q).
Proof.
  intros [Hcore Hflight].
  destruct (processNext_cases throws q)
    as [->|r Hip Hf Hh Hq Hhd Htk Hip' _|r Hip Hf Hh Hq Hhd Htk Hip' _];
    [split; assumption| |].
  - unfold flight in Hflight.
    destruct (tasks q) as [|t [|t' ts]] eqn:Et; [|destruct Hflight as [E _];
      congruence|destruct Hflight].
    destruct Hflight as [_ Hnone].
    destruct (Core_start q r (handled q ++ [(r, message_text q r)]) Hcore Hf)
      as (Hcore' & Hin & Hst); [right; reflexivity|].
    split.
    + rewrite Hh, Hq, Hhd. exact Hcore'.
    + unfold flight. rewrite Htk, Hip', Hq, Hh. cbn.
      split; [reflexivity|]. split; [exact Hin|].
      intros r'. split.
      * rewrite st_alter. case_bool_decide as E; [auto|].
        intros H. destruct (Hnone r' H).
      * intros ->. exact Hst.
  - unfold flight in Hflight.
    destruct (tasks q) as [|t [|t' ts]] eqn:Et; [|destruct Hflight as [E _];
      congruence|destruct Hflight].
    destruct Hflight as [_ Hnone].
    destruct (Core_start q r (handled (processNext throws q)) Hcore Hf)
      as (Hcore' & Hin & Hst); [exact Hhd|].
    assert (Honly : forall r',
              st (alter (with_status Status.processing) r (heap q)) r'
              = Some Status.processing <-> r' = r).
    { intros r'. split.
      - rewrite st_alter. case_bool_decide as E; [auto|].
        intros H. destruct (Hnone r' H).
      - intros ->. exact Hst. }
    split.
    + rewrite Hh, Hq. apply Core_settle; [exact Hcore'| |discriminate].
      rewrite Hst. discriminate.
    + unfold flight. rewrite Htk, Hip', Hh. split; [reflexivity|].
      apply flight_done. exact Honly.
Qed.

(** The invariant reads five things only. *)
Lemma MInv_frame (q q' : MessageQueue) :
  heap q' = heap q -> queue q' = queue q -> handled q' = handled q ->
  tasks q' = tasks q -> isProcessing q' = isProcessing q ->
  MInv q -> MInv q'.
Proof.
  intros Hh Hq Hhd Htk Hip [Hcore Hflight]. split.
  - rewrite Hh, Hq, Hhd. exact Hcore.
  - unfold flight in *. rewrite Hh, Hq, Htk, Hip. exact Hflight.
Qed.

Lemma MInv_notify (q : MessageQueue) : MInv q -> MInv (notifyQueueChange q).
Proof.
  destruct (notify_frame q) as (E1 & E2 & E3 & E4 & _).
  apply MInv_frame; auto using handled_notify.
Qed.

Lemma st_snoc (h : list QueuedMessage) (m : QueuedMessage) (x : nat) :
  st (h ++ [m]) x =
  if bool_decide (x = length h) then Some (status m) else st h x.
Proof.
  unfold st. case_bool_decide as E.
  - subst x. rewrite lookup_app_r by lia. rewrite Nat.sub_diag. reflexivity.
  - destruct (decide (x < length h)) as [Hlt|Hge].
    + rewrite lookup_app_l by exact Hlt. reflexivity.
    + rewrite !(proj2 (lookup_ge_None _ _)); [reflexivity| |].
      * lia.
      * rewrite length_app. cbn. lia.
Qed.

Lemma Core_push (h : list QueuedMessage) (qu : list nat)
    (hd : list (nat * str)) (m : QueuedMessage) :
  Core h qu hd -> status m = Status.queued ->
  Core (h ++ [m]) (qu ++ [length h]) hd.
Proof.
  intros [Hs Hb Ho Hh Hd] Hm. constructor.
  - apply StronglySorted_snoc; assumption.
  - rewrite length_app. cbn. apply Forall_app. split.
    + eapply Forall_impl; [exact Hb|]. cbn. intros; lia.
    + constructor; [lia|constructor].
  - intros x x' Hx Hxq Hx' Hnq. rewrite st_snoc in Hxq, Hnq.
    rewrite length_app in Hx'. cbn in Hx'.
    destruct (decide (x' = length h)) as [->|Ex'].
    { rewrite bool_decide_eq_true_2 in Hnq by reflexivity.
      rewrite Hm in Hnq. destruct (Hnq eq_refl). }
    rewrite bool_decide_eq_false_2 in Hnq by exact Ex'.
    apply elem_of_app in Hx. destruct Hx as [Hx|Hx].
    + rewrite Forall_forall in Hb. pose proof (Hb x Hx) as Hlt.
      rewrite bool_decide_eq_false_2 in Hxq by lia.
      apply (Ho x x' Hx Hxq); [lia|exact Hnq].
    + apply list_elem_of_singleton in Hx. subst x. lia.
  - exact Hh.
  - intros x txt Hx. destruct (Hd x txt Hx) as (H1 & H2 & H3).
    rewrite st_snoc, bool_decide_eq_false_2 by lia.
    rewrite length_app, lookup_app_l by exact H2.
    split; [exact H1|]. split; [lia|exact H3].
Qed.

Lemma addMessage_MInv (i txt : str) (ts : Z) (throws : bool)
    (q : MessageQueue) :
  MInv q -> MInv (fst (addMessage i txt ts throws q)).
Proof.
  intros [Hcore Hflight]. unfold addMessage. cbn [fst].
  set (m := {| id := i; text := txt; timestamp := ts;
               status := Status.queued |}).
  set (q1 := set_queue _ (set_heap (heap q ++ [m]) q)).
  assert (H1 : MInv q1).
  { split.
    - apply Core_push; [exact Hcore|reflexivity].
    - unfold flight in *. cbn [tasks isProcessing heap queue q1 set_queue
                                set_heap].
      assert (Hsame : forall r, st (heap q ++ [m]) r = Some Status.processing
                                <-> st (heap q) r = Some Status.processing).
      { intros r. rewrite st_snoc. case_bool_decide as E; [|reflexivity].
        subst r. split; [discriminate|]. intros H. apply st_lt in H. lia. }
      destruct (tasks q) as [|t [|t' tk]]; [| |exact Hflight].
      + destruct Hflight as [Hip Hnone]. split; [exact Hip|].
        intros r H. apply (Hnone r), Hsame, H.
      + destruct Hflight as (Hip & Hin & Honly). split; [exact Hip|].
        split; [apply elem_of_app; left; exact Hin|].
        intros r. rewrite Hsame. apply Honly. }
  apply MInv_notify in H1.
  destruct (negb (isProcessing (notifyQueueChange q1)));
    [apply processNext_MInv|]; exact H1.
Qed.

Lemma StronglySorted_filter (f : nat -> bool) (l : list nat) :
  StronglySorted lt l -> StronglySorted lt (List.filter f l).
Proof.
  induction l as [|a l IH]; intros Hs; [constructor|]. cbn.
  apply StronglySorted_inv in Hs. destruct Hs as [Hs Ha].
  destruct (f a); [|apply IH; exact Hs].
  constructor; [apply IH; exact Hs|].
  rewrite List.Forall_forall in *. intros x Hx.
  apply List.filter_In in Hx. apply Ha, Hx.
Qed.

Lemma Core_shrink (h : list QueuedMessage) (qu qu' : list nat)
    (hd : list (nat * str)) :
  Core h qu hd -> StronglySorted lt qu' ->
  (forall x, x ∈ qu' -> x ∈ qu) -> Core h qu' hd.
Proof.
  intros [Hs Hb Ho Hh Hd] Hs' Hsub. constructor.
  - exact Hs'.
  - rewrite Forall_forall in *. intros x Hx. apply Hb, Hsub, Hx.
  - intros x x' Hx. apply Ho, Hsub, Hx.
  - exact Hh.
  - exact Hd.
Qed.

Lemma elem_of_filter_bool (f : nat -> bool) (l : list nat) (x : nat) :
  x ∈ List.filter f l <-> x ∈ l /\ f x = true.
Proof. rewrite !list_elem_of_In. apply List.filter_In. Qed.

Lemma clearQueue_MInv (q : MessageQueue) : MInv q -> MInv (clearQueue q).
Proof.
  intros [Hcore Hflight]. unfold clearQueue. apply MInv_notify. split.
  - cbn [heap queue set_queue].
    change (handled (set_queue _ q)) with (handled q).
    apply (Core_shrink _ (queue q)); [exact Hcore| |].
    + apply StronglySorted_filter. apply (core_sorted _ _ _ Hcore).
    + intros x Hx. apply elem_of_filter_bool in Hx. apply Hx.
  - unfold flight in *. cbn [tasks isProcessing heap queue set_queue].
    destruct (tasks q) as [|t [|t' tk]]; [exact Hflight| |exact Hflight].
    destruct Hflight as (Hip & Hin & Honly). split; [exact Hip|].
    split; [|exact Honly].
    apply elem_of_filter_bool. split; [exact Hin|].
    apply has_status_st, Honly. reflexivity.
Qed.

(** [remove_first] takes out the first element that passes the test. *)
Lemma remove_first_Some (f : nat -> bool) (l l' : list nat) :
  remove_first f l = Some l' ->
  exists l1 x l2, l = l1 ++ x :: l2 /\ l' = l1 ++ l2 /\ f x = true /\
                  Forall (fun y => f y = false) l1.
Proof.
  revert l'. induction l as [|a l IH]; intros l'; [discriminate|]. cbn.
  destruct (f a) eqn:E.
  - intros H. injection H as <-. exists [], a, l.
    split; [reflexivity|]. split; [reflexivity|]. split; [exact E|].
    constructor.
  - destruct (remove_first f l) as [l0|]; [|discriminate]. cbn.
    intros H. injection H as <-.
    destruct (IH l0 eq_refl) as (l1 & x & l2 & -> & -> & Hx & Hall).
    exists (a :: l1), x, l2.
    split; [reflexivity|]. split; [reflexivity|]. split; [exact Hx|].
    constructor; assumption.
Qed.

Lemma remove_first_None (f : nat -> bool) (l : list nat) :
  remove_first f l = None <-> Forall (fun y => f y = false) l.
Proof.
  induction l as [|a l IH]; cbn.
  - split; [constructor|reflexivity].
  - destruct (f a) eqn:E.
    + split; [discriminate|]. intros H. apply Forall_cons in H.
      destruct H as [H _]. congruence.
    + destruct (remove_first f l); cbn.
      * split; [discriminate|]. intros H. apply Forall_cons in H.
        destruct H as [_ H]. apply IH in H. discriminate H.
      * split; [|reflexivity]. intros _. constructor; [exact E|].
        apply IH. reflexivity.
Qed.

Lemma StronglySorted_remove (l1 l2 : list nat) (x : nat) :
  StronglySorted lt (l1 ++ x :: l2) -> StronglySorted lt (l1 ++ l2).
Proof.
  induction l1 as [|a l1 IH]; cbn; intros Hs.
  - apply StronglySorted_inv in Hs. apply Hs.
  - apply StronglySorted_inv in Hs. destruct Hs as [Hs Ha].
    constructor; [apply IH; exact Hs|].
    rewrite List.Forall_forall in *. intros y Hy. apply Ha.
    apply List.in_app_iff in Hy. apply List.in_app_iff.
    destruct Hy as [Hy|Hy]; [left; exact Hy|right; right; exact Hy].
Qed.

Lemma removable_queued (q : MessageQueue) (i : str) (r : nat) :
  removable q i r = true -> st (heap q) r = Some Status.queued.
Proof.
  unfold removable, st. destruct (heap q !! r) as [m|]; [|discriminate].
  intros H. apply andb_true_iff in H. destruct H as [_ H].
  apply status_eqb_spec in H. cbn. congruence.
Qed.

Lemma removeMessage_MInv (i : str) (q : MessageQueue) :
  MInv q -> MInv (fst (removeMessage i q)).
Proof.
  intros [Hcore Hflight]. unfold removeMessage.
  destruct (remove_first (removable q i) (queue q)) as [l|] eqn:E;
    [|split; assumption].
  cbn [fst]. apply MInv_notify.
  destruct (remove_first_Some _ _ _ E) as (l1 & x & l2 & Hq & -> & Hx & _).
  split.
  - cbn [heap queue set_queue].
    change (handled (set_queue _ q)) with (handled q).
    apply (Core_shrink _ (queue q)); [exact Hcore| |].
    + apply (StronglySorted_remove l1 l2 x). rewrite <- Hq.
      apply (core_sorted _ _ _ Hcore).
    + intros y Hy. rewrite Hq. apply elem_of_app in Hy. apply elem_of_app.
      destruct Hy as [Hy|Hy]; [left; exact Hy|right; right; exact Hy].
  - unfold flight in *. cbn [tasks isProcessing heap queue set_queue].
    destruct (tasks q) as [|t [|t' tk]]; [exact Hflight| |exact Hflight].
    destruct Hflight as (Hip & Hin & Honly). split; [exact Hip|].
    split; [|exact Honly].
    assert (Hne : t <> x).
    { intros ->. apply removable_queued in Hx.
      assert (Hp : st (heap q) x = Some Status.processing)
        by (apply Honly; reflexivity).
      congruence. }
    rewrite Hq in Hin. apply elem_of_app in Hin. apply elem_of_app.
    destruct Hin as [Hin|Hin]; [left; exact Hin|].
    apply elem_of_cons in Hin. destruct Hin as [->|Hin];
      [destruct (Hne eq_refl)|right; exact Hin].
Qed.

Lemma callback_done_MInv (r : nat) (q : MessageQueue) :
  MInv q -> existsb (Nat.eqb r) (tasks q) = true ->
  tasks q = [r] /\
  MInv (processed r (set_tasks (remove_task r (tasks q)) q)).
Proof.
  intros [Hcore Hflight] Hex. unfold flight in Hflight.
  destruct (tasks q) as [|t [|t' tk]] eqn:Et;
    [discriminate Hex| |destruct Hflight].
  cbn in Hex. rewrite orb_false_r in Hex. apply Nat.eqb_eq in Hex.
  subst t. split; [reflexivity|].
  destruct Hflight as (Hip & Hin & Honly).
  cbn [remove_task]. rewrite Nat.eqb_refl.
  destruct (processed_fields r (set_tasks [] q))
    as (E1 & E2 & E3 & E4 & E5 & _).
  split.
  - rewrite E1, E2, E3. cbn [heap queue set_tasks].
    change (handled (set_tasks [] q)) with (handled q).
    apply Core_settle; [exact Hcore| |discriminate].
    rewrite (proj2 (Honly r) eq_refl). discriminate.
  - unfold flight. rewrite E4, E5, E1. cbn [tasks set_tasks heap].
    split; [reflexivity|]. apply flight_done. exact Honly.
Qed.

Lemma step_MInv (q q' : MessageQueue) (e : Event) :
  MInv q -> step q e = Some q' -> MInv q'.
Proof.
  intros Hinv Hstep. destruct e as [i txt ts throws|r ok|throws| |i];
    cbn [step] in Hstep.
  - injection Hstep as <-. apply addMessage_MInv. exact Hinv.
  - destruct (existsb (Nat.eqb r) (tasks q)) eqn:Hex; [|discriminate].
    injection Hstep as <-. apply (callback_done_MInv r q Hinv Hex).
  - destruct (timeouts q) as [|n] eqn:Hn; [discriminate|].
    injection Hstep as <-. apply processNext_MInv.
    revert Hinv. apply MInv_frame; reflexivity.
  - injection Hstep as <-. apply clearQueue_MInv. exact Hinv.
  - injection Hstep as <-. apply removeMessage_MInv. exact Hinv.
Qed.

Lemma run_MInv (es : list Event) (q q' : MessageQueue) :
  MInv q -> run q es = Some q' -> MInv q'.
Proof.
  revert q. induction es as [|e es IH]; intros q Hinv Hrun.
  - injection Hrun as <-. exact Hinv.
  - cbn [run] in Hrun. destruct (step q e) as [q1|] eqn:Hstep;
      [|discriminate].
    apply (IH q1); [|exact Hrun]. apply (step_MInv q q1 e Hinv Hstep).
Qed.

(** *** One message at a time, in the order of arrival *)

(** X20.  From a new queue, whatever is called and whatever comes back: at
    most one call of the callback is in flight, at most one message is
    [processing], and the flag [isProcessing] is set exactly while a call is
    in flight, for the one message that is [processing] (and still in the
    queue). *)
Theorem one_message_at_a_time (cb oc : bool) (es : list Event)
    (q : MessageQueue) :
  run (create cb oc) es = Some q ->
  length (tasks q) <= 1 /\
  (forall r r', has_status q Status.processing r = true ->
                has_status q Status.processing r' = true -> r = r') /\
  (isProcessing q = true <->
   exists r, tasks q = [r] /\ r ∈ queue q /\
             has_status q Status.processing r = true) /\
  (isProcessing q = false ->
   forall r, has_status q Status.processing r = false).
Proof.
  intros Hrun.
  destruct (run_MInv es _ q (MInv_create cb oc) Hrun) as [_ Hflight].
  unfold flight in Hflight.
  destruct (tasks q) as [|t [|t' tk]]; [| |destruct Hflight].
  - destruct Hflight as [Hip Hnone].
    assert (Hno : forall r, has_status q Status.processing r = false).
    { intros r. destruct (has_status q Status.processing r) eqn:E;
        [|reflexivity].
      apply has_status_st in E. destruct (Hnone r E). }
    split; [cbn; lia|]. split; [|split].
    + intros r r' H. rewrite Hno in H. discriminate H.
    + rewrite Hip. split; [discriminate|]. intros (r & H & _).
      discriminate H.
    + intros _. exact Hno.
  - destruct Hflight as (Hip & Hin & Honly).
    split; [cbn; lia|]. split; [|split].
    + intros r r' H H'. apply has_status_st, Honly in H, H'. congruence.
    + split; [|intros _; exact Hip]. intros _. exists t.
      split; [reflexivity|]. split; [exact Hin|].
      apply has_status_st, Honly. reflexivity.
    + rewrite Hip. discriminate.
Qed.

(** X21.  The callback gets the messages in the order they were added (a
    message added later has a greater reference), none of them twice, each
    with the text it was added with; no message it got is waiting any more. *)
Theorem messages_are_processed_in_order (cb oc : bool) (es : list Event)
    (q : MessageQueue) :
  run (create cb oc) es = Some q ->
  StronglySorted lt (map fst (handled q)) /\
  forall r txt, (r, txt) ∈ handled q ->
    exists m, heap q !! r = Some m /\ text m = txt /\
              status m <> Status.queued.
Proof.
  intros Hrun.
  destruct (run_MInv es _ q (MInv_create cb oc) Hrun) as [Hcore _].
  split; [apply (core_handled _ _ _ Hcore)|].
  intros r txt Hin.
  destruct (core_done _ _ _ Hcore r txt Hin) as (Hst & _ & Htxt).
  unfold st in Hst. destruct (heap q !! r) as [m|]; [|discriminate Htxt].
  exists m. split; [reflexivity|]. cbn in Htxt, Hst.
  split; [congruence|]. intros E. apply Hst. rewrite E. reflexivity.
Qed.

(** *** Messages taken out of the queue *)

(** The message [r] exists, is in nobody's hands and has not been given to
    the callback. *)
Definition gone (r : nat) (q : MessageQueue) : Prop :=
  r < length (heap q) /\ (r ∉ queue q) /\ (r ∉ tasks q) /\
  (r ∉ map fst (handled q)).

Lemma gone_frame (r : nat) (q q' : MessageQueue) :
  length (heap q') = length (heap q) -> queue q' = queue q ->
  tasks q' = tasks q -> handled q' = handled q ->
  gone r q -> gone r q'.
Proof.
  unfold gone. intros E1 E2 E3 E4. rewrite E1, E2, E3, E4. auto.
Qed.

Lemma gone_notify (r : nat) (q : MessageQueue) :
  gone r q -> gone r (notifyQueueChange q).
Proof.
  destruct (notify_frame q) as (E1 & E2 & _ & E4 & _).
  apply gone_frame; rewrite ?E1; auto using handled_notify.
Qed.

Lemma gone_processNext (r : nat) (throws : bool) (q : MessageQueue) :
  gone r q -> gone r (processNext throws q).
Proof.
  intros (Hlt & Hq & Htk & Hhd).
  destruct (processNext_cases throws q)
    as [->|x _ Hf Hh Hqu Hhd' Htk' _ _|x _ Hf Hh Hqu Hhd' Htk' _ _].
  - repeat split; assumption.
  - apply List.find_some in Hf. destruct Hf as [Hx _].
    apply list_elem_of_In in Hx.
    assert (Hne : r <> x) by (intros ->; exact (Hq Hx)).
    unfold gone. rewrite Hh, Hqu, Hhd', Htk', length_alter, map_app.
    split; [exact Hlt|]. split; [exact Hq|]. split.
    + intros Hin. apply elem_of_app in Hin. destruct Hin as [Hin|Hin];
        [exact (Htk Hin)|].
      apply list_elem_of_singleton in Hin. exact (Hne Hin).
    + intros Hin. apply elem_of_app in Hin. destruct Hin as [Hin|Hin];
        [exact (Hhd Hin)|].
      apply list_elem_of_singleton in Hin. exact (Hne Hin).
  - apply List.find_some in Hf. destruct Hf as [Hx _].
    apply list_elem_of_In in Hx.
    assert (Hne : r <> x) by (intros ->; exact (Hq Hx)).
    unfold gone. rewrite Hh, Hqu, Htk', !length_alter.
    split; [exact Hlt|]. split; [exact Hq|]. split; [exact Htk|].
    destruct Hhd' as [->| ->]; [exact Hhd|].
    rewrite map_app. intros Hin. apply elem_of_app in Hin.
    destruct Hin as [Hin|Hin]; [exact (Hhd Hin)|].
    apply list_elem_of_singleton in Hin. exact (Hne Hin).
Qed.

Lemma elem_of_remove_task (r x : nat) (ts : list nat) :
  x ∈ remove_task r ts -> x ∈ ts.
Proof.
  induction ts as [|t ts IH]; cbn; [auto|].
  destruct (t =? r); [intros H; right; exact H|].
  intros H. apply elem_of_cons in H. destruct H as [->|H];
    [left|right; apply IH; exact H].
Qed.

Lemma gone_step (r : nat) (q q' : MessageQueue) (e : Event) :
  gone r q -> step q e = Some q' -> gone r q'.
Proof.
  intros Hg Hstep. destruct e as [i txt ts throws|x ok|throws| |i];
    cbn [step] in Hstep.
  - injection Hstep as <-. unfold addMessage. cbn [fst].
    set (q1 := notifyQueueChange _).
    assert (H1 : gone r q1).
    { apply gone_notify. destruct Hg as (Hlt & Hq & Htk & Hhd).
      unfold gone. cbn [heap queue tasks set_queue set_heap].
      rewrite length_app. cbn [length].
      split; [lia|]. split; [|split; assumption].
      intros Hin. apply elem_of_app in Hin. destruct Hin as [Hin|Hin];
        [exact (Hq Hin)|].
      apply list_elem_of_singleton in Hin. lia. }
    destruct (negb (isProcessing q1)); [apply gone_processNext|]; exact H1.
  - destruct (existsb (Nat.eqb x) (tasks q)); [|discriminate].
    injection Hstep as <-.
    destruct (processed_fields x (set_tasks (remove_task x (tasks q)) q))
      as (E1 & E2 & E3 & E4 & _).
    destruct Hg as (Hlt & Hq & Htk & Hhd).
    unfold gone. rewrite E1, E2, E3, E4, length_alter.
    cbn [heap queue tasks set_tasks].
    split; [exact Hlt|]. split; [exact Hq|]. split; [|exact Hhd].
    intros Hin. apply Htk. apply (elem_of_remove_task x). exact Hin.
  - destruct (timeouts q) as [|n]; [discriminate|].
    injection Hstep as <-. apply gone_processNext.
    revert Hg. apply gone_frame; reflexivity.
  - injection Hstep as <-. unfold clearQueue. apply gone_notify.
    destruct Hg as (Hlt & Hq & Htk & Hhd).
    unfold gone. cbn [heap queue tasks set_queue].
    split; [exact Hlt|]. split; [|split; assumption].
    intros Hin. apply elem_of_filter_bool in Hin. apply Hq, Hin.
  - injection Hstep as <-. unfold removeMessage.
    destruct (remove_first (removable q i) (queue q)) as [l|] eqn:E;
      [|exact Hg].
    cbn [fst]. apply gone_notify.
    destruct (remove_first_Some _ _ _ E) as (l1 & y & l2 & Hqu & -> & _).
    destruct Hg as (Hlt & Hq & Htk & Hhd).
    unfold gone. cbn [heap queue tasks set_queue].
    split; [exact Hlt|]. split; [|split; assumption].
    intros Hin. apply Hq. rewrite Hqu. apply elem_of_app in Hin.
    apply elem_of_app. destruct Hin as [Hin|Hin];
      [left; exact Hin|right; right; exact Hin].
Qed.

Lemma gone_run (r : nat) (es : list Event) (q q' : MessageQueue) :
  gone r q -> run q es = Some q' -> gone r q'.
Proof.
  revert q. induction es as [|e es IH]; intros q Hg Hrun.
  - injection Hrun as <-. exact Hg.
  - cbn [run] in Hrun. destruct (step q e) as [q1|] eqn:Hstep;
      [|discriminate].
    apply (IH q1); [|exact Hrun]. apply (gone_step r q q1 e Hg Hstep).
Qed.

Lemma sorted_not_in (l1 l2 : list nat) (x : nat) :
  StronglySorted lt (l1 ++ x :: l2) -> x ∉ l1 ++ l2.
Proof.
  intros Hs Hin. apply elem_of_app in Hin. destruct Hin as [Hin|Hin].
  - induction l1 as [|a l1 IH]; [apply elem_of_nil in Hin; exact Hin|].
    cbn in Hs. apply StronglySorted_inv in Hs. destruct Hs as [Hs Ha].
    apply elem_of_cons in Hin. destruct Hin as [->|Hin].
    + rewrite List.Forall_forall in Ha. assert (a < a); [|lia].
      apply Ha. apply List.in_app_iff. right. left. reflexivity.
    + apply IH; assumption.
  - pose proof (StronglySorted_after l1 l2 x x Hs Hin). lia.
Qed.

(** A waiting message is no call in flight and has not been given to the
    callback. *)
Lemma waiting_untouched (q : MessageQueue) (r : nat) :
  MInv q -> st (heap q) r = Some Status.queued ->
  (r ∉ tasks q) /\ (r ∉ map fst (handled q)).
Proof.
  intros [Hcore Hflight] Hr. split.
  - unfold flight in Hflight.
    destruct (tasks q) as [|t [|t' tk]]; [| |destruct Hflight].
    + apply not_elem_of_nil.
    + destruct Hflight as (_ & _ & Honly). intros Hin.
      apply list_elem_of_singleton in Hin. subst t.
      assert (Hp : st (heap q) r = Some Status.processing)
        by (apply Honly; reflexivity).
      congruence.
  - intros Hin. apply list_elem_of_fmap in Hin.
    destruct Hin as ([r' txt] & -> & Hin). cbn in Hr.
    destruct (core_done _ _ _ Hcore r' txt Hin) as (Hnq & _).
    exact (Hnq Hr).
Qed.

(** X22.  [removeMessage(id)] answers [true] exactly when a message with
    this id is waiting in the queue. It then takes the first such message
    out of the queue and nothing else, and that message is never given to
    the callback, whatever happens later. When it answers [false] (no such
    message, or the message is being processed or is completed) nothing
    changes. *)
Theorem removeMessage_takes_out_a_waiting_message (cb oc : bool)
    (es : list Event) (q : MessageQueue) (i : str) :
  run (create cb oc) es = Some q ->
  let result := removeMessage i q in
  (snd result = false ->
   fst result = q /\ Forall (fun r => removable q i r = false) (queue q)) /\
  (snd result = true ->
   exists l1 r l2,
     queue q = l1 ++ r :: l2 /\
     Forall (fun y => removable q i y = false) l1 /\
     removable q i r = true /\
     queue (fst result) = l1 ++ l2 /\
     heap (fst result) = heap q /\
     handled (fst result) = handled q /\
     forall es' q', run (fst result) es' = Some q' ->
                    r ∉ map fst (handled q')).
Proof.
  intros Hrun result. subst result.
  pose proof (run_MInv es _ q (MInv_create cb oc) Hrun) as Hinv.
  unfold removeMessage.
  destruct (remove_first (removable q i) (queue q)) as [l|] eqn:E;
    cbn [fst snd].
  - split; [discriminate|]. intros _.
    destruct (remove_first_Some _ _ _ E) as (l1 & r & l2 & Hq & -> & Hr & Hl1).
    exists l1, r, l2.
    destruct (notify_frame (set_queue (l1 ++ l2) q))
      as (E1 & E2 & _ & E4 & _).
    rewrite E1, E2, handled_notify.
    repeat (split; [first [assumption|reflexivity]|]).
    intros es' q' Hrun'.
    assert (Hg : gone r (notifyQueueChange (set_queue (l1 ++ l2) q))).
    { pose proof (removable_queued q i r Hr) as Hst.
      destruct (waiting_untouched q r Hinv Hst) as [Htk Hhd].
      unfold gone. rewrite E1, E2, E4, handled_notify.
      cbn [heap queue tasks set_queue].
      split; [eapply st_lt; exact Hst|]. split; [|split; assumption].
      apply sorted_not_in. rewrite <- Hq.
      apply (core_sorted _ _ _ (proj1 Hinv)). }
    apply (gone_run r es' _ q' Hg Hrun').
  - split; [|discriminate]. intros _. split; [reflexivity|].
    apply remove_first_None. exact E.
Qed.

Lemma filter_none (f : nat -> bool) (l : list nat) :
  (forall y, y ∈ l -> f y = false) -> List.filter f l = [].
Proof.
  induction l as [|a l IH]; intros Hf; [reflexivity|]. cbn.
  rewrite (Hf a) by left. apply IH. intros y Hy. apply Hf. right. exact Hy.
Qed.

Lemma filter_only (f : nat -> bool) (l : list nat) (x : nat) :
  StronglySorted lt l -> x ∈ l -> (forall y, f y = true <-> y = x) ->
  List.filter f l = [x].
Proof.
  intros Hs Hin Hf.
  apply list_elem_of_split in Hin. destruct Hin as (l1 & l2 & ->).
  pose proof (sorted_not_in l1 l2 x Hs) as Hnot.
  assert (Hnone : forall l', x ∉ l' -> List.filter f l' = []).
  { induction l' as [|a l' IH]; intros Hx; [reflexivity|]. cbn.
    destruct (f a) eqn:E.
    - apply Hf in E. subst a. destruct Hx. left.
    - apply IH. intros H. apply Hx. right. exact H. }
  rewrite List.filter_app. cbn.
  rewrite (proj2 (Hf x) eq_refl).
  rewrite !Hnone; [reflexivity| |].
  - intros H. apply Hnot. apply elem_of_app. right. exact H.
  - intros H. apply Hnot. apply elem_of_app. left. exact H.
Qed.

(** X23.  [clearQueue()] leaves in the queue the message being processed, if
    there is one, and nothing else: the waiting messages go, and so do the
    completed ones. No message that was waiting is ever given to the
    callback afterwards. *)
Theorem clearQueue_keeps_the_message_in_progress (cb oc : bool)
    (es : list Event) (q : MessageQueue) :
  run (create cb oc) es = Some q ->
  queue (clearQueue q) = tasks q /\
  getQueueLength (clearQueue q) = 0 /\
  heap (clearQueue q) = heap q /\
  isProcessing (clearQueue q) = isProcessing q /\
  forall r es' q',
    r ∈ queue q -> has_status q Status.queued r = true ->
    run (clearQueue q) es' = Some q' ->
    r ∉ map fst (handled q').
Proof.
  intros Hrun.
  pose proof (run_MInv es _ q (MInv_create cb oc) Hrun) as Hinv.
  destruct (notify_frame
              (set_queue (List.filter (has_status q Status.processing)
                                      (queue q)) q))
    as (E1 & E2 & E3 & E4 & _).
  assert (Hqueue : queue (clearQueue q) = tasks q).
  { unfold clearQueue. rewrite E2. cbn [queue set_queue].
    destruct Hinv as [Hcore Hflight]. unfold flight in Hflight.
    destruct (tasks q) as [|t [|t' tk]]; [| |destruct Hflight].
    - destruct Hflight as [_ Hnone]. apply filter_none. intros y _.
      destruct (has_status q Status.processing y) eqn:Ea; [|reflexivity].
      apply has_status_st in Ea. destruct (Hnone y Ea).
    - destruct Hflight as (_ & Hin & Honly).
      apply filter_only; [apply (core_sorted _ _ _ Hcore)|exact Hin|].
      intros y. rewrite has_status_st. apply Honly. }
  split; [exact Hqueue|]. split; [|split; [exact E1|split; [exact E3|]]].
  - unfold getQueueLength, getQueuedMessages. unfold clearQueue at 2.
    rewrite E2. cbn [queue set_queue].
    assert (Hnil : List.filter (has_status (clearQueue q) Status.queued)
              (List.filter (has_status q Status.processing) (queue q)) = []).
    { apply filter_none. intros a Ha. apply elem_of_filter_bool in Ha.
      destruct Ha as [_ Ea].
      destruct (has_status (clearQueue q) Status.queued a) eqn:Eb;
        [|reflexivity].
      exfalso. unfold has_status in Ea, Eb. unfold clearQueue in Eb.
      rewrite E1 in Eb. cbn [heap set_queue] in Eb.
      destruct (heap q !! a) as [m|]; [|discriminate Ea].
      apply status_eqb_spec in Ea, Eb. congruence. }
    rewrite Hnil. reflexivity.
  - intros r es' q' Hin Hwait Hrun'.
    apply has_status_st in Hwait.
    destruct (waiting_untouched q r Hinv Hwait) as [Htk Hhd].
    assert (Hg : gone r (clearQueue q)).
    { unfold gone. rewrite Hqueue. unfold clearQueue.
      rewrite E1, E4, handled_notify. cbn [heap tasks set_queue].
      split; [eapply st_lt; exact Hwait|].
      split; [exact Htk|]. split; assumption. }
    apply (gone_run r es' _ q' Hg Hrun').
Qed.

(** *** A burst of messages is worked off *)

(** Messages added one after the other, then, for each in turn, the
    callback call settling (fulfilled or rejected, as [fulfilled] says) and
    the timer firing. *)
Definition burst (msgs : list (str * str * Z)) : list Event :=
  map (fun m => AddMessage m.1.1 m.1.2 m.2 false) msgs.

Definition settle_from (first count : nat) (fulfilled : nat -> bool)
  : list Event :=
  flat_map (fun k => [CallbackDone k (fulfilled k); Timeout false])
           (seq first count).

Definition settle (count : nat) (fulfilled : nat -> bool) : list Event :=
  settle_from 0 count fulfilled.

(** The objects of the burst when the first [d] messages are completed and
    [cur] is being processed. *)
Definition status_in (d : nat) (cur : option nat) (i : nat) : Status.t :=
  if i <? d then Status.completed
  else if bool_decide (cur = Some i) then Status.processing
       else Status.queued.

Definition shape (msgs : list (str * str * Z)) (d : nat) (cur : option nat)
  : list QueuedMessage :=
  imap (fun i m => {| id := m.1.1; text := m.1.2; timestamp := m.2;
                      status := status_in d cur i |}) msgs.

Definition calls (msgs : list (str * str * Z)) : list (nat * str) :=
  imap (fun i m => (i, m.1.2)) msgs.

Record Drain (oc : bool) (msgs : list (str * str * Z)) (d : nat)
    (cur : option nat) (q : MessageQueue) : Prop := {
  drain_heap : heap q = shape msgs d cur;
  drain_queue : queue q = seq 0 (length msgs);
  drain_flag : isProcessing q = bool_decide (is_Some cur);
  drain_tasks : tasks q = option_list cur;
  drain_handled : handled q = take (d + length (option_list cur)) (calls msgs);
  drain_cb : processCallback q = true;
  drain_oc : onQueueChange q = oc;
  drain_timeouts : timeouts q = 0
}.

Lemma run_app (es1 es2 : list Event) (q : MessageQueue) :
  run q (es1 ++ es2) =
  match run q es1 with
  | Some q' => run q' es2
  | None => None
  end.
Proof.
  revert q. induction es1 as [|e es1 IH]; intros q; [reflexivity|].
  cbn [app run]. destruct (step q e); [apply IH|reflexivity].
Qed.

Lemma shape_snoc (msgs : list (str * str * Z)) (m : str * str * Z)
    (d : nat) (cur : option nat) :
  shape (msgs ++ [m]) d cur =
  shape msgs d cur
  ++ [{| id := m.1.1; text := m.1.2; timestamp := m.2;
         status := status_in d cur (length msgs) |}].
Proof.
  unfold shape. rewrite imap_app. cbn. rewrite Nat.add_0_r. reflexivity.
Qed.

Lemma calls_snoc (msgs : list (str * str * Z)) (m : str * str * Z) :
  calls (msgs ++ [m]) = calls msgs ++ [(length msgs, m.1.2)].
Proof.
  unfold calls. rewrite imap_app. cbn. rewrite Nat.add_0_r. reflexivity.
Qed.

Lemma length_shape (msgs : list (str * str * Z)) (d : nat)
    (cur : option nat) : length (shape msgs d cur) = length msgs.
Proof. apply length_imap. Qed.

Lemma length_calls (msgs : list (str * str * Z)) :
  length (calls msgs) = length msgs.
Proof. apply length_imap. Qed.

(** The first message of a burst is given to the callback at once. *)
Lemma burst_first (oc : bool) (m : str * str * Z) :
  exists q, step (create true oc) (AddMessage m.1.1 m.1.2 m.2 false) = Some q
            /\ Drain oc [m] 0 (Some 0) q.
Proof.
  eexists. split; [reflexivity|].
  destruct oc; constructor; reflexivity.
Qed.

(** The others wait. *)
Lemma burst_next (oc : bool) (msgs : list (str * str * Z))
    (m : str * str * Z) (q : MessageQueue) :
  msgs <> [] -> Drain oc msgs 0 (Some 0) q ->
  exists q', step q (AddMessage m.1.1 m.1.2 m.2 false) = Some q' /\
             Drain oc (msgs ++ [m]) 0 (Some 0) q'.
Proof.
  intros Hne [Hh Hq Hf Htk Hhd Hcb Hoc Htm].
  eexists. split; [reflexivity|].
  unfold addMessage. cbn [fst].
  set (q1 := set_queue _ (set_heap _ q)).
  destruct (notify_frame q1) as (E1 & E2 & E3 & E4 & E5 & E6 & E7).
  assert (Hflag : isProcessing (notifyQueueChange q1) = true).
  { rewrite E3. exact Hf. }
  rewrite Hflag. cbn [negb].
  assert (Hlen : 0 < length msgs).
  { destruct msgs; [destruct (Hne eq_refl)|cbn; lia]. }
  constructor.
  - rewrite E1. cbn [heap q1 set_queue set_heap]. rewrite Hh, shape_snoc.
    do 2 f_equal. unfold status_in. cbn [Nat.ltb Nat.leb].
    rewrite bool_decide_eq_false_2; [reflexivity|].
    intros H. injection H as H. lia.
  - rewrite E2. cbn [queue q1 set_queue set_heap heap].
    rewrite Hq, Hh, length_shape, length_app. cbn [length].
    rewrite Nat.add_1_r, seq_S. reflexivity.
  - exact Hflag.
  - rewrite E4. exact Htk.
  - rewrite handled_notify.
    change (handled q1) with (handled q). rewrite Hhd.
    change (0 + length (option_list (Some 0))) with 1. rewrite calls_snoc.
    rewrite take_app_le; [reflexivity|]. rewrite length_calls. lia.
  - rewrite E6. exact Hcb.
  - rewrite E7. exact Hoc.
  - rewrite E5. exact Htm.
Qed.

Lemma burst_run (oc : bool) (msgs : list (str * str * Z)) :
  msgs <> [] ->
  exists q, run (create true oc) (burst msgs) = Some q /\
            Drain oc msgs 0 (Some 0) q.
Proof.
  induction msgs as [|m msgs IH] using rev_ind; intros Hne;
    [destruct (Hne eq_refl)|].
  unfold burst. rewrite map_app, run_app. cbn [map].
  destruct msgs as [|m0 msgs].
  - cbn [map run]. destruct (burst_first oc m) as (q & -> & Hq).
    exists q. split; [reflexivity|exact Hq].
  - destruct IH as (q & Hrun & Hq); [discriminate|].
    fold (burst (m0 :: msgs)). rewrite Hrun. cbn [run].
    destruct (burst_next oc (m0 :: msgs) m q) as (q' & -> & Hq');
      [discriminate|exact Hq|].
    exists q'. split; [reflexivity|exact Hq'].
Qed.

Lemma shape_lookup (msgs : list (str * str * Z)) (d : nat)
    (cur : option nat) (i : nat) :
  shape msgs d cur !! i =
  (fun m => {| id := m.1.1; text := m.1.2; timestamp := m.2;
               status := status_in d cur i |}) <$> msgs !! i.
Proof. unfold shape. apply list_lookup_imap. Qed.

Lemma alter_shape (msgs : list (str * str * Z)) (d d' : nat)
    (cur cur' : option nat) (k : nat) (s : Status.t) :
  (forall i, i < length msgs ->
     status_in d' cur' i = if bool_decide (i = k) then s
                           else status_in d cur i) ->
  alter (with_status s) k (shape msgs d cur) = shape msgs d' cur'.
Proof.
  intros Hst. apply list_eq. intros i.
  destruct (decide (i = k)) as [->|Hne].
  - rewrite list_lookup_alter_eq, !shape_lookup.
    destruct (msgs !! k) as [m|] eqn:E; [|reflexivity]. cbn.
    apply lookup_lt_Some in E. rewrite (Hst k E).
    rewrite bool_decide_eq_true_2 by reflexivity. reflexivity.
  - rewrite list_lookup_alter_ne by auto. rewrite !shape_lookup.
    destruct (msgs !! i) as [m|] eqn:E; [|reflexivity]. cbn.
    apply lookup_lt_Some in E. rewrite (Hst i E).
    rewrite bool_decide_eq_false_2 by exact Hne. reflexivity.
Qed.

Lemma find_seq (f : nat -> bool) (a n k : nat) :
  (forall i, a <= i -> i < k -> f i = false) ->
  List.find f (seq a n) =
  if decide (a <= k /\ k < a + n) then
    if f k then Some k else List.find f (seq (S k) (a + n - S k))
  else List.find f (seq a n).
Proof.
  revert a. induction n as [|n IH]; intros a Hf.
  - destruct (decide _) as [H|H]; [lia|reflexivity].
  - destruct (decide _) as [[H1 H2]|H]; [|reflexivity].
    cbn [seq List.find].
    destruct (decide (a = k)) as [->|Hne].
    + replace (k + S n - S k) with n by lia. reflexivity.
    + rewrite (Hf a) by lia. rewrite (IH (S a)).
      * destruct (decide _) as [_|H]; [|lia].
        replace (S a + n - S k) with (a + S n - S k) by lia. reflexivity.
      * intros i Hi. apply Hf. lia.
Qed.

Lemma has_status_shape (q : MessageQueue) (msgs : list (str * str * Z))
    (d : nat) (cur : option nat) (s : Status.t) (i : nat) :
  heap q = shape msgs d cur ->
  has_status q s i =
  bool_decide (i < length msgs) && Status.eqb (status_in d cur i) s.
Proof.
  intros Hh. unfold has_status. rewrite Hh, shape_lookup.
  destruct (msgs !! i) as [m|] eqn:E; cbn.
  - apply lookup_lt_Some in E. rewrite bool_decide_eq_true_2 by exact E.
    reflexivity.
  - apply lookup_ge_None in E. rewrite bool_decide_eq_false_2 by lia.
    reflexivity.
Qed.

(** After the first [d] messages, with nothing in flight: the next message
    that [processNext] finds is the one at [d], if there is one. *)
Lemma find_waiting (q : MessageQueue) (msgs : list (str * str * Z))
    (d : nat) :
  heap q = shape msgs d None -> queue q = seq 0 (length msgs) ->
  List.find (has_status q Status.queued) (queue q) =
  if decide (d < length msgs) then Some d else None.
Proof.
  intros Hh Hq. rewrite Hq.
  assert (Hdone : forall i, i < d -> has_status q Status.queued i = false).
  { intros i Hi. rewrite (has_status_shape q msgs d None _ i Hh).
    unfold status_in. rewrite (proj2 (Nat.ltb_lt i d) Hi).
    apply andb_false_r. }
  destruct (decide (d < length msgs)) as [Hlt|Hge].
  - rewrite (find_seq _ 0 (length msgs) d) by (intros; apply Hdone; lia).
    destruct (decide _) as [_|H]; [|lia].
    rewrite (has_status_shape q msgs d None _ d Hh).
    rewrite bool_decide_eq_true_2 by exact Hlt.
    unfold status_in. rewrite Nat.ltb_irrefl.
    rewrite bool_decide_eq_false_2 by discriminate. reflexivity.
  - destruct (List.find _ _) as [x|] eqn:E; [|reflexivity].
    apply List.find_some in E. destruct E as [Hin Hx].
    apply List.in_seq in Hin. rewrite Hdone in Hx by lia. discriminate Hx.
Qed.

(** One round: the call for the message at [d] settles, the timer fires,
    and the message after it, if there is one, is given to the callback. *)
Lemma drain_round (oc : bool) (msgs : list (str * str * Z)) (d : nat)
    (ok : bool) (q : MessageQueue) :
  d < length msgs -> Drain oc msgs d (Some d) q ->
  exists q', run q [CallbackDone d ok; Timeout false] = Some q' /\
    Drain oc msgs (S d)
          (if decide (S d < length msgs) then Some (S d) else None) q'.
Proof.
  intros Hlt [Hh Hq Hf Htk Hhd Hcb Hoc Htm].
  change (option_list (Some d)) with [d] in Htk, Hhd.
  cbn [run step]. rewrite Htk. cbn [existsb orb].
  rewrite Nat.eqb_refl. cbn [orb remove_task]. rewrite Nat.eqb_refl.
  set (q1 := processed d (set_tasks [] q)).
  destruct (processed_fields d (set_tasks [] q))
    as (E1 & E2 & E3 & E4 & E5 & E6).
  fold q1 in E1, E2, E3, E4, E5, E6.
  cbn [heap queue tasks timeouts set_tasks] in E1, E2, E4, E6.
  change (handled (set_tasks [] q)) with (handled q) in E3.
  assert (Hcb1 : processCallback q1 = true /\ onQueueChange q1 = oc).
  { unfold q1, processed.
    destruct (notify_frame (set_isProcessing false
                (set_message_status d Status.completed (set_tasks [] q))))
      as (_ & _ & _ & _ & _ & F6 & F7).
    cbn [processCallback onQueueChange set_timeouts]. rewrite F6, F7.
    split; assumption. }
  destruct Hcb1 as [Hcb1 Hoc1].
  assert (Hh1 : heap q1 = shape msgs (S d) None).
  { rewrite E1, Hh. apply alter_shape. intros i _. unfold status_in.
    destruct (decide (i = d)) as [->|Hne].
    - rewrite (bool_decide_eq_true_2 (d = d)) by reflexivity.
      rewrite (proj2 (Nat.ltb_lt d (S d))) by lia. reflexivity.
    - rewrite (bool_decide_eq_false_2 (i = d)) by exact Hne.
      rewrite (bool_decide_eq_false_2 (None = Some i)) by discriminate.
      rewrite (bool_decide_eq_false_2 (Some d = Some i)) by congruence.
      destruct (i <? S d) eqn:Ea, (i <? d) eqn:Eb; try reflexivity.
      + apply Nat.ltb_lt in Ea. apply Nat.ltb_ge in Eb. lia.
      + apply Nat.ltb_ge in Ea. apply Nat.ltb_lt in Eb. lia. }
  rewrite E6, Htm.
  set (q2 := set_timeouts 0 q1).
  assert (Hfind : List.find (has_status q2 Status.queued) (queue q2) =
                  if decide (S d < length msgs) then Some (S d) else None).
  { apply (find_waiting q2 msgs (S d)); [exact Hh1|].
    cbn [queue q2 set_timeouts]. rewrite E2. exact Hq. }
  unfold processNext.
  assert (Hip2 : isProcessing q2 = false) by exact E5.
  assert (Hlen2 : (length (queue q2) =? 0) = false).
  { cbn [queue q2 set_timeouts]. rewrite E2, Hq, length_seq.
    apply Nat.eqb_neq. lia. }
  rewrite Hip2, Hlen2, Hfind. cbn [orb].
  destruct (decide (S d < length msgs)) as [Hnext|Hlast].
  - set (q3 := notifyQueueChange
                 (set_message_status (S d) Status.processing
                    (set_isProcessing true q2))).
    destruct (notify_frame (set_message_status (S d) Status.processing
                              (set_isProcessing true q2)))
      as (F1 & F2 & F3 & F4 & F5 & F6 & F7).
    fold q3 in F1, F2, F3, F4, F5, F6, F7.
    cbn [heap queue isProcessing tasks timeouts processCallback
         onQueueChange set_message_status set_heap set_isProcessing q2
         set_timeouts] in F1, F2, F3, F4, F5, F6, F7.
    rewrite F6, Hcb1.
    eexists. split; [reflexivity|].
    constructor; cbn [heap queue isProcessing tasks timeouts processCallback
                      onQueueChange set_tasks emit].
    + rewrite F1, Hh1. apply alter_shape. intros i _. unfold status_in.
      destruct (decide (i = S d)) as [->|Hne].
      * rewrite (bool_decide_eq_true_2 (S d = S d)) by reflexivity.
        rewrite Nat.ltb_irrefl.
        rewrite (bool_decide_eq_true_2 (Some (S d) = Some (S d)))
          by reflexivity.
        reflexivity.
      * rewrite (bool_decide_eq_false_2 (i = S d)) by exact Hne.
        rewrite (bool_decide_eq_false_2 (None = Some i)) by discriminate.
        rewrite (bool_decide_eq_false_2 (Some (S d) = Some i))
          by congruence.
        reflexivity.
    + rewrite F2, E2. exact Hq.
    + rewrite F3. reflexivity.
    + rewrite F4, E4. reflexivity.
    + unfold handled. cbn [log emit set_tasks]. rewrite omap_app.
      change (omap process_of (log q3)) with (handled q3).
      assert (Hhd3 : handled q3 = take (d + 1) (calls msgs)).
      { unfold q3. rewrite handled_notify.
        change (handled (set_message_status _ _ _)) with (handled q1).
        rewrite E3, Hhd. reflexivity. }
      rewrite Hhd3.
      change (length (option_list (Some (S d)))) with 1.
      change (omap process_of [Process (S d) (message_text q3 (S d))])
        with [(S d, message_text q3 (S d))].
      replace (S d + 1) with (S (d + 1)) by lia.
      rewrite (take_S_r (calls msgs) (d + 1) (S d, message_text q3 (S d))).
      * reflexivity.
      * unfold calls. rewrite list_lookup_imap.
        replace (d + 1) with (S d) by lia.
        unfold message_text. rewrite F1, Hh1.
        rewrite list_lookup_alter_eq, shape_lookup.
        destruct (msgs !! S d) as [m|] eqn:E; [reflexivity|].
        apply lookup_ge_None in E. lia.
    + rewrite F6. exact Hcb1.
    + rewrite F7. exact Hoc1.
    + rewrite F5. reflexivity.
  - eexists. split; [reflexivity|].
    constructor; cbn [heap queue isProcessing tasks timeouts processCallback
                      onQueueChange q2 set_timeouts].
    + exact Hh1.
    + rewrite E2. exact Hq.
    + exact E5.
    + exact E4.
    + transitivity (handled q1); [reflexivity|].
      rewrite E3, Hhd. cbn [length].
      change (length (option_list None)) with 0.
      replace (S d + 0) with (d + 1) by lia. reflexivity.
    + exact Hcb1.
    + exact Hoc1.
    + reflexivity.
Qed.

Lemma drain_rounds (oc : bool) (msgs : list (str * str * Z))
    (fulfilled : nat -> bool) (count d : nat) (q : MessageQueue) :
  d + count = length msgs ->
  Drain oc msgs d (if decide (d < length msgs) then Some d else None) q ->
  exists q', run q (settle_from d count fulfilled) = Some q' /\
             Drain oc msgs (length msgs) None q'.
Proof.
  revert d q. induction count as [|count IH]; intros d q Hlen Hq.
  - exists q. split; [reflexivity|].
    destruct (decide (d < length msgs)) as [H|_]; [lia|].
    replace (length msgs) with d by lia. exact Hq.
  - destruct (decide (d < length msgs)) as [Hlt|H]; [|lia].
    destruct (drain_round oc msgs d (fulfilled d) q Hlt Hq)
      as (q1 & Hrun1 & Hq1).
    destruct (IH (S d) q1) as (q' & Hrun' & Hq'); [lia|exact Hq1|].
    exists q'. split; [|exact Hq'].
    unfold settle_from in *. cbn [seq flat_map].
    rewrite run_app, Hrun1. exact Hrun'.
Qed.

(** X24.  Messages added in a burst to a new queue are all worked off as the
    calls of the callback settle and the timers fire: the callback gets each
    message once, in the order they were added, and every message ends as
    completed, whether its call was fulfilled or rejected; nothing is left
    waiting and no timer is pending. *)
Theorem burst_of_messages_is_worked_off (oc : bool)
    (msgs : list (str * str * Z)) (fulfilled : nat -> bool) :
  exists q,
    run (create true oc) (burst msgs ++ settle (length msgs) fulfilled)
    = Some q /\
    handled q = calls msgs /\
    map text (heap q) = map (fun m => m.1.2) msgs /\
    Forall (fun m => status m = Status.completed) (heap q) /\
    isProcessing q = false /\ tasks q = [] /\ timeouts q = 0 /\
    getQueueLength q = 0.
Proof.
  assert (Hend : forall q, Drain oc msgs (length msgs) None q ->
    handled q = calls msgs /\
    map text (heap q) = map (fun m => m.1.2) msgs /\
    Forall (fun m => status m = Status.completed) (heap q) /\
    isProcessing q = false /\ tasks q = [] /\ timeouts q = 0 /\
    getQueueLength q = 0).
  { intros q [Hh Hq Hf Htk Hhd Hcb Hoc Htm].
    split; [|split; [|split; [|split; [|split; [|split]]]]].
    - rewrite Hhd. cbn [option_list length]. apply take_ge.
      rewrite length_calls. lia.
    - rewrite Hh. apply list_eq. intros i.
      rewrite !list_lookup_fmap, shape_lookup.
      destruct (msgs !! i); reflexivity.
    - rewrite Hh. apply Forall_lookup. intros i m Hi.
      rewrite shape_lookup in Hi.
      destruct (msgs !! i) as [m0|] eqn:E; [|discriminate Hi].
      injection Hi as <-. cbn. unfold status_in.
      apply lookup_lt_Some in E.
      rewrite (proj2 (Nat.ltb_lt _ _) E). reflexivity.
    - exact Hf.
    - exact Htk.
    - exact Htm.
    - unfold getQueueLength, getQueuedMessages.
      rewrite filter_none; [reflexivity|]. intros y _.
      rewrite (has_status_shape q msgs _ None _ y Hh).
      destruct (decide (y < length msgs)) as [Hy|Hy].
      + unfold status_in. rewrite (proj2 (Nat.ltb_lt _ _) Hy).
        apply andb_false_r.
      + rewrite bool_decide_eq_false_2 by exact Hy. reflexivity. }
  destruct msgs as [|m msgs].
  - exists (create true oc). split; [reflexivity|].
    apply Hend. constructor; reflexivity.
  - destruct (burst_run oc (m :: msgs)) as (q0 & Hrun0 & Hq0);
      [discriminate|].
    destruct (drain_rounds oc (m :: msgs) fulfilled (length (m :: msgs)) 0 q0)
      as (q & Hrun & Hq); [reflexivity| |].
    { destruct (decide _) as [_|H]; [exact Hq0|cbn in H; lia]. }
    exists q. split; [|apply Hend; exact Hq].
    rewrite run_app, Hrun0. exact Hrun.
Qed.

End MessagesFacts.

Section MessagesExamples.
Import Js Messages Scenarios.

Lemma one_message_at_a_time_witness :
  length (tasks busy_queue) <= 1 /\
  (forall r r', has_status busy_queue Status.processing r = true ->
                has_status busy_queue Status.processing r' = true ->
                r = r') /\
  (isProcessing busy_queue = true <->
   exists r, tasks busy_queue = [r] /\ r ∈ queue busy_queue /\
             has_status busy_queue Status.processing r = true) /\
  (isProcessing busy_queue = false ->
   forall r, has_status busy_queue Status.processing r = false).
Proof.
  apply (one_message_at_a_time true true three_messages busy_queue).
  vm_compute. reflexivity.
Defined.

Lemma messages_are_processed_in_order_witness :
  let q := default (create true true)
             (run (create true true)
                  (three_messages ++ [CallbackDone 0 true; Timeout false])) in
  StronglySorted lt (map fst (handled q)) /\
  forall r txt, (r, txt) ∈ handled q ->
    exists m, heap q !! r = Some m /\ text m = txt /\
              status m <> Status.queued.
Proof.
  intros q.
  apply (messages_are_processed_in_order true true
           (three_messages ++ [CallbackDone 0 true; Timeout false]) q).
  vm_compute. reflexivity.
Defined.

Lemma removeMessage_takes_out_a_waiting_message_witness :
  let result := removeMessage (lit "msg-3") busy_queue in
  (snd result = false ->
   fst result = busy_queue /\
   Forall (fun r => removable busy_queue (lit "msg-3") r = false)
          (queue busy_queue)) /\
  (snd result = true ->
   exists l1 r l2,
     queue busy_queue = l1 ++ r :: l2 /\
     Forall (fun y => removable busy_queue (lit "msg-3") y = false) l1 /\
     removable busy_queue (lit "msg-3") r = true /\
     queue (fst result) = l1 ++ l2 /\
     heap (fst result) = heap busy_queue /\
     handled (fst result) = handled busy_queue /\
     forall es' q', run (fst result) es' = Some q' ->
                    r ∉ map fst (handled q')).
Proof.
  apply (removeMessage_takes_out_a_waiting_message true true three_messages
           busy_queue (lit "msg-3")).
  vm_compute. reflexivity.
Defined.

Lemma clearQueue_keeps_the_message_in_progress_witness :
  queue (clearQueue busy_queue) = tasks busy_queue /\
  getQueueLength (clearQueue busy_queue) = 0 /\
  heap (clearQueue busy_queue) = heap busy_queue /\
  isProcessing (clearQueue busy_queue) = isProcessing busy_queue /\
  forall r es' q',
    r ∈ queue busy_queue -> has_status busy_queue Status.queued r = true ->
    run (clearQueue busy_queue) es' = Some q' ->
    r ∉ map fst (handled q').
Proof.
  apply (clearQueue_keeps_the_message_in_progress true true three_messages
           busy_queue).
  vm_compute. reflexivity.
Defined.

End MessagesExamples.

(** ** Audio player: one item at a time, in the order of the queue *)

Section PlaybackOrder.
Import Js Player Examples.

(** The items whose playback was started, in the order of the
    [onPlayStart] calls. *)
Definition play_start (e : Effect) : option ref :=
  match e with
  | PlayStart r _ _ => Some r
  | _ => None
  end.

Definition started (p : AudioPlayer) : list ref := omap play_start (log p).

(** Neither [stop()] nor [skip()]. *)
Definition calm (e : Event) : Prop := e <> Stop /\ e <> Skip.

Definition stat (hp : list AudioQueueItem) (i : ref) : option Status.t :=
  status <$> hp !! i.

(** The items before [d] are completed, those after it are pending, and
    the queue holds all items in the order they were added. *)
Record Frame (d : nat) (p : AudioPlayer) : Prop := {
  fr_queue : queue p = seq 0 (length (heap p));
  fr_done : forall i, i < d -> stat (heap p) i = Some Status.completed;
  fr_wait : forall i, d < i -> i < length (heap p) ->
                      stat (heap p) i = Some Status.pending;
  fr_state : state p <> State.stopped;
  fr_sorted : StronglySorted lt (started p)
}.

(** No [processQueue] call is suspended, and the item at [d], if there is
    one, is pending too. *)
Record Settled (d : nat) (p : AudioPlayer) : Prop := {
  se_frame : Frame d p;
  se_le : d <= length (heap p);
  se_next : d < length (heap p) -> stat (heap p) d = Some Status.pending;
  se_tasks : tasks p = [];
  se_timers : timers p = [];
  se_interval : writeInterval p = None;
  se_current : currentItem p = None;
  se_started : Forall (fun r => r < d) (started p)
}.

(** Where the player is: nothing to do, waiting for the decoder of the
    item at [d], or playing it. *)
Inductive Phase (p : AudioPlayer) : Prop :=
| Idle :
    Frame (length (heap p)) p ->
    tasks p = [] -> timers p = [] -> writeInterval p = None ->
    currentItem p = None -> isProcessingQueue p = false ->
    state p = State.idle ->
    Forall (fun r => r < length (heap p)) (started p) ->
    Phase p
| Decoding (d : nat) :
    Frame d p ->
    stat (heap p) d = Some Status.decoding ->
    tasks p = [AwaitDecode d] -> timers p = [] -> writeInterval p = None ->
    currentItem p = None -> isProcessingQueue p = true ->
    Forall (fun r => r < d) (started p) ->
    Phase p
| Playing (d h b : nat) :
    Frame d p ->
    stat (heap p) d = Some Status.playing \/
    stat (heap p) d = Some Status.paused ->
    tasks p = [AwaitPlay h d] ->
    timers p = [{| handle := h; item := d; bytesPerFrame := b |}] ->
    writeInterval p = Some h ->
    currentItem p = Some d -> isProcessingQueue p = true ->
    Forall (fun r => r <= d) (started p) ->
    Phase p.

Lemma has_status_stat (p : AudioPlayer) (s : Status.t) (r : ref) :
  has_status p s r = true <-> stat (heap p) r = Some s.
Proof.
  unfold has_status, stat. destruct (heap p !! r) as [it|]; cbn.
  - rewrite status_eqb_eq'. split; [intros ->; reflexivity|].
    intros H. injection H as H. exact H.
  - split; discriminate.
Qed.

Lemma has_status_stat_false (p : AudioPlayer) (s s' : Status.t) (r : ref) :
  stat (heap p) r = Some s' -> s' <> s -> has_status p s r = false.
Proof.
  intros H Hne. destruct (has_status p s r) eqn:E; [|reflexivity].
  apply has_status_stat in E. rewrite E in H. injection H as H.
  destruct (Hne (eq_sym H)).
Qed.

Lemma stat_alter_status (hp : list AudioQueueItem) (s : Status.t)
    (d i : ref) :
  stat (alter (with_status s) d hp) i
  = if decide (i = d) then (fun _ => s) <$> hp !! d else stat hp i.
Proof.
  unfold stat. destruct (decide (i = d)) as [->|Hne].
  - rewrite list_lookup_alter_eq. destruct (hp !! d); reflexivity.
  - rewrite list_lookup_alter_ne by auto. reflexivity.
Qed.

Lemma stat_alter_pcm (hp : list AudioQueueItem) (pcm : Buffer) (rate ch : N)
    (d i : ref) :
  stat (alter (with_pcm pcm rate ch) d hp) i = stat hp i.
Proof.
  unfold stat. destruct (decide (i = d)) as [->|Hne].
  - rewrite list_lookup_alter_eq. destruct (hp !! d); reflexivity.
  - rewrite list_lookup_alter_ne by auto. reflexivity.
Qed.

Lemma stat_is_Some (hp : list AudioQueueItem) (i : ref) (s : Status.t) :
  stat hp i = Some s -> i < length hp.
Proof.
  unfold stat. intros H. apply lookup_lt_is_Some.
  destruct (hp !! i); [eauto|discriminate H].
Qed.

(** The first pending item of a queue whose items before [d] are not
    pending. *)
Lemma find_pending_seq (p : AudioPlayer) (d a n : nat) :
  (forall i, a <= i -> i < d -> has_status p Status.pending i = false) ->
  (d < a + n -> has_status p Status.pending d = true) ->
  a <= d -> d <= a + n ->
  find_pending p (seq a n) a = if decide (d < a + n) then Some (d, d) else None.
Proof.
  revert a. induction n as [|n IH]; intros a Hbefore Hat Hle Hup.
  - cbn. destruct (decide _); [lia|reflexivity].
  - cbn [seq find_pending].
    destruct (decide (a = d)) as [->|Hne].
    + rewrite Hat by lia. destruct (decide _); [reflexivity|lia].
    + rewrite Hbefore by lia.
      rewrite (IH (S a)); try lia.
      * destruct (decide _), (decide _); try reflexivity; lia.
      * intros i H1 H2. apply Hbefore; lia.
      * intros H. apply Hat. lia.
Qed.

Lemma forallb_settled (p : AudioPlayer) (n : nat) :
  (forall i, i < n -> stat (heap p) i = Some Status.completed) ->
  forallb (is_settled p) (seq 0 n) = true.
Proof.
  intros H. apply forallb_forall. intros x Hx. apply in_seq in Hx.
  unfold is_settled. apply orb_true_iff. left.
  apply has_status_stat, H. lia.
Qed.

#[local] Arguments stat : simpl never.

Lemma started_snoc (lg : list Effect) (e : Effect) :
  omap play_start (lg ++ [e]) = omap play_start lg ++ option_list (play_start e).
Proof. rewrite omap_app. cbn. destruct (play_start e); reflexivity. Qed.

(** [processQueue()] when no other call is in progress: the next item, if
    there is one, starts decoding. *)
Lemma processQueue_Phase (d : nat) (p : AudioPlayer) :
  Settled d p -> isProcessingQueue p = false -> Phase (processQueue p).
Proof.
  intros [[Hq Hdone Hwait Hst Hsort] Hle Hnext Htk Htm Hwi Hcur Hstarted] Hpq.
  unfold processQueue. rewrite Hpq, Hq.
  rewrite (find_pending_seq p d 0 (length (heap p))); [| | |lia|lia].
  2:{ intros i _ Hi. apply (has_status_stat_false p _ Status.completed);
        [apply Hdone; exact Hi|discriminate]. }
  2:{ intros Hlt. apply has_status_stat, Hnext. lia. }
  destruct (decide (d < 0 + length (heap p))) as [Hlt|Hge].
  - destruct p as [av hp rt q ci st vol mu pq so cur off fs wi tm nh tk lg].
    cbn in *. subst.
    apply (Decoding _ d); cbn; try reflexivity.
    + constructor; cbn.
      * rewrite length_alter. reflexivity.
      * intros i Hi. rewrite stat_alter_status.
        destruct (decide (i = d)); [lia|]. apply Hdone. exact Hi.
      * intros i Hi Hi'. rewrite length_alter in Hi'.
        rewrite stat_alter_status.
        destruct (decide (i = d)); [lia|]. apply Hwait; assumption.
      * exact Hst.
      * unfold started. cbn. rewrite started_snoc. cbn.
        rewrite app_nil_r. exact Hsort.
    + rewrite stat_alter_status. destruct (decide (d = d)); [|lia].
      destruct (lookup_lt_is_Some_2 hp d) as [it ->]; [lia|]. reflexivity.
    + unfold started. cbn. rewrite started_snoc. cbn.
      rewrite app_nil_r. exact Hstarted.
  - assert (d = length (heap p)) by lia. subst d.
    assert (Hall : forallb (is_settled (set_isProcessingQueue false p))
                     (seq 0 (length (heap p))) = true)
      by (apply forallb_settled; exact Hdone).
    cbn zeta.
    change (queue (set_isProcessingQueue false p)) with (queue p).
    rewrite Hq, Hall.
    destruct p as [av hp rt q ci st vol mu pq so cur off fs wi tm nh tk lg].
    cbn in *. subst.
    apply Idle; cbn; try reflexivity.
    + constructor; cbn; try assumption; try reflexivity.
      * discriminate.
      * unfold started. cbn. rewrite !started_snoc. cbn.
        rewrite !app_nil_r. exact Hsort.
    + unfold started. cbn. rewrite !started_snoc. cbn.
      rewrite !app_nil_r. exact Hstarted.
Qed.

Lemma after_try_Phase (d : nat) (p : AudioPlayer) :
  Settled d p -> Phase (after_try p).
Proof.
  intros H. unfold after_try. apply (processQueue_Phase d); [|reflexivity].
  destruct H as [[Hq Hdone Hwait Hst Hsort] Hle Hnext Htk Htm Hwi Hcur Hs].
  destruct p as [av hp rt q ci st vol mu pq so cur off fs wi tm nh tk lg].
  cbn in *. subst.
  constructor; cbn; try assumption; try reflexivity.
  - constructor; cbn; try assumption; try reflexivity.
    unfold started. cbn. rewrite started_snoc. cbn. rewrite app_nil_r.
    exact Hsort.
  - unfold started. cbn. rewrite started_snoc. cbn. rewrite app_nil_r.
    exact Hs.
Qed.

Ltac fields p :=
  destruct p as [av hp rt q ci st vol mu pq so cur off fs wi tm nh tk lg];
  cbn in *; subst.

Ltac same_started :=
  unfold started; cbn; rewrite ?started_snoc; cbn; rewrite ?app_nil_r.

Lemma stat_push (hp : list AudioQueueItem) (it : AudioQueueItem) (i : ref) :
  stat (hp ++ [it]) i
  = if decide (i = length hp) then Some (status it) else stat hp i.
Proof.
  unfold stat. destruct (decide (i = length hp)) as [->|Hne].
  - rewrite list_lookup_middle by reflexivity. reflexivity.
  - destruct (decide (i < length hp)).
    + rewrite lookup_app_l by assumption. reflexivity.
    + rewrite !(proj2 (lookup_ge_None _ _)); [reflexivity|lia|].
      rewrite length_app. cbn. lia.
Qed.

Lemma Frame_push (d : nat) (p : AudioPlayer) (it : AudioQueueItem) :
  Frame d p -> d <= length (heap p) -> status it = Status.pending ->
  Frame d (emit (QueueChange (queue p ++ [length (heap p)]))
             (set_queue (queue p ++ [length (heap p)])
                (set_heap (heap p ++ [it]) p))).
Proof.
  intros [Hq Hdone Hwait Hst Hsort] Hle Hit. fields p.
  constructor; cbn.
  - rewrite length_app. cbn. rewrite Nat.add_1_r, seq_S. reflexivity.
  - intros i Hi. rewrite stat_push. destruct (decide _); [lia|].
    apply Hdone. exact Hi.
  - intros i Hi Hi'. rewrite length_app in Hi'. cbn in Hi'.
    rewrite stat_push. destruct (decide _); [rewrite Hit; reflexivity|].
    apply Hwait; lia.
  - exact Hst.
  - same_started. exact Hsort.
Qed.

Lemma addToQueue_Phase (mp3 : Buffer) (txt : option str) (p : AudioPlayer) :
  Phase p -> Phase (addToQueue mp3 txt p).
Proof.
  intros H. unfold addToQueue.
  set (it := {| audioBuffer := mp3; pcmData := None; sampleRate := None;
                channels := None; text := txt; status := Status.pending |}).
  pose proof (fun d Hf Hle => Frame_push d p it Hf Hle eq_refl) as Hpush.
  cbn zeta.
  destruct H as [Hf Htk Htm Hwi Hcur Hpq Hst Hs
                |d Hf Hd Htk Htm Hwi Hcur Hpq Hs
                |d h b Hf Hd Htk Htm Hwi Hcur Hpq Hs].
  - change (isProcessingQueue (emit _ _)) with (isProcessingQueue p).
    rewrite Hpq. cbn [negb].
    apply (processQueue_Phase (length (heap p))); [|exact Hpq].
    specialize (Hpush _ Hf (le_n _)).
    fields p. constructor; cbn; try reflexivity.
    + exact Hpush.
    + rewrite length_app. cbn. lia.
    + intros _. rewrite stat_push. destruct (decide _); [reflexivity|lia].
    + same_started. exact Hs.
  - change (isProcessingQueue (emit _ _)) with (isProcessingQueue p).
    rewrite Hpq. cbn [negb].
    pose proof (stat_is_Some _ _ _ Hd) as Hlt.
    specialize (Hpush _ Hf ltac:(lia)).
    fields p. apply (Decoding _ d); cbn; try reflexivity.
    + exact Hpush.
    + rewrite stat_push. destruct (decide _); [lia|exact Hd].
    + same_started. exact Hs.
  - change (isProcessingQueue (emit _ _)) with (isProcessingQueue p).
    rewrite Hpq. cbn [negb].
    assert (Hlt : d < length (heap p))
      by (destruct Hd as [Hd|Hd]; exact (stat_is_Some _ _ _ Hd)).
    specialize (Hpush _ Hf ltac:(lia)).
    fields p. apply (Playing _ d h b); cbn; try reflexivity.
    + exact Hpush.
    + rewrite stat_push. destruct (decide _); [lia|exact Hd].
    + same_started. exact Hs.
Qed.

Lemma pause_Phase (p : AudioPlayer) : Phase p -> Phase (pause p).
Proof.
  intros H. unfold pause.
  destruct (State.eqb (state p) State.playing) eqn:Hplaying; [|exact H].
  destruct H as [Hf Htk Htm Hwi Hcur Hpq Hst Hs
                |d Hf Hd Htk Htm Hwi Hcur Hpq Hs
                |d h b Hf Hd Htk Htm Hwi Hcur Hpq Hs].
  - rewrite Hst in Hplaying. discriminate Hplaying.
  - destruct Hf as [Hq Hdone Hwait Hst Hsort]. fields p.
    apply (Decoding _ d); cbn; try reflexivity; try assumption.
    + constructor; cbn; try assumption; try reflexivity; try discriminate.
      same_started. exact Hsort.
    + same_started. exact Hs.
  - destruct Hf as [Hq Hdone Hwait Hst Hsort].
    assert (Hlt : d < length (heap p))
      by (destruct Hd as [Hd|Hd]; exact (stat_is_Some _ _ _ Hd)).
    fields p.
    apply (Playing _ d h b); cbn; try reflexivity.
    + constructor; cbn; try discriminate.
      * rewrite length_alter. reflexivity.
      * intros i Hi. rewrite stat_alter_status.
        destruct (decide _); [lia|]. apply Hdone. exact Hi.
      * intros i Hi Hi'. rewrite length_alter in Hi'.
        rewrite stat_alter_status.
        destruct (decide _); [lia|]. apply Hwait; assumption.
      * same_started. exact Hsort.
    + right. rewrite stat_alter_status. destruct (decide _); [|lia].
      destruct (lookup_lt_is_Some_2 hp d Hlt) as [it ->]. reflexivity.
    + same_started. exact Hs.
Qed.

Lemma resume_Phase (p : AudioPlayer) : Phase p -> Phase (resume p).
Proof.
  intros H. unfold resume.
  destruct (State.eqb (state p) State.paused) eqn:Hpaused; [|exact H].
  destruct H as [Hf Htk Htm Hwi Hcur Hpq Hst Hs
                |d Hf Hd Htk Htm Hwi Hcur Hpq Hs
                |d h b Hf Hd Htk Htm Hwi Hcur Hpq Hs].
  - rewrite Hst in Hpaused. discriminate Hpaused.
  - destruct Hf as [Hq Hdone Hwait Hst Hsort]. fields p.
    apply (Decoding _ d); cbn; try reflexivity; try assumption.
    + constructor; cbn; try assumption; try reflexivity; try discriminate.
      same_started. exact Hsort.
    + same_started. exact Hs.
  - destruct Hf as [Hq Hdone Hwait Hst Hsort].
    assert (Hlt : d < length (heap p))
      by (destruct Hd as [Hd|Hd]; exact (stat_is_Some _ _ _ Hd)).
    fields p.
    apply (Playing _ d h b); cbn; try reflexivity.
    + constructor; cbn; try discriminate.
      * rewrite length_alter. reflexivity.
      * intros i Hi. rewrite stat_alter_status.
        destruct (decide _); [lia|]. apply Hdone. exact Hi.
      * intros i Hi Hi'. rewrite length_alter in Hi'.
        rewrite stat_alter_status.
        destruct (decide _); [lia|]. apply Hwait; assumption.
      * same_started. exact Hsort.
    + left. rewrite stat_alter_status. destruct (decide _); [|lia].
      destruct (lookup_lt_is_Some_2 hp d Hlt) as [it ->]. reflexivity.
    + same_started. exact Hs.
Qed.

(** The item at [d] is over: what a [processQueue] call finds when it goes
    on after its [try]. *)
Lemma Settled_next (d : nat) (p : AudioPlayer) (hp' : list AudioQueueItem) :
  Frame d p -> d < length (heap p) ->
  (forall i, stat hp' i = if decide (i = d) then Some Status.completed
                          else stat (heap p) i) ->
  length hp' = length (heap p) ->
  tasks p = [] -> timers p = [] -> writeInterval p = None ->
  currentItem p = None ->
  Forall (fun r => r <= d) (started p) ->
  Settled (S d) (set_heap hp' p).
Proof.
  intros [Hq Hdone Hwait Hst Hsort] Hlt Hstat Hlen Htk Htm Hwi Hcur Hs.
  fields p. constructor; cbn; try reflexivity.
  - constructor; cbn; try assumption.
    + rewrite Hlen. reflexivity.
    + intros i Hi. rewrite Hstat. destruct (decide _); [reflexivity|].
      apply Hdone. lia.
    + intros i Hi Hi'. rewrite Hstat. destruct (decide _); [lia|].
      apply Hwait; lia.
  - lia.
  - intros Hn. rewrite Hstat. destruct (decide _); [lia|].
    apply Hwait; lia.
  - eapply Forall_impl; [exact Hs|]. cbn. intros; lia.
Qed.

Lemma filter_own_timer (h d b : nat) :
  filter (fun t => handle t ≠ h)
         [{| handle := h; item := d; bytesPerFrame := b |}] = [].
Proof.
  rewrite filter_cons. cbn [handle].
  destruct (decide (h ≠ h)) as [Hne|_]; [destruct (Hne eq_refl)|reflexivity].
Qed.

Lemma tick_Phase (d h b : nat) (p : AudioPlayer) :
  Frame d p ->
  stat (heap p) d = Some Status.playing \/
  stat (heap p) d = Some Status.paused ->
  tasks p = [AwaitPlay h d] ->
  timers p = [{| handle := h; item := d; bytesPerFrame := b |}] ->
  writeInterval p = Some h ->
  currentItem p = Some d -> isProcessingQueue p = true ->
  Forall (fun r => r <= d) (started p) ->
  Phase (tick {| handle := h; item := d; bytesPerFrame := b |} p).
Proof.
  intros Hf Hd Htk Htm Hwi Hcur Hpq Hs.
  pose proof (Playing p d h b Hf Hd Htk Htm Hwi Hcur Hpq Hs) as Hsame.
  assert (Hlt : d < length (heap p))
    by (destruct Hd as [Hd'|Hd']; exact (stat_is_Some _ _ _ Hd')).
  assert (Hnc : has_status p Status.cancelled d = false).
  { destruct Hd as [Hd'|Hd'];
      apply (has_status_stat_false p _ _ d Hd'); discriminate. }
  unfold tick. cbn [item handle bytesPerFrame].
  rewrite Hcur, bool_decide_eq_true_2 by reflexivity. cbn [negb].
  rewrite Hnc, orb_false_r.
  destruct (State.eqb (state p) State.stopped) eqn:Hstopped.
  { destruct (state p) eqn:E; try discriminate Hstopped.
    destruct (fr_state _ _ Hf E). }
  destruct (State.eqb (state p) State.paused); [exact Hsame|].
  destruct (pcm_length p d <=? pcmOffset p).
  - (* the item is over *)
    unfold resolve, clear_writeInterval, clearInterval. rewrite Hwi.
    cbn [tasks emit set_log set_currentItem set_item_status set_heap
         set_writeInterval set_timers].
    rewrite Htk. cbn [existsb awaits_play orb]. rewrite Nat.eqb_refl.
    cbn [orb remove_task awaits_play]. rewrite Nat.eqb_refl.
    rewrite Htm, filter_own_timer.
    apply (after_try_Phase (S d)).
    pose proof (Settled_next d
                  (set_log (log p ++ [RtStop])
                     (set_tasks []
                        (set_currentItem None
                           (set_writeInterval None (set_timers [] p)))))
                  (alter (with_status Status.completed) d (heap p))) as Hn.
    destruct Hf as [Hq Hdone Hwait Hst Hsort].
    fields p. apply Hn; try reflexivity; try assumption.
    + constructor; cbn; try assumption; try reflexivity.
      same_started. exact Hsort.
    + intros i. rewrite stat_alter_status.
      destruct (decide _); [|reflexivity].
      destruct (lookup_lt_is_Some_2 hp d Hlt) as [it ->]. reflexivity.
    + apply length_alter.
    + same_started. exact Hs.
  - (* a frame is written *)
    destruct Hf as [Hq Hdone Hwait Hst Hsort].
    destruct (b <=? pcm_length p d - pcmOffset p);
      [|destruct (0 <? pcm_length p d - pcmOffset p); [|exact Hsame]];
      fields p; apply (Playing _ d h b); cbn; try reflexivity;
      try assumption;
      try (constructor; cbn; try assumption; try reflexivity);
      same_started; assumption.
Qed.

(** The decoder of the item at [d] comes back. *)
Lemma decoded_Phase (d : nat) (dk : Decode) (deviceOk : bool)
    (p : AudioPlayer) :
  Frame d p ->
  stat (heap p) d = Some Status.decoding ->
  tasks p = [] -> timers p = [] -> writeInterval p = None ->
  currentItem p = None -> isProcessingQueue p = true ->
  Forall (fun r => r < d) (started p) ->
  Phase (decoded d dk deviceOk p).
Proof.
  intros Hf Hd Htk Htm Hwi Hcur Hpq Hs.
  pose proof (stat_is_Some _ _ _ Hd) as Hlt.
  assert (Hs' : Forall (fun r => r <= d) (started p))
    by (eapply Forall_impl; [exact Hs|]; cbn; intros; lia).
  destruct (lookup_lt_is_Some_2 (heap p) d Hlt) as [it Hit].
  (* every way of giving the item up *)
  assert (Hgive : forall p1 : AudioPlayer,
            Frame d p1 -> length (heap p1) = length (heap p) ->
            tasks p1 = [] -> timers p1 = [] -> writeInterval p1 = None ->
            currentItem p1 = None ->
            Forall (fun r => r <= d) (started p1) ->
            Phase (after_try (set_item_status d Status.completed p1))).
  { intros p1 Hf1 Hlen1 Htk1 Htm1 Hwi1 Hcur1 Hs1.
    apply (after_try_Phase (S d)).
    apply (Settled_next d p1); try assumption.
    - lia.
    - intros i. rewrite stat_alter_status.
      destruct (decide _); [|reflexivity].
      destruct (lookup_lt_is_Some_2 (heap p1) d) as [it1 ->]; [lia|].
      reflexivity.
    - apply length_alter. }
  destruct dk as [pcm rate ch|]; cbn [decoded].
  2:{ apply Hgive; try assumption. reflexivity. }
  destruct Hf as [Hq Hdone Hwait Hst Hsort].
  set (hp1 := alter (with_status Status.ready) d
                (alter (with_pcm pcm rate ch) d (heap p))).
  assert (Hstat1 : forall i, i <> d -> stat hp1 i = stat (heap p) i).
  { intros i Hi. unfold hp1.
    rewrite stat_alter_status, stat_alter_pcm.
    destruct (decide _); [contradiction|reflexivity]. }
  assert (Hlen1 : length hp1 = length (heap p))
    by (unfold hp1; rewrite !length_alter; reflexivity).
  assert (Hit1 : hp1 !! d
                 = Some (with_status Status.ready (with_pcm pcm rate ch it))).
  { unfold hp1. rewrite !list_lookup_alter_eq, Hit. reflexivity. }
  assert (Hf1 : forall lg' : list Effect,
            omap play_start lg' = started p ->
            forall rt' so',
            Frame d (set_streamOpen so' (set_rtAudio rt'
                       (set_log lg' (set_heap hp1 p))))).
  { intros lg' Hlg rt' so'. fields p. constructor; cbn.
    - rewrite Hlen1. reflexivity.
    - intros i Hi. rewrite Hstat1 by lia. apply Hdone. exact Hi.
    - intros i Hi Hi'. rewrite Hstat1 by lia. apply Hwait; lia.
    - exact Hst.
    - unfold started. cbn. rewrite Hlg. exact Hsort. }
  unfold initStream, set_item_status.
  change (heap (set_heap (alter (with_pcm pcm rate ch) d (heap p)) p))
    with (alter (with_pcm pcm rate ch) d (heap p)).
  fold hp1.
  destruct p as [av hp rt q ci st vol mu pq so cur off fs wi tm nh tk lg].
  cbn in Hq, Hdone, Hwait, Hst, Hsort, Hd, Htk, Htm, Hwi, Hcur, Hs, Hs',
         Hlt, Hit, Hlen1, Hstat1, Hf1, Hpq.
  cbn [heap] in Hgive.
  subst q tk tm wi cur pq.
  cbn [streamOpen set_heap emit set_log set_streamOpen isAudifyAvailable
       heap rtAudio queue currentIndex state volume isMuted
       isProcessingQueue currentItem pcmOffset frameSize writeInterval
       timers nextHandle tasks log set_rtAudio negb].
  (* the stream cannot be opened *)
  assert (Hclosed : forall (lg' : list Effect) (rt' so' : bool),
            omap play_start lg' = omap play_start lg ->
            Phase (after_try
                     (set_heap (alter (with_status Status.completed) d hp1)
                        {| isAudifyAvailable := av; heap := hp1;
                           rtAudio := rt'; queue := seq 0 (length hp);
                           currentIndex := ci; state := st; volume := vol;
                           isMuted := mu; isProcessingQueue := true;
                           streamOpen := so'; currentItem := None;
                           pcmOffset := off; frameSize := fs;
                           writeInterval := None; timers := [];
                           nextHandle := nh; tasks := []; log := lg' |}))).
  { intros lg' rt' so' Hlg.
    apply (Hgive {| isAudifyAvailable := av; heap := hp1;
                    rtAudio := rt'; queue := seq 0 (length hp);
                    currentIndex := ci; state := st; volume := vol;
                    isMuted := mu; isProcessingQueue := true;
                    streamOpen := so'; currentItem := None;
                    pcmOffset := off; frameSize := fs;
                    writeInterval := None; timers := [];
                    nextHandle := nh; tasks := []; log := lg' |});
      try reflexivity.
    - exact (Hf1 lg' Hlg rt' so').
    - exact Hlen1.
    - unfold started. cbn. rewrite Hlg. exact Hs'. }
  (* the stream is open: the item starts playing *)
  assert (Hopen : forall (lg' : list Effect),
            omap play_start lg' = omap play_start lg ->
            Phase (let '(p0, r) :=
                     playItem d
                       {| isAudifyAvailable := true; heap := hp1;
                          rtAudio := true; queue := seq 0 (length hp);
                          currentIndex := ci; state := st; volume := vol;
                          isMuted := mu; isProcessingQueue := true;
                          streamOpen := true; currentItem := None;
                          pcmOffset := off; frameSize := fs;
                          writeInterval := None; timers := [];
                          nextHandle := nh; tasks := []; log := lg' |} in
                   match r with
                   | Some h => set_tasks (tasks p0 ++ [AwaitPlay h d]) p0
                   | None => after_try p0
                   end)).
  { intros lg' Hlg. cbn in Hlg. unfold playItem. cbn [heap]. rewrite Hit1.
    cbn [pcmData with_status with_pcm rtAudio streamOpen andb].
    cbn.
    eapply (Playing _ d nh _); cbn; try reflexivity.
    - constructor; cbn.
      + rewrite length_alter, Hlen1. reflexivity.
      + intros i Hi. rewrite stat_alter_status.
        destruct (decide _); [lia|]. rewrite Hstat1 by lia.
        apply Hdone. exact Hi.
      + intros i Hi Hi'. rewrite length_alter, Hlen1 in Hi'.
        rewrite stat_alter_status.
        destruct (decide _); [lia|]. rewrite Hstat1 by lia.
        apply Hwait; lia.
      + discriminate.
      + same_started. rewrite Hlg.
        apply StronglySorted_snoc; assumption.
    - left. rewrite stat_alter_status. destruct (decide _); [|lia].
      rewrite Hit1. reflexivity.
    - same_started. rewrite Hlg. apply Forall_app. split; [exact Hs'|].
      constructor; [lia|constructor]. }
  fold hp1 in Hclosed, Hopen |- *.
  destruct so, av, deviceOk; cbn;
    first [ apply Hopen | apply Hclosed ];
    cbn [log emit set_log set_rtAudio set_streamOpen set_heap];
    rewrite ?started_snoc; cbn; rewrite ?app_nil_r; reflexivity.
Qed.

Lemma Frame_set_tasks (d : nat) (ts : list Task) (p : AudioPlayer) :
  Frame d p -> Frame d (set_tasks ts p).
Proof. intros [Hq Hdone Hwait Hst Hsort]. constructor; assumption. Qed.

Lemma create_Phase (audify : bool) : Phase (create audify).
Proof.
  apply Idle; try reflexivity; [|constructor].
  constructor; cbn; try reflexivity.
  - intros i Hi. lia.
  - intros i _ Hi. lia.
  - discriminate.
  - constructor.
Qed.

Lemma step_Phase (p p' : AudioPlayer) (e : Event) :
  Phase p -> calm e -> step p e = Some p' -> Phase p'.
Proof.
  intros H [HnoStop HnoSkip] Hstep.
  destruct e as [mp3 txt|r dk deviceOk|h'| | | |]; cbn [step] in Hstep;
    try contradiction.
  - injection Hstep as <-. apply addToQueue_Phase. exact H.
  - destruct H as [Hf Htk Htm Hwi Hcur Hpq Hst Hs
                  |d Hf Hd Htk Htm Hwi Hcur Hpq Hs
                  |d h b Hf Hd Htk Htm Hwi Hcur Hpq Hs];
      rewrite Htk in Hstep; cbn [existsb awaits_decode orb] in Hstep;
      try discriminate Hstep.
    destruct (d =? r) eqn:E; cbn [orb] in Hstep; [|discriminate Hstep].
    apply Nat.eqb_eq in E. subst r.
    cbn [remove_task awaits_decode] in Hstep.
    rewrite Nat.eqb_refl in Hstep. injection Hstep as <-.
    apply decoded_Phase; try assumption; try reflexivity.
    apply Frame_set_tasks. exact Hf.
  - unfold find_timer in Hstep.
    destruct H as [Hf Htk Htm Hwi Hcur Hpq Hst Hs
                  |d Hf Hd Htk Htm Hwi Hcur Hpq Hs
                  |d h b Hf Hd Htk Htm Hwi Hcur Hpq Hs];
      rewrite Htm in Hstep; cbn [find handle] in Hstep;
      try discriminate Hstep.
    destruct (h =? h'); [|discriminate Hstep].
    injection Hstep as <-. apply tick_Phase; assumption.
  - injection Hstep as <-. apply pause_Phase. exact H.
  - injection Hstep as <-. apply resume_Phase. exact H.
Qed.

Lemma run_Phase (es : list Event) (p p' : AudioPlayer) :
  Phase p -> Forall calm es -> run p es = Some p' -> Phase p'.
Proof.
  revert p. induction es as [|e es IH]; intros p H Hcalm Hrun.
  - injection Hrun as <-. exact H.
  - cbn [run] in Hrun. destruct (step p e) as [p1|] eqn:Hstep;
      [|discriminate Hrun].
    apply Forall_cons in Hcalm. destruct Hcalm as [He Hes].
    apply (IH p1); [|exact Hes|exact Hrun].
    apply (step_Phase p p1 e); assumption.
Qed.

(** X25.  As long as neither [stop()] nor [skip()] is called, the player
    works through its queue one item at a time and in the order the items
    were added: playback is started for items in increasing order, for none
    twice; at most one [processQueue] call is suspended and at most one
    frame timer is live; all items before some item are completed and all
    items after it are still pending; and when no [processQueue] call is
    suspended the player is idle and every item is completed. *)
Theorem items_are_played_one_by_one_in_order (audify : bool)
    (es : list Event) (p : AudioPlayer) :
  Forall calm es ->
  run (create audify) es = Some p ->
  StronglySorted lt (started p) /\
  queue p = seq 0 (length (heap p)) /\
  length (tasks p) <= 1 /\ length (timers p) <= 1 /\
  (exists d,
     (forall i, i < d -> has_status p Status.completed i = true) /\
     (forall i, d < i -> i < length (heap p) ->
                has_status p Status.pending i = true) /\
     Forall (fun r => r <= d) (started p)) /\
  (tasks p = [] ->
   state p = State.idle /\
   forall i, i < length (heap p) ->
             has_status p Status.completed i = true).
Proof.
  intros Hcalm Hrun.
  pose proof (run_Phase es _ p (create_Phase audify) Hcalm Hrun) as H.
  assert (Hframe : forall d, Frame d p ->
            (forall i, i < d -> has_status p Status.completed i = true) /\
            (forall i, d < i -> i < length (heap p) ->
                       has_status p Status.pending i = true)).
  { intros d Hf. split.
    - intros i Hi. apply has_status_stat, (fr_done _ _ Hf). exact Hi.
    - intros i Hi Hi'. apply has_status_stat, (fr_wait _ _ Hf); assumption. }
  destruct H as [Hf Htk Htm Hwi Hcur Hpq Hst Hs
                |d Hf Hd Htk Htm Hwi Hcur Hpq Hs
                |d h b Hf Hd Htk Htm Hwi Hcur Hpq Hs];
    (split; [exact (fr_sorted _ _ Hf)|]);
    (split; [exact (fr_queue _ _ Hf)|]);
    rewrite Htk, Htm; (split; [cbn; lia|]); (split; [cbn; lia|]).
  - destruct (Hframe _ Hf) as [Hdone Hwait]. split.
    + exists (length (heap p)). split; [exact Hdone|].
      split; [exact Hwait|].
      eapply Forall_impl; [exact Hs|]. cbn. intros; lia.
    + intros _. split; [exact Hst|exact Hdone].
  - destruct (Hframe _ Hf) as [Hdone Hwait]. split; [|discriminate].
    exists d. split; [exact Hdone|]. split; [exact Hwait|].
    eapply Forall_impl; [exact Hs|]. cbn. intros; lia.
  - destruct (Hframe _ Hf) as [Hdone Hwait]. split; [|discriminate].
    exists d. split; [exact Hdone|]. split; [exact Hwait|exact Hs].
Qed.

Lemma items_are_played_one_by_one_in_order_witness :
  let p := player_playing in
  StronglySorted lt (started p) /\
  queue p = seq 0 (length (heap p)) /\
  length (tasks p) <= 1 /\ length (timers p) <= 1 /\
  (exists d,
     (forall i, i < d -> has_status p Status.completed i = true) /\
     (forall i, d < i -> i < length (heap p) ->
                has_status p Status.pending i = true) /\
     Forall (fun r => r <= d) (started p)) /\
  (tasks p = [] ->
   state p = State.idle /\
   forall i, i < length (heap p) ->
             has_status p Status.completed i = true).
Proof.
  apply (items_are_played_one_by_one_in_order true playing_then_pending
           player_playing).
  - repeat constructor; discriminate.
  - vm_compute. reflexivity.
Defined.

End PlaybackOrder.

(** ** Streaming TTS: pausing while a synthesis is awaited *)

Section TTSPause.
Import Js TTS Examples.

Lemma play_current_state (m : Manager) (item : TTSQueueItem)
    (audio : Buffer) :
  queue m !! currentIndex m = Some item ->
  status item = Status.ready ->
  audioBuffer item = Some audio ->
  state (play_current m) = State.playing.
Proof.
  intros Hi Hready Haudio. unfold play_current.
  rewrite Hi, Haudio, Hready. cbn [Status.eqb].
  unfold setState, emit_if, set_item_status.
  destruct m as [[oBrowser oConn oWeb oState oStart oDone] q st ci ip isS g l tr].
  cbn.
  destruct oState, oStart, oBrowser, oWeb, oConn as [f|];
    cbn; try destruct (f ci); reflexivity.
Qed.

(** The pass of the loop over a ready item does not look at [isPaused]. *)
Lemma after_ready_paused chunks es (m : Manager) (item : TTSQueueItem) :
  LInv chunks es m ->
  queue m !! currentIndex m = Some item ->
  status item = Status.ready ->
  exists m',
    after_ready m = Next m' /\ LInv chunks es m' /\
    currentIndex m' = S (currentIndex m) /\
    length (queue m') = length (queue m) /\
    isPaused m' = isPaused m /\ state m' = State.playing.
Proof.
  intros HI Hi Hready.
  destruct (after_ready_next chunks es m item HI Hi Hready)
    as (m' & Hnext & HI' & Hc' & Hn' & _).
  exists m'. split; [exact Hnext|].
  split; [exact HI'|]. split; [exact Hc'|]. split; [exact Hn'|].
  unfold after_ready in Hnext. rewrite Hi, Hready in Hnext.
  rewrite (inv_running _ _ _ HI) in Hnext. cbn [orb Status.eqb] in Hnext.
  injection Hnext as <-. cbn [isPaused state set_currentIndex].
  set (m1 := pregenerate (currentIndex m + 1) m).
  assert (H1 : LInv chunks es m1) by (apply pregenerate_LInv; exact HI).
  destruct (pregenerate_frame (currentIndex m + 1) m)
    as (Hc1 & _ & Hp1 & _ & _ & Hn1).
  fold m1 in Hc1, Hp1, Hn1.
  assert (Hi1 : queue m1 !! currentIndex m = Some item).
  { apply pregenerate_lookup; [exact Hi|]. rewrite Hready. discriminate. }
  set (m2 := pregenerate (currentIndex m1 + 2) m1).
  assert (H2 : LInv chunks es m2) by (apply pregenerate_LInv; exact H1).
  destruct (pregenerate_frame (currentIndex m1 + 2) m1)
    as (Hc2 & _ & Hp2 & _ & _ & Hn2).
  fold m2 in Hc2, Hp2, Hn2. rewrite Hc1 in Hc2.
  assert (Hi2 : queue m2 !! currentIndex m2 = Some item).
  { rewrite Hc2. apply pregenerate_lookup; [exact Hi1|].
    rewrite Hready. discriminate. }
  destruct (inv_slots _ _ _ H2 _ _ Hi2) as [_ Hslot].
  rewrite Hready in Hslot. destruct Hslot as (_ & _ & b & Hb & _).
  destruct (play_current_spec m2 item b Hi2 Hready Hb)
    as (_ & _ & _ & Hp3 & _).
  split; [rewrite Hp3, Hp2, Hp1; reflexivity|].
  exact (play_current_state m2 item b Hi2 Hready Hb).
Qed.

Lemma handed_finish (m : Manager) : handed (finish m) = handed m.
Proof.
  unfold finish, setState, emit_if, handed.
  destruct m as [[oBrowser oConn oWeb oState oStart oDone] q st ci ip isS g l tr].
  cbn. destruct oState, isS, oDone; cbn;
    rewrite ?omap_app; cbn; rewrite ?app_nil_r; reflexivity.
Qed.

Lemma finish_fields (m : Manager) :
  isPaused (finish m) = isPaused m /\ state (finish m) = State.idle.
Proof.
  unfold finish, setState, emit_if.
  destruct m as [[oBrowser oConn oWeb oState oStart oDone] q st ci ip isS g l tr].
  cbn. destruct oState, isS, oDone; cbn; split; reflexivity.
Qed.

(** X26.  [pause()] does not hold back the chunk whose synthesis the loop
    is waiting for.  When that synthesis comes back with audio while the
    stream is paused, the chunk is handed to the playback target all the
    same, and the state goes back to [playing] with [isPaused] still set:
    [resume()] then does nothing, and as long as chunks are left the loop
    stays in its sleep, each wake-up putting it back to sleep. *)
Theorem pause_misses_the_awaited_chunk (o : Options) (text : str)
    (es : list Event) (m m' : Manager) (i : nat) (b : Buffer) :
  run (streamText text (fresh o)) es = Some m ->
  isPaused m = true ->
  loop m = AwaitGenerate i ->
  step m (SynthesisDone i (Audio b)) = Some m' ->
  handed m' = handed m ++ [i] /\
  isPaused m' = true /\
  resume m' = m' /\
  (S i < length (queue m) ->
   state m' = State.playing /\ loop m' = AwaitSleep /\
   step m' SleepDone = Some m').
Proof.
  intros Hrun Hpaused Hloop Hstep.
  pose proof (run_Inv _ es [] _ m (streamText_Inv o text) Hrun) as [HI Hl].
  cbn [app] in HI, Hl.
  unfold loop_ok in Hl. rewrite Hloop in Hl.
  destruct Hl as (Hci & it & Hit & Hgen).
  destruct (inv_slots _ _ _ HI _ _ Hit) as [Hid Hslot].
  rewrite Hgen in Hslot. destruct Hslot as [Hg _].
  cbn [step] in Hstep. rewrite Hit, Hid, Hg in Hstep.
  rewrite <- Hid in Hg.
  destruct (synthesis_done_LInv _ es i (Audio b) m it HI Hit Hg)
    as (HI1 & Hc1 & Hloop1 & Hn1 & _ & item' & Hi' & _).
  cbn zeta in HI1, Hc1, Hloop1, Hn1, Hi'. rewrite Hid in *.
  set (m1 := set_generatePromises _ _) in *.
  assert (Hm1 : queue m1 !! i
                = Some (with_status Status.ready (with_audio b it)) /\
                isPaused m1 = isPaused m /\ handed m1 = handed m).
  { unfold m1, synthesis_handlers. rewrite (inv_running _ _ _ HI).
    cbn. rewrite list_lookup_alter_eq, Hit. repeat split. }
  destruct Hm1 as (Hlook & Hp1 & Hh1).
  rewrite Hloop1, Hloop in Hstep. cbn [loop_awaits] in Hstep.
  rewrite Nat.eqb_refl in Hstep. injection Hstep as <-.
  destruct (after_ready_paused _ _ m1 _ HI1
              ltac:(rewrite Hc1, <- Hci; exact Hlook) eq_refl)
    as (m2 & Hnext & HI2 & Hc2 & Hn2 & Hp2 & Hst2).
  rewrite Hnext. cbn [continue_loop]. unfold loop_fuel.
  cbn [playbackLoop]. rewrite (inv_running _ _ _ HI2). cbn [negb].
  rewrite andb_true_r.
  assert (Hhanded : handed m2 = handed m ++ [i]).
  { rewrite (inv_handed _ _ _ HI2), (inv_handed _ _ _ HI), Hc2, Hc1, <- Hci.
    apply seq_S. }
  rewrite Hc2, Hn2, Hc1, Hn1, <- Hci.
  destruct (S i <? length (queue m)) eqn:Hmore.
  - unfold body. rewrite Hp2, Hp1, Hpaused, (inv_running _ _ _ HI2).
    cbn [andb negb].
    split; [exact Hhanded|].
    split; [cbn [isPaused set_loop]; rewrite Hp2, Hp1; exact Hpaused|].
    split.
    { unfold resume. cbn [state set_loop]. rewrite Hst2. reflexivity. }
    intros _. split; [exact Hst2|]. split; [reflexivity|].
    cbn [step loop set_loop]. unfold body.
    cbn [isPaused isStopped set_loop].
    rewrite Hp2, Hp1, Hpaused, (inv_running _ _ _ HI2). reflexivity.
  - apply Nat.ltb_ge in Hmore.
    destruct (finish_fields m2) as [Hpf Hsf].
    split; [rewrite handed_finish; exact Hhanded|].
    split; [rewrite Hpf, Hp2, Hp1; exact Hpaused|].
    split; [unfold resume; rewrite Hsf; reflexivity|]. lia.
Qed.

Lemma pause_misses_the_awaited_chunk_witness :
  let events := [SynthesisDone 0 (Audio [1%N]); Pause] in
  let m := default (fresh local_playback)
             (run (streamText three_sentences (fresh local_playback))
                  events) in
  let m' := default m (step m (SynthesisDone 1 (Audio [2%N]))) in
  handed m' = handed m ++ [1] /\
  isPaused m' = true /\
  resume m' = m' /\
  (2 < length (queue m) ->
   state m' = State.playing /\ loop m' = AwaitSleep /\
   step m' SleepDone = Some m').
Proof.
  intros events m m'.
  apply (pause_misses_the_awaited_chunk local_playback three_sentences
           events m m' 1 [2%N]); vm_compute; reflexivity.
Defined.

End TTSPause.

(** ** Streaming TTS: a stream started while another is running *)

Section StreamsFacts.
Import Js Streams Examples Scenarios.

(** The loops waiting for a synthesis in [m] are still waiting in [m'],
    as they were and before any other. *)
Definition still_waiting (m m' : Manager) : Prop :=
  exists later, awaiting m' = awaiting m ++ later.

Lemma still_waiting_same (m m' : Manager) :
  awaiting m' = awaiting m -> still_waiting m m'.
Proof. intros H. exists []. rewrite app_nil_r. exact H. Qed.

Lemma still_waiting_trans (m1 m2 m3 : Manager) :
  still_waiting m1 m2 -> still_waiting m2 m3 -> still_waiting m1 m3.
Proof.
  intros [l1 H1] [l2 H2]. exists (l1 ++ l2).
  rewrite H2, H1, app_assoc. reflexivity.
Qed.

Lemma awaiting_emit_if (b : bool) (e : Effect) (m : Manager) :
  awaiting (emit_if b e m) = awaiting m.
Proof. destruct b; reflexivity. Qed.

Lemma awaiting_setState (s : TTS.State.t) (m : Manager) :
  awaiting (setState s m) = awaiting m.
Proof. unfold setState. rewrite awaiting_emit_if. reflexivity. Qed.

Lemma awaiting_startGenerating (j : nat) (m : Manager) :
  awaiting (startGenerating j m) = awaiting m.
Proof.
  unfold startGenerating. destruct (queue m !! j); [|reflexivity].
  destruct (heap m !! _) as [item|]; [|reflexivity].
  destruct (TTS.Status.eqb _ _); reflexivity.
Qed.

Lemma awaiting_pregenerate (j : nat) (m : Manager) :
  awaiting (pregenerate j m) = awaiting m.
Proof.
  unfold pregenerate. destruct (j <? _); [|reflexivity].
  destruct (queue m !! j); [|reflexivity].
  destruct (has_status _ _ _); [apply awaiting_startGenerating|reflexivity].
Qed.

Lemma awaiting_finish (m : Manager) : awaiting (finish m) = awaiting m.
Proof.
  unfold finish. destruct (negb _);
    rewrite ?awaiting_emit_if, awaiting_setState; reflexivity.
Qed.

Lemma awaiting_cancel_all (q : list nat) (m : Manager) :
  awaiting (cancel_all q m) = awaiting m.
Proof.
  revert m. induction q as [|r q IH]; intros m; [reflexivity|].
  cbn. unfold cancel_all in IH. rewrite IH. reflexivity.
Qed.

Lemma awaiting_stop (m : Manager) : awaiting (stop m) = awaiting m.
Proof.
  unfold stop. rewrite awaiting_setState.
  cbn [awaiting set_generatePromises set_currentIndex set_queue emit].
  rewrite awaiting_cancel_all. reflexivity.
Qed.

Lemma still_waiting_await (promise : nat) (k : Point) (m : Manager) :
  still_waiting m (await promise k m).
Proof.
  unfold await. destruct (calls m !! promise) as [c|];
    [|apply still_waiting_same; reflexivity].
  destruct (settled c); [apply still_waiting_same; reflexivity|].
  exists [(promise, k)]. reflexivity.
Qed.

Ltac kept :=
  apply still_waiting_same;
  repeat (rewrite ?awaiting_emit_if, ?awaiting_setState,
            ?awaiting_startGenerating, ?awaiting_pregenerate,
            ?awaiting_finish, ?awaiting_stop;
          cbn [awaiting set_heap set_queue
    set_state set_currentIndex set_isPaused set_isStopped set_calls
    set_generatePromises set_sleepers set_ready emit set_item_status]);
  reflexivity.

Ltac split_go H :=
  repeat match type of H with
         | context [match ?x with _ => _ end] =>
             lazymatch x with
             | go _ _ _ => fail
             | _ => destruct x eqn:?
             end
         end.

(** A loop never takes another loop out of its wait. *)
Lemma go_still_waiting (fuel : nat) (pt : Point) (m m' : Manager) :
  go fuel pt m = Some m' -> still_waiting m m'.
Proof.
  revert pt m m'. induction fuel as [|fuel IH]; intros pt m m' H;
    [discriminate H|].
  cbn [go] in H. cbv zeta in H.
  split_go H;
    try discriminate H;
    try (injection H as <-);
    try (apply IH in H);
    first [ kept
          | apply still_waiting_await
          | (eapply still_waiting_trans; [|exact H]; kept)
          | (eapply still_waiting_trans; [|apply still_waiting_await]; kept) ].
Qed.

Lemma drain_still_waiting (fuel : nat) (m m' : Manager) :
  drain fuel m = Some m' -> still_waiting m m'.
Proof.
  revert m m'. induction fuel as [|fuel IH]; intros m m' H.
  - cbn in H. destruct (ready m); [|discriminate H].
    injection H as <-. kept.
  - cbn [drain] in H. destruct (ready m) as [|pt rest];
      [injection H as <-; kept|].
    destruct (go (S fuel) pt (set_ready rest m)) as [m1|] eqn:Hgo;
      [|discriminate H].
    apply go_still_waiting in Hgo. apply IH in H.
    eapply still_waiting_trans; [|exact H].
    eapply still_waiting_trans; [|exact Hgo]. kept.
Qed.

Lemma streamText_still_waiting (fuel : nat) (text : str) (now : nat -> Z)
    (m m' : Manager) :
  streamText fuel text now m = Some m' -> still_waiting m m'.
Proof.
  unfold streamText. intros H. cbv zeta in H.
  destruct (length (Chunker.splitIntoSentences text) =? 0).
  { injection H as <-. kept. }
  match type of H with
  | match go _ _ ?x with _ => _ end = _ =>
      destruct (go fuel Head x) as [m1|] eqn:Hgo; [|discriminate H];
      assert (Hx : still_waiting m x)
  end.
  { destruct (1 <? _); kept. }
  apply go_still_waiting in Hgo. apply drain_still_waiting in H.
  eapply still_waiting_trans; [exact Hx|].
  eapply still_waiting_trans; [exact Hgo|exact H].
Qed.

(** C1.  A second [streamText] call does not end the [playbackLoop] of the
    first one: every loop that waits for a synthesis goes on waiting, and
    when its synthesis comes back it goes on with the cursor and the queue
    of the new stream.  So chunks are handed over out of order: with two
    texts of three chunks, the second text sent while the first chunk of
    the first is being synthesised, and the syntheses coming back in the
    order X, A, Z, Y, the chunks X, Y, Z of the second text are handed to
    the player in the order X, Z, Y, with chunk A of the text that was
    stopped in between. *)
Theorem restart_breaks_playback_order :
  (forall fuel text now (m m' : Manager),
     streamText fuel text now m = Some m' ->
     exists later, awaiting m' = awaiting m ++ later) /\
  (forall bA bX bY bZ : Buffer,
     exists m,
       run 50 (create local_playback) (restart bA bX bY bZ) = Some m /\
       map (text_of m) (queue m)
       = [sentence_of 88; sentence_of 89; sentence_of 90] /\
       map (text_of m) (handed m)
       = [sentence_of 88; sentence_of 65; sentence_of 90; sentence_of 89] /\
       handed m = [3; 0; 5; 4] /\ queue m = [3; 4; 5]).
Proof.
  split.
  - intros fuel text now m m' H.
    exact (streamText_still_waiting fuel text now m m' H).
  - intros bA bX bY bZ. eexists. split; [vm_compute; reflexivity|].
    vm_compute. repeat split.
Qed.

(** On one stream the hand-over is that of [TTS]: the chunks in the order
    of the queue, whatever the order of the syntheses. *)
Example one_stream_in_order :
  option_map handed
    (run 50 (create local_playback)
       [ StreamText three_sentences (fun _ => 1000%Z);
         SynthesisDone 1 (TTS.Audio [2%N]);
         SynthesisDone 0 (TTS.Audio [1%N]);
         SynthesisDone 2 (TTS.Audio [3%N]) ])
  = option_map TTS.handed
      (TTS.run (TTS.streamText three_sentences (TTS.fresh local_playback))
               second_first).
Proof. vm_compute. reflexivity. Qed.

(** The same with a failed synthesis, and with a pause and a resume: the
    loop ends at the failed chunk; a paused loop sleeps until it is
    resumed. *)
Example one_stream_failure :
  option_map handed
    (run 50 (create local_playback)
       [ StreamText three_sentences (fun _ => 1000%Z);
         SynthesisDone 0 (TTS.Audio [1%N]);
         SynthesisDone 2 (TTS.Audio [3%N]);
         SynthesisDone 1 TTS.Failed ])
  = option_map TTS.handed
      (TTS.run (TTS.streamText three_sentences (TTS.fresh local_playback))
               second_fails).
Proof. vm_compute. reflexivity. Qed.

Example one_stream_paused :
  option_map (fun m => (handed m, sleepers m, state m))
    (run 50 (create local_playback)
       [ StreamText three_sentences (fun _ => 1000%Z);
         SynthesisDone 0 (TTS.Audio [1%N]);
         Pause;
         SynthesisDone 1 (TTS.Audio [2%N]);
         SleepDone; Pause; Resume; SleepDone;
         SynthesisDone 2 (TTS.Audio [3%N]) ])
  = option_map (fun m => (TTS.handed m,
                          match TTS.loop m with
                          | TTS.AwaitSleep => 1
                          | _ => 0
                          end, TTS.state m))
      (TTS.run (TTS.streamText three_sentences (TTS.fresh local_playback))
         [ TTS.SynthesisDone 0 (TTS.Audio [1%N]);
           TTS.Pause;
           TTS.SynthesisDone 1 (TTS.Audio [2%N]);
           TTS.SleepDone; TTS.Pause; TTS.Resume; TTS.SleepDone;
           TTS.SynthesisDone 2 (TTS.Audio [3%N]) ])
  /\ option_map handed
       (run 50 (create local_playback)
          [ StreamText three_sentences (fun _ => 1000%Z);
            SynthesisDone 0 (TTS.Audio [1%N]);
            Pause;
            SynthesisDone 1 (TTS.Audio [2%N]);
            SleepDone; Pause; Resume; SleepDone;
            SynthesisDone 2 (TTS.Audio [3%N]) ])
     = Some [0; 1; 2].
Proof. vm_compute. split; reflexivity. Qed.

End StreamsFacts.
